(** * ms-skim: influence estimation and maximization under the IC model

    A shallow embedding of the core of the repository and the properties
    of its specification:

    - [FastArc]            the packed arc record and its comparison
                           (FastArc.h);
    - [FastCompatibleGraphStream]
                           the arcs of a binary graph file
                           (FastCompatibleGraphStream.h);
    - [FastStaticGraph]    the CSR graph and its builders
                           (FastStaticGraph.h);
    - [FastSet]            the BFS frontier / visited set (FastSet.h);
    - [Hashing]            the tailored MurmurHash3 and the edge-presence
                           predicates (SKIM.h, RSInfluenceOracle.h);
    - [Oracle]             the estimator, the seed sampler and the sketch
                           preprocessing (RSInfluenceOracle.h);
    - [Permutations]       the permutation generators (Permutations.h);
    - [Conversion], [StringSplit], [RangeExtraction], [MetisGraphBuilder]
                           the readers of numbers, tokens, index ranges
                           and Metis files (Conversion.h, Split.h,
                           RangeExtraction.h, MetisGraphBuilder.h).

    Unsigned machine integers are integers of [Z] with the wrap-around
    written out where the code can wrap (the arc word, the hash); sizes,
    indices, vertex ids and ranks that cannot leave their type are natural
    numbers. *)

From Stdlib Require Import ZArith List Bool Arith Lia Sorted Permutation.
From Stdlib Require QArith.
Import ListNotations.

Set Implicit Arguments.

(** ** Outcomes of fallible code

    The headers Assert.h and Macros.h are not part of the sources at hand.
    [Assert(e)] is modelled by [Assert checked e]: when [checked] holds the
    macro evaluates [e] and aborts on [false] (a debug build); otherwise it
    expands to nothing (a release build).  Reads and writes outside a
    buffer, and [pop_back] on an empty vector, are undefined behaviour. *)

Inductive result (A : Type) : Type :=
| Ok (a : A)
| AssertionFailure
| UndefinedBehaviour.

Arguments Ok {A} a.
Arguments AssertionFailure {A}.
Arguments UndefinedBehaviour {A}.

Definition bind {A B : Type} (r : result A) (f : A -> result B) : result B :=
  match r with
  | Ok a => f a
  | AssertionFailure => AssertionFailure
  | UndefinedBehaviour => UndefinedBehaviour
  end.

Notation "x <- c1 ;; c2" := (bind c1 (fun x => c2))
  (at level 61, c1 at next level, right associativity).
Notation "c1 ;;; c2" := (bind c1 (fun _ => c2))
  (at level 61, right associativity).

Definition Assert (checked : bool) (e : bool) : result unit :=
  if checked && negb e then AssertionFailure else Ok tt.

Definition succeeds {A : Type} (r : result A) : Prop := exists a, r = Ok a.

(** Monadic left fold: a [for] loop over a container whose body may fail. *)
Fixpoint foldM {A S : Type} (body : S -> A -> result S) (xs : list A) (s : S)
  : result S :=
  match xs with
  | [] => Ok s
  | x :: xs' => s' <- body s x ;; foldM body xs' s'
  end.

(** ** Vectors updated by index *)

Fixpoint upd {A : Type} (i : nat) (x : A) (l : list A) : list A :=
  match l, i with
  | [], _ => []
  | _ :: t, O => x :: t
  | h :: t, S j => h :: upd j x t
  end.

(** A loop over a range that leaves at the first element failing [p]
    ([if (!p(a)) break;]): the elements visited. *)
Fixpoint take_while {A : Type} (p : A -> bool) (l : list A) : list A :=
  match l with
  | [] => []
  | x :: l' => if p x then x :: take_while p l' else []
  end.

(** Reading [v[i]] and updating [v[i]] in place; outside the vector the
    behaviour is undefined. *)
Definition read {A : Type} (l : list A) (i : nat) : result A :=
  match nth_error l i with
  | Some x => Ok x
  | None => UndefinedBehaviour
  end.

Definition modify {A : Type} (l : list A) (i : nat) (f : A -> A) : result (list A) :=
  match nth_error l i with
  | Some x => Ok (upd i (f x) l)
  | None => UndefinedBehaviour
  end.

(** [vector::resize(n, value)]: the first [n] elements, filled up with
    [value]. *)
Definition resize {A : Type} (n : nat) (value : A) (v : list A) : list A :=
  firstn n v ++ repeat value (n - length v).

(** ** FastArc.h: the packed arc record *)

Module FastArc.

Local Open Scope Z_scope.

(** [data] is a [uint32_t]: the low 30 bits hold the other vertex id, bit 30
    the forward flag, bit 31 the backward flag. *)
Abbreviation t := Z.

Definition word (a : t) : Prop := 0 <= a < 2 ^ 32.

Definition OtherVertexId (a : t) : Z := Z.land a 0x3FFFFFFF.
Definition Forward (a : t) : bool := Z.land a 0x40000000 =? 0x40000000.
Definition Backward (a : t) : bool := Z.land a 0x80000000 =? 0x80000000.
Definition Valid (a : t) : bool := negb (Z.land a 0xC0000000 =? 0).

Definition SetOtherVertexId (v : Z) (a : t) : t :=
  Z.lor (Z.land a 0xC0000000) (Z.land v 0x3FFFFFFF).
Definition SetForwardFlag (a : t) : t := Z.lor a 0x40000000.
Definition SetBackwardFlag (a : t) : t := Z.lor a 0x80000000.
Definition Invalidate (a : t) : t := Z.land a 0x3FFFFFFF.

(** [operator<].  Its two [Assert]s state the precondition that both arcs
    are valid. *)
Definition operator_lt (x other : t) : bool :=
  let a := 0 in
  let b := 0 in
  let a := if Forward x && Backward x then 1 else a in
  let a := if negb (Forward x) && Backward x then 2 else a in
  let b := if Forward other && Backward other then 1 else b in
  let b := if negb (Forward other) && Backward other then 2 else b in
  if a =? b then OtherVertexId x <? OtherVertexId other else a <? b.

(** [std::sort] on a range of arcs, as an insertion sort driven by
    [operator<]. *)
Fixpoint insert_arc (x : t) (l : list t) : list t :=
  match l with
  | [] => [x]
  | y :: l' => if operator_lt y x then y :: insert_arc x l' else x :: l
  end.

Definition std_sort (l : list t) : list t := fold_right insert_arc [] l.

(** A range is sorted when no element is less than an earlier one. *)
Definition ordered (x y : t) : Prop := operator_lt y x = false.
Definition sorted (l : list t) : Prop := StronglySorted ordered l.

(** The direction bucket of a pair of flags, in the order the comparison
    realises: forward only, then both directions, then backward only. *)
Definition bucket (fwd bwd : bool) : nat :=
  match fwd, bwd with
  | true, false => 0
  | true, true => 1
  | false, true => 2
  | false, false => 0
  end%nat.

Definition bucket_of (a : t) : nat := bucket (Forward a) (Backward a).

(** The bucket order of the specification's data model:
    (forward=1,backward=1) < (forward=1,backward=0) < (forward=0,backward=1). *)
Definition spec_bucket (fwd bwd : bool) : nat :=
  match fwd, bwd with
  | true, true => 0
  | true, false => 1
  | false, true => 2
  | false, false => 3
  end%nat.

Definition spec_bucket_of (a : t) : nat := spec_bucket (Forward a) (Backward a).

Definition mk (other : Z) (fwd bwd : bool) : t :=
  let a := SetOtherVertexId other 0 in
  let a := if fwd then SetForwardFlag a else a in
  if bwd then SetBackwardFlag a else a.

(** [GetErrors]: the consistency check, without its output. *)
Definition GetErrors (a : t) : nat :=
  let numErrors := 0%nat in
  if negb (Forward a) && negb (Backward a) then (numErrors + 1)%nat else numErrors.

End FastArc.

(** ** FastCompatibleGraphStream.h: the arcs of a .gr file *)

Module FastCompatibleGraphStream.

(** Modelled from the spec: behind its header a .gr file is a stream of
    tagged entities, the tag being 0 (VERTEX_META_DATA), 1 (ARC_META_DATA)
    or 2 (ARC), and an ARC record holds the two vertex ids.
    [IO::ReadEntity] of EntityIO.h, which is not part of the sources at
    hand, and the byte buffer of FileStream.h are not developed: the body
    of the file is the list of its entities.  [OTHER] is an entity whose
    tag [GetNextArc] does not handle. *)
Inductive Entity : Type :=
| VERTEX_META_DATA : Entity
| ARC : nat -> nat -> Entity
| OTHER : Entity.

(** The fields of the file header that the graph reads, and the body of
    the file. *)
Record t : Type := {
  NumVertices : nat;
  NumArcs : nat;
  IsDirected : bool;
  body : list Entity
}.

(** The file stream: the entities not yet read, and [readToEnd], which a
    read sets when it leaves nothing behind. *)
Record FileStream : Type := {
  rest : list Entity;
  readToEnd : bool
}.

Definition nothing_left (entities : list Entity) : bool :=
  match entities with [] => true | _ :: _ => false end.

(** The constructor opens the file and reads the header. *)
Definition Open (stream : t) : FileStream :=
  {| rest := body stream; readToEnd := nothing_left (body stream) |}.

(** [Reset()]: back to the first entity; [readToEnd] is cleared. *)
Definition Reset (stream : t) : FileStream :=
  {| rest := body stream; readToEnd := false |}.

(** [Finished()]. *)
Definition Finished (file : FileStream) : bool := readToEnd file.

(** [GetNextArc()]: [while (!file.Finished())] over the entities, up to
    the first arc.  What a read delivers where nothing is left is not
    defined by the sources at hand. *)
Fixpoint GetNextArc_loop (checked : bool) (entities : list Entity)
  (finished : bool) {struct entities} : result ((nat * nat) * FileStream) :=
  if finished then
    Assert checked false ;;;
    Ok ((0, 0), {| rest := entities; readToEnd := finished |})
  else
    match entities with
    | [] => UndefinedBehaviour
    | currentEntity :: entities =>
        let finished := nothing_left entities in
        match currentEntity with
        | ARC fromVertexId toVertexId =>
            Ok ((fromVertexId, toVertexId),
                {| rest := entities; readToEnd := finished |})
        | VERTEX_META_DATA => GetNextArc_loop checked entities finished
        | OTHER => Assert checked false ;;; GetNextArc_loop checked entities finished
        end
    end.

Definition GetNextArc (checked : bool) (file : FileStream)
  : result ((nat * nat) * FileStream) :=
  GetNextArc_loop checked (rest file) (readToEnd file).

End FastCompatibleGraphStream.

(** ** FastStaticGraph.h: the CSR graph *)

Module FastStaticGraph.

Record HeaderType : Type := {
  NumVertices : nat;
  NumArcs : nat;
  IsDirected : bool
}.

(** [vertices] holds the [FirstArcId] of the [NumVertices + 1] vertex
    records, [arcs] the [NumArcs + 1] arc records. *)
Record t : Type := {
  header : HeaderType;
  vertices : list nat;
  arcs : list FastArc.t
}.

Definition FirstArcId (g : t) (v : nat) : nat := nth v (vertices g) 0.

(** Modelled from the spec: [ArcIdType], the template parameter
    [arcIdType], is fixed by FastStaticGraphs.h, which is not part of the
    sources at hand; the specification stores arc ids as 32-bit unsigned.
    [ArcId x] is the number [x] as an [ArcIdType]: what [++], [+=] and
    [static_cast<ArcIdType>] leave of it. *)
Definition ArcId (x : nat) : nat := Z.to_nat (Z.of_nat x mod 2 ^ 32).

(** The arcs from [GetFirstArc(v)] to [GetLastArc(v)], both included:
    [arcs[vertices[v] .. vertices[v+1])]. *)
Definition incident (g : t) (v : nat) : list FastArc.t :=
  firstn (FirstArcId g (v + 1) - FirstArcId g v) (skipn (FirstArcId g v) (arcs g)).

(** Modelled from the spec: the macros of Macros.h, which is not part of
    the sources at hand.  [FORALL_INCIDENT_ARCS(graph, v, a)] runs [a]
    from the first to the last incident arc of [v];
    [FORALL_INCIDENT_ARCS_BACKWARD(graph, v, a)] runs it from the last
    incident arc down to the first; [FORALL_ARCS(graph, v, a)] runs over
    the incident arcs of every vertex. *)
Definition FORALL_INCIDENT_ARCS (g : t) (v : nat) : list FastArc.t :=
  incident g v.
Definition FORALL_INCIDENT_ARCS_BACKWARD (g : t) (v : nat) : list FastArc.t :=
  rev (incident g v).
Definition FORALL_ARCS (g : t) : list (nat * FastArc.t) :=
  flat_map (fun v => map (fun a => (v, a)) (FORALL_INCIDENT_ARCS g v))
           (seq 0 (NumVertices (header g))).

(** The arc expansion of the forward searches:
    [FORALL_INCIDENT_ARCS(graph, u, a) { if (!a->Forward()) break; ... }]
    and of the reverse searches:
    [FORALL_INCIDENT_ARCS_BACKWARD(graph, u, a) { if (!a->Backward()) break; ... }]:
    the arcs for which the loop body runs, in the order it runs. *)
Definition forward_scan (g : t) (v : nat) : list FastArc.t :=
  take_while FastArc.Forward (FORALL_INCIDENT_ARCS g v).
Definition backward_scan (g : t) (v : nat) : list FastArc.t :=
  take_while FastArc.Backward (FORALL_INCIDENT_ARCS_BACKWARD g v).


(** The arc records that the scatter pass of [ReadFromArcList] writes for
    an input arc: the outgoing record at the tail, the incoming record at
    the head.  Each is written into a zero-initialised cell by
    [SetOtherVertexId], then [SetForwardFlag] and [SetBackwardFlag] under
    their conditions. *)
Definition write_outgoing (isDirected buildIncomingArcs : bool) (toVertexId : nat)
  (a : FastArc.t) : FastArc.t :=
  let a := FastArc.SetOtherVertexId (Z.of_nat toVertexId) a in
  let a := FastArc.SetForwardFlag a in
  if negb isDirected && buildIncomingArcs then FastArc.SetBackwardFlag a else a.

Definition write_incoming (isDirected buildIncomingArcs : bool) (fromVertexId : nat)
  (a : FastArc.t) : FastArc.t :=
  let a := FastArc.SetOtherVertexId (Z.of_nat fromVertexId) a in
  let a := if negb isDirected then FastArc.SetForwardFlag a else a in
  if buildIncomingArcs then FastArc.SetBackwardFlag a else a.

(** [sort(arcs + lo, arcs + hi)]. *)
Definition sort_range (lo hi : nat) (arcs : list FastArc.t) : result (list FastArc.t) :=
  if (lo <=? hi) && (hi <=? length arcs) then
    Ok (firstn lo arcs ++ FastArc.std_sort (firstn (hi - lo) (skipn lo arcs))
          ++ skipn hi arcs)
  else UndefinedBehaviour.

Section ReadFromArcList.

Variable checked : bool.
Variable numVertices : nat.
Variable inArcs : list (nat * nat).
Variable isDirected buildIncomingArcs : bool.

(** Compute vertex degrees. *)
Definition degree_step (vertices : list nat) (inArc : nat * nat) : result (list nat) :=
  let '(fromVertexId, toVertexId) := inArc in
  Assert checked (fromVertexId <? numVertices) ;;;
  Assert checked (toVertexId <? numVertices) ;;;
  Assert checked (isDirected || (fromVertexId <? toVertexId)) ;;;
  vertices <- modify vertices fromVertexId (fun d => ArcId (d + 1)) ;;
  if buildIncomingArcs || negb isDirected
  then modify vertices toVertexId (fun d => ArcId (d + 1))
  else Ok vertices.

(** Rewire pointers: the state is [(vertices, firstFreeArcId,
    currentFirstArc)]; [currentFirstArc] is an [arcIdType]. *)
Definition rewire_step (st : list nat * list nat * nat) (u : nat)
  : list nat * list nat * nat :=
  let '(vertices, firstFreeArcId, currentFirstArc) := st in
  let previousFirstArc := currentFirstArc in
  let currentFirstArc := ArcId (currentFirstArc + nth u vertices 0) in
  (upd u previousFirstArc vertices, upd u previousFirstArc firstFreeArcId,
   currentFirstArc).

(** Add arcs: the state is [(arcs, firstFreeArcId)]. *)
Definition add_arc_step (st : list FastArc.t * list nat) (inArc : nat * nat)
  : result (list FastArc.t * list nat) :=
  let '(arcs, firstFreeArcId) := st in
  let '(fromVertexId, toVertexId) := inArc in
  (* Add outgoing arc. *)
  free <- read firstFreeArcId fromVertexId ;;
  (if checked then
     next <- read firstFreeArcId (fromVertexId + 1) ;; Assert checked (free <? next)
   else Ok tt) ;;;
  arcs <- modify arcs free (write_outgoing isDirected buildIncomingArcs toVertexId) ;;
  firstFreeArcId <- modify firstFreeArcId fromVertexId (fun f => ArcId (f + 1)) ;;
  (* If we shall add incoming arcs, do that as well. *)
  if buildIncomingArcs || negb isDirected then
    free <- read firstFreeArcId toVertexId ;;
    (if checked then
       next <- read firstFreeArcId (toVertexId + 1) ;; Assert checked (free <? next)
     else Ok tt) ;;;
    arcs <- modify arcs free (write_incoming isDirected buildIncomingArcs fromVertexId) ;;
    firstFreeArcId <- modify firstFreeArcId toVertexId (fun f => ArcId (f + 1)) ;;
    Ok (arcs, firstFreeArcId)
  else Ok (arcs, firstFreeArcId).

(** Sort the arcs at each vertex. *)
Definition sort_step (vertices : list nat) (arcs : list FastArc.t) (u : nat)
  : result (list FastArc.t) :=
  lo <- read vertices u ;;
  hi <- read vertices (u + 1) ;;
  sort_range lo hi arcs.

(** [ReadFromArcList(numVertices, inArcs, isDirected, buildIncomingArcs, ...)].
    The memory that [CreateSharedMemoryFile] returns is zero-filled.
    [numArcs] is a [Types::SizeType] of 64 bits and does not wrap; the
    counters in the vertex records, [currentFirstArc] and
    [firstFreeArcId] are of [ArcIdType]. *)
Definition ReadFromArcList : result t :=
  (* Determine extents of the graph. *)
  let numArcs := length inArcs in
  (* Allocate storage for the vertices. *)
  let vertices := repeat 0 (numVertices + 1) in
  (* Allocate storage for the arcs. *)
  let numArcs := numArcs * (if buildIncomingArcs || isDirected then 2 else 1) in
  let arcs := repeat 0%Z (numArcs + 1) in
  (* Compute vertex degrees. *)
  vertices <- foldM degree_step inArcs vertices ;;
  (* Rewire pointers. *)
  let firstFreeArcId := repeat 0 (numVertices + 1) in
  let '(vertices, firstFreeArcId, currentFirstArc) :=
    fold_left rewire_step (seq 0 numVertices) (vertices, firstFreeArcId, 0) in
  firstFreeArcId <- modify firstFreeArcId numVertices (fun _ => currentFirstArc) ;;
  Assert checked (currentFirstArc =? numArcs) ;;;
  (* Add arcs. *)
  st <- foldM add_arc_step inArcs (arcs, firstFreeArcId) ;;
  let '(arcs, firstFreeArcId) := st in
  (* Finalize construction. *)
  arcs <- modify arcs numArcs (FastArc.SetOtherVertexId (Z.of_nat numVertices)) ;;
  vertices <- modify vertices numVertices (fun _ => ArcId numArcs) ;;
  (* Copy extents of the graph to the header. *)
  let header := {| NumVertices := numVertices; NumArcs := numArcs;
                   IsDirected := isDirected |} in
  (* Sort the arcs if the graph is directed and incoming arcs should have
     been build. *)
  arcs <- (if buildIncomingArcs && isDirected
           then foldM (sort_step vertices) (seq 0 numVertices) arcs
           else Ok arcs) ;;
  Ok {| header := header; vertices := vertices; arcs := arcs |}.

End ReadFromArcList.

(** [VertexIdType] is [uint32_t] and [Types::SizeType] has 64 bits: what
    an increment, a product or a cast leaves of a number. *)
Definition VertexId (x : nat) : nat := Z.to_nat (Z.of_nat x mod 2 ^ 32).
Definition SizeType (x : nat) : nat := Z.to_nat (Z.of_nat x mod 2 ^ 64).

(** A computation that may not end ([None]) and may fail. *)
Definition await {A B : Type} (c : option (result A))
  (k : A -> option (result B)) : option (result B) :=
  match c with
  | None => None
  | Some (Ok a) => k a
  | Some AssertionFailure => Some AssertionFailure
  | Some UndefinedBehaviour => Some UndefinedBehaviour
  end.

Section ReadFromDisk.

Variable checked : bool.
Variable stream : FastCompatibleGraphStream.t.
Variable buildIncomingArcs : bool.

(** Compute vertex degrees:
    [while (!stream.Finished() && numArcsRead < stream.NumArcs())];
    [remaining] is [stream.NumArcs() - numArcsRead].  The body is the
    body of the degree pass of [ReadFromArcList]. *)
Fixpoint degree_loop (numVertices : nat) (isDirected : bool) (remaining : nat)
  (file : FastCompatibleGraphStream.FileStream) (vertices : list nat) : result (list nat) :=
  match remaining with
  | O => Ok vertices
  | S remaining =>
      if FastCompatibleGraphStream.Finished file then Ok vertices
      else
        next <- FastCompatibleGraphStream.GetNextArc checked file ;;
        let '(inArc, file) := next in
        vertices <- degree_step checked numVertices isDirected buildIncomingArcs
                      vertices inArc ;;
        degree_loop numVertices isDirected remaining file vertices
  end.

(** Rewire pointers: [for (VertexIdType u = 0; u < numVertices; ++u)],
    where [numVertices] is a [Types::SizeType]: [u] wraps at 2^32.
    [None]: the loop is still running after [fuel] rounds. *)
Fixpoint rewire_loop (fuel : nat) (numVertices u : nat)
  (st : list nat * list nat * nat) : option (list nat * list nat * nat) :=
  match fuel with
  | O => None
  | S fuel =>
      if u <? numVertices
      then rewire_loop fuel numVertices (VertexId (u + 1)) (rewire_step st u)
      else Some st
  end.

(** Add arcs: the second pass over the stream, with the body of the
    scatter pass of [ReadFromArcList]. *)
Fixpoint add_arc_loop (isDirected : bool) (remaining : nat) (file : FastCompatibleGraphStream.FileStream)
  (st : list FastArc.t * list nat) : result (list FastArc.t * list nat) :=
  match remaining with
  | O => Ok st
  | S remaining =>
      if FastCompatibleGraphStream.Finished file then Ok st
      else
        next <- FastCompatibleGraphStream.GetNextArc checked file ;;
        let '(inArc, file) := next in
        st <- add_arc_step checked isDirected buildIncomingArcs st inArc ;;
        add_arc_loop isDirected remaining file st
  end.

(** Sort the arcs at each vertex:
    [for (VertexIdType u = 0; u < NumVertices(); ++u)]. *)
Fixpoint sort_loop (fuel : nat) (numVertices u : nat) (vertices : list nat)
  (arcs : list FastArc.t) : option (result (list FastArc.t)) :=
  match fuel with
  | O => None
  | S fuel =>
      if u <? numVertices then
        await (Some (sort_step vertices arcs u))
          (sort_loop fuel numVertices (VertexId (u + 1)) vertices)
      else Some (Ok arcs)
  end.

(** [ReadFromDisk(filename, buildIncomingArcs, ...)] on the stream of the
    file.  [numVertices] and [numArcs] are of [Types::SizeType]. *)
Definition ReadFromDisk (fuel : nat) : option (result t) :=
  (* Determine extents of the graph. *)
  let file := FastCompatibleGraphStream.Open stream in
  let numVertices := FastCompatibleGraphStream.NumVertices stream in
  let numArcs := FastCompatibleGraphStream.NumArcs stream in
  let isDirected := FastCompatibleGraphStream.IsDirected stream in
  (* Allocate storage for the vertices. *)
  let vertices := repeat 0 (SizeType (numVertices + 1)) in
  (* Allocate storage for the arcs. *)
  let numArcs :=
    SizeType (numArcs * (if buildIncomingArcs
                            || negb (FastCompatibleGraphStream.IsDirected stream)
                         then 2 else 1)) in
  let arcs := repeat 0%Z (SizeType (numArcs + 1)) in
  (* Compute vertex degrees. *)
  await (Some (degree_loop numVertices isDirected
                 (FastCompatibleGraphStream.NumArcs stream) file vertices))
    (fun vertices =>
  (* Rewire pointers. *)
  let firstFreeArcId := repeat 0 (SizeType (numVertices + 1)) in
  await (option_map Ok
           (rewire_loop fuel numVertices 0 (vertices, firstFreeArcId, 0)))
    (fun st =>
  let '(vertices, firstFreeArcId, currentFirstArc) := st in
  await (Some (modify firstFreeArcId numVertices (fun _ => currentFirstArc)))
    (fun firstFreeArcId =>
  await (Some (Assert checked (currentFirstArc =? numArcs)))
    (fun _ =>
  (* Add arcs. *)
  let file := FastCompatibleGraphStream.Reset stream in
  await (Some (add_arc_loop isDirected
                 (FastCompatibleGraphStream.NumArcs stream) file
                 (arcs, firstFreeArcId)))
    (fun st =>
  let '(arcs, firstFreeArcId) := st in
  (* Finalize construction. *)
  await (Some (modify arcs numArcs
                 (FastArc.SetOtherVertexId (Z.of_nat (VertexId numVertices)))))
    (fun arcs =>
  await (Some (modify vertices numVertices (fun _ => ArcId numArcs)))
    (fun vertices =>
  (* Copy extents of the graph to the header. *)
  let header := {| NumVertices := numVertices; NumArcs := numArcs;
                   IsDirected := isDirected |} in
  (* Sort the arcs if the graph is directed and incoming arcs should have
     been build. *)
  await (if buildIncomingArcs && isDirected
         then sort_loop fuel numVertices 0 vertices arcs
         else Some (Ok arcs))
    (fun arcs =>
  Some (Ok {| header := header; vertices := vertices; arcs := arcs |}))))))))).

End ReadFromDisk.

(** The constructors of [SKIM] and [FastRSInfluenceOracle] compute the
    in-degrees: [FORALL_ARCS(graph, vertexId, arc) { if (!arc->Forward())
    continue; ++indeg[arc->OtherVertexId()]; }]; [indeg] is a
    [vector<ArcIdType>]. *)
Definition indeg_step (indeg : list nat) (va : nat * FastArc.t) : result (list nat) :=
  if negb (FastArc.Forward (snd va)) then Ok indeg
  else modify indeg (Z.to_nat (FastArc.OtherVertexId (snd va)))
         (fun d => ArcId (d + 1)).

Definition compute_indeg (g : t) : result (list nat) :=
  foldM indeg_step (FORALL_ARCS g) (repeat 0 (NumVertices (header g))).

(** [NumArcs(vertexId)]: the number of arc records of a vertex, a
    difference of two [ArcIdType]s. *)
Definition NumArcs_at (g : t) (vertexId : nat) : nat :=
  Z.to_nat ((Z.of_nat (FirstArcId g (vertexId + 1))
             - Z.of_nat (FirstArcId g vertexId)) mod 2 ^ 32).

Definition Empty (g : t) : bool := NumVertices (header g) =? 0.

Section GetErrors.

(** [FastVertex::GetErrors], on the first arc id that the vertex record
    holds; FastVertex.h is not part of the sources at hand. *)
Variable VertexGetErrors : nat -> nat.

(** Check vertices. *)
Definition check_vertex (g : t) (numErrors : nat) (vertexId : nat) : result nat :=
  first <- read (vertices g) vertexId ;;
  (* FirstArcId has to be in range. *)
  let numErrors :=
    if NumArcs (header g) + 1 <=? first then numErrors + 1 else numErrors in
  (* FirstArcIds have to be monotonically increasing. *)
  numErrors <-
    (if 0 <? vertexId then
       previous <- read (vertices g) (vertexId - 1) ;;
       Ok (if first <? previous then numErrors + 1 else numErrors)
     else Ok numErrors) ;;
  Ok (numErrors + VertexGetErrors first).

(** Check the arcs. *)
Definition check_arc (g : t) (numErrors : nat) (arcId : nat) : result nat :=
  a <- read (arcs g) arcId ;;
  (* Check whether other vertex id exists. *)
  let numErrors :=
    if (Z.of_nat (NumVertices (header g)) <=? FastArc.OtherVertexId a)%Z
    then numErrors + 1 else numErrors in
  Ok (numErrors + FastArc.GetErrors a).

(** Check for self-loops: they are counted and reported, not errors. *)
Definition numSelfLoops (g : t) : nat :=
  fold_left
    (fun count vertexId =>
       fold_left (fun count a =>
                    if (FastArc.OtherVertexId a =? Z.of_nat vertexId)%Z
                    then count + 1 else count)
         (incident g vertexId) count)
    (seq 0 (NumVertices (header g))) 0.

(** [GetErrors]: the consistency check, without its output.  The
    mismatch of the last (dummy) vertex is reported but not counted.
    The loops run a [VertexIdType] up to [NumVertices()] and an
    [ArcIdType] up to [NumArcs()]; they are written out for headers
    whose two extents are below 2^32, where the counters reach them. *)
Definition GetErrors (g : t) : result nat :=
  let numErrors := 0 in
  numErrors <- foldM (check_vertex g) (seq 0 (NumVertices (header g))) numErrors ;;
  numErrors <- foldM (check_arc g) (seq 0 (NumArcs (header g))) numErrors ;;
  let _ := numSelfLoops g in
  Ok numErrors.

End GetErrors.

End FastStaticGraph.

(** ** FastSet.h: the search space of a BFS

    The [Assert]s of [KeyByIndex], [IsContained] and [Insert] state that
    the index, respectively the key, is in range; here a read out of range
    yields the default and a write out of range is dropped.  The properties
    below are stated for in-range keys. *)

Module FastSet.

Record t : Type := {
  isContained : list bool;
  containedKeys : list nat
}.

Definition make (numElements : nat) : t :=
  {| isContained := repeat false numElements; containedKeys := [] |}.

Definition Size (s : t) : nat := length (containedKeys s).

Definition KeyByIndex (s : t) (index : nat) : nat := nth index (containedKeys s) 0.

Definition IsContained (s : t) (key : nat) : bool := nth key (isContained s) false.

Definition Insert (s : t) (key : nat) : t :=
  (* If the element is not contained, add it. *)
  let keys := if negb (IsContained s key)
              then containedKeys s ++ [key] else containedKeys s in
  (* Set the value for key. *)
  {| isContained := upd key true (isContained s); containedKeys := keys |}.

Definition Clear (s : t) : t :=
  {| isContained :=
       fold_left (fun c key => upd key false c) (containedKeys s) (isContained s);
     containedKeys := [] |}.

Definition IsEmpty (s : t) : bool :=
  match containedKeys s with [] => true | _ :: _ => false end.

(** [Resize(numElements)].  The assertion compares with the number of
    keys, not with the number of flags. *)
Definition Resize (checked : bool) (s : t) (numElements : nat) : result t :=
  Assert checked (Size s <=? numElements) ;;;
  Ok {| isContained := resize numElements false (isContained s);
        containedKeys := containedKeys s |}.

(** [Insert(const FastSet &other)]: insert from another fast set. *)
Definition Insert_FastSet (s other : t) : t :=
  fold_left (fun s i => Insert s (KeyByIndex other i)) (seq 0 (Size other)) s.

(** [DeleteByIndex(index)]: the key at [index] leaves the set, the last
    key takes its place.  The third assertion reads
    [isContained[containedKeys[index]]] when assertions are compiled in. *)
Definition DeleteByIndex (checked : bool) (s : t) (index : nat) : result (nat * t) :=
  Assert checked (index <? length (containedKeys s)) ;;;
  (if checked then
     key <- read (containedKeys s) index ;;
     flag <- read (isContained s) key ;;
     Assert checked flag
   else Ok tt) ;;;
  key <- read (containedKeys s) index ;;
  flags <- modify (isContained s) key (fun _ => false) ;;
  (* swap(containedKeys.back(), containedKeys[index]); *)
  back <- read (containedKeys s) (length (containedKeys s) - 1) ;;
  let keys := upd index back (containedKeys s) in
  let keys := upd (length (containedKeys s) - 1) key keys in
  (* containedKeys.pop_back(); *)
  Ok (key, {| isContained := flags; containedKeys := removelast keys |}).

(** [DeleteBack()]: deletes from the back. *)
Definition DeleteBack (checked : bool) (s : t) : result (nat * t) :=
  Assert checked (0 <? length (containedKeys s)) ;;;
  key <- read (containedKeys s) (length (containedKeys s) - 1) ;;
  flags <- modify (isContained s) key (fun _ => false) ;;
  Ok (key, {| isContained := flags; containedKeys := removelast (containedKeys s) |}).

End FastSet.

(** ** The IC instance oracle: hashing and edge presence
       (SKIM.h, RSInfluenceOracle.h) *)

Module Hashing.

Local Open Scope Z_scope.

(** Arithmetic on [uint32_t]. *)
Definition wrap32 (x : Z) : Z := x mod 2 ^ 32.

Definition _rotl (x : Z) (r : Z) : Z :=
  wrap32 (Z.lor (Z.shiftl x r) (Z.shiftr x (32 - r))).

(** [Murmur3Hash(u, v, i, l)], the same function in [SKIM] and in
    [FastRSInfluenceOracle]; [randomSeed] is the member of the class. *)
Definition Murmur3Hash (randomSeed : Z) (u v i l : Z) : Z :=
  (* Seed with our seed value. *)
  let h := wrap32 (wrap32 (Z.shiftl randomSeed 16) + l) in
  (* Declare magic constants c1 and c2. *)
  let c1 := 0xcc9e2d51 in
  let c2 := 0x1b873593 in
  (* Hash the first vertex. *)
  let k := u in
  let k := wrap32 (k * c1) in
  let k := _rotl k 15 in
  let k := wrap32 (k * c2) in
  let h := Z.lxor h k in
  let h := _rotl h 13 in
  let h := wrap32 (h * 5 + 0xe6546b64) in
  (* Hash the second vertex. *)
  let k := v in
  let k := wrap32 (k * c1) in
  let k := _rotl k 15 in
  let k := wrap32 (k * c2) in
  let h := Z.lxor h k in
  let h := _rotl h 13 in
  let h := wrap32 (h * 5 + 0xe6546b64) in
  (* Hash the instance. *)
  let k := i in
  let k := wrap32 (k * c1) in
  let k := _rotl k 15 in
  let k := wrap32 (k * c2) in
  let h := Z.lxor h k in
  (* Mix the result. *)
  let h := Z.lxor h 10 in
  let h := Z.lxor h (Z.shiftr h 16) in
  let h := wrap32 (h * 0x85ebca6b) in
  let h := Z.lxor h (Z.shiftr h 13) in
  let h := wrap32 (h * 0xc2b2ae35) in
  let h := Z.lxor h (Z.shiftr h 16) in
  h.

(** The members shared by the two classes: [resolution(3000000)],
    [binprob(resolution / 10)] until [SetBinaryProbability] is called, and
    [triprob{ resolution / 10, resolution / 100, resolution / 1000 }]. *)
Definition resolution : Z := 3000000.
Definition triprob : list Z :=
  [resolution / 10; resolution / 100; resolution / 1000].

Inductive ModelType : Type := WEIGHTED | BINARY | TRIVALENCY.

(** The state of an algorithm object that [Contained] reads. *)
Record members : Type := {
  randomSeed : Z;
  indeg : list nat;
  binprob : Z
}.

(** Reading [array[index]]: outside the array the behaviour is undefined. *)
Definition at_index {A : Type} (a : list A) (index : Z) : result A :=
  if index <? 0 then UndefinedBehaviour
  else match nth_error a (Z.to_nat index) with
       | Some x => Ok x
       | None => UndefinedBehaviour
       end.

(** Unsigned division: dividing by zero is undefined behaviour. *)
Definition udiv (a b : Z) : result Z :=
  if b =? 0 then UndefinedBehaviour else Ok (a / b).

End Hashing.

(** [SKIM::Contained<modelType>(u, v, i, l)]. *)
Module SKIM.

Import Hashing.
Local Open Scope Z_scope.

Definition Contained (this : members) (modelType : ModelType) (u v i l : Z)
  : result bool :=
  match modelType with
  | WEIGHTED =>
      d <- at_index (indeg this) v ;;
      q <- udiv resolution (Z.of_nat d) ;;
      let prob := Z.min resolution q in
      Ok (Murmur3Hash (randomSeed this) u v i l mod resolution <? prob)
  | BINARY =>
      Ok (Murmur3Hash (randomSeed this) u v i l mod resolution <? binprob this)
  | TRIVALENCY =>
      let index :=
        Murmur3Hash (randomSeed this) u v i l mod Z.of_nat (length triprob) in
      p <- at_index triprob index ;;
      Ok (Murmur3Hash (randomSeed this) u v i l mod resolution <? p)
  end.

Local Close Scope Z_scope.

Section ComputeExactInfluence.

Variable graph : FastStaticGraph.t.

(** [Contained<modelType>(u, v, i, l)], for the model the template is
    instantiated with. *)
Variable Contained : nat -> nat -> nat -> nat -> bool.

(** The arithmetic of [double] that the function uses, kept abstract:
    [0], [+] and [double(size) / double(l)]. *)
Variable double : Type.
Variable d_zero : double.
Variable d_add : double -> double -> double.
Variable d_ratio : nat -> nat -> double.

Definition NumVertices : nat :=
  FastStaticGraph.NumVertices (FastStaticGraph.header graph).

(** The body of [FORALL_INCIDENT_ARCS(graph, u, arc)]: arcs without the
    forward flag are passed over ([continue]). *)
Definition mark_expand_step (l i u : nat) (m : list bool)
  (searchSpace : FastSet.t) (arc : FastArc.t) : FastSet.t :=
  if negb (FastArc.Forward arc) then searchSpace
  else
    let v := Z.to_nat (FastArc.OtherVertexId arc) in
    if Contained u v i l && negb (nth v m false)
       && negb (FastSet.IsContained searchSpace v)
    then FastSet.Insert searchSpace v else searchSpace.

(** [while (cur < searchSpace.Size())]: the state is the search space,
    [cur], the marks [m] of the instance and [size]. *)
Fixpoint mark_loop (fuel : nat) (l i : nat)
  (st : FastSet.t * nat * list bool * nat) : FastSet.t * nat * list bool * nat :=
  match fuel with
  | O => st
  | S fuel' =>
      let '(searchSpace, cur, m, size) := st in
      if cur <? FastSet.Size searchSpace then
        let u := FastSet.KeyByIndex searchSpace cur in
        let cur := cur + 1 in
        let m := upd u true m in
        let size := size + 1 in
        let searchSpace :=
          fold_left (mark_expand_step l i u m)
            (FastStaticGraph.FORALL_INCIDENT_ARCS graph u) searchSpace in
        mark_loop fuel' l i (searchSpace, cur, m, size)
      else st
  end.

(** The body of [for (uint16_t i = 0; i < l; ++i)] for the seed
    [VertexId]. *)
Definition instance_step (l VertexId : nat)
  (st : FastSet.t * list (list bool) * nat) (i : nat)
  : FastSet.t * list (list bool) * nat :=
  let '(searchSpace, marked, size) := st in
  let m := nth i marked [] in
  if nth VertexId m false then st
  else
    let searchSpace := FastSet.Clear searchSpace in
    let searchSpace := FastSet.Insert searchSpace VertexId in
    let '(searchSpace, _, m, size) :=
      mark_loop NumVertices l i (searchSpace, 0, m, size) in
    (searchSpace, upd i m marked, size).

(** The body of [for (SeedType &s : seedSet)]: the state holds the search
    space, the marks, the sizes counted for the seeds so far and
    [exinf]. *)
Definition seed_step (l : nat)
  (st : FastSet.t * list (list bool) * list nat * double) (VertexId : nat)
  : FastSet.t * list (list bool) * list nat * double :=
  let '(searchSpace, marked, sizes, exinf) := st in
  let '(searchSpace, marked, size) :=
    fold_left (instance_step l VertexId) (seq 0 l) (searchSpace, marked, 0) in
  let ExactInfluence := d_ratio size l in
  (searchSpace, marked, sizes ++ [size], d_add exinf ExactInfluence).

(** [ComputeExactInfluence<modelType>(seedSet, l)]: the value of [size]
    at the end of the loop body of every seed, and the sum returned. *)
Definition ComputeExactInfluence (seedSet : list nat) (l : nat) : list nat * double :=
  let searchSpace := FastSet.make NumVertices in
  let marked := repeat (repeat false NumVertices) l in
  let '(_, _, sizes, exinf) :=
    fold_left (seed_step l) seedSet (searchSpace, marked, [], d_zero) in
  (sizes, exinf).

End ComputeExactInfluence.

End SKIM.

(** ** RSInfluenceOracle.h *)

Module FastRSInfluenceOracle.

Import Hashing.

(** [FastRSInfluenceOracle::Contained<modelType>(u, v, i, l)]. *)
Definition Contained (this : members) (modelType : ModelType) (u v i l : Z)
  : result bool :=
  (match modelType with
  | WEIGHTED =>
      d <- at_index (indeg this) v ;;
      q <- udiv resolution (Z.of_nat d) ;;
      let prob := Z.min resolution q in
      Ok (Murmur3Hash (randomSeed this) u v i l mod resolution <? prob)
  | BINARY =>
      Ok (Murmur3Hash (randomSeed this) u v i l mod resolution <? binprob this)
  | TRIVALENCY =>
      let index :=
        Murmur3Hash (randomSeed this) u v i l mod Z.of_nat (length triprob) in
      p <- at_index triprob i ;;
      Ok (Murmur3Hash (randomSeed this) u v i l mod resolution <? p)
  end)%Z.


Inductive SeedMethodType : Type := UNIFORM | NEIGHBORHOOD.

(** *** The seed sampler *)

(** Arithmetic on [uint32_t]: the value that a cast to [uint32_t] or an
    increment leaves, and the difference of two [uint32_t]. *)
Definition UInt32 (x : nat) : nat := Z.to_nat (Z.of_nat x mod 2 ^ 32).
Definition UInt32_sub (x y : nat) : nat :=
  Z.to_nat ((Z.of_nat x - Z.of_nat y) mod 2 ^ 32).

Section GenerateSeetSet.

(** The state of the Mersenne twister [twisty]. *)
Variable engine : Type.

(** [uniform_int_distribution<uint32_t>] of the standard library:
    [uniform_int_distribution a b twisty] is the value of [dist(twisty)]
    for a distribution [dist(a, b)], with the generator advanced. *)
Variable uniform_int_distribution : nat -> nat -> engine -> nat * engine.

(** The branch [t == NEIGHBORHOOD] (a level-bounded BFS from the tail of a
    random arc, repeated while [S.size() < N]) is not developed here; it
    is a parameter. *)
Variable neighborhood :
  nat -> list nat -> nat -> engine -> option (list nat * engine).

(** [Run] sets up the random number generator:
    [uniform_int_distribution<uint32_t> dist(0, static_cast<uint32_t>(
       method == UNIFORM ? graph.NumVertices() : graph.NumArcs())-1);] *)
Definition Run_dist (method : SeedMethodType) (NumVertices NumArcs : nat)
  : engine -> nat * engine :=
  uniform_int_distribution 0
    (UInt32_sub
       (UInt32 (match method with
                | UNIFORM => NumVertices
                | NEIGHBORHOOD => NumArcs
                end)) 1).

(** [distType &dist], the template parameter of [GenerateSeetSet]:
    [dist(twisty)] is one draw, which advances the generator. *)
Variable dist : engine -> nat * engine.

(** [for (uint32_t i = 0; i < N; ++i) S.push_back(dist(twisty));] where
    [N] is a [uint64_t]: the counter [i] wraps at 2^32.  [None]: the loop
    is still running after [fuel] rounds. *)
Fixpoint uniform_loop (fuel : nat) (N i : nat) (S : list nat) (twisty : engine)
  : option (list nat * engine) :=
  match fuel with
  | O => None
  | Datatypes.S fuel' =>
      if i <? N then
        let '(x, twisty) := dist twisty in
        uniform_loop fuel' N (UInt32 (i + 1)) (S ++ [x]) twisty
      else Some (S, twisty)
  end.

(** [GenerateSeetSet(S, N, t, dist)]: the vector [S] and the generator
    afterwards. *)
Definition GenerateSeetSet (fuel : nat) (S : list nat) (N : nat)
  (t : SeedMethodType) (twisty : engine) : option (list nat * engine) :=
  match t with
  | UNIFORM => uniform_loop fuel N 0 S twisty
  | NEIGHBORHOOD => neighborhood fuel S N twisty
  end.

End GenerateSeetSet.

(** *** The estimator *)

Section Estimator.

(** The arithmetic of [double] that the estimator uses, kept abstract:
    [0], [+], [1.0 / double(tau)] and [estimate * NumVertices]. *)
Variable double : Type.
Variable d_zero : double.
Variable d_add : double -> double -> double.
Variable d_inv : nat -> double.
Variable d_scale : double -> nat -> double.

Variable checked : bool.
Variable NumVertices : nat.
Variable sketches : list (list nat).

Definition pairs : Type := list (nat * nat).

(** Collect rank and taus: the body of [for (const uint32_t s : S)]. *)
Definition collect_step (k l : nat) (st : list nat * pairs) (s : nat)
  : result (list nat * pairs) :=
  let '(sourceI, sourceZ) := st in
  let sentinelRank := NumVertices * l in
  sketch <- read sketches s ;;
  let num := if length sketch =? k then length sketch - 1 else length sketch in
  tau <- (if length sketch =? k
          then match sketch with
               | [] => UndefinedBehaviour
               | _ :: _ => Ok (last sketch 0)
               end
          else Ok (NumVertices * l)) ;;
  let sourceI := sourceI ++ [length sourceZ] in
  let sourceZ := sourceZ ++ map (fun r => (r, tau)) (firstn num sketch) in
  let sourceZ := sourceZ ++ [(sentinelRank, 0)] in
  Ok (sourceI, sourceZ).

(** The inner [while (true)] that merges the chunk at [first1] with the
    chunk at [first2] into [destZ]. *)
Fixpoint merge_loop (fuel : nat) (sentinelRank : nat) (sourceZ : pairs)
  (first1 first2 : nat) (destZ : pairs) : result pairs :=
  match fuel with
  | O => UndefinedBehaviour
  | S fuel' =>
      z1 <- read sourceZ first1 ;;
      z2 <- read sourceZ first2 ;;
      if fst z1 <? fst z2 then
        merge_loop fuel' sentinelRank sourceZ (first1 + 1) first2 (destZ ++ [z1])
      else if fst z2 <? fst z1 then
        merge_loop fuel' sentinelRank sourceZ first1 (first2 + 1) (destZ ++ [z2])
      else if snd z2 <? snd z1 then
        merge_loop fuel' sentinelRank sourceZ (first1 + 1) (first2 + 1) (destZ ++ [z1])
      else if fst z1 =? sentinelRank then
        Ok (destZ ++ [z2])
      else
        merge_loop fuel' sentinelRank sourceZ (first1 + 1) (first2 + 1) (destZ ++ [z2])
  end.

(** One pass [for (uint64_t i = 0; i < num; i += 2)] over the chunks. *)
Fixpoint pass_loop (fuel : nat) (sentinelRank : nat) (sourceI : list nat)
  (sourceZ : pairs) (num i : nat) (destI : list nat) (destZ : pairs)
  : result (list nat * pairs) :=
  match fuel with
  | O => Ok (destI, destZ)
  | S fuel' =>
      if i <? num then
        let destI := destI ++ [length destZ] in
        first1 <- read sourceI i ;;
        last1 <- read sourceI (i + 1) ;;
        (* In case only one more chunk is left, copy it to destZ. *)
        if i + 1 =? num then
          if (first1 <=? last1) && (last1 <=? length sourceZ) then
            let destZ := destZ ++ firstn (last1 - first1) (skipn first1 sourceZ) in
            pass_loop fuel' sentinelRank sourceI sourceZ num (i + 2) destI destZ
          else UndefinedBehaviour
        else
          (* Otherwise merge the i'th with the i+1st chunk into destZ. *)
          Assert checked (i + 2 <? num) ;;;
          let first2 := last1 in
          _ <- read sourceI (i + 2) ;;
          destZ <- merge_loop (2 * length sourceZ + 1) sentinelRank sourceZ
                     first1 first2 destZ ;;
          pass_loop fuel' sentinelRank sourceI sourceZ num (i + 2) destI destZ
      else Ok (destI, destZ)
  end.

(** Merge while there are things to merge:
    [while (sourceI.size() > 2)]. *)
Fixpoint merge_rounds (fuel : nat) (sentinelRank : nat) (sourceI : list nat)
  (sourceZ : pairs) : result (list nat * pairs) :=
  match fuel with
  | O => Ok (sourceI, sourceZ)
  | S fuel' =>
      if 2 <? length sourceI then
        let num := length sourceI - 1 in
        st <- pass_loop num sentinelRank sourceI sourceZ num 0 [] [] ;;
        let '(destI, destZ) := st in
        let destI := destI ++ [length destZ] in
        merge_rounds fuel' sentinelRank destI destZ
      else Ok (sourceI, sourceZ)
  end.

(** The merged list [sourceZ] after the final sentinel is popped. *)
Definition Estimator_Z (S : list nat) (k l : nat) : result pairs :=
  let sentinelRank := NumVertices * l in
  (* Collect rank and taus. *)
  st <- foldM (collect_step k l) S ([], []) ;;
  let '(sourceI, sourceZ) := st in
  let sourceI := sourceI ++ [length sourceZ] in
  (* Merge while there are things to merge. *)
  Assert checked (2 <=? length sourceI) ;;;
  st <- merge_rounds (length sourceI) sentinelRank sourceI sourceZ ;;
  let '(sourceI, sourceZ) := st in
  (* Accumulate estimate. *)
  Assert checked (negb (length sourceZ =? 0)) ;;;
  match sourceZ with
  | [] => UndefinedBehaviour
  | _ :: _ => Ok (removelast sourceZ)
  end.

Definition accumulate (sourceZ : pairs) : double :=
  fold_left (fun estimate z => d_add estimate (d_inv (snd z))) sourceZ d_zero.

(** [Estimator(S, k, l)]. *)
Definition Estimator (S : list nat) (k l : nat) : result double :=
  sourceZ <- Estimator_Z S k l ;;
  let estimate := accumulate sourceZ in
  Ok (d_scale estimate NumVertices).

End Estimator.

(** *** The preprocessing: combined bottom-k reachability sketches *)

(** [std::set_union] on two sorted ranges. *)
Fixpoint set_union (l1 : list nat) : list nat -> list nat :=
  fix inner (l2 : list nat) : list nat :=
    match l1, l2 with
    | [], _ => l2
    | _, [] => l1
    | x :: l1', y :: l2' =>
        if y <? x then y :: inner l2'
        else x :: (if x <? y then set_union l1' l2 else set_union l1' l2')
    end.

Section RunPreprocessing.

Variable graph : FastStaticGraph.t.

(** [Contained<modelType>(u, v, i, l)], for the model the template is
    instantiated with. *)
Variable Contained : nat -> nat -> nat -> nat -> bool.

(** The vector that [GenerateRandomPermutation(permutation,
    NumVertices * l, randomSeed)] delivers. *)
Variable permutation : list nat.

Variables k l : nat.

Definition n : nat := FastStaticGraph.NumVertices (FastStaticGraph.header graph).

(** Group vertex/instance pairs by instance.  The instance is cast to
    [uint16_t].  The assertions [i < l], [u < NumVertices] and
    [instanceRanks[i].size() == NumVertices] of the function change no
    state; they are the lemmas [instance_of_range], [source_of_range] and
    [ranks_of_length] below.  Reads and writes outside a vector, which
    these exclude, read the default and write nothing. *)
Definition group_step (instanceRanks : list (list (nat * nat))) (r : nat)
  : list (list (nat * nat)) :=
  let i := (nth r permutation 0 / n) mod 2 ^ 16 in
  let u := nth r permutation 0 mod n in
  upd i (nth i instanceRanks [] ++ [(r, u)]) instanceRanks.

Definition instanceRanks : list (list (nat * nat)) :=
  fold_left group_step (seq 0 (length permutation)) (repeat [] l).

(** Arc expansion at [u] in instance [i]. *)
Definition expand_step (u i : nat) (searchSpace : FastSet.t) (a : FastArc.t) : FastSet.t :=
  let v := Z.to_nat (FastArc.OtherVertexId a) in
  if Contained v u i l && negb (FastSet.IsContained searchSpace v)
  then FastSet.Insert searchSpace v else searchSpace.

Definition expand (u i : nat) (searchSpace : FastSet.t) : FastSet.t :=
  fold_left (expand_step u i) (FastStaticGraph.backward_scan graph u) searchSpace.

(** The state of a search: the search space [S] (an alias of the member
    [searchSpace]), the index [ind] and the local sketches. *)
Definition search_state : Type := FastSet.t * nat * list (list nat).

(** [while (ind < S.Size())]. *)
Fixpoint bfs_loop (fuel : nat) (rank i : nat) (st : search_state) : search_state :=
  match fuel with
  | O => st
  | S fuel' =>
      let '(searchSpace, ind, localSketches) := st in
      if ind <? FastSet.Size searchSpace then
        let u := FastSet.KeyByIndex searchSpace ind in
        let ind := ind + 1 in
        let Y := nth u localSketches [] in
        (* Prune if the sketch at u exceeds size k. *)
        if k <=? length Y then bfs_loop fuel' rank i (searchSpace, ind, localSketches)
        else
          (* Insert rank into sketch of u. *)
          let localSketches := upd u (Y ++ [rank]) localSketches in
          (* Arc expansion. *)
          let searchSpace := expand u i searchSpace in
          bfs_loop fuel' rank i (searchSpace, ind, localSketches)
      else st
  end.

(** Run a BFS from source vertex in instance [i]. *)
Definition search (i : nat) (st : FastSet.t * list (list nat)) (j : nat)
  : FastSet.t * list (list nat) :=
  let '(searchSpace, localSketches) := st in
  let '(rank, sourceVertexId) := nth j (nth i instanceRanks []) (0, 0) in
  let searchSpace := FastSet.Clear searchSpace in
  let searchSpace := FastSet.Insert searchSpace sourceVertexId in
  let '(searchSpace, _, localSketches) :=
    bfs_loop n rank i (searchSpace, 0, localSketches) in
  (searchSpace, localSketches).

(** Merge local sketches into the global sketches. *)
Definition merge_step (st : list (list nat) * list (list nat)) (u : nat)
  : list (list nat) * list (list nat) :=
  let '(sketches, localSketches) := st in
  let X := nth u sketches [] in
  let Y := nth u localSketches [] in
  let Z := set_union X Y in
  let Z := if k <? length Z then firstn k Z else Z in
  (upd u Z sketches, upd u [] localSketches).

(** The body of [for (uint16_t i = 0; i < l; ++i)]. *)
Definition instance_step (st : FastSet.t * list (list nat) * list (list nat))
  (i : nat) : FastSet.t * list (list nat) * list (list nat) :=
  let '(searchSpace, sketches, localSketches) := st in
  let '(searchSpace, localSketches) :=
    fold_left (search i) (seq 0 n) (searchSpace, localSketches) in
  let '(sketches, localSketches) :=
    fold_left merge_step (seq 0 n) (sketches, localSketches) in
  (searchSpace, sketches, localSketches).

(** [RunPreprocessing<modelType>(k, l)]: the member [sketches]
    afterwards. *)
Definition RunPreprocessing : list (list nat) :=
  let sketches := repeat [] n in
  let localSketches := repeat [] n in
  let searchSpace := FastSet.make n in
  let '(_, sketches, _) :=
    fold_left instance_step (seq 0 l) (searchSpace, sketches, localSketches) in
  sketches.

End RunPreprocessing.

(** *** The exact influence *)

Section ComputeInfluence.

Variable graph : FastStaticGraph.t.
Variable Contained : nat -> nat -> nat -> nat -> bool.

(** [double(size) / double(l)], kept abstract. *)
Variable double : Type.
Variable d_ratio : nat -> nat -> double.

(** Arc expansion of the forward search at [u]. *)
Definition forward_expand_step (l i u : nat) (searchSpace : FastSet.t)
  (a : FastArc.t) : FastSet.t :=
  let v := Z.to_nat (FastArc.OtherVertexId a) in
  if Contained u v i l && negb (FastSet.IsContained searchSpace v)
  then FastSet.Insert searchSpace v else searchSpace.

(** [while (ind < searchSpace.Size())]: the state is the search space,
    [ind] and [size]. *)
Fixpoint influence_loop (fuel : nat) (l i : nat) (st : FastSet.t * nat * nat)
  : FastSet.t * nat * nat :=
  match fuel with
  | O => st
  | S fuel' =>
      let '(searchSpace, ind, size) := st in
      if ind <? FastSet.Size searchSpace then
        let u := FastSet.KeyByIndex searchSpace ind in
        let ind := ind + 1 in
        let size := size + 1 in
        let searchSpace :=
          fold_left (forward_expand_step l i u)
            (FastStaticGraph.forward_scan graph u) searchSpace in
        influence_loop fuel' l i (searchSpace, ind, size)
      else st
  end.

(** Run a BFS from the seed set in instance [i]. *)
Definition influence_step (S : list nat) (l : nat) (st : FastSet.t * nat) (i : nat)
  : FastSet.t * nat :=
  let '(searchSpace, size) := st in
  let searchSpace := FastSet.Clear searchSpace in
  let searchSpace := fold_left FastSet.Insert S searchSpace in
  let '(searchSpace, _, size) :=
    influence_loop (n graph) l i (searchSpace, 0, size) in
  (searchSpace, size).

(** [ComputeInfluence<modelType>(S, l)]: the final value of [size], and
    the quotient returned; [searchSpace] is the member of the class. *)
Definition ComputeInfluence_size (searchSpace : FastSet.t) (S : list nat) (l : nat)
  : nat :=
  snd (fold_left (influence_step S l) (seq 0 l) (searchSpace, 0)).

Definition ComputeInfluence (searchSpace : FastSet.t) (S : list nat) (l : nat)
  : double :=
  d_ratio (ComputeInfluence_size searchSpace S l) l.

End ComputeInfluence.

(** [Contained<modelType>(v, u, i, l)] as the searches call it, on a vertex
    pair, an instance and the number of instances.  A call that does not
    return counts as not contained. *)
Definition Contained_at (this : members) (modelType : ModelType)
  (u v i l : nat) : bool :=
  match Contained this modelType (Z.of_nat u) (Z.of_nat v) (Z.of_nat i) (Z.of_nat l) with
  | Ok b => b
  | _ => false
  end.

End FastRSInfluenceOracle.

(** ** The reference semantics of the estimator's merge

    These definitions follow the words of the specification, not the
    code: the list of a seed, and the merge of all lists by ascending rank
    that coalesces equal ranks to the entry with the larger tau. *)

Module EstimatorSpec.

(** The list of a seed [s]: the pairs [(r, tau_s)] for the ranks [r] of its
    sketch, without the k-th rank when the sketch holds k ranks;
    [tau_s] is that k-th rank, or [n * l] for a shorter sketch. *)
Definition tau (n k l : nat) (sketch : list nat) : nat :=
  if length sketch =? k then nth (k - 1) sketch 0 else n * l.

Definition seed_list (n k l : nat) (sketch : list nat) : list (nat * nat) :=
  let ranks := if length sketch =? k then firstn (k - 1) sketch else sketch in
  map (fun r => (r, tau n k l sketch)) ranks.

(** Put one pair into a list ascending by rank; of two entries with the
    same rank the one with the larger tau stays. *)
Fixpoint coalesce (z : nat * nat) (Z : list (nat * nat)) : list (nat * nat) :=
  match Z with
  | [] => [z]
  | y :: Z' =>
      if fst y <? fst z then y :: coalesce z Z'
      else if fst z <? fst y then z :: Z
      else (if snd y <? snd z then z else y) :: Z'
  end.

Definition merge_all (lists : list (list (nat * nat))) : list (nat * nat) :=
  fold_right coalesce [] (concat lists).

End EstimatorSpec.

(** ** Permutations.h *)

Module Permutations.

(** [IsPermutation(permutation)]: tests whether an array of length n is
    a permutation of [0..n-1].  The loop, with the vector [appears]. *)
Fixpoint IsPermutation_loop (size : nat) (items : list nat) (appears : list bool)
  : bool :=
  match items with
  | [] => true
  | item :: items' =>
      if size <=? item then false
      else if nth item appears false then false
      else IsPermutation_loop size items' (upd item true appears)
  end.

Definition IsPermutation (permutation : list nat) : bool :=
  let appears := repeat false (length permutation) in
  IsPermutation_loop (length permutation) permutation appears.

(** [GenerateIdentityPermutation(permutation, numElements)]. *)
Definition GenerateIdentityPermutation (permutation : list nat) (numElements : nat)
  : list nat :=
  let permutation := resize numElements 0 permutation in
  fold_left (fun permutation i => upd i i permutation)
    (seq 0 (length permutation)) permutation.

(** [GenerateInversePermutation(inputPermutation, outputPermutation)]. *)
Definition inverse_step (inputPermutation : list nat) (outputPermutation : list nat)
  (i : nat) : list nat :=
  let outputPermutation :=
    if length outputPermutation <=? nth i inputPermutation 0
    then resize (nth i inputPermutation 0 + 1) 0 outputPermutation
    else outputPermutation in
  upd (nth i inputPermutation 0) i outputPermutation.

Definition GenerateInversePermutation (inputPermutation : list nat) : list nat :=
  fold_left (inverse_step inputPermutation) (seq 0 (length inputPermutation)) [].

Section Shuffled.

(** [shuffle(first, last, gen)] with the generator [mt19937_64 gen(seed)]:
    the function of the standard library, on the vector it reorders. *)
Variable shuffle : list nat -> list nat.

(** [GenerateRandomPermutation(permutation, numElements, seed)]. *)
Definition GenerateRandomPermutation (permutation : list nat) (numElements : nat)
  : list nat :=
  (* If the permutation consists of 0 elements, do nothing. *)
  if numElements <=? 0 then []
  else shuffle (GenerateIdentityPermutation permutation numElements).

(** [GenerateWeightedRandomPermutation(permutation, weights, seed)]. *)
Definition blow_up (weights : list nat) : list nat :=
  flat_map (fun i => repeat i (nth i weights 0)) (seq 0 (length weights)).

Definition select_step (st : list bool * list nat) (element : nat)
  : list bool * list nat :=
  let '(selected, permutation) := st in
  if negb (nth element selected false)
  then (upd element true selected, permutation ++ [element])
  else (selected, permutation).

Definition GenerateWeightedRandomPermutation (checked : bool) (weights : list nat)
  : result (list nat) :=
  match weights with
  | [] => Ok []
  | _ :: _ =>
      (* Generating an identity permutation where each element i occurs
         weights[i] times. *)
      let blownUpPermutation := blow_up weights in
      (* Shuffle this set. *)
      let blownUpPermutation := shuffle blownUpPermutation in
      (* Remember which elements have been selected. *)
      let selected := repeat false (length weights) in
      (* Generate the permutation. *)
      let '(_, permutation) :=
        fold_left select_step blownUpPermutation (selected, []) in
      (* Add zero-weight vertices to the end. *)
      let permutation :=
        fold_left (fun permutation i =>
                     if nth i weights 0 =? 0 then permutation ++ [i] else permutation)
          (seq 0 (length weights)) permutation in
      Assert checked (length permutation =? length weights) ;;;
      Ok permutation
  end.

End Shuffled.

End Permutations.
(** ** Conversion.h, Split.h, RangeExtraction.h, MetisGraphBuilder.h:
       numbers and tokens of the input text *)

(** A [char] is its integer value, ['\0'] is 0; a [std::string] is the
    list of its characters.  A [const char*] is the memory from the
    pointer on, up to the end of the buffer it points into: reading past
    that end is undefined behaviour. *)

Module Conversion.

Local Open Scope Z_scope.

(** [LexicalCast<unsigned int>(const char* value)].  The state of the
    loop is [value] and [x], an [unsigned int]; ['0'] is 48 and ['9'] is
    57. *)
Fixpoint LexicalCast_unsigned_loop (checked : bool) (value : list Z) (x : Z)
  : result Z :=
  match value with
  | [] => UndefinedBehaviour
  | c :: value' =>
      if c =? 0 then Ok x
      else
        Assert checked (48 <=? c) ;;;
        Assert checked (c <=? 57) ;;;
        let x := Hashing.wrap32 (x * 10 + (c - 48)) in
        LexicalCast_unsigned_loop checked value' x
  end.

Definition LexicalCast_unsigned (checked : bool) (value : list Z) : result Z :=
  let x := 0 in
  LexicalCast_unsigned_loop checked value x.

(** [LexicalCast<uint64_t>(const char* value)]: the same loop, its [x] is
    an [unsigned int] as well; the value returned is [x] widened. *)
Definition LexicalCast_uint64 (checked : bool) (value : list Z) : result Z :=
  let x := 0 in
  LexicalCast_unsigned_loop checked value x.

End Conversion.

Module StringSplit.

(** [getline(ss, item, delim)] of the standard library: the characters up
    to the next [delim], which is taken from the stream and not stored,
    or up to the end of the stream; the pair is [item] and what is left
    of the stream. *)
Fixpoint getline_item (ss : list Z) (delim : Z) : list Z * list Z :=
  match ss with
  | [] => ([], [])
  | c :: ss' =>
      if (c =? delim)%Z then ([], ss')
      else let '(item, rest) := getline_item ss' delim in (c :: item, rest)
  end.

(** It fails when it extracts nothing, not even a delimiter. *)
Definition getline (ss : list Z) (delim : Z) : option (list Z * list Z) :=
  match ss with
  | [] => None
  | _ :: _ => Some (getline_item ss delim)
  end.

(** [while (getline(ss, item, delim)) elements.push_back(item);]: every
    round takes a character from the stream, [fuel] bounds the rounds. *)
Fixpoint Split_loop (fuel : nat) (ss : list Z) (delim : Z)
  (elements : list (list Z)) : list (list Z) :=
  match fuel with
  | O => elements
  | S fuel' =>
      match getline ss delim with
      | None => elements
      | Some (item, ss') => Split_loop fuel' ss' delim (elements ++ [item])
      end
  end.

(** [Split(s, delim)]. *)
Definition Split (s : list Z) (delim : Z) : list (list Z) :=
  let elements := [] in
  Split_loop (length s + 1) s delim elements.






End StringSplit.

Module RangeExtraction.

(** [sort(indices.begin(), indices.end())], as an insertion sort. *)
Fixpoint insert_index (x : nat) (l : list nat) : list nat :=
  match l with
  | [] => [x]
  | y :: l' => if y <? x then y :: insert_index x l' else x :: l
  end.

Definition std_sort (l : list nat) : list nat := fold_right insert_index [] l.

(** [unique(indices.begin(), indices.end())] with the [resize] to its
    result: of every run of equal elements one stays. *)
Fixpoint std_unique (l : list nat) : list nat :=
  match l with
  | [] => []
  | x :: l' =>
      match l' with
      | [] => [x]
      | y :: _ => if x =? y then std_unique l' else x :: std_unique l'
      end
  end.

Section ExtractRange.

Variable checked : bool.

(** [LexicalCast<Types::IndexType>(string)] reads the number through a
    [stringstream]; it is kept abstract.  Types.h is not part of the
    sources at hand: [IndexMax] is the largest [Types::IndexType], after
    which [++currentIndex] starts again at 0. *)
Variable LexicalCast : list Z -> nat.
Variable IndexMax : nat.

Definition increment (currentIndex : nat) : nat :=
  if currentIndex =? IndexMax then 0 else currentIndex + 1.

(** [for (currentIndex = lowerLimit; currentIndex <= upperLimit;
    ++currentIndex) indices.push_back(currentIndex);]: [None] when the
    loop is still running after [fuel] rounds. *)
Fixpoint range_loop (fuel : nat) (currentIndex upperLimit : nat)
  (indices : list nat) : option (list nat) :=
  match fuel with
  | O => None
  | S fuel' =>
      if currentIndex <=? upperLimit
      then range_loop fuel' (increment currentIndex) upperLimit
             (indices ++ [currentIndex])
      else Some indices
  end.

(** The body of [for (const string currentRange : ranges)]; [','] is
    44 and ['-'] is 45. *)
Definition range_step (fuel : nat) (indices : list nat) (currentRange : list Z)
  : option (result (list nat)) :=
  let limits := StringSplit.Split currentRange 45 in
  match Assert checked (negb (length limits =? 0)) ;;;
        Assert checked (length limits <=? 2) with
  | Ok _ =>
      if length limits =? 1 then
        match read limits 0 with
        | Ok limit => Some (Ok (indices ++ [LexicalCast limit]))
        | AssertionFailure => Some AssertionFailure
        | UndefinedBehaviour => Some UndefinedBehaviour
        end
      else
        match (l0 <- read limits 0 ;; l1 <- read limits 1 ;; Ok (l0, l1)) with
        | Ok (l0, l1) =>
            let lowerLimit := LexicalCast l0 in
            let upperLimit := LexicalCast l1 in
            match Assert checked (lowerLimit <=? upperLimit) with
            | Ok _ =>
                match range_loop fuel lowerLimit upperLimit indices with
                | Some indices => Some (Ok indices)
                | None => None
                end
            | AssertionFailure => Some AssertionFailure
            | UndefinedBehaviour => Some UndefinedBehaviour
            end
        | AssertionFailure => Some AssertionFailure
        | UndefinedBehaviour => Some UndefinedBehaviour
        end
  | AssertionFailure => Some AssertionFailure
  | UndefinedBehaviour => Some UndefinedBehaviour
  end.

Fixpoint range_steps (fuel : nat) (ranges : list (list Z)) (indices : list nat)
  : option (result (list nat)) :=
  match ranges with
  | [] => Some (Ok indices)
  | currentRange :: ranges' =>
      match range_step fuel indices currentRange with
      | Some (Ok indices) => range_steps fuel ranges' indices
      | other => other
      end
  end.

(** [ExtractRange(range)]: [None] when one of its loops is still running
    after [fuel] rounds. *)
Definition ExtractRange (fuel : nat) (range : list Z) : option (result (list nat)) :=
  let indices := [] in
  let ranges := StringSplit.Split range 44 in
  match range_steps fuel ranges indices with
  | Some (Ok indices) =>
      (* Sort and uniquify. *)
      let indices := std_sort indices in
      Some (Ok (std_unique indices))
  | other => other
  end.

End ExtractRange.

End RangeExtraction.

Module MetisGraphBuilder.

(** The variables of the reading loop of [BuildMetisGraph] that outlive a
    line; vertex ids are [uint32_t]. *)
Record state : Type := {
  headerParsed : bool;
  numVertices : Z;
  fromVertexId : Z;
  arcs : list (Z * Z)
}.

Section BuildMetisGraph.

Variable checked : bool.
Variables ignoreSelfLoops transpose directed : bool.

Local Open Scope Z_scope.




End BuildMetisGraph.

End MetisGraphBuilder.
(** * Properties *)

(** ** Basic facts about outcomes and vectors *)

Lemma Assert_true : forall checked, Assert checked true = Ok tt.
Proof. intros []; reflexivity. Qed.

Lemma Assert_unchecked : forall e, Assert false e = Ok tt.
Proof. reflexivity. Qed.

Lemma foldM_cons : forall (A S : Type) (body : S -> A -> result S) x xs s,
  foldM body (x :: xs) s = (s' <- body s x ;; foldM body xs s').
Proof. reflexivity. Qed.

Lemma foldM_app : forall (A S : Type) (body : S -> A -> result S) xs ys s,
  foldM body (xs ++ ys) s = (s' <- foldM body xs s ;; foldM body ys s').
Proof.
  induction xs as [|x xs IH]; intros ys s; simpl; [reflexivity|].
  destruct (body s x); simpl; auto.
Qed.

Lemma upd_length : forall (A : Type) i (x : A) l, length (upd i x l) = length l.
Proof. induction i; destruct l; simpl; auto. Qed.

Lemma nth_upd_eq : forall (A : Type) i (x d : A) l,
  i < length l -> nth i (upd i x l) d = x.
Proof.
  induction i; destruct l; simpl; intros; try lia; auto.
  apply IHi; lia.
Qed.

Lemma nth_upd_ne : forall (A : Type) i j (x d : A) l,
  i <> j -> nth j (upd i x l) d = nth j l d.
Proof.
  induction i; destruct l, j; simpl; intros; try lia; auto.
Qed.

Lemma nth_upd : forall (A : Type) i j (x d : A) l,
  nth j (upd i x l) d = if (i =? j) && (i <? length l) then x else nth j l d.
Proof.
  intros A i j x d l.
  destruct (Nat.eqb_spec i j) as [->|Hne]; simpl.
  - destruct (Nat.ltb_spec j (length l)).
    + apply nth_upd_eq; assumption.
    + rewrite !nth_overflow; rewrite ?upd_length; auto.
  - apply nth_upd_ne; assumption.
Qed.


Lemma read_ok : forall (A : Type) (l : list A) i d,
  i < length l -> read l i = Ok (nth i l d).
Proof.
  intros A l i d H. unfold read. rewrite (nth_error_nth' l d H). reflexivity.
Qed.

Lemma modify_ok : forall (A : Type) (l : list A) i (f : A -> A) d,
  i < length l -> modify l i f = Ok (upd i (f (nth i l d)) l).
Proof.
  intros A l i f d H. unfold modify. rewrite (nth_error_nth' l d H). reflexivity.
Qed.

Lemma bind_Ok : forall (A B : Type) (a : A) (f : A -> result B),
  bind (Ok a) f = f a.
Proof. reflexivity. Qed.

Lemma foldM_ext : forall (A S : Type) (f g : S -> A -> result S) xs s,
  (forall s x, In x xs -> f s x = g s x) -> foldM f xs s = foldM g xs s.
Proof.
  induction xs as [|x xs IH]; intros s H; [reflexivity|].
  rewrite !foldM_cons, H by (left; reflexivity).
  destruct (g s x); simpl; auto. apply IH. intros; apply H; right; assumption.
Qed.

Lemma take_while_In : forall (A : Type) (p : A -> bool) l x,
  In x (take_while p l) -> In x l /\ p x = true.
Proof.
  induction l as [|y l IH]; intros x H; simpl in H; [destruct H|].
  destruct (p y) eqn:E; [|destruct H].
  destruct H as [<-|H]; [split; [left; reflexivity|assumption]|].
  apply IH in H. destruct H. split; [right|]; assumption.
Qed.
(** ** The arc word and its comparison *)

Section ArcBits.

Local Open Scope Z_scope.
Import FastArc.

Lemma land_pow2 : forall a n, 0 <= n ->
  Z.land a (2 ^ n) = if Z.testbit a n then 2 ^ n else 0.
Proof.
  intros a n Hn. apply Z.bits_inj'. intros m Hm.
  rewrite Z.land_spec, Z.pow2_bits_eqb by assumption.
  destruct (Z.eqb_spec n m) as [->|Hne].
  - destruct (Z.testbit a m) eqn:E.
    + rewrite Z.pow2_bits_true; auto.
    + rewrite Z.bits_0; auto.
  - rewrite andb_false_r.
    destruct (Z.testbit a n).
    + rewrite Z.pow2_bits_false; auto.
    + rewrite Z.bits_0; auto.
Qed.

Lemma Forward_testbit : forall a, Forward a = Z.testbit a 30.
Proof.
  intros a. unfold Forward. change 0x40000000 with (2 ^ 30).
  rewrite land_pow2 by lia. destruct (Z.testbit a 30); reflexivity.
Qed.

Lemma Backward_testbit : forall a, Backward a = Z.testbit a 31.
Proof.
  intros a. unfold Backward. change 0x80000000 with (2 ^ 31).
  rewrite land_pow2 by lia. destruct (Z.testbit a 31); reflexivity.
Qed.

Lemma Valid_flags : forall a, Valid a = Forward a || Backward a.
Proof.
  intros a. rewrite Forward_testbit, Backward_testbit. unfold Valid.
  change 0xC0000000 with (Z.lor (2 ^ 30) (2 ^ 31)).
  rewrite Z.land_lor_distr_r, !land_pow2 by lia.
  destruct (Z.testbit a 30), (Z.testbit a 31); reflexivity.
Qed.

(** The integer [a] (or [b]) that [operator<] computes for an arc. *)
Definition code (x : t) : Z := Z.of_nat (bucket_of x).

Lemma operator_lt_code : forall x y,
  operator_lt x y =
  if code x =? code y then OtherVertexId x <? OtherVertexId y
  else code x <? code y.
Proof.
  intros x y. unfold operator_lt, code, bucket_of.
  destruct (Forward x), (Backward x), (Forward y), (Backward y); reflexivity.
Qed.

Lemma operator_lt_iff : forall x y,
  operator_lt x y = true <->
  code x < code y \/ (code x = code y /\ OtherVertexId x < OtherVertexId y).
Proof.
  intros x y. rewrite operator_lt_code.
  destruct (Z.eqb_spec (code x) (code y)) as [E|E].
  - rewrite Z.ltb_lt. lia.
  - rewrite Z.ltb_lt. lia.
Qed.

Lemma operator_lt_false_iff : forall x y,
  operator_lt x y = false <->
  code y < code x \/ (code x = code y /\ OtherVertexId y <= OtherVertexId x).
Proof.
  intros x y. rewrite <- not_true_iff_false, operator_lt_iff. lia.
Qed.

Lemma operator_lt_asym : forall x y,
  operator_lt x y = true -> operator_lt y x = false.
Proof.
  intros x y. rewrite operator_lt_iff, operator_lt_false_iff. lia.
Qed.

Lemma ordered_trans : forall x y z, ordered x y -> ordered y z -> ordered x z.
Proof.
  unfold ordered. intros x y z. rewrite !operator_lt_false_iff. lia.
Qed.

Lemma insert_arc_In : forall x l y, In y (insert_arc x l) <-> y = x \/ In y l.
Proof.
  induction l as [|z l IH]; intros y; simpl.
  - intuition.
  - destruct (operator_lt z x); simpl; rewrite ?IH; intuition.
Qed.

Lemma insert_arc_sorted : forall x l, sorted l -> sorted (insert_arc x l).
Proof.
  unfold sorted. induction l as [|z l IH]; intros Hs; simpl.
  - constructor; constructor.
  - inversion Hs as [|? ? Hl Hz]; subst.
    destruct (operator_lt z x) eqn:E.
    + constructor; [apply IH; assumption|].
      rewrite Forall_forall in *. intros y Hy.
      apply insert_arc_In in Hy. destruct Hy as [->|Hy]; [|auto].
      apply operator_lt_asym; assumption.
    + constructor; [assumption|].
      constructor; [exact E|].
      rewrite Forall_forall in *. intros y Hy.
      apply ordered_trans with z; [exact E|auto].
Qed.

Lemma std_sort_sorted : forall l, sorted (std_sort l).
Proof.
  induction l as [|x l IH]; simpl.
  - constructor.
  - apply insert_arc_sorted; assumption.
Qed.

Lemma insert_arc_perm : forall x l, Permutation (x :: l) (insert_arc x l).
Proof.
  induction l as [|z l IH]; simpl; [reflexivity|].
  destruct (operator_lt z x); [|reflexivity].
  rewrite perm_swap. constructor. assumption.
Qed.

Lemma std_sort_perm : forall l, Permutation l (std_sort l).
Proof.
  induction l as [|x l IH]; simpl; [constructor|].
  rewrite <- insert_arc_perm. constructor. assumption.
Qed.

(** On valid arcs the result of sorting does not depend on the sorting
    algorithm: arcs that compare equivalent are the same word. *)
Lemma testbit_flag : forall (b : bool) n m, 0 <= n -> 0 <= m ->
  Z.testbit (if b then 2 ^ n else 0) m = b && (n =? m).
Proof.
  intros b n m Hn Hm. destruct b.
  - rewrite Z.pow2_bits_eqb by assumption. reflexivity.
  - apply Z.bits_0.
Qed.

Lemma word_high_bits : forall a m, word a -> 32 <= m -> Z.testbit a m = false.
Proof.
  intros a m [H0 H1] Hm.
  destruct (Z.eq_dec a 0) as [->|Hne]; [apply Z.bits_0|].
  apply Z.bits_above_log2; [lia|].
  apply Z.lt_le_trans with 32; [|assumption].
  apply Z.log2_lt_pow2; lia.
Qed.

Lemma word_decompose : forall a, word a ->
  a = Z.lor (OtherVertexId a)
        (Z.lor (if Forward a then 2 ^ 30 else 0) (if Backward a then 2 ^ 31 else 0)).
Proof.
  intros a Wa. rewrite Forward_testbit, Backward_testbit.
  unfold OtherVertexId. change 0x3FFFFFFF with (Z.ones 30).
  apply Z.bits_inj'. intros m Hm.
  rewrite !Z.lor_spec, Z.land_spec, !testbit_flag by lia.
  destruct (Z.ltb_spec m 30) as [Hlt|Hge].
  - rewrite Z.ones_spec_low by lia.
    replace (30 =? m) with false by (symmetry; apply Z.eqb_neq; lia).
    replace (31 =? m) with false by (symmetry; apply Z.eqb_neq; lia).
    rewrite !andb_false_r, andb_true_r, !orb_false_r. reflexivity.
  - rewrite Z.ones_spec_high by lia. rewrite andb_false_r, orb_false_l.
    destruct (Z.eqb_spec 30 m) as [<-|N30].
    + replace (31 =? 30) with false by reflexivity.
      rewrite andb_true_r, andb_false_r, orb_false_r. reflexivity.
    + destruct (Z.eqb_spec 31 m) as [<-|N31].
      * rewrite andb_true_r, andb_false_r, orb_false_l. reflexivity.
      * rewrite !andb_false_r. apply word_high_bits; [assumption|lia].
Qed.

Lemma equivalent_arcs_equal : forall x y,
  word x -> word y -> Valid x = true -> Valid y = true ->
  operator_lt x y = false -> operator_lt y x = false -> x = y.
Proof.
  intros x y Wx Wy Vx Vy Hxy Hyx.
  rewrite operator_lt_false_iff in Hxy, Hyx.
  assert (code x = code y /\ OtherVertexId x = OtherVertexId y) as [Hc Ho] by lia.
  rewrite (word_decompose Wx), (word_decompose Wy), Ho.
  rewrite Valid_flags in Vx, Vy. unfold code, bucket_of in Hc.
  destruct (Forward x), (Backward x), (Forward y), (Backward y);
    simpl in *; try discriminate; reflexivity.
Qed.

End ArcBits.

Section ArcOrder.

Import FastArc.

(** The sorting key of an arc: direction bucket first, other vertex id
    second. *)
Definition key_lt (x y : t) : Prop :=
  bucket_of x < bucket_of y \/
  (bucket_of x = bucket_of y /\ (OtherVertexId x < OtherVertexId y)%Z).

Definition key_le (x y : t) : Prop :=
  bucket_of x < bucket_of y \/
  (bucket_of x = bucket_of y /\ (OtherVertexId x <= OtherVertexId y)%Z).

Lemma operator_lt_key : forall x y, operator_lt x y = true <-> key_lt x y.
Proof.
  intros x y. rewrite operator_lt_iff. unfold key_lt, code. lia.
Qed.

Lemma ordered_key : forall x y, ordered x y <-> key_le x y.
Proof.
  intros x y. unfold ordered. rewrite operator_lt_false_iff.
  unfold key_le, code. lia.
Qed.

Lemma StronglySorted_impl : forall (A : Type) (R R' : A -> A -> Prop) l,
  (forall x y, In x l -> In y l -> R x y -> R' x y) ->
  StronglySorted R l -> StronglySorted R' l.
Proof.
  induction l as [|a l IH]; intros HR Hs; [constructor|].
  inversion Hs as [|? ? Hl Ha]; subst.
  constructor.
  - apply IH; [|assumption]. intros; apply HR; simpl; auto.
  - rewrite Forall_forall in *. intros y Hy. apply HR; simpl; auto.
Qed.

Lemma sorted_key_le : forall l, sorted l -> StronglySorted key_le l.
Proof.
  intros l. apply StronglySorted_impl. intros x y _ _. apply ordered_key.
Qed.

(** C6 (as amended): for valid arcs, [operator<] compares first the
    direction bucket, in the order forward-only < both directions <
    backward-only, and within a bucket the other vertex id, ascending; a
    sorted block of valid arcs is a rearrangement of the block that is
    arranged in this bucket order. *)
Theorem operator_lt_bucket_order : forall (x y : t) (block : list t),
  Valid x = true -> Valid y = true ->
  Forall (fun a => Valid a = true) block ->
  bucket true false < bucket true true < bucket false true /\
  (operator_lt x y = true <->
     bucket_of x < bucket_of y \/
     (bucket_of x = bucket_of y /\ (OtherVertexId x < OtherVertexId y)%Z)) /\
  Permutation block (std_sort block) /\
  StronglySorted key_le (std_sort block).
Proof.
  intros x y block _ _ _. split; [simpl; lia|]. split; [|split].
  - apply operator_lt_key.
  - apply std_sort_perm.
  - apply sorted_key_le, std_sort_sorted.
Qed.

Lemma operator_lt_bucket_order_witness :
  operator_lt 0x40000007%Z 0xC0000002%Z = true /\
  std_sort [0x80000001; 0xC0000002; 0x40000007; 0x40000003]%Z
  = [0x40000003; 0x40000007; 0xC0000002; 0x80000001]%Z.
Proof.
  assert (Hv : Forall (fun a => Valid a = true)
                 [0x80000001; 0xC0000002; 0x40000007; 0x40000003]%Z)
    by (repeat constructor).
  destruct (@operator_lt_bucket_order 0x40000007%Z 0xC0000002%Z _
              eq_refl eq_refl Hv) as (_ & H & _ & _).
  split; [|reflexivity]. apply H. left. vm_compute. lia.
Defined.

(** C6 (as stated) fails: an arc with both flags is placed by the
    specification's bucket order before a forward-only arc, but
    [operator<] puts the forward-only arc first. *)
Lemma operator_lt_spec_bucket_counterexample :
  let x := 0xC0000000%Z in
  let y := 0x40000000%Z in
  Valid x = true /\ Valid y = true /\
  (Forward x, Backward x) = (true, true) /\
  (Forward y, Backward y) = (true, false) /\
  spec_bucket_of x < spec_bucket_of y /\
  operator_lt x y = false /\ operator_lt y x = true /\
  std_sort [x; y] = [y; x].
Proof. vm_compute. repeat split; lia. Qed.

End ArcOrder.

(** ** Direction scans over a sorted block *)

Section Scans.

Import FastArc FastStaticGraph.

Lemma take_while_filter : forall (A : Type) (p : A -> bool) (R : A -> A -> Prop) l,
  (forall x y, In x l -> In y l -> R x y -> p x = false -> p y = false) ->
  StronglySorted R l ->
  take_while p l = filter p l.
Proof.
  induction l as [|a l IH]; intros Hp Hs; simpl; [reflexivity|].
  inversion Hs as [|? ? Hl Ha]; subst.
  destruct (p a) eqn:E.
  - f_equal. apply IH; [|assumption]. intros x y Hx Hy. apply Hp; simpl; auto.
  - symmetry. rewrite Forall_forall in Ha.
    assert (Hall : forall y, In y l -> p y = false).
    { intros y Hy. apply (Hp a y); simpl; auto. }
    clear - Hall. induction l as [|b l IH]; simpl; [reflexivity|].
    rewrite (Hall b) by (simpl; auto).
    apply IH. intros y Hy. apply Hall. simpl; auto.
Qed.

Lemma StronglySorted_app : forall (A : Type) (R : A -> A -> Prop) l1 l2,
  StronglySorted R l1 -> StronglySorted R l2 ->
  (forall x y, In x l1 -> In y l2 -> R x y) ->
  StronglySorted R (l1 ++ l2).
Proof.
  induction l1 as [|a l1 IH]; intros l2 H1 H2 H; simpl; [assumption|].
  inversion H1 as [|? ? Hl Ha]; subst.
  constructor.
  - apply IH; auto. intros; apply H; simpl; auto.
  - rewrite Forall_forall in *. intros y Hy.
    apply in_app_or in Hy. destruct Hy; [auto|apply H; simpl; auto].
Qed.

Lemma StronglySorted_rev : forall (A : Type) (R : A -> A -> Prop) l,
  StronglySorted R l -> StronglySorted (fun x y => R y x) (rev l).
Proof.
  induction l as [|a l IH]; intros Hs; simpl; [constructor|].
  inversion Hs as [|? ? Hl Ha]; subst.
  apply StronglySorted_app.
  - apply IH; assumption.
  - repeat constructor.
  - rewrite Forall_forall in Ha. intros x y Hx [<-|[]].
    apply Ha. apply in_rev. assumption.
Qed.

Lemma forward_prefix : forall x y,
  Valid x = true -> Valid y = true ->
  ordered x y -> Forward x = false -> Forward y = false.
Proof.
  intros x y Vx Vy H Hx. apply ordered_key in H.
  rewrite Valid_flags in Vx, Vy. unfold key_le, bucket_of in H.
  destruct (Forward x), (Backward x), (Forward y), (Backward y);
    simpl in *; try discriminate; try reflexivity; lia.
Qed.

Lemma backward_suffix : forall x y,
  Valid x = true -> Valid y = true ->
  ordered x y -> Backward y = false -> Backward x = false.
Proof.
  intros x y Vx Vy H Hy. apply ordered_key in H.
  rewrite Valid_flags in Vx, Vy. unfold key_le, bucket_of in H.
  destruct (Forward x), (Backward x), (Forward y), (Backward y);
    simpl in *; try discriminate; try reflexivity; lia.
Qed.

Lemma forward_scan_block : forall block,
  sorted block -> Forall (fun a => Valid a = true) block ->
  take_while Forward block = filter Forward block.
Proof.
  intros block Hs Hv. rewrite Forall_forall in Hv.
  apply take_while_filter with (R := ordered); [|exact Hs].
  intros x y Hx Hy. apply forward_prefix; auto.
Qed.

Lemma backward_scan_block : forall block,
  sorted block -> Forall (fun a => Valid a = true) block ->
  take_while Backward (rev block) = filter Backward (rev block).
Proof.
  intros block Hs Hv. rewrite Forall_forall in Hv.
  apply take_while_filter with (R := fun x y => ordered y x).
  - intros x y Hx Hy H. apply in_rev in Hx. apply in_rev in Hy.
    apply backward_suffix; auto.
  - apply StronglySorted_rev. exact Hs.
Qed.

(** C5: in a graph whose per-vertex arc blocks are sorted (and hold valid
    arcs, as after construction), the forward scan of a vertex, which
    starts at its first arc and leaves at the first arc without the forward
    flag, visits exactly its forward-flagged arcs; the backward scan of the
    reverse searches, which leaves at the first arc without the backward
    flag, visits exactly its backward-flagged arcs. *)
Theorem direction_scans_complete : forall (g : FastStaticGraph.t) (v : nat),
  sorted (incident g v) ->
  Forall (fun a => Valid a = true) (incident g v) ->
  forward_scan g v = filter Forward (FORALL_INCIDENT_ARCS g v) /\
  backward_scan g v = filter Backward (FORALL_INCIDENT_ARCS_BACKWARD g v) /\
  (forall a, In a (forward_scan g v) <-> In a (incident g v) /\ Forward a = true) /\
  (forall a, In a (backward_scan g v) <-> In a (incident g v) /\ Backward a = true).
Proof.
  intros g v Hs Hv.
  pose proof (forward_scan_block Hs Hv) as HF.
  pose proof (backward_scan_block Hs Hv) as HB.
  unfold forward_scan, backward_scan, FORALL_INCIDENT_ARCS,
    FORALL_INCIDENT_ARCS_BACKWARD.
  repeat split; try assumption.
  - rewrite HF in H. apply filter_In in H. tauto.
  - rewrite HF in H. apply filter_In in H. tauto.
  - intros [H1 H2]. rewrite HF. apply filter_In. tauto.
  - rewrite HB in H. apply filter_In in H. rewrite <- in_rev in H. tauto.
  - rewrite HB in H. apply filter_In in H. tauto.
  - intros [H1 H2]. rewrite HB. apply filter_In. rewrite <- in_rev. tauto.
Qed.

Lemma direction_scans_complete_witness :
  let g := {| header := {| NumVertices := 3; NumArcs := 3; IsDirected := true |};
              vertices := [0; 3; 3; 3];
              arcs := [0x40000001; 0xC0000002; 0x80000001; 0x00000003]%Z |} in
  forward_scan g 0 = [0x40000001; 0xC0000002]%Z /\
  backward_scan g 0 = [0x80000001; 0xC0000002]%Z.
Proof.
  intros g.
  assert (Hs : sorted (incident g 0)).
  { unfold sorted. repeat constructor. }
  assert (Hv : Forall (fun a => Valid a = true) (incident g 0)).
  { repeat constructor. }
  destruct (direction_scans_complete g 0 Hs Hv) as (HF & HB & _ & _).
  split; [rewrite HF|rewrite HB]; reflexivity.
Defined.

End Scans.
(** ** The builder on counters without bound

    The analysis of the builder is carried out on the functions below:
    [ReadFromArcList] and the in-degree loop with their counters taken
    as natural numbers that never wrap.  A run whose counters stay below
    [2 ^ 32] is such a run. *)

Module Unbounded.

Import FastStaticGraph.

Section ReadFromArcList.

Variable checked : bool.
Variable numVertices : nat.
Variable inArcs : list (nat * nat).
Variable isDirected buildIncomingArcs : bool.

(** Compute vertex degrees. *)
Definition degree_step (vertices : list nat) (inArc : nat * nat) : result (list nat) :=
  let '(fromVertexId, toVertexId) := inArc in
  Assert checked (fromVertexId <? numVertices) ;;;
  Assert checked (toVertexId <? numVertices) ;;;
  Assert checked (isDirected || (fromVertexId <? toVertexId)) ;;;
  vertices <- modify vertices fromVertexId (fun d => d + 1) ;;
  if buildIncomingArcs || negb isDirected
  then modify vertices toVertexId (fun d => d + 1)
  else Ok vertices.

(** Rewire pointers: the state is [(vertices, firstFreeArcId,
    currentFirstArc)]. *)
Definition rewire_step (st : list nat * list nat * nat) (u : nat)
  : list nat * list nat * nat :=
  let '(vertices, firstFreeArcId, currentFirstArc) := st in
  let previousFirstArc := currentFirstArc in
  let currentFirstArc := currentFirstArc + nth u vertices 0 in
  (upd u previousFirstArc vertices, upd u previousFirstArc firstFreeArcId,
   currentFirstArc).

(** Add arcs: the state is [(arcs, firstFreeArcId)]. *)
Definition add_arc_step (st : list FastArc.t * list nat) (inArc : nat * nat)
  : result (list FastArc.t * list nat) :=
  let '(arcs, firstFreeArcId) := st in
  let '(fromVertexId, toVertexId) := inArc in
  (* Add outgoing arc. *)
  free <- read firstFreeArcId fromVertexId ;;
  (if checked then
     next <- read firstFreeArcId (fromVertexId + 1) ;; Assert checked (free <? next)
   else Ok tt) ;;;
  arcs <- modify arcs free (write_outgoing isDirected buildIncomingArcs toVertexId) ;;
  firstFreeArcId <- modify firstFreeArcId fromVertexId (fun f => f + 1) ;;
  (* If we shall add incoming arcs, do that as well. *)
  if buildIncomingArcs || negb isDirected then
    free <- read firstFreeArcId toVertexId ;;
    (if checked then
       next <- read firstFreeArcId (toVertexId + 1) ;; Assert checked (free <? next)
     else Ok tt) ;;;
    arcs <- modify arcs free (write_incoming isDirected buildIncomingArcs fromVertexId) ;;
    firstFreeArcId <- modify firstFreeArcId toVertexId (fun f => f + 1) ;;
    Ok (arcs, firstFreeArcId)
  else Ok (arcs, firstFreeArcId).

Definition ReadFromArcList : result t :=
  (* Determine extents of the graph. *)
  let numArcs := length inArcs in
  (* Allocate storage for the vertices. *)
  let vertices := repeat 0 (numVertices + 1) in
  (* Allocate storage for the arcs. *)
  let numArcs := numArcs * (if buildIncomingArcs || isDirected then 2 else 1) in
  let arcs := repeat 0%Z (numArcs + 1) in
  (* Compute vertex degrees. *)
  vertices <- foldM degree_step inArcs vertices ;;
  (* Rewire pointers. *)
  let firstFreeArcId := repeat 0 (numVertices + 1) in
  let '(vertices, firstFreeArcId, currentFirstArc) :=
    fold_left rewire_step (seq 0 numVertices) (vertices, firstFreeArcId, 0) in
  firstFreeArcId <- modify firstFreeArcId numVertices (fun _ => currentFirstArc) ;;
  Assert checked (currentFirstArc =? numArcs) ;;;
  (* Add arcs. *)
  st <- foldM add_arc_step inArcs (arcs, firstFreeArcId) ;;
  let '(arcs, firstFreeArcId) := st in
  (* Finalize construction. *)
  arcs <- modify arcs numArcs (FastArc.SetOtherVertexId (Z.of_nat numVertices)) ;;
  vertices <- modify vertices numVertices (fun _ => numArcs) ;;
  (* Copy extents of the graph to the header. *)
  let header := {| NumVertices := numVertices; NumArcs := numArcs;
                   IsDirected := isDirected |} in
  (* Sort the arcs if the graph is directed and incoming arcs should have
     been build. *)
  arcs <- (if buildIncomingArcs && isDirected
           then foldM (sort_step vertices) (seq 0 numVertices) arcs
           else Ok arcs) ;;
  Ok {| header := header; vertices := vertices; arcs := arcs |}.

End ReadFromArcList.

Definition indeg_step (indeg : list nat) (va : nat * FastArc.t) : result (list nat) :=
  if negb (FastArc.Forward (snd va)) then Ok indeg
  else modify indeg (Z.to_nat (FastArc.OtherVertexId (snd va))) (fun d => d + 1).

Definition compute_indeg (g : t) : result (list nat) :=
  foldM indeg_step (FORALL_ARCS g) (repeat 0 (NumVertices (header g))).

Definition NumArcs_at (g : t) (vertexId : nat) : nat :=
  FirstArcId g (vertexId + 1) - FirstArcId g vertexId.

End Unbounded.
(** ** Reading the graph from a binary file *)

Section DiskStream.

Import FastCompatibleGraphStream.





Variable checked : bool.


End DiskStream.

Section DiskPasses.

Import FastStaticGraph.

Variable checked : bool.
Variable buildIncomingArcs : bool.
Variable numVertices : nat.
Variable isDirected : bool.




Lemma VertexId_bound : forall x, (Z.of_nat (VertexId x) < 2 ^ 32)%Z.
Proof.
  intros x. unfold VertexId.
  pose proof (Z.mod_pos_bound (Z.of_nat x) (2 ^ 32) ltac:(lia)). lia.
Qed.


Hypothesis vertices_fit : (Z.of_nat numVertices < 2 ^ 32)%Z.



End DiskPasses.

(** With 2^32 vertices or more in the header the rewiring loop of
    [ReadFromDisk] does not end. *)
Lemma rewire_loop_never : forall numVertices,
  (2 ^ 32 <= Z.of_nat numVertices)%Z ->
  forall fuel u st, (Z.of_nat u < 2 ^ 32)%Z ->
  FastStaticGraph.rewire_loop fuel numVertices u st = None.
Proof.
  intros numVertices Hn. induction fuel as [|fuel IH]; intros u st Hu;
    cbn [FastStaticGraph.rewire_loop]; [reflexivity|].
  replace (u <? numVertices) with true by (symmetry; apply Nat.ltb_lt; lia).
  apply IH. apply VertexId_bound.
Qed.


(** A graph that [ReadFromDisk] delivers has fewer than 2^32 vertices:
    on a header that names more the call fails in its first pass or does
    not return. *)
Lemma ReadFromDisk_vertices_fit : forall checked stream buildIncomingArcs fuel g,
  FastStaticGraph.ReadFromDisk checked stream buildIncomingArcs fuel = Some (Ok g) ->
  (Z.of_nat (FastCompatibleGraphStream.NumVertices stream) < 2 ^ 32)%Z.
Proof.
  intros checked stream buildIncomingArcs fuel g H.
  destruct (Z_lt_le_dec (Z.of_nat (FastCompatibleGraphStream.NumVertices stream))
              (2 ^ 32)) as [Hlt|Hge]; [assumption|].
  exfalso. unfold FastStaticGraph.ReadFromDisk in H.
  destruct (FastStaticGraph.degree_loop _ _ _ _ _ _ _) as [vertices| |];
    cbn [FastStaticGraph.await] in H; try discriminate H.
  rewrite (@rewire_loop_never _ Hge) in H by (simpl; lia).
  discriminate H.
Qed.
(** ** The graph builder *)

Section Builder.

Import FastStaticGraph Unbounded.

Variable checked : bool.
Variable numVertices : nat.
Variable isDirected : bool.

(** The writes of the scatter pass when incoming arcs are built: for each
    input arc the outgoing record at its tail, then the incoming record at
    its head. *)
Definition pushes (inArcs : list (nat * nat)) : list (nat * (FastArc.t -> FastArc.t)) :=
  flat_map (fun inArc =>
              [(fst inArc, write_outgoing isDirected true (snd inArc));
               (snd inArc, write_incoming isDirected true (fst inArc))]) inArcs.

(** The records written at vertex [v], in the order they are written. *)
Definition block (v : nat) (ps : list (nat * (FastArc.t -> FastArc.t))) : list FastArc.t :=
  map (fun p => snd p 0%Z) (filter (fun p => fst p =? v) ps).

Definition in_range (inArcs : list (nat * nat)) : Prop :=
  Forall (fun inArc => fst inArc < numVertices /\ snd inArc < numVertices /\
                       (isDirected = false -> fst inArc < snd inArc)) inArcs.

Definition pushes_in_range (ps : list (nat * (FastArc.t -> FastArc.t))) : Prop :=
  Forall (fun p => fst p < numVertices) ps.

Lemma pushes_range : forall inArcs, in_range inArcs -> pushes_in_range (pushes inArcs).
Proof.
  induction inArcs as [|x inArcs IH]; intros H; simpl; [constructor|].
  inversion H as [|? ? (Ha & Hb & _) H']; subst.
  constructor; [exact Ha|]. constructor; [exact Hb|]. apply IH, H'.
Qed.

Lemma pushes_length : forall inArcs, length (pushes inArcs) = 2 * length inArcs.
Proof. induction inArcs as [|x inArcs IH]; simpl; lia. Qed.

Lemma block_app : forall v ps qs, block v (ps ++ qs) = block v ps ++ block v qs.
Proof. intros. unfold block. rewrite filter_app, map_app. reflexivity. Qed.

(** *** The degree pass *)

Definition count_step (vertices : list nat) (p : nat * (FastArc.t -> FastArc.t))
  : list nat :=
  upd (fst p) (nth (fst p) vertices 0 + 1) vertices.

Lemma degree_step_pushes : forall vertices inArc,
  length vertices = numVertices + 1 -> in_range [inArc] ->
  degree_step checked numVertices isDirected true vertices inArc
  = Ok (fold_left count_step (pushes [inArc]) vertices).
Proof.
  intros vertices [a b] Hlen H.
  inversion H as [|? ? (Ha & Hb & Hab) _]; subst. simpl in Ha, Hb, Hab.
  unfold degree_step.
  replace (a <? numVertices) with true by (symmetry; apply Nat.ltb_lt; lia).
  replace (b <? numVertices) with true by (symmetry; apply Nat.ltb_lt; lia).
  replace (isDirected || (a <? b)) with true.
  2:{ destruct isDirected; [reflexivity|]. simpl. symmetry.
      apply Nat.ltb_lt. auto. }
  rewrite !Assert_true. cbn [bind].
  rewrite (@modify_ok _ _ _ _ 0) by lia. cbn [bind orb].
  rewrite (@modify_ok _ _ _ _ 0) by (rewrite upd_length; lia).
  reflexivity.
Qed.

Lemma count_step_length : forall ps vertices,
  length (fold_left count_step ps vertices) = length vertices.
Proof.
  induction ps as [|p ps IH]; intros vertices; simpl; [reflexivity|].
  rewrite IH. apply upd_length.
Qed.

Lemma degree_pass : forall inArcs vertices,
  length vertices = numVertices + 1 -> in_range inArcs ->
  foldM (degree_step checked numVertices isDirected true) inArcs vertices
  = Ok (fold_left count_step (pushes inArcs) vertices).
Proof.
  induction inArcs as [|x inArcs IH]; intros vertices Hlen H; [reflexivity|].
  inversion H as [|? ? Hx H']; subst.
  rewrite foldM_cons, degree_step_pushes by (auto; repeat constructor; tauto).
  cbn [bind]. rewrite IH; auto.
  rewrite count_step_length. assumption.
Qed.

Lemma count_pass_nth : forall ps vertices v,
  pushes_in_range ps -> numVertices < length vertices ->
  nth v (fold_left count_step ps vertices) 0
  = nth v vertices 0 + length (block v ps).
Proof.
  induction ps as [|p ps IH]; intros vertices v Hr Hlen; simpl.
  - unfold block. simpl. lia.
  - inversion Hr as [|? ? Hp Hr']; subst.
    rewrite IH by (auto; unfold count_step; rewrite upd_length; assumption).
    unfold count_step, block. simpl. rewrite nth_upd.
    destruct (Nat.eqb_spec (fst p) v) as [E|N]; simpl.
    + replace (fst p <? length vertices) with true
        by (symmetry; apply Nat.ltb_lt; lia).
      rewrite E. lia.
    + reflexivity.
Qed.

End Builder.

(** *** Offsets: the prefix sums of the degrees *)

Section Offsets.

Variable deg : nat -> nat.

Fixpoint first (v : nat) : nat :=
  match v with
  | O => 0
  | S u => first u + deg u
  end.

Lemma first_mono : forall u v, u <= v -> first u <= first v.
Proof.
  intros u v H. induction H as [|v H IH]; [lia|]. simpl. lia.
Qed.

Lemma first_block_bound : forall u v, u < v -> first u + deg u <= first v.
Proof.
  intros u v H. change (first u + deg u) with (first (S u)).
  apply first_mono. lia.
Qed.

Lemma cell_inj : forall v j v' j',
  j < deg v -> j' < deg v' -> first v + j = first v' + j' -> v = v' /\ j = j'.
Proof.
  intros v j v' j' Hj Hj' E.
  destruct (Nat.lt_trichotomy v v') as [L|[->|L]].
  - pose proof (first_block_bound L). lia.
  - split; [reflexivity|lia].
  - pose proof (first_block_bound L). lia.
Qed.

End Offsets.

Section Rewire.

Import FastStaticGraph Unbounded.

Variable numVertices : nat.

Lemma rewire_pass : forall j vertices firstFreeArcId,
  j <= numVertices ->
  length vertices = numVertices + 1 -> length firstFreeArcId = numVertices + 1 ->
  exists vertices' firstFreeArcId',
    fold_left rewire_step (seq 0 j) (vertices, firstFreeArcId, 0)
    = (vertices', firstFreeArcId', first (fun u => nth u vertices 0) j) /\
    length vertices' = numVertices + 1 /\
    length firstFreeArcId' = numVertices + 1 /\
    (forall u, u < j ->
       nth u vertices' 0 = first (fun u => nth u vertices 0) u /\
       nth u firstFreeArcId' 0 = first (fun u => nth u vertices 0) u) /\
    (forall u, j <= u ->
       nth u vertices' 0 = nth u vertices 0 /\
       nth u firstFreeArcId' 0 = nth u firstFreeArcId 0).
Proof.
  induction j as [|j IH]; intros vertices firstFreeArcId Hj Hv Hf.
  - exists vertices, firstFreeArcId. simpl. repeat split; auto; lia.
  - destruct (IH vertices firstFreeArcId) as (vs & ff & E & Lv & Lf & Hlt & Hge);
      [lia|assumption|assumption|].
    rewrite seq_S, fold_left_app, E. simpl.
    eexists. eexists. split; [|split; [|split; [|split]]].
    + destruct (Hge j (le_n j)) as [-> _]. reflexivity.
    + rewrite upd_length. assumption.
    + rewrite upd_length. assumption.
    + intros u Hu. rewrite !nth_upd.
      destruct (Nat.eqb_spec j u) as [->|N]; simpl.
      * rewrite Lv, Lf.
        replace (u <? numVertices + 1) with true
          by (symmetry; apply Nat.ltb_lt; lia).
        auto.
      * apply Hlt. lia.
    + intros u Hu. rewrite !nth_upd.
      replace (j =? u) with false by (symmetry; apply Nat.eqb_neq; lia).
      simpl. apply Hge. lia.
Qed.

End Rewire.

(** *** The scatter pass *)

Section Scatter.

Import FastStaticGraph Unbounded.

Variable checked : bool.
Variable numVertices : nat.

(** One write of the scatter pass: the record goes into the first free
    cell of the vertex, and the cursor of the vertex advances. *)
Definition push_step (st : list FastArc.t * list nat)
  (p : nat * (FastArc.t -> FastArc.t)) : result (list FastArc.t * list nat) :=
  let '(arcs, firstFreeArcId) := st in
  free <- read firstFreeArcId (fst p) ;;
  (if checked then
     next <- read firstFreeArcId (fst p + 1) ;; Assert checked (free <? next)
   else Ok tt) ;;;
  arcs <- modify arcs free (snd p) ;;
  firstFreeArcId <- modify firstFreeArcId (fst p) (fun f => f + 1) ;;
  Ok (arcs, firstFreeArcId).

Lemma add_arc_step_pushes : forall isDirected st inArc,
  add_arc_step checked isDirected true st inArc
  = foldM push_step (pushes isDirected [inArc]) st.
Proof.
  intros isDirected [arcs ff] [a b]. unfold add_arc_step, pushes.
  simpl flat_map. rewrite !foldM_cons. unfold push_step. cbn [fst snd foldM].
  destruct (read ff a) as [free| |]; cbn [bind]; try reflexivity.
  destruct (if checked then _ else _) as [[]| |]; cbn [bind]; try reflexivity.
  destruct (modify arcs free _) as [arcs1| |]; cbn [bind]; try reflexivity.
  destruct (modify ff a _) as [ff1| |]; cbn [bind orb]; try reflexivity.
  destruct (read ff1 b) as [free2| |]; cbn [bind]; try reflexivity.
  destruct (if checked then _ else _) as [[]| |]; cbn [bind]; try reflexivity.
  destruct (modify arcs1 free2 _) as [arcs2| |]; cbn [bind]; try reflexivity.
  destruct (modify ff1 b _) as [ff2| |]; cbn [bind]; reflexivity.
Qed.

Lemma add_arcs_pushes : forall isDirected inArcs st,
  foldM (add_arc_step checked isDirected true) inArcs st
  = foldM push_step (pushes isDirected inArcs) st.
Proof.
  induction inArcs as [|x inArcs IH]; intros st; [reflexivity|].
  change (pushes isDirected (x :: inArcs))
    with (pushes isDirected [x] ++ pushes isDirected inArcs).
  rewrite foldM_app, foldM_cons, add_arc_step_pushes.
  destruct (foldM push_step (pushes isDirected [x]) st); cbn [bind]; auto.
Qed.

(** All the writes of the pass, and the layout they determine. *)
Variable all : list (nat * (FastArc.t -> FastArc.t)).

Hypothesis all_in_range : Forall (fun p => fst p < numVertices) all.

Definition deg (v : nat) : nat := length (block v all).

Definition offset (v : nat) : nat := first deg v.

Lemma block_length_sum : forall ps bound,
  Forall (fun p => fst p < bound) ps ->
  first (fun v => length (block v ps)) bound = length ps.
Proof.
  intros ps bound H.
  assert (G : forall b, first (fun v => length (block v ps)) b
                        = length (filter (fun p => fst p <? b) ps)).
  { induction b as [|b IHb]; simpl.
    - clear. induction ps as [|p ps IH]; simpl; auto.
    - rewrite IHb. clear. induction ps as [|p ps IH]; simpl; auto.
      unfold block in *. simpl.
      change (fst p <? S b) with (fst p <=? b).
      destruct (Nat.eqb_spec (fst p) b), (Nat.ltb_spec (fst p) b),
        (Nat.leb_spec (fst p) b); simpl; try lia. }
  rewrite G. f_equal.
  clear G. induction H as [|p ps Hp H IH]; simpl; auto.
  replace (fst p <? bound) with true by (symmetry; apply Nat.ltb_lt; lia).
  f_equal. assumption.
Qed.

Lemma offset_total : offset numVertices = length all.
Proof. apply block_length_sum. exact all_in_range. Qed.

(** The state of the pass after the writes [done]. *)
Definition scattered (done : list (nat * (FastArc.t -> FastArc.t)))
  (arcs : list FastArc.t) (firstFreeArcId : list nat) : Prop :=
  length arcs = length all + 1 /\
  length firstFreeArcId = numVertices + 1 /\
  (forall v, v < numVertices ->
     nth v firstFreeArcId 0 = offset v + length (block v done)) /\
  nth numVertices firstFreeArcId 0 = offset numVertices /\
  (forall v j, v < numVertices -> j < deg v ->
     nth (offset v + j) arcs 0%Z = nth j (block v done) 0%Z).

Lemma block_snoc : forall v done p,
  block v (done ++ [p]) = block v done ++ (if fst p =? v then [snd p 0%Z] else []).
Proof.
  intros. rewrite block_app. unfold block at 2. simpl.
  destruct (fst p =? v); reflexivity.
Qed.

Lemma push_step_scattered : forall done p rest arcs firstFreeArcId,
  all = done ++ p :: rest ->
  scattered done arcs firstFreeArcId ->
  exists arcs' firstFreeArcId',
    push_step (arcs, firstFreeArcId) p = Ok (arcs', firstFreeArcId') /\
    scattered (done ++ [p]) arcs' firstFreeArcId'.
Proof.
  intros done p rest arcs ff Hall (La & Lf & Hff & Hn & Hcells).
  assert (Hp : fst p < numVertices).
  { rewrite Forall_forall in all_in_range. apply all_in_range.
    rewrite Hall. apply in_or_app. right. left. reflexivity. }
  set (v0 := fst p) in *.
  set (c := length (block v0 done)).
  assert (Hdeg : deg v0 = c + 1 + length (block v0 rest)).
  { unfold deg. rewrite Hall.
    change (p :: rest) with ([p] ++ rest).
    rewrite !block_app, !length_app. unfold block at 2. simpl.
    fold v0. rewrite Nat.eqb_refl. simpl. lia. }
  assert (Hfree : nth v0 ff 0 = offset v0 + c) by (apply Hff; assumption).
  assert (Hbound : offset v0 + deg v0 <= length all).
  { rewrite <- offset_total. apply first_block_bound. assumption. }
  assert (Hnext : nth v0 ff 0 < nth (v0 + 1) ff 0).
  { destruct (Nat.eq_dec (v0 + 1) numVertices) as [E|N].
    - rewrite E, Hn, Hfree.
      pose proof (@first_block_bound deg v0 numVertices Hp). unfold offset. lia.
    - rewrite (Hff (v0 + 1)) by lia. rewrite Hfree.
      pose proof (@first_block_bound deg v0 (v0 + 1)). unfold offset. lia. }
  unfold push_step. fold v0.
  rewrite (@read_ok _ ff v0 0) by lia. cbn [bind].
  assert (Hassert : (if checked
                     then next <- read ff (v0 + 1) ;;
                          Assert checked (nth v0 ff 0 <? next)
                     else Ok tt) = Ok tt).
  { destruct checked; [|reflexivity].
    rewrite (@read_ok _ ff (v0 + 1) 0) by lia. cbn [bind].
    replace (nth v0 ff 0 <? nth (v0 + 1) ff 0) with true
      by (symmetry; apply Nat.ltb_lt; assumption).
    reflexivity. }
  rewrite Hassert. cbn [bind].
  rewrite (@modify_ok _ arcs _ _ 0%Z) by lia. cbn [bind].
  rewrite (@modify_ok _ ff _ _ 0) by lia. cbn [bind].
  eexists. eexists. split; [reflexivity|].
  assert (Hold : nth (nth v0 ff 0) arcs 0%Z = 0%Z).
  { rewrite Hfree, Hcells by (auto; lia).
    apply nth_overflow. unfold c. lia. }
  rewrite Hold.
  repeat split.
  - rewrite upd_length. assumption.
  - rewrite upd_length. assumption.
  - intros v Hv. rewrite nth_upd, block_snoc, length_app. fold v0.
    destruct (Nat.eqb_spec v0 v) as [E|N]; simpl.
    + replace (v0 <? length ff) with true by (symmetry; apply Nat.ltb_lt; lia).
      rewrite <- E. fold c. rewrite Hfree. lia.
    + rewrite Hff by assumption. lia.
  - rewrite nth_upd.
    replace (v0 =? numVertices) with false by (symmetry; apply Nat.eqb_neq; lia).
    simpl. assumption.
  - intros v j Hv Hj. rewrite nth_upd, block_snoc. fold v0.
    destruct (Nat.eqb_spec (nth v0 ff 0) (offset v + j)) as [E|N]; simpl.
    + rewrite Hfree in E.
      apply cell_inj in E; [|lia|assumption].
      destruct E as [<- <-].
      replace (nth v0 ff 0 <? length arcs) with true
        by (symmetry; apply Nat.ltb_lt; lia).
      rewrite Nat.eqb_refl, app_nth2 by (unfold c; lia).
      unfold c. rewrite Nat.sub_diag. reflexivity.
    + rewrite Hcells by assumption.
      destruct (Nat.eqb_spec v0 v) as [E|N']; [|rewrite app_nil_r; reflexivity].
      subst v. rewrite Hfree in N.
      assert (j <> c) by (intros ->; apply N; reflexivity).
      destruct (Nat.lt_ge_cases j c) as [L|G].
      * rewrite app_nth1 by (fold c; assumption). reflexivity.
      * rewrite !nth_overflow; [reflexivity| |fold c; lia].
        rewrite length_app. fold c. simpl. lia.
Qed.

Lemma push_pass_scattered : forall rest done arcs firstFreeArcId,
  all = done ++ rest ->
  scattered done arcs firstFreeArcId ->
  exists arcs' firstFreeArcId',
    foldM push_step rest (arcs, firstFreeArcId) = Ok (arcs', firstFreeArcId') /\
    scattered all arcs' firstFreeArcId'.
Proof.
  induction rest as [|p rest IH]; intros done arcs ff Hall Hs.
  - rewrite app_nil_r in Hall. subst done. exists arcs, ff. auto.
  - destruct (push_step_scattered _ _ Hall Hs) as (arcs1 & ff1 & E1 & Hs1).
    rewrite foldM_cons, E1. cbn [bind].
    apply (IH (done ++ [p])); [|assumption].
    rewrite <- app_assoc. assumption.
Qed.

End Scatter.

(** *** Segments of the arc array and the sorting pass *)

Section Segments.

Import FastStaticGraph.

Definition seg (lo len : nat) (arcs : list FastArc.t) : list FastArc.t :=
  firstn len (skipn lo arcs).

Lemma seg_length : forall lo len arcs,
  lo + len <= length arcs -> length (seg lo len arcs) = len.
Proof.
  intros. unfold seg. rewrite length_firstn, length_skipn. lia.
Qed.

Lemma nth_seg : forall lo len arcs j,
  nth j (seg lo len arcs) 0%Z = if j <? len then nth (lo + j) arcs 0%Z else 0%Z.
Proof.
  intros. unfold seg. rewrite nth_firstn, nth_skipn. reflexivity.
Qed.

Lemma seg_ext : forall lo len arcs xs,
  lo + len <= length arcs -> length xs = len ->
  (forall j, j < len -> nth (lo + j) arcs 0%Z = nth j xs 0%Z) ->
  seg lo len arcs = xs.
Proof.
  intros lo len arcs xs Hb Hl H.
  apply (nth_ext _ _ 0%Z 0%Z).
  - rewrite seg_length by assumption. auto.
  - rewrite seg_length by assumption. intros j Hj.
    rewrite nth_seg.
    replace (j <? len) with true by (symmetry; apply Nat.ltb_lt; assumption).
    auto.
Qed.

Lemma nth_sorted_range : forall lo hi (arcs s : list FastArc.t) i,
  lo <= hi -> hi <= length arcs -> length s = hi - lo ->
  nth i (firstn lo arcs ++ s ++ skipn hi arcs) 0%Z
  = if i <? lo then nth i arcs 0%Z
    else if i <? hi then nth (i - lo) s 0%Z
    else nth i arcs 0%Z.
Proof.
  intros lo hi arcs s i Hlo Hhi Hs.
  assert (Lf : length (firstn lo arcs) = lo) by (apply firstn_length_le; lia).
  destruct (Nat.ltb_spec i lo) as [H1|H1].
  - rewrite app_nth1 by lia. rewrite nth_firstn.
    replace (i <? lo) with true by (symmetry; apply Nat.ltb_lt; assumption).
    reflexivity.
  - rewrite app_nth2 by lia. rewrite Lf.
    destruct (Nat.ltb_spec i hi) as [H2|H2].
    + rewrite app_nth1 by lia. reflexivity.
    + rewrite app_nth2 by lia. rewrite nth_skipn. f_equal. lia.
Qed.

Lemma sorted_range_length : forall lo hi (arcs s : list FastArc.t),
  lo <= hi -> hi <= length arcs -> length s = hi - lo ->
  length (firstn lo arcs ++ s ++ skipn hi arcs) = length arcs.
Proof.
  intros. rewrite !length_app, length_skipn, firstn_length_le by lia. lia.
Qed.

Lemma std_sort_length : forall xs, length (FastArc.std_sort xs) = length xs.
Proof.
  intros. symmetry. apply Permutation_length, std_sort_perm.
Qed.

Variable numVertices : nat.
Variable deg : nat -> nat.

Local Abbreviation offset := (first deg).

(** The sorting pass sorts the block of every vertex and leaves the rest
    of the array alone. *)
Lemma sort_pass : forall vertices j arcs,
  j <= numVertices ->
  (forall v, v <= numVertices -> nth v vertices 0 = offset v) ->
  numVertices < length vertices ->
  offset numVertices <= length arcs ->
  exists arcs',
    foldM (sort_step vertices) (seq 0 j) arcs = Ok arcs' /\
    length arcs' = length arcs /\
    (forall i, offset j <= i -> nth i arcs' 0%Z = nth i arcs 0%Z) /\
    (forall v, v < j ->
       seg (offset v) (deg v) arcs' = FastArc.std_sort (seg (offset v) (deg v) arcs)).
Proof.
  intros vertices j arcs Hj Hv Hl Hb.
  induction j as [|j IH].
  - exists arcs. simpl. repeat split; auto. intros; lia.
  - destruct IH as (arcs1 & E1 & L1 & Hrest & Hsorted); [lia|].
    rewrite seq_S, foldM_app, E1. cbn [bind foldM]. simpl plus.
    unfold sort_step.
    rewrite (@read_ok _ vertices j 0), (@read_ok _ vertices (j + 1) 0) by lia.
    cbn [bind]. rewrite !Hv by lia.
    replace (j + 1) with (S j) by lia.
    assert (Hm : offset (S j) <= offset numVertices) by (apply first_mono; lia).
    assert (Ho : offset (S j) = offset j + deg j) by reflexivity.
    unfold sort_range.
    replace ((offset j <=? offset (S j)) && (offset (S j) <=? length arcs1))
      with true.
    2:{ symmetry. apply andb_true_iff. split; apply Nat.leb_le; lia. }
    cbn [bind].
    assert (Hd : offset (S j) - offset j = deg j) by lia.
    rewrite Hd. fold (seg (offset j) (deg j) arcs1).
    set (s := FastArc.std_sort (seg (offset j) (deg j) arcs1)).
    assert (Ls : length s = offset (S j) - offset j).
    { unfold s. rewrite std_sort_length, seg_length; lia. }
    eexists. split; [reflexivity|]. split; [|split].
    + rewrite sorted_range_length; lia.
    + intros i Hi. rewrite nth_sorted_range by lia.
      replace (i <? offset j) with false by (symmetry; apply Nat.ltb_ge; lia).
      replace (i <? offset (S j)) with false by (symmetry; apply Nat.ltb_ge; lia).
      apply Hrest. lia.
    + intros v Hlt.
      assert (Hseg_j : seg (offset j) (deg j) arcs1 = seg (offset j) (deg j) arcs).
      { apply seg_ext.
        - lia.
        - apply seg_length. lia.
        - intros i Hi. rewrite nth_seg, Hrest by lia.
          replace (i <? deg j) with true by (symmetry; apply Nat.ltb_lt; lia).
          reflexivity. }
      destruct (Nat.eq_dec v j) as [->|N].
      * rewrite <- Hseg_j. fold s.
        apply seg_ext.
        -- rewrite sorted_range_length; lia.
        -- lia.
        -- intros i Hi. rewrite nth_sorted_range by lia.
           replace (offset j + i <? offset j) with false
             by (symmetry; apply Nat.ltb_ge; lia).
           replace (offset j + i <? offset (S j)) with true
             by (symmetry; apply Nat.ltb_lt; lia).
           f_equal. lia.
      * rewrite <- Hsorted by lia.
        assert (Hvb : offset v + deg v <= offset j)
          by (apply first_block_bound; lia).
        apply seg_ext.
        -- rewrite sorted_range_length; lia.
        -- apply seg_length. lia.
        -- intros i Hi. rewrite nth_sorted_range by lia.
           replace (offset v + i <? offset j) with true
             by (symmetry; apply Nat.ltb_lt; lia).
           rewrite nth_seg.
           replace (i <? deg v) with true by (symmetry; apply Nat.ltb_lt; lia).
           reflexivity.
Qed.

End Segments.

(** *** The graph that [ReadFromArcList] builds with incoming arcs *)

Section BuiltGraph.

Import FastStaticGraph Unbounded.

Variable checked : bool.
Variable numVertices : nat.
Variable inArcs : list (nat * nat).
Variable isDirected : bool.

Hypothesis arcs_in_range : in_range numVertices isDirected inArcs.

Definition all_pushes := pushes isDirected inArcs.

Definition built_deg (v : nat) : nat := length (block v all_pushes).

Definition built_offset (v : nat) : nat := first built_deg v.

(** The block of [v] in the built graph. *)
Definition built_block (v : nat) : list FastArc.t :=
  if isDirected then FastArc.std_sort (block v all_pushes) else block v all_pushes.

Lemma all_pushes_in_range : Forall (fun p => fst p < numVertices) all_pushes.
Proof. apply pushes_range. exact arcs_in_range. Qed.

Lemma built_offset_total : built_offset numVertices = 2 * length inArcs.
Proof.
  unfold built_offset, built_deg.
  rewrite block_length_sum by apply all_pushes_in_range.
  apply pushes_length.
Qed.

Lemma first_ext : forall (f g : nat -> nat) j,
  (forall u, u < j -> f u = g u) -> first f j = first g j.
Proof.
  induction j as [|j IH]; intros H; simpl; [reflexivity|].
  rewrite IH, H by (intros; auto; apply H; lia). reflexivity.
Qed.

Lemma ReadFromArcList_incoming_unbounded :
  exists g,
    ReadFromArcList checked numVertices inArcs isDirected true = Ok g /\
    header g = {| NumVertices := numVertices; NumArcs := 2 * length inArcs;
                  IsDirected := isDirected |} /\
    length (vertices g) = numVertices + 1 /\
    (forall v, v <= numVertices -> FirstArcId g v = built_offset v) /\
    length (arcs g) = 2 * length inArcs + 1 /\
    (forall v, v < numVertices -> incident g v = built_block v).
Proof.
  pose proof all_pushes_in_range as Hr.
  pose proof built_offset_total as Htot.
  unfold ReadFromArcList. cbn [orb andb].
  replace (length inArcs * 2) with (2 * length inArcs) by lia.
  rewrite degree_pass by (auto; apply repeat_length).
  cbn [bind]. fold all_pushes.
  set (degs := fold_left count_step all_pushes (repeat 0 (numVertices + 1))).
  assert (Ldegs : length degs = numVertices + 1).
  { unfold degs. rewrite count_step_length. apply repeat_length. }
  assert (Hdegs : forall v, nth v degs 0 = built_deg v).
  { intros v. unfold degs.
    rewrite (@count_pass_nth numVertices) by (auto; rewrite repeat_length; lia).
    rewrite nth_repeat. reflexivity. }
  destruct (@rewire_pass numVertices numVertices degs (repeat 0 (numVertices + 1)))
    as (vs & ff & E & Lvs & Lff & Hlt & Hge);
    [lia|assumption|apply repeat_length|].
  rewrite E.
  assert (Hfirst : forall j, first (fun u => nth u degs 0) j = built_offset j).
  { intros j. apply first_ext. intros; apply Hdegs. }
  rewrite Hfirst in *.
  rewrite (@modify_ok _ ff _ _ 0) by lia. cbn [bind].
  rewrite Htot, Nat.eqb_refl, Assert_true. cbn [bind].
  rewrite add_arcs_pushes. fold all_pushes.
  destruct (@push_pass_scattered checked numVertices all_pushes Hr all_pushes []
              (repeat 0%Z (2 * length inArcs + 1))
              (upd numVertices (2 * length inArcs) ff))
    as (arcs1 & ff1 & E1 & La1 & Lf1 & _ & _ & Hcells); [reflexivity| |].
  { unfold scattered. repeat split.
    - rewrite repeat_length. unfold all_pushes. rewrite pushes_length. reflexivity.
    - rewrite upd_length. assumption.
    - intros v Hv. rewrite nth_upd_ne by lia.
      destruct (Hlt v Hv) as [_ ->]. rewrite Hfirst. unfold block. simpl.
      unfold offset, built_offset, deg, built_deg. lia.
    - rewrite nth_upd_eq by lia. unfold offset, deg. fold built_deg.
      fold (built_offset numVertices). lia.
    - intros v j Hv Hj. rewrite nth_repeat. unfold block. simpl.
      destruct j; reflexivity. }
  rewrite E1. cbn [bind].
  assert (Lall : length all_pushes = 2 * length inArcs)
    by (unfold all_pushes; apply pushes_length).
  rewrite Lall in La1.
  rewrite (@modify_ok _ arcs1 _ _ 0%Z) by lia. cbn [bind].
  rewrite (@modify_ok _ vs _ _ 0) by lia. cbn [bind].
  set (arcs2 := upd (2 * length inArcs) _ arcs1).
  set (vs2 := upd numVertices (2 * length inArcs) vs).
  assert (Hvs2 : forall v, v <= numVertices -> nth v vs2 0 = built_offset v).
  { intros v Hv. unfold vs2. rewrite nth_upd.
    destruct (Nat.eqb_spec numVertices v) as [<-|N]; simpl.
    - replace (numVertices <? length vs) with true
        by (symmetry; apply Nat.ltb_lt; lia).
      lia.
    - destruct (Hlt v) as [-> _]; [lia|]. apply Hfirst. }
  assert (Lvs2 : length vs2 = numVertices + 1)
    by (unfold vs2; rewrite upd_length; assumption).
  assert (La2 : length arcs2 = 2 * length inArcs + 1)
    by (unfold arcs2; rewrite upd_length; assumption).
  assert (Hblocks : forall v, v < numVertices ->
            seg (built_offset v) (built_deg v) arcs2 = block v all_pushes).
  { intros v Hv.
    assert (built_offset v + built_deg v <= built_offset numVertices)
      by (apply first_block_bound; assumption).
    apply seg_ext.
    - lia.
    - reflexivity.
    - intros j Hj. unfold arcs2. rewrite nth_upd_ne by lia.
      apply Hcells; assumption. }
  assert (Hincident : forall arcs' v, v < numVertices ->
            incident {| header := {| NumVertices := numVertices;
                                     NumArcs := 2 * length inArcs;
                                     IsDirected := isDirected |};
                        vertices := vs2; arcs := arcs' |} v
            = seg (built_offset v) (built_deg v) arcs').
  { intros arcs' v Hv. unfold incident, FirstArcId. simpl.
    rewrite !Hvs2 by lia. replace (v + 1) with (S v) by lia.
    unfold seg. f_equal. unfold built_offset. simpl. lia. }
  unfold built_block.
  destruct isDirected.
  - destruct (@sort_pass numVertices built_deg vs2 numVertices arcs2)
      as (arcs3 & E3 & L3 & _ & Hsorted); [lia|exact Hvs2|lia| |].
    { fold (built_offset numVertices). lia. }
    rewrite E3. cbn [bind].
    eexists. split; [reflexivity|]. simpl. repeat split; auto.
    + lia.
    + intros v Hv. rewrite Hincident by assumption.
      rewrite Hsorted, Hblocks by assumption. reflexivity.
  - cbn [bind].
    eexists. split; [reflexivity|]. simpl. repeat split; auto.
    intros v Hv. rewrite Hincident by assumption. apply Hblocks. assumption.
Qed.

End BuiltGraph.

(** *** Runs whose counters fit an arc id

    When twice the number of input arcs is below [2 ^ 32], no counter of
    the builder wraps: a run of the builder without bound that passes
    its assertions is a run of [ReadFromArcList], with or without
    assertions. *)

Section Fits.

Import FastStaticGraph.

Lemma ArcId_small : forall x, (Z.of_nat x < 2 ^ 32)%Z -> ArcId x = x.
Proof.
  intros x H. unfold ArcId. rewrite Z.mod_small by lia. apply Nat2Z.id.
Qed.

Lemma nth_error_le_sum : forall (l : list nat) i x,
  nth_error l i = Some x -> x <= list_sum l.
Proof.
  induction l as [|a l IH]; destruct i; simpl; intros x H; try discriminate.
  - injection H as ->. lia.
  - apply IH in H. lia.
Qed.

Lemma list_sum_upd : forall (l : list nat) i x y,
  nth_error l i = Some x -> list_sum (upd i y l) + x = list_sum l + y.
Proof.
  induction l as [|a l IH]; destruct i; simpl; intros x y H; try discriminate.
  - injection H as ->. lia.
  - specialize (IH _ _ y H). lia.
Qed.

Lemma list_sum_zeros : forall m, list_sum (repeat 0 m) = 0.
Proof. induction m; simpl; auto. Qed.

Lemma Forall_upd : forall (A : Type) (P : A -> Prop) i x l,
  Forall P l -> P x -> Forall P (upd i x l).
Proof.
  induction i as [|i IH]; intros x [|a l] H Hx; simpl; try constructor;
    inversion H; subst; auto.
Qed.

Lemma skipn_upd : forall (A : Type) i (x : A) l,
  skipn (S i) (upd i x l) = skipn (S i) l.
Proof.
  induction i as [|i IH]; intros x [|a l]; try reflexivity.
  change (skipn (S (S i)) (upd (S i) x (a :: l))) with (skipn (S i) (upd i x l)).
  apply IH.
Qed.

Lemma list_sum_skipn : forall u (l : list nat),
  nth u l 0 + list_sum (skipn (S u) l) = list_sum (skipn u l).
Proof.
  induction u as [|u IH]; intros [|a l]; try reflexivity.
  change (nth (S u) (a :: l) 0) with (nth u l 0).
  change (skipn (S (S u)) (a :: l)) with (skipn (S u) l).
  change (skipn (S u) (a :: l)) with (skipn u l).
  apply IH.
Qed.

Lemma increment_fits : forall (l l' : list nat) i B,
  modify l i (fun d => d + 1) = Ok l' ->
  list_sum l + 1 <= B -> (Z.of_nat B < 2 ^ 32)%Z ->
  modify l i (fun d => ArcId (d + 1)) = Ok l' /\ list_sum l' = list_sum l + 1.
Proof.
  intros l l' i B H Hs HB. unfold modify in *.
  destruct (nth_error l i) as [x|] eqn:E; [|discriminate].
  injection H as <-.
  pose proof (@nth_error_le_sum l i x E) as Hx.
  pose proof (@list_sum_upd l i x (x + 1) E) as Hu.
  rewrite ArcId_small by lia. split; [reflexivity|lia].
Qed.

Section Passes.

Variable checked : bool.
Variable numVertices : nat.
Variable isDirected buildIncomingArcs : bool.
Variable B : nat.
Hypothesis B_fits : (Z.of_nat B < 2 ^ 32)%Z.

Lemma degree_step_fits : forall vertices inArc vertices',
  Unbounded.degree_step true numVertices isDirected buildIncomingArcs
    vertices inArc = Ok vertices' ->
  list_sum vertices + 2 <= B ->
  degree_step checked numVertices isDirected buildIncomingArcs vertices inArc
  = Ok vertices' /\
  list_sum vertices' <= list_sum vertices + 2.
Proof.
  intros vs [from to] vs' H Hs.
  unfold Unbounded.degree_step in H. unfold degree_step.
  destruct (from <? numVertices); [|discriminate H].
  destruct (to <? numVertices); [|discriminate H].
  destruct (isDirected || (from <? to)); [|discriminate H].
  rewrite !Assert_true in *. cbn [bind] in *.
  destruct (modify vs from (fun d => d + 1)) as [v1| |] eqn:E1;
    cbn [bind] in H; try discriminate H.
  destruct (@increment_fits vs v1 from B E1 ltac:(lia) B_fits) as [E1' S1].
  rewrite E1'. cbn [bind].
  destruct (buildIncomingArcs || negb isDirected).
  - destruct (@increment_fits v1 vs' to B H ltac:(lia) B_fits) as [E2 S2].
    rewrite E2. split; [reflexivity|lia].
  - injection H as <-. split; [reflexivity|lia].
Qed.

Lemma degree_pass_fits : forall inArcs vertices vertices',
  foldM (Unbounded.degree_step true numVertices isDirected buildIncomingArcs)
    inArcs vertices = Ok vertices' ->
  list_sum vertices + 2 * length inArcs <= B ->
  foldM (degree_step checked numVertices isDirected buildIncomingArcs)
    inArcs vertices = Ok vertices' /\
  list_sum vertices' <= B.
Proof.
  induction inArcs as [|x inArcs IH]; intros vs vs' H Hs.
  - simpl in *. injection H as <-. split; [reflexivity|lia].
  - rewrite foldM_cons in *.
    destruct (Unbounded.degree_step true numVertices isDirected
                buildIncomingArcs vs x) as [v1| |] eqn:E1;
      cbn [bind] in H; try discriminate H.
    cbn [length] in Hs.
    destruct (@degree_step_fits vs x v1 E1 ltac:(lia)) as [E1' S1].
    rewrite E1'. cbn [bind]. apply IH; [assumption|lia].
Qed.

Lemma rewire_pass_fits : forall k u0 vs ff cur,
  cur + list_sum (skipn u0 vs) <= B ->
  Forall (fun x => x <= cur) ff ->
  fold_left rewire_step (seq u0 k) (vs, ff, cur)
  = fold_left Unbounded.rewire_step (seq u0 k) (vs, ff, cur) /\
  (let '(_, ff', cur') :=
     fold_left Unbounded.rewire_step (seq u0 k) (vs, ff, cur) in
   cur' <= B /\ Forall (fun x => x <= cur') ff').
Proof.
  induction k as [|k IH]; intros u0 vs ff cur Hs Hff.
  - simpl. split; [reflexivity|]. split; [lia|assumption].
  - cbn [seq fold_left].
    pose proof (list_sum_skipn u0 vs) as Hsum.
    assert (E : rewire_step (vs, ff, cur) u0
                = Unbounded.rewire_step (vs, ff, cur) u0).
    { unfold rewire_step, Unbounded.rewire_step.
      rewrite ArcId_small by lia. reflexivity. }
    rewrite E. unfold Unbounded.rewire_step at 2 4.
    apply IH.
    + rewrite skipn_upd. lia.
    + apply Forall_upd; [|lia].
      rewrite Forall_forall in *. intros x Hx. specialize (Hff x Hx). lia.
Qed.

Lemma increment_bounded : forall (l l' : list nat) i x,
  read l i = Ok x -> x + 1 <= B ->
  modify l i (fun f => f + 1) = Ok l' ->
  Forall (fun y => y <= B) l ->
  modify l i (fun f => ArcId (f + 1)) = Ok l' /\ Forall (fun y => y <= B) l'.
Proof.
  intros l l' i x R Hx M HF. unfold read, modify in *.
  destruct (nth_error l i) as [y|] eqn:E; [|discriminate].
  injection R as ->. injection M as <-.
  rewrite ArcId_small by lia. split; [reflexivity|].
  apply Forall_upd; assumption.
Qed.

Lemma read_bounded : forall (l : list nat) i x,
  read l i = Ok x -> Forall (fun y => y <= B) l -> x <= B.
Proof.
  intros l i x R HF. unfold read in R.
  destruct (nth_error l i) as [y|] eqn:E; [|discriminate].
  injection R as ->. rewrite Forall_forall in HF.
  apply HF. apply nth_error_In with i. assumption.
Qed.

Lemma add_arc_step_fits : forall st inArc st',
  Unbounded.add_arc_step true isDirected buildIncomingArcs st inArc = Ok st' ->
  Forall (fun x => x <= B) (snd st) ->
  add_arc_step checked isDirected buildIncomingArcs st inArc = Ok st' /\
  Forall (fun x => x <= B) (snd st').
Proof.
  intros [arcs ff] [from to] st' H HF. cbn [snd] in HF.
  assert (G : forall e, e = true ->
            (if checked then Assert checked e else Ok tt) = Ok tt).
  { intros e ->. destruct checked; reflexivity. }
  unfold Unbounded.add_arc_step in H. unfold add_arc_step.
  destruct (read ff from) as [free| |] eqn:R1;
    cbn [bind] in H |- *; try discriminate H.
  destruct (read ff (from + 1)) as [next| |] eqn:R2;
    cbn [bind] in H |- *; try discriminate H.
  destruct (free <? next) eqn:L1; [|discriminate H].
  apply Nat.ltb_lt in L1.
  rewrite Assert_true in H. rewrite (G true eq_refl).
  cbn [bind] in H |- *.
  destruct (modify arcs free
              (write_outgoing isDirected buildIncomingArcs to)) as [a1| |] eqn:M1;
    cbn [bind] in H |- *; try discriminate H.
  destruct (modify ff from (fun f => f + 1)) as [f1| |] eqn:M2;
    cbn [bind] in H; try discriminate H.
  pose proof (@read_bounded ff (from + 1) next R2 HF) as Hn.
  destruct (@increment_bounded ff f1 from free R1 ltac:(lia) M2 HF) as [M2' HF1].
  rewrite M2'. cbn [bind].
  destruct (buildIncomingArcs || negb isDirected).
  - destruct (read f1 to) as [free'| |] eqn:R3;
      cbn [bind] in H |- *; try discriminate H.
    destruct (read f1 (to + 1)) as [next'| |] eqn:R4;
      cbn [bind] in H |- *; try discriminate H.
    destruct (free' <? next') eqn:L2; [|discriminate H].
    apply Nat.ltb_lt in L2.
    rewrite Assert_true in H. rewrite (G true eq_refl).
    cbn [bind] in H |- *.
    destruct (modify a1 free'
                (write_incoming isDirected buildIncomingArcs from)) as [a2| |] eqn:M3;
      cbn [bind] in H |- *; try discriminate H.
    destruct (modify f1 to (fun f => f + 1)) as [f2| |] eqn:M4;
      cbn [bind] in H; try discriminate H.
    injection H as <-.
    pose proof (@read_bounded f1 (to + 1) next' R4 HF1) as Hn'.
    destruct (@increment_bounded f1 f2 to free' R3 ltac:(lia) M4 HF1) as [M4' HF2].
    rewrite M4'. cbn [bind snd]. split; [reflexivity|assumption].
  - injection H as <-. cbn [snd]. split; [reflexivity|assumption].
Qed.

Lemma add_arcs_fits : forall inArcs st st',
  foldM (Unbounded.add_arc_step true isDirected buildIncomingArcs) inArcs st
  = Ok st' ->
  Forall (fun x => x <= B) (snd st) ->
  foldM (add_arc_step checked isDirected buildIncomingArcs) inArcs st = Ok st'.
Proof.
  induction inArcs as [|x inArcs IH]; intros st st' H HF.
  - simpl in *. assumption.
  - rewrite foldM_cons in *.
    destruct (Unbounded.add_arc_step true isDirected buildIncomingArcs st x)
      as [s1| |] eqn:E1; cbn [bind] in H; try discriminate H.
    destruct (@add_arc_step_fits st x s1 E1 HF) as [E1' HF1].
    rewrite E1'. cbn [bind]. apply IH; assumption.
Qed.

End Passes.

Lemma ReadFromArcList_fits :
  forall checked numVertices inArcs isDirected buildIncomingArcs g,
  (2 * Z.of_nat (length inArcs) < 2 ^ 32)%Z ->
  Unbounded.ReadFromArcList true numVertices inArcs isDirected buildIncomingArcs
  = Ok g ->
  ReadFromArcList checked numVertices inArcs isDirected buildIncomingArcs = Ok g.
Proof.
  intros checked numVertices inArcs isDirected buildIncomingArcs g Hfit H.
  set (B := 2 * length inArcs).
  assert (HB : (Z.of_nat B < 2 ^ 32)%Z) by (unfold B; lia).
  unfold Unbounded.ReadFromArcList in H. unfold ReadFromArcList.
  set (numArcs := length inArcs * (if buildIncomingArcs || isDirected then 2 else 1)) in *.
  assert (HnumArcs : numArcs <= B)
    by (unfold numArcs, B; destruct (buildIncomingArcs || isDirected); lia).
  destruct (foldM (Unbounded.degree_step true numVertices isDirected
                     buildIncomingArcs) inArcs (repeat 0 (numVertices + 1)))
    as [v1| |] eqn:E1; cbn [bind] in H; try discriminate H.
  destruct (@degree_pass_fits checked numVertices isDirected buildIncomingArcs
              B HB inArcs _ v1 E1) as [E1' S1].
  { rewrite list_sum_zeros. unfold B. lia. }
  rewrite E1'. cbn [bind].
  destruct (@rewire_pass_fits B HB numVertices 0 v1 (repeat 0 (numVertices + 1)) 0)
    as [E2 Hb2].
  { simpl. lia. }
  { apply Forall_forall. intros x Hx. apply repeat_spec in Hx. lia. }
  rewrite E2.
  destruct (fold_left Unbounded.rewire_step (seq 0 numVertices)
              (v1, repeat 0 (numVertices + 1), 0)) as [[vs ff] cur].
  destruct Hb2 as [Hcur Hff].
  destruct (modify ff numVertices (fun _ => cur)) as [ff1| |] eqn:M;
    cbn [bind] in *; try discriminate H.
  assert (HF1 : Forall (fun x => x <= B) ff1).
  { unfold modify in M. destruct (nth_error ff numVertices); [|discriminate].
    injection M as <-. apply Forall_upd; [|assumption].
    rewrite Forall_forall in *. intros x Hx. specialize (Hff x Hx). lia. }
  destruct (cur =? numArcs); [|discriminate H].
  rewrite Assert_true in *. cbn [bind] in *.
  destruct (foldM (Unbounded.add_arc_step true isDirected buildIncomingArcs)
              inArcs (repeat 0%Z (numArcs + 1), ff1)) as [[a2 f2]| |] eqn:E3;
    cbn [bind] in H; try discriminate H.
  rewrite (@add_arcs_fits checked isDirected buildIncomingArcs B HB inArcs _ _ E3 HF1).
  cbn [bind]. rewrite ArcId_small by lia. exact H.
Qed.

Lemma indeg_pass_fits : forall B xs indeg indeg',
  (Z.of_nat B < 2 ^ 32)%Z ->
  foldM Unbounded.indeg_step xs indeg = Ok indeg' ->
  list_sum indeg + length xs <= B ->
  foldM indeg_step xs indeg = Ok indeg'.
Proof.
  intros B xs. induction xs as [|x xs IH]; intros indeg indeg' HB H Hs.
  - simpl in *. assumption.
  - rewrite foldM_cons in *. cbn [length] in Hs.
    unfold Unbounded.indeg_step at 1 in H. unfold indeg_step at 1.
    destruct (negb (FastArc.Forward (snd x))); cbn [bind] in *.
    + apply IH; [assumption|assumption|lia].
    + destruct (modify indeg (Z.to_nat (FastArc.OtherVertexId (snd x)))
                  (fun d => d + 1)) as [d1| |] eqn:E1;
        cbn [bind] in H; try discriminate H.
      destruct (@increment_fits indeg d1 _ B E1 ltac:(lia) HB) as [E1' S1].
      rewrite E1'. cbn [bind]. apply IH; [assumption|assumption|lia].
Qed.

Lemma compute_indeg_fits : forall g indeg,
  (Z.of_nat (length (FORALL_ARCS g)) < 2 ^ 32)%Z ->
  Unbounded.compute_indeg g = Ok indeg ->
  compute_indeg g = Ok indeg.
Proof.
  intros g indeg HB H. unfold compute_indeg.
  apply (@indeg_pass_fits (length (FORALL_ARCS g)) _ _ _ HB H).
  rewrite list_sum_zeros. lia.
Qed.

Lemma NumArcs_at_fits : forall g vertexId,
  FirstArcId g vertexId <= FirstArcId g (vertexId + 1) ->
  (Z.of_nat (FirstArcId g (vertexId + 1)) < 2 ^ 32)%Z ->
  NumArcs_at g vertexId = FirstArcId g (vertexId + 1) - FirstArcId g vertexId.
Proof.
  intros g v Hle Hfit. unfold NumArcs_at.
  rewrite Z.mod_small by lia. lia.
Qed.

Lemma FORALL_ARCS_length : forall g (deg : nat -> nat),
  (forall v, v < NumVertices (header g) -> length (incident g v) = deg v) ->
  length (FORALL_ARCS g) = first deg (NumVertices (header g)).
Proof.
  intros g deg H. unfold FORALL_ARCS, FORALL_INCIDENT_ARCS.
  induction (NumVertices (header g)) as [|m IH].
  - reflexivity.
  - rewrite seq_S, flat_map_app, length_app. cbn [flat_map first].
    rewrite app_nil_r, length_map, IH by (intros; apply H; lia).
    rewrite H by lia. reflexivity.
Qed.

End Fits.

(** The graph that [ReadFromArcList] builds with incoming arcs from an
    arc list in range whose doubled length fits an arc id. *)
Lemma ReadFromArcList_incoming :
  forall checked numVertices inArcs isDirected,
  in_range numVertices isDirected inArcs ->
  (2 * Z.of_nat (length inArcs) < 2 ^ 32)%Z ->
  exists g,
    FastStaticGraph.ReadFromArcList checked numVertices inArcs isDirected true
    = Ok g /\
    FastStaticGraph.header g
    = {| FastStaticGraph.NumVertices := numVertices;
         FastStaticGraph.NumArcs := 2 * length inArcs;
         FastStaticGraph.IsDirected := isDirected |} /\
    length (FastStaticGraph.vertices g) = numVertices + 1 /\
    (forall v, v <= numVertices ->
       FastStaticGraph.FirstArcId g v = built_offset inArcs isDirected v) /\
    length (FastStaticGraph.arcs g) = 2 * length inArcs + 1 /\
    (forall v, v < numVertices ->
       FastStaticGraph.incident g v = built_block inArcs isDirected v).
Proof.
  intros checked numVertices inArcs isDirected Hr Hfit.
  destruct (@ReadFromArcList_incoming_unbounded true numVertices inArcs
              isDirected Hr) as (g & E & H).
  exists g. split; [|exact H].
  apply ReadFromArcList_fits; assumption.
Qed.

Lemma built_FORALL_ARCS_length : forall numVertices inArcs isDirected g,
  in_range numVertices isDirected inArcs ->
  FastStaticGraph.NumVertices (FastStaticGraph.header g) = numVertices ->
  (forall v, v < numVertices ->
     FastStaticGraph.incident g v = built_block inArcs isDirected v) ->
  length (FastStaticGraph.FORALL_ARCS g) = 2 * length inArcs.
Proof.
  intros numVertices inArcs isDirected g Hr Hn Hinc.
  rewrite (@FORALL_ARCS_length g (built_deg inArcs isDirected)).
  - rewrite Hn. apply (@built_offset_total numVertices inArcs isDirected Hr).
  - intros v Hv. rewrite Hinc by (rewrite <- Hn; assumption).
    unfold built_block, built_deg.
    destruct isDirected; [apply std_sort_length|reflexivity].
Qed.

(** *** The records of the built graph *)

Section Records.

Import FastArc FastStaticGraph.
Local Open Scope Z_scope.

Lemma land_low : forall x, 0 <= x < 2 ^ 30 -> Z.land x 0x3FFFFFFF = x.
Proof.
  intros x H. change 0x3FFFFFFF with (Z.ones 30).
  rewrite Z.land_ones by lia. apply Z.mod_small. assumption.
Qed.

Lemma low_testbit : forall x m, 0 <= x < 2 ^ 30 -> 30 <= m -> Z.testbit x m = false.
Proof.
  intros x m H Hm.
  destruct (Z.eq_dec x 0) as [->|N]; [apply Z.bits_0|].
  apply Z.bits_above_log2; [lia|].
  apply Z.lt_le_trans with 30; [|assumption].
  apply Z.log2_lt_pow2; lia.
Qed.

Lemma mk_spec : forall x fwd bwd, 0 <= x < 2 ^ 30 ->
  OtherVertexId (mk x fwd bwd) = x /\
  Forward (mk x fwd bwd) = fwd /\
  Backward (mk x fwd bwd) = bwd.
Proof.
  intros x fwd bwd H.
  assert (E : mk x fwd bwd
              = Z.lor x (Z.lor (if fwd then 2 ^ 30 else 0) (if bwd then 2 ^ 31 else 0))).
  { unfold mk, SetOtherVertexId, SetForwardFlag, SetBackwardFlag.
    rewrite Z.land_0_l, Z.lor_0_l, land_low by assumption.
    change 0x40000000 with (2 ^ 30). change 0x80000000 with (2 ^ 31).
    destruct fwd, bwd; rewrite ?Z.lor_0_r, ?Z.lor_0_l, ?Z.lor_assoc; reflexivity. }
  rewrite E. split; [|split].
  - unfold OtherVertexId. rewrite Z.land_lor_distr_l, land_low by assumption.
    destruct fwd, bwd; simpl; apply Z.lor_0_r.
  - rewrite Forward_testbit, !Z.lor_spec, !testbit_flag by lia.
    rewrite low_testbit by lia. destruct fwd, bwd; reflexivity.
  - rewrite Backward_testbit, !Z.lor_spec, !testbit_flag by lia.
    rewrite low_testbit by lia. destruct fwd, bwd; reflexivity.
Qed.

Lemma write_outgoing_mk : forall isDirected toVertexId,
  write_outgoing isDirected true toVertexId 0
  = mk (Z.of_nat toVertexId) true (negb isDirected).
Proof.
  intros. unfold write_outgoing, mk. rewrite andb_true_r.
  destruct isDirected; reflexivity.
Qed.

Lemma write_incoming_mk : forall isDirected fromVertexId,
  write_incoming isDirected true fromVertexId 0
  = mk (Z.of_nat fromVertexId) (negb isDirected) true.
Proof.
  intros. unfold write_incoming, mk. destruct isDirected; reflexivity.
Qed.

End Records.

Section BlockMembers.

Import FastStaticGraph Unbounded.

Lemma in_pushes : forall isDirected inArcs p,
  In p (pushes isDirected inArcs) <->
  exists a b, In (a, b) inArcs /\
    (p = (a, write_outgoing isDirected true b) \/
     p = (b, write_incoming isDirected true a)).
Proof.
  intros isDirected inArcs p. unfold pushes. rewrite in_flat_map. split.
  - intros ([a b] & Hin & Hp). exists a, b. simpl in Hp.
    split; [assumption|]. destruct Hp as [<-|[<-|[]]]; auto.
  - intros (a & b & Hin & Hp). exists (a, b). split; [assumption|].
    simpl. destruct Hp as [->| ->]; auto.
Qed.

Lemma in_block : forall v ps w,
  In w (block v ps) <-> exists p, In p ps /\ fst p = v /\ w = snd p 0%Z.
Proof.
  intros v ps w. unfold block. rewrite in_map_iff. split.
  - intros (p & <- & Hp). apply filter_In in Hp. destruct Hp as [Hp E].
    apply Nat.eqb_eq in E. exists p. auto.
  - intros (p & Hp & E & ->). exists p. split; [reflexivity|].
    apply filter_In. split; [assumption|]. apply Nat.eqb_eq. assumption.
Qed.

Lemma in_built_block : forall isDirected inArcs v w,
  In w (built_block inArcs isDirected v) <->
  In w (block v (pushes isDirected inArcs)).
Proof.
  intros isDirected inArcs v w. unfold built_block, all_pushes.
  destruct isDirected; [|reflexivity].
  split; apply Permutation_in;
    [symmetry|]; apply std_sort_perm.
Qed.

Lemma in_FORALL_ARCS : forall g v a,
  In (v, a) (FORALL_ARCS g) <->
  v < NumVertices (header g) /\ In a (incident g v).
Proof.
  intros g v a. unfold FORALL_ARCS, FORALL_INCIDENT_ARCS.
  rewrite in_flat_map. split.
  - intros (u & Hu & H). apply in_seq in Hu. apply in_map_iff in H.
    destruct H as (b & E & Hb). inversion E; subst. split; [lia|assumption].
  - intros [Hv Ha]. exists v. split; [apply in_seq; lia|].
    apply in_map_iff. exists a. auto.
Qed.


End BlockMembers.

(** *** The in-degree that [Contained<WEIGHTED>] divides by *)

Section WeightedDivisor.

Import FastArc FastStaticGraph Hashing.


Variable checked : bool.
Variable numVertices : nat.
Variable inArcs : list (nat * nat).
Variable isDirected : bool.

Hypothesis vertices_fit : (Z.of_nat numVertices <= 2 ^ 30)%Z.
Hypothesis arcs_in_range : in_range numVertices isDirected inArcs.
Hypothesis arcs_fit : (2 * Z.of_nat (length inArcs) < 2 ^ 32)%Z.

(** The records in the block of [v]: an outgoing record for each input arc
    that leaves [v], an incoming record for each input arc that enters
    [v]. *)
Definition record_of (v : nat) (w : FastArc.t) : Prop :=
  exists a b, In (a, b) inArcs /\
    ((v = a /\ w = mk (Z.of_nat b) true (negb isDirected)) \/
     (v = b /\ w = mk (Z.of_nat a) (negb isDirected) true)).

Lemma in_built_block_record : forall v w,
  In w (built_block inArcs isDirected v) <-> record_of v w.
Proof.
  intros v w. rewrite in_built_block, in_block. unfold record_of. split.
  - intros (p & Hp & E & ->). apply in_pushes in Hp.
    destruct Hp as (a & b & Hin & [-> | ->]); simpl in E; subst v;
      exists a, b; (split; [assumption|]); simpl.
    + left. split; [reflexivity|apply write_outgoing_mk].
    + right. split; [reflexivity|apply write_incoming_mk].
  - intros (a & b & Hin & [[-> ->]|[-> ->]]).
    + exists (a, write_outgoing isDirected true b). split; [|split].
      * apply in_pushes. exists a, b. auto.
      * reflexivity.
      * simpl. symmetry. apply write_outgoing_mk.
    + exists (b, write_incoming isDirected true a). split; [|split].
      * apply in_pushes. exists a, b. auto.
      * reflexivity.
      * simpl. symmetry. apply write_incoming_mk.
Qed.

Lemma arc_endpoints : forall a b, In (a, b) inArcs ->
  a < numVertices /\ b < numVertices /\
  (0 <= Z.of_nat a < 2 ^ 30)%Z /\ (0 <= Z.of_nat b < 2 ^ 30)%Z.
Proof.
  intros a b H. unfold in_range in arcs_in_range.
  rewrite Forall_forall in arcs_in_range.
  destruct (arcs_in_range _ H) as (Ha & Hb & _). simpl in Ha, Hb.
  repeat split; lia.
Qed.

Lemma record_other : forall v w, record_of v w ->
  (0 <= OtherVertexId w)%Z /\ Z.to_nat (OtherVertexId w) < numVertices.
Proof.
  intros v w (a & b & Hin & H).
  destruct (arc_endpoints _ _ Hin) as (Ha & Hb & Za & Zb).
  destruct H as [[_ ->]|[_ ->]].
  - destruct (mk_spec true (negb isDirected) Zb) as (-> & _ & _). lia.
  - destruct (mk_spec (negb isDirected) true Za) as (-> & _ & _). lia.
Qed.



End WeightedDivisor.


(** *** The arc count and the offsets *)

Section ArcCount.

Import FastStaticGraph.

(** With incoming arcs requested the physical arc count is twice the
    logical one, the offsets do not decrease, and the sentinel vertex
    points behind the last arc. *)
Lemma ReadFromArcList_incoming_layout : forall checked numVertices inArcs isDirected,
  in_range numVertices isDirected inArcs ->
  (2 * Z.of_nat (length inArcs) < 2 ^ 32)%Z ->
  exists g,
    ReadFromArcList checked numVertices inArcs isDirected true = Ok g /\
    NumArcs (header g) = 2 * length inArcs /\
    FirstArcId g numVertices = NumArcs (header g) /\
    (forall u v, u <= v -> v <= numVertices -> FirstArcId g u <= FirstArcId g v).
Proof.
  intros checked numVertices inArcs isDirected Hr Hfit.
  destruct (@ReadFromArcList_incoming checked numVertices inArcs isDirected Hr Hfit)
    as (g & E & Hh & Lv & Hfirst & La & Hinc).
  exists g. split; [exact E|]. rewrite Hh. simpl. repeat split.
  - rewrite Hfirst by lia. apply built_offset_total. assumption.
  - intros u v Huv Hv. rewrite !Hfirst by lia. apply first_mono. assumption.
Qed.

(** C4: without incoming arcs the arc count of [ReadFromArcList] is
    doubled for a directed graph and not doubled for an undirected one,
    the opposite of what the degree pass counts.  For the directed arc
    list [0 -> 1] on two vertices the header holds 2 arcs where the list
    has 1, and the assertion [currentFirstArc == numArcs] fails; for the
    undirected arc list [0 - 1, 0 - 2] on three vertices the scatter pass
    writes behind the arc array. *)
Theorem ReadFromArcList_arc_count_diverges :
  in_range 2 true [(0, 1)] /\
  ReadFromArcList false 2 [(0, 1)] true false
  = Ok {| header := {| NumVertices := 2; NumArcs := 2; IsDirected := true |};
          vertices := [0; 1; 2];
          arcs := [0x40000001; 0; 2]%Z |} /\
  ReadFromArcList true 2 [(0, 1)] true false = AssertionFailure /\
  in_range 3 false [(0, 1); (0, 2)] /\
  ReadFromArcList false 3 [(0, 1); (0, 2)] false false = UndefinedBehaviour /\
  ReadFromArcList true 3 [(0, 1); (0, 2)] false false = AssertionFailure.
Proof.
  repeat split; try reflexivity;
    repeat constructor; simpl; intros; try lia; discriminate.
Qed.

End ArcCount.

(** *** The direction scans in a built graph *)

Section BuiltScans.

Import FastArc FastStaticGraph.

Lemma take_while_all : forall (A : Type) (p : A -> bool) xs,
  Forall (fun x => p x = true) xs -> take_while p xs = xs /\ filter p xs = xs.
Proof.
  induction xs as [|x xs IH]; intros H; simpl; [auto|].
  inversion H as [|? ? Hx H']; subst. rewrite Hx.
  destruct (IH H') as [-> ->]. auto.
Qed.

(** In every graph built with incoming arcs the two scans visit exactly
    the arcs of their direction. *)
Lemma built_graph_scans : forall checked numVertices inArcs isDirected,
  (Z.of_nat numVertices <= 2 ^ 30)%Z ->
  in_range numVertices isDirected inArcs ->
  (2 * Z.of_nat (length inArcs) < 2 ^ 32)%Z ->
  exists g,
    ReadFromArcList checked numVertices inArcs isDirected true = Ok g /\
    forall v, v < numVertices ->
      Forall (fun a => Valid a = true) (incident g v) /\
      (isDirected = true -> sorted (incident g v)) /\
      forward_scan g v = filter Forward (FORALL_INCIDENT_ARCS g v) /\
      backward_scan g v = filter Backward (FORALL_INCIDENT_ARCS_BACKWARD g v).
Proof.
  intros checked numVertices inArcs isDirected Hfit Hr Harcs.
  destruct (@ReadFromArcList_incoming checked numVertices inArcs isDirected Hr Harcs)
    as (g & E & Hh & Lv & Hfirst & La & Hinc).
  exists g. split; [exact E|]. intros v Hv.
  assert (Hflags : forall w, In w (incident g v) ->
            (Forward w = true /\ Backward w = negb isDirected) \/
            (Forward w = negb isDirected /\ Backward w = true)).
  { intros w Hw. rewrite Hinc in Hw by assumption.
    apply (in_built_block_record inArcs isDirected) in Hw.
    destruct Hw as (a & b & Hin & H).
    destruct (arc_endpoints Hfit Hr _ _ Hin) as (_ & _ & Za & Zb).
    destruct H as [[_ ->]|[_ ->]].
    - left. destruct (mk_spec true (negb isDirected) Zb) as (_ & F & B). auto.
    - right. destruct (mk_spec (negb isDirected) true Za) as (_ & F & B). auto. }
  assert (Hvalid : Forall (fun a => Valid a = true) (incident g v)).
  { rewrite Forall_forall. intros w Hw. rewrite Valid_flags.
    destruct (Hflags w Hw) as [[-> _]|[_ ->]]; [reflexivity|apply orb_true_r]. }
  assert (Hsorted : isDirected = true -> sorted (incident g v)).
  { intros ->. rewrite Hinc by assumption. unfold built_block.
    apply std_sort_sorted. }
  split; [exact Hvalid|]. split; [exact Hsorted|].
  unfold forward_scan, backward_scan, FORALL_INCIDENT_ARCS,
    FORALL_INCIDENT_ARCS_BACKWARD.
  destruct isDirected eqn:D.
  - split; [apply forward_scan_block|apply backward_scan_block]; auto.
  - assert (HF : Forall (fun a => Forward a = true) (incident g v)).
    { rewrite Forall_forall. intros w Hw.
      destruct (Hflags w Hw) as [[H _]|[H _]]; exact H. }
    assert (HB : Forall (fun a => Backward a = true) (rev (incident g v))).
    { rewrite Forall_forall. intros w Hw. apply in_rev in Hw.
      destruct (Hflags w Hw) as [[_ H]|[_ H]]; exact H. }
    destruct (take_while_all _ HF) as [-> ->].
    destruct (take_while_all _ HB) as [-> ->]. auto.
Qed.

End BuiltScans.

(** ** The TRIVALENCY edge-presence predicates *)

Section Trivalency.

Import Hashing.
Local Open Scope Z_scope.

Lemma at_index_triprob : forall index, 0 <= index < 3 ->
  at_index triprob index = Ok (nth (Z.to_nat index) triprob 0).
Proof.
  intros index H. unfold at_index.
  replace (index <? 0) with false by (symmetry; apply Z.ltb_ge; lia).
  assert (index = 0 \/ index = 1 \/ index = 2) as [->|[->| ->]] by lia;
    reflexivity.
Qed.

Lemma at_index_triprob_out : forall index, ~ 0 <= index < 3 ->
  at_index triprob index = @UndefinedBehaviour Z.
Proof.
  intros index H. unfold at_index.
  destruct (Z.ltb_spec index 0); [reflexivity|].
  destruct (nth_error triprob (Z.to_nat index)) eqn:E; [|reflexivity].
  assert (Z.to_nat index < length triprob)%nat as Hlt.
  { apply nth_error_Some. rewrite E. discriminate. }
  simpl in Hlt. lia.
Qed.

(** [SKIM::Contained<TRIVALENCY>] compares [h mod R] with the entry of
    [triprob] that [h mod 3] selects. *)
Lemma SKIM_Contained_TRIVALENCY : forall this u v i l,
  let h := Murmur3Hash (randomSeed this) u v i l in
  SKIM.Contained this TRIVALENCY u v i l
  = Ok (h mod resolution <? nth (Z.to_nat (h mod 3)) triprob 0).
Proof.
  intros this u v i l h. unfold SKIM.Contained. fold h.
  change (Z.of_nat (length triprob)) with 3.
  rewrite at_index_triprob by (apply Z.mod_pos_bound; lia).
  reflexivity.
Qed.

(** [FastRSInfluenceOracle::Contained<TRIVALENCY>] computes the same index
    but reads [triprob[i]], the entry of the instance number; from the
    fourth instance on the read is outside the array. *)
Lemma Oracle_Contained_TRIVALENCY : forall this u v i l,
  let h := Murmur3Hash (randomSeed this) u v i l in
  FastRSInfluenceOracle.Contained this TRIVALENCY u v i l
  = if (0 <=? i) && (i <? 3)
    then Ok (h mod resolution <? nth (Z.to_nat i) triprob 0)
    else UndefinedBehaviour.
Proof.
  intros this u v i l h. unfold FastRSInfluenceOracle.Contained. fold h.
  destruct (Z.leb_spec 0 i), (Z.ltb_spec i 3); simpl.
  - rewrite at_index_triprob by lia. reflexivity.
  - rewrite at_index_triprob_out by lia. reflexivity.
  - rewrite at_index_triprob_out by lia. reflexivity.
  - rewrite at_index_triprob_out by lia. reflexivity.
Qed.

(** C3: the two TRIVALENCY predicates disagree.  With the default seed,
    for the arc 0 -> 7 in instance 0 of l = 64 instances, the hash selects
    the entry R/1000 and [h mod R] is not below it, so [SKIM] answers
    false; the oracle reads the entry R/10 of instance 0 and answers
    true. *)
Theorem Contained_TRIVALENCY_oracle_diverges :
  let this := {| randomSeed := 31101982; indeg := []; binprob := 300000 |} in
  let h := Murmur3Hash 31101982 0 7 0 64 in
  h = 4137230630 /\ h mod 3 = 2 /\ h mod resolution = 230630 /\
  nth 2 triprob 0 = 3000 /\ nth 0 triprob 0 = 300000 /\
  (h mod resolution <? nth (Z.to_nat (h mod 3)) triprob 0) = false /\
  SKIM.Contained this TRIVALENCY 0 7 0 64 = Ok false /\
  FastRSInfluenceOracle.Contained this TRIVALENCY 0 7 0 64 = Ok true /\
  FastRSInfluenceOracle.Contained this TRIVALENCY 0 7 3 64 = UndefinedBehaviour.
Proof. vm_compute. repeat split; reflexivity. Qed.

End Trivalency.

(** ** The seed sampler *)

Lemma UInt32_small : forall x,
  (Z.of_nat x < 2 ^ 32)%Z -> FastRSInfluenceOracle.UInt32 x = x.
Proof.
  intros x H. unfold FastRSInfluenceOracle.UInt32.
  rewrite Z.mod_small by lia. apply Nat2Z.id.
Qed.

Lemma UInt32_bound : forall x,
  (Z.of_nat (FastRSInfluenceOracle.UInt32 x) < 2 ^ 32)%Z.
Proof.
  intros x. unfold FastRSInfluenceOracle.UInt32.
  pose proof (Z.mod_pos_bound (Z.of_nat x) (2 ^ 32) ltac:(lia)). lia.
Qed.

(** The upper bound of the distribution of [Run] lies in the vertex
    domain of a graph that has a vertex, whatever the cast leaves of the
    number of vertices. *)
Lemma Run_bound_below : forall n,
  1 <= n ->
  FastRSInfluenceOracle.UInt32_sub (FastRSInfluenceOracle.UInt32 n) 1 < n.
Proof.
  intros n Hn. unfold FastRSInfluenceOracle.UInt32_sub, FastRSInfluenceOracle.UInt32.
  pose proof (Z.mod_pos_bound (Z.of_nat n) (2 ^ 32) ltac:(lia)) as Hc.
  rewrite Z2Nat.id by lia.
  set (c := (Z.of_nat n mod 2 ^ 32)%Z) in *.
  assert (Hle : (c <= Z.of_nat n)%Z) by (apply Z.mod_le; lia).
  apply Nat2Z.inj_lt. 
  pose proof (Z.mod_pos_bound (c - Z.of_nat 1) (2 ^ 32) ltac:(lia)) as Hb.
  rewrite Z2Nat.id by lia.
  destruct (Z.eq_dec c 0) as [E|E].
  - assert (H32 : (2 ^ 32 <= Z.of_nat n)%Z).
    { destruct (Z_lt_le_dec (Z.of_nat n) (2 ^ 32)) as [Hlt|Hge]; [|assumption].
      subst c. rewrite Z.mod_small in E by lia. lia. }
    lia.
  - rewrite Z.mod_small by (simpl; lia). simpl. lia.
Qed.

Section UniformSeeds.

Import FastRSInfluenceOracle.

Variable engine : Type.
Variable uniform_int_distribution : nat -> nat -> engine -> nat * engine.
Variable neighborhood :
  nat -> list nat -> nat -> engine -> option (list nat * engine).

(** What the standard library promises of the distribution: with
    [a <= b], every draw lies in [a, b]. *)
Hypothesis uniform_int_distribution_range : forall a b twisty,
  a <= b -> a <= fst (uniform_int_distribution a b twisty) <= b.

Section Draws.

Variable dist : engine -> nat * engine.

(** The values that [count] successive calls [dist(twisty)] return, and
    the generator after them. *)
Fixpoint draws (count : nat) (twisty : engine) : list nat :=
  match count with
  | O => []
  | Datatypes.S count' => fst (dist twisty) :: draws count' (snd (dist twisty))
  end.

Fixpoint advance (count : nat) (twisty : engine) : engine :=
  match count with
  | O => twisty
  | Datatypes.S count' => advance count' (snd (dist twisty))
  end.

Lemma draws_length : forall count twisty, length (draws count twisty) = count.
Proof.
  induction count as [|count IH]; intros twisty; simpl; auto.
Qed.

Lemma draws_range : forall bound,
  (forall twisty, fst (dist twisty) < bound) ->
  forall count twisty, Forall (fun s => s < bound) (draws count twisty).
Proof.
  intros bound Hd. induction count as [|count IH]; intros twisty; simpl.
  - constructor.
  - constructor; [apply Hd|apply IH].
Qed.

(** The loop ends when [N] fits the counter: after [N] rounds. *)
Lemma uniform_loop_runs : forall N, (Z.of_nat N < 2 ^ 32)%Z ->
  forall count fuel i S twisty,
  i + count = N -> count < fuel ->
  uniform_loop dist fuel N i S twisty
  = Some (S ++ draws count twisty, advance count twisty).
Proof.
  intros N HN. induction count as [|count IH]; intros fuel i S twisty E Hf;
    (destruct fuel as [|fuel]; [lia|]); cbn [uniform_loop draws advance].
  - replace (i <? N) with false by (symmetry; apply Nat.ltb_ge; lia).
    rewrite app_nil_r. reflexivity.
  - replace (i <? N) with true by (symmetry; apply Nat.ltb_lt; lia).
    destruct (dist twisty) as [x twisty'] eqn:Ed. cbn [fst snd].
    rewrite UInt32_small by lia.
    rewrite IH by lia. rewrite <- app_assoc. reflexivity.
Qed.

(** The loop does not end when [N] does not fit the counter. *)
Lemma uniform_loop_never : forall N, (2 ^ 32 <= Z.of_nat N)%Z ->
  forall fuel i S twisty,
  (Z.of_nat i < 2 ^ 32)%Z ->
  uniform_loop dist fuel N i S twisty = None.
Proof.
  intros N HN. induction fuel as [|fuel IH]; intros i S twisty Hi;
    cbn [uniform_loop]; [reflexivity|].
  replace (i <? N) with true by (symmetry; apply Nat.ltb_lt; lia).
  destruct (dist twisty) as [x twisty'].
  apply IH. apply UInt32_bound.
Qed.

End Draws.

(** Every draw of the distribution that [Run] sets up for [UNIFORM] is a
    vertex of the graph, if the graph has a vertex. *)
Lemma Run_dist_range : forall NumVertices NumArcs twisty,
  1 <= NumVertices ->
  fst (Run_dist uniform_int_distribution UNIFORM NumVertices NumArcs twisty)
  < NumVertices.
Proof.
  intros n m twisty Hn. unfold Run_dist.
  pose proof (@uniform_int_distribution_range 0
                (UInt32_sub (UInt32 n) 1) twisty ltac:(lia)) as [_ H].
  pose proof (Run_bound_below Hn). lia.
Qed.

(** C9 (as amended): with the method UNIFORM and the distribution that
    [Run] sets up, [GenerateSeetSet] called with [N <= n] returns when [N]
    is below 2^32, and then it has appended to [S] exactly [N] vertex
    ids, the successive draws of the distribution, each from the vertex
    domain [0, n); for [N] from 2^32 on the loop counter wraps and the
    call does not return. *)
Theorem GenerateSeetSet_UNIFORM : forall (NumVertices NumArcs N fuel : nat)
    (S : list nat) (twisty : engine),
  N <= NumVertices ->
  let dist := Run_dist uniform_int_distribution UNIFORM NumVertices NumArcs in
  ((Z.of_nat N < 2 ^ 32)%Z -> N < fuel ->
   GenerateSeetSet neighborhood dist fuel S N UNIFORM twisty
   = Some (S ++ draws dist N twisty, advance dist N twisty) /\
   length (S ++ draws dist N twisty) = length S + N /\
   Forall (fun s => s < NumVertices) (draws dist N twisty)) /\
  ((2 ^ 32 <= Z.of_nat N)%Z ->
   GenerateSeetSet neighborhood dist fuel S N UNIFORM twisty = None).
Proof.
  intros n m N fuel S twisty HN dist. split.
  - intros H32 Hf. split; [|split].
    + cbn [GenerateSeetSet]. apply uniform_loop_runs; [assumption|lia|assumption].
    + rewrite length_app, draws_length. reflexivity.
    + destruct N as [|N]; [constructor|].
      apply draws_range. intros e. apply Run_dist_range. lia.
  - intros H32. cbn [GenerateSeetSet]. apply uniform_loop_never; [assumption|lia].
Qed.

End UniformSeeds.

(** A generator given by the list of its future draws, each reduced to
    the range of the distribution. *)
Definition replay (a b : nat) (state : list nat) : nat * list nat :=
  match state with
  | [] => (a, [])
  | x :: state' => (a + x mod (b - a + 1), state')
  end.

Lemma GenerateSeetSet_UNIFORM_witness :
  FastRSInfluenceOracle.GenerateSeetSet (fun _ S _ e => Some (S, e))
    (FastRSInfluenceOracle.Run_dist replay FastRSInfluenceOracle.UNIFORM 5 8)
    4 [] 3 FastRSInfluenceOracle.UNIFORM [4; 1; 8; 0]
  = Some ([4; 1; 3], [0]).
Proof.
  assert (Hrange : forall a b twisty, a <= b -> a <= fst (replay a b twisty) <= b).
  { intros a b [|x state] Hab; unfold replay, fst; [lia|].
    pose proof (Nat.mod_upper_bound x (b - a + 1)). lia. }
  assert (HN : 3 <= 5) by lia.
  destruct (@GenerateSeetSet_UNIFORM (list nat) replay (fun _ S _ e => Some (S, e))
              Hrange 5 8 3 4 [] [4; 1; 8; 0] HN) as [H _].
  destruct H as (H & _ & _); [vm_compute; reflexivity|lia|].
  exact H.
Defined.

(** C9 (as stated) fails: nothing keeps a vertex from being drawn twice.
    With two vertices and N = 2, a generator whose first two draws are
    both vertex 1 yields the seed set [1; 1]. *)
Lemma GenerateSeetSet_UNIFORM_not_distinct :
  let numVertices := 2 in
  let N := 2 in
  let dist := FastRSInfluenceOracle.Run_dist replay FastRSInfluenceOracle.UNIFORM
                numVertices 2 in
  exists S' twisty',
    FastRSInfluenceOracle.GenerateSeetSet (fun _ S _ e => Some (S, e)) dist
      3 [] N FastRSInfluenceOracle.UNIFORM [1; 1] = Some (S', twisty') /\
    N <= numVertices /\ S' = [1; 1] /\ Forall (fun s => s < numVertices) S' /\
    ~ NoDup S'.
Proof.
  exists [1; 1], []. split; [vm_compute; reflexivity|].
  split; [lia|]. split; [reflexivity|]. split; [repeat constructor|].
  intros H. inversion H as [|x l Hn _]; subst. apply Hn. simpl. auto.
Qed.
(** ** The estimator: the two-buffer merge against the reference merge *)

Section MergeChunks.

Import FastRSInfluenceOracle.

(** The merge of two chunks (without their sentinels), as [merge_loop]
    performs it. *)
Fixpoint merge2 (c1 : pairs) : pairs -> pairs :=
  fix inner (c2 : pairs) : pairs :=
    match c1, c2 with
    | [], _ => c2
    | _, [] => c1
    | z1 :: c1', z2 :: c2' =>
        if fst z1 <? fst z2 then z1 :: merge2 c1' c2
        else if fst z2 <? fst z1 then z2 :: inner c2'
        else if snd z2 <? snd z1 then z1 :: merge2 c1' c2'
        else z2 :: merge2 c1' c2'
    end.

(** One pass over the chunks, and the passes until one chunk is left. *)
Fixpoint pass (cs : list pairs) : list pairs :=
  match cs with
  | c1 :: c2 :: rest => merge2 c1 c2 :: pass rest
  | _ => cs
  end.

Fixpoint rounds (fuel : nat) (cs : list pairs) : list pairs :=
  match fuel with
  | O => cs
  | S fuel' => if 1 <? length cs then rounds fuel' (pass cs) else cs
  end.

Lemma pair_induction : forall (A : Type) (P : list A -> Prop),
  P [] -> (forall x, P [x]) -> (forall x y l, P l -> P (x :: y :: l)) ->
  forall l, P l.
Proof.
  intros A P H0 H1 H2.
  assert (H : forall l, P l /\ forall x, P (x :: l)).
  { induction l as [|y l [IHa IHb]]; split; auto. }
  intros l. apply H.
Qed.

Lemma merge2_nil_r : forall c, merge2 c [] = c.
Proof. destruct c; reflexivity. Qed.

Lemma merge2_nil_l : forall c, merge2 [] c = c.
Proof. destruct c; reflexivity. Qed.

Lemma merge2_cons : forall z1 c1 z2 c2,
  merge2 (z1 :: c1) (z2 :: c2) =
  if fst z1 <? fst z2 then z1 :: merge2 c1 (z2 :: c2)
  else if fst z2 <? fst z1 then z2 :: merge2 (z1 :: c1) c2
  else if snd z2 <? snd z1 then z1 :: merge2 c1 c2
  else z2 :: merge2 c1 c2.
Proof. reflexivity. Qed.

Lemma merge2_In : forall c1 c2 z, In z (merge2 c1 c2) -> In z c1 \/ In z c2.
Proof.
  induction c1 as [|z1 c1 IH1]; intros c2 z.
  - rewrite merge2_nil_l. auto.
  - induction c2 as [|z2 c2 IH2].
    + rewrite merge2_nil_r. auto.
    + rewrite merge2_cons.
      destruct (fst z1 <? fst z2); [|destruct (fst z2 <? fst z1);
        [|destruct (snd z2 <? snd z1)]]; simpl; intros [H|H]; auto.
      * apply IH1 in H. simpl in H. tauto.
      * apply IH2 in H. simpl in H. tauto.
      * apply IH1 in H. tauto.
      * apply IH1 in H. tauto.
Qed.

End MergeChunks.

Section FlatBuffer.

Import FastRSInfluenceOracle.

Variable sentinelRank : nat.

Definition sentinel : nat * nat := (sentinelRank, 0).

Definition below (c : pairs) : Prop := Forall (fun z => fst z < sentinelRank) c.

(** The buffer [sourceZ] that holds the chunks [cs], each closed by a
    sentinel, and the offsets [sourceI] of the chunks from [base] on. *)
Definition flat (cs : list pairs) : pairs :=
  concat (map (fun c => c ++ [sentinel]) cs).

Fixpoint offs (base : nat) (cs : list pairs) : list nat :=
  match cs with
  | [] => []
  | c :: cs' => base :: offs (base + length c + 1) cs'
  end.

Lemma flat_app : forall xs ys, flat (xs ++ ys) = flat xs ++ flat ys.
Proof. intros. unfold flat. rewrite map_app, concat_app. reflexivity. Qed.

Lemma flat_cons : forall c cs, flat (c :: cs) = c ++ sentinel :: flat cs.
Proof. intros. unfold flat. simpl. rewrite <- app_assoc. reflexivity. Qed.

Lemma offs_length : forall cs base, length (offs base cs) = length cs.
Proof. induction cs; intros; simpl; auto. Qed.

Lemma offs_app : forall xs ys base,
  offs base (xs ++ ys) = offs base xs ++ offs (base + length (flat xs)) ys.
Proof.
  induction xs as [|x xs IH]; intros ys base; simpl.
  - f_equal. unfold flat. simpl. lia.
  - f_equal. rewrite IH. f_equal. f_equal.
    rewrite flat_cons, length_app. simpl. lia.
Qed.

Lemma skipn_head : forall (A : Type) p (l : list A) x t,
  skipn p l = x :: t -> nth_error l p = Some x /\ skipn (p + 1) l = t.
Proof.
  induction p as [|p IH]; intros l x t H.
  - simpl in H. subst. auto.
  - destruct l as [|y l]; [discriminate|].
    simpl in H. apply IH in H. simpl. assumption.
Qed.

Lemma read_skipn : forall (A : Type) p (l : list A) x t,
  skipn p l = x :: t -> read l p = Ok x.
Proof.
  intros A p l x t H. apply skipn_head in H. unfold read.
  destruct H as [-> _]. reflexivity.
Qed.

Lemma merge_loop_unfold : forall fuel sourceZ first1 first2 destZ,
  merge_loop (S fuel) sentinelRank sourceZ first1 first2 destZ =
  (z1 <- read sourceZ first1 ;;
   z2 <- read sourceZ first2 ;;
   if fst z1 <? fst z2 then
     merge_loop fuel sentinelRank sourceZ (first1 + 1) first2 (destZ ++ [z1])
   else if fst z2 <? fst z1 then
     merge_loop fuel sentinelRank sourceZ first1 (first2 + 1) (destZ ++ [z2])
   else if snd z2 <? snd z1 then
     merge_loop fuel sentinelRank sourceZ (first1 + 1) (first2 + 1) (destZ ++ [z1])
   else if fst z1 =? sentinelRank then Ok (destZ ++ [z2])
   else
     merge_loop fuel sentinelRank sourceZ (first1 + 1) (first2 + 1) (destZ ++ [z2])).
Proof. reflexivity. Qed.

(** The inner loop merges the two chunks its pointers stand in and stops
    on the pair of sentinels. *)
Lemma merge_loop_spec : forall fuel r1 r2 sourceZ first1 first2 t1 t2 destZ,
  skipn first1 sourceZ = r1 ++ sentinel :: t1 ->
  skipn first2 sourceZ = r2 ++ sentinel :: t2 ->
  below r1 -> below r2 ->
  length r1 + length r2 < fuel ->
  merge_loop fuel sentinelRank sourceZ first1 first2 destZ
  = Ok (destZ ++ merge2 r1 r2 ++ [sentinel]).
Proof.
  induction fuel as [|fuel IH]; intros r1 r2 sourceZ first1 first2 t1 t2 destZ
    H1 H2 B1 B2 Hf; [lia|].
  rewrite merge_loop_unfold.
  destruct r1 as [|z1 r1], r2 as [|z2 r2]; simpl in H1, H2.
  - rewrite (read_skipn _ _ H1), (read_skipn _ _ H2). simpl.
    rewrite Nat.ltb_irrefl, Nat.eqb_refl. reflexivity.
  - inversion B2 as [|? ? Hz2 B2']; subst.
    rewrite (read_skipn _ _ H1), (read_skipn _ _ H2). simpl.
    replace (sentinelRank <? fst z2) with false by (symmetry; apply Nat.ltb_ge; lia).
    replace (fst z2 <? sentinelRank) with true by (symmetry; apply Nat.ltb_lt; lia).
    apply skipn_head in H2. destruct H2 as [_ H2].
    rewrite (IH [] r2 sourceZ first1 (first2 + 1) t1 t2)
      by solve [assumption | simpl in *; lia].
    rewrite merge2_nil_l, <- app_assoc. reflexivity.
  - inversion B1 as [|? ? Hz1 B1']; subst.
    rewrite (read_skipn _ _ H1), (read_skipn _ _ H2). simpl.
    replace (fst z1 <? sentinelRank) with true by (symmetry; apply Nat.ltb_lt; lia).
    apply skipn_head in H1. destruct H1 as [_ H1].
    rewrite (IH r1 [] sourceZ (first1 + 1) first2 t1 t2)
      by solve [assumption | simpl in *; lia].
    rewrite merge2_nil_r, <- app_assoc. reflexivity.
  - inversion B1 as [|? ? Hz1 B1']; subst.
    inversion B2 as [|? ? Hz2 B2']; subst.
    rewrite (read_skipn _ _ H1), (read_skipn _ _ H2). simpl bind.
    rewrite merge2_cons.
    pose proof (skipn_head _ _ H1) as [_ H1'].
    pose proof (skipn_head _ _ H2) as [_ H2'].
    simpl in Hf.
    destruct (fst z1 <? fst z2) eqn:E1.
    { rewrite (IH r1 (z2 :: r2) sourceZ (first1 + 1) first2 t1 t2)
        by solve [assumption | simpl in *; lia].
      rewrite <- app_assoc. reflexivity. }
    destruct (fst z2 <? fst z1) eqn:E2.
    { rewrite (IH (z1 :: r1) r2 sourceZ first1 (first2 + 1) t1 t2)
        by solve [assumption | simpl in *; lia].
      rewrite <- app_assoc. reflexivity. }
    destruct (snd z2 <? snd z1) eqn:E3.
    { rewrite (IH r1 r2 sourceZ (first1 + 1) (first2 + 1) t1 t2)
        by solve [assumption | simpl in *; lia].
      rewrite <- app_assoc. reflexivity. }
    replace (fst z1 =? sentinelRank) with false by (symmetry; apply Nat.eqb_neq; lia).
    rewrite (IH r1 r2 sourceZ (first1 + 1) (first2 + 1) t1 t2)
      by solve [assumption | simpl in *; lia].
    rewrite <- app_assoc. reflexivity.
Qed.

End FlatBuffer.

Section Passes.

Import FastRSInfluenceOracle.

Variable sentinelRank : nat.

Local Abbreviation flatZ := (flat sentinelRank).
Local Abbreviation belowS := (below sentinelRank).

Lemma nth_error_offs : forall cs base j, j <= length cs ->
  nth_error (offs base cs ++ [base + length (flatZ cs)]) j
  = Some (base + length (flatZ (firstn j cs))).
Proof.
  induction cs as [|c cs IH]; intros base j Hj.
  - simpl in Hj. assert (j = 0) as -> by lia. reflexivity.
  - destruct j as [|j].
    + simpl. f_equal. unfold flat. simpl. lia.
    + simpl in Hj. simpl offs. simpl app. simpl nth_error.
      replace (base + length (flatZ (c :: cs)))
        with ((base + length c + 1) + length (flatZ cs))
        by (rewrite flat_cons, length_app; simpl; lia).
      rewrite IH by lia. f_equal.
      simpl firstn. rewrite flat_cons, length_app. simpl. lia.
Qed.

Lemma read_offs : forall done rest j,
  j <= length rest ->
  read (offs 0 (done ++ rest) ++ [length (flatZ (done ++ rest))]) (length done + j)
  = Ok (length (flatZ (done ++ firstn j rest))).
Proof.
  intros done rest j Hj. unfold read.
  pose proof (@nth_error_offs (done ++ rest) 0 (length done + j)) as H.
  simpl in H. rewrite H by (rewrite length_app; lia).
  rewrite firstn_app, firstn_all2 by lia.
  replace (length done + j - length done) with j by lia. reflexivity.
Qed.

Lemma skipn_flat : forall done rest,
  skipn (length (flatZ done)) (flatZ (done ++ rest)) = flatZ rest.
Proof.
  intros. rewrite flat_app, skipn_app, skipn_all, Nat.sub_diag. reflexivity.
Qed.

Lemma pass_loop_done : forall checked fuel sourceI sourceZ num i destI destZ,
  num <= i ->
  pass_loop checked fuel sentinelRank sourceI sourceZ num i destI destZ
  = Ok (destI, destZ).
Proof.
  intros checked [|fuel] sourceI sourceZ num i destI destZ H; simpl; auto.
  replace (i <? num) with false by (symmetry; apply Nat.ltb_ge; lia).
  reflexivity.
Qed.

Lemma pass_loop_unfold : forall checked fuel sourceI sourceZ num i destI destZ,
  pass_loop checked (S fuel) sentinelRank sourceI sourceZ num i destI destZ =
  if i <? num then
    let destI := destI ++ [length destZ] in
    first1 <- read sourceI i ;;
    last1 <- read sourceI (i + 1) ;;
    if i + 1 =? num then
      if (first1 <=? last1) && (last1 <=? length sourceZ) then
        let destZ := destZ ++ firstn (last1 - first1) (skipn first1 sourceZ) in
        pass_loop checked fuel sentinelRank sourceI sourceZ num (i + 2) destI destZ
      else UndefinedBehaviour
    else
      Assert checked (i + 2 <? num) ;;;
      let first2 := last1 in
      _ <- read sourceI (i + 2) ;;
      destZ <- merge_loop (2 * length sourceZ + 1) sentinelRank sourceZ
                 first1 first2 destZ ;;
      pass_loop checked fuel sentinelRank sourceI sourceZ num (i + 2) destI destZ
  else Ok (destI, destZ).
Proof. reflexivity. Qed.

(** One pass over the buffer is one pass over the chunks.  The assertion
    [Assert((i + 2) < num)] must be compiled out: it does not hold when
    the last two chunks are merged. *)
Lemma pass_loop_spec : forall fuel done rest destI destZ,
  Forall belowS (done ++ rest) ->
  length rest <= 2 * fuel ->
  pass_loop false fuel sentinelRank
    (offs 0 (done ++ rest) ++ [length (flatZ (done ++ rest))])
    (flatZ (done ++ rest)) (length (done ++ rest)) (length done) destI destZ
  = Ok (destI ++ offs (length destZ) (pass rest), destZ ++ flatZ (pass rest)).
Proof.
  induction fuel as [|fuel IH]; intros done rest destI destZ Hb Hf.
  - destruct rest; [|simpl in Hf; lia]. simpl.
    rewrite !app_nil_r. reflexivity.
  - rewrite pass_loop_unfold.
    destruct rest as [|c1 [|c2 rest]].
    + rewrite app_nil_r, Nat.ltb_irrefl. simpl. rewrite !app_nil_r. reflexivity.
    + replace (length done <? length (done ++ [c1])) with true
        by (symmetry; apply Nat.ltb_lt; rewrite length_app; simpl; lia).
      cbv zeta.
      pose proof (@read_offs done [c1] 0) as R0.
      rewrite Nat.add_0_r in R0. rewrite R0 by (simpl; lia). clear R0.
      rewrite (@read_offs done [c1] 1) by (simpl; lia).
      simpl firstn. rewrite app_nil_r. simpl bind.
      replace (length done + 1 =? length (done ++ [c1])) with true
        by (symmetry; apply Nat.eqb_eq; rewrite length_app; simpl; lia).
      assert (Hlen : length (flatZ (done ++ [c1])) = length (flatZ done) + (length c1 + 1)).
      { rewrite flat_app, length_app. f_equal.
        unfold flat. simpl. rewrite app_nil_r, length_app. reflexivity. }
      replace ((length (flatZ done) <=? length (flatZ (done ++ [c1]))) &&
               (length (flatZ (done ++ [c1])) <=? length (flatZ (done ++ [c1]))))
        with true
        by (symmetry; apply andb_true_iff; split; apply Nat.leb_le; lia).
      rewrite skipn_flat.
      rewrite firstn_all2
        by (rewrite Hlen; unfold flat; simpl;
            rewrite app_nil_r, length_app; simpl; lia).
      rewrite pass_loop_done by (rewrite length_app; simpl; lia).
      simpl pass. simpl offs. reflexivity.
    + replace (length done <? length (done ++ c1 :: c2 :: rest)) with true
        by (symmetry; apply Nat.ltb_lt; rewrite length_app; simpl; lia).
      cbv zeta.
      pose proof (@read_offs done (c1 :: c2 :: rest) 0) as R0.
      rewrite Nat.add_0_r in R0. rewrite R0 by (simpl; lia). clear R0.
      rewrite (@read_offs done (c1 :: c2 :: rest) 1) by (simpl; lia).
      simpl firstn. rewrite app_nil_r. simpl bind.
      replace (length done + 1 =? length (done ++ c1 :: c2 :: rest)) with false
        by (symmetry; apply Nat.eqb_neq; rewrite length_app; simpl; lia).
      rewrite (@read_offs done (c1 :: c2 :: rest) 2) by (simpl; lia).
      simpl bind.
      assert (Hb1 : belowS c1 /\ belowS c2).
      { rewrite Forall_app in Hb. destruct Hb as [_ Hb].
        inversion Hb as [|? ? H1 Hb']; subst.
        inversion Hb' as [|? ? H2 _]; subst. auto. }
      destruct Hb1 as [Hb1 Hb2].
      rewrite (@merge_loop_spec sentinelRank _ c1 c2 _ _ _
                 (flatZ (c2 :: rest)) (flatZ rest)).
      * simpl bind.
        replace (done ++ c1 :: c2 :: rest) with ((done ++ [c1; c2]) ++ rest)
          by (rewrite <- app_assoc; reflexivity).
        replace (length done + 2) with (length (done ++ [c1; c2]))
          by (rewrite length_app; reflexivity).
        rewrite IH.
        -- simpl pass. simpl offs. rewrite flat_cons.
           rewrite <- !app_assoc. simpl.
           rewrite !length_app. simpl.
           rewrite Nat.add_assoc. reflexivity.
        -- rewrite <- app_assoc. exact Hb.
        -- simpl in Hf. lia.
      * rewrite skipn_flat. apply flat_cons.
      * replace (done ++ c1 :: c2 :: rest) with ((done ++ [c1]) ++ c2 :: rest)
          by (rewrite <- app_assoc; reflexivity).
        rewrite skipn_flat. apply flat_cons.
      * exact Hb1.
      * exact Hb2.
      * assert (length c1 + length c2 <= length (flatZ (done ++ c1 :: c2 :: rest))).
        { rewrite flat_app, !flat_cons, !length_app. simpl.
          rewrite !length_app. simpl. lia. }
        lia.
Qed.

End Passes.

Section Rounds.

Import FastRSInfluenceOracle.

Variable sentinelRank : nat.

Local Abbreviation flatZ := (flat sentinelRank).
Local Abbreviation belowS := (below sentinelRank).

Lemma pass_below : forall cs, Forall belowS cs -> Forall belowS (pass cs).
Proof.
  induction cs as [| c | c1 c2 cs IH] using pair_induction; intros H; simpl; auto.
  inversion H as [|? ? H1 H']; subst. inversion H' as [|? ? H2 H'']; subst.
  constructor; [|auto].
  unfold below. rewrite Forall_forall. intros z Hz.
  apply merge2_In in Hz. unfold below in H1, H2. rewrite Forall_forall in H1, H2.
  destruct Hz; auto.
Qed.

Lemma pass_length : forall cs,
  length (pass cs) <= length cs /\
  (2 <= length cs -> length (pass cs) < length cs) /\
  (1 <= length cs -> 1 <= length (pass cs)).
Proof.
  induction cs as [| c | c1 c2 cs IH] using pair_induction; simpl; lia.
Qed.

Lemma rounds_length : forall fuel cs,
  length cs <= fuel + 1 -> cs <> [] -> length (rounds fuel cs) = 1.
Proof.
  induction fuel as [|fuel IH]; intros cs Hl Hne; simpl.
  - destruct cs as [|c [|c' cs]]; simpl in *; try congruence; lia.
  - destruct (Nat.ltb_spec 1 (length cs)) as [H|H].
    + pose proof (pass_length cs) as (_ & H2 & H1).
      apply IH; [lia|]. intros E. rewrite E in H1. simpl in H1. lia.
    + destruct cs as [|c [|c' cs]]; simpl in *; try congruence; lia.
Qed.

Lemma rounds_below : forall fuel cs, Forall belowS cs -> Forall belowS (rounds fuel cs).
Proof.
  induction fuel as [|fuel IH]; intros cs H; simpl; auto.
  destruct (1 <? length cs); auto. apply IH, pass_below, H.
Qed.

Lemma merge_rounds_spec : forall checked fuel cs,
  checked = false \/ length cs <= 1 ->
  Forall belowS cs ->
  merge_rounds checked fuel sentinelRank
    (offs 0 cs ++ [length (flatZ cs)]) (flatZ cs)
  = Ok (offs 0 (rounds fuel cs) ++ [length (flatZ (rounds fuel cs))],
        flatZ (rounds fuel cs)).
Proof.
  intros checked fuel. induction fuel as [|fuel IH]; intros cs Hc Hb; simpl.
  - reflexivity.
  - rewrite length_app, offs_length. simpl length.
    replace (2 <? length cs + 1) with (1 <? length cs)
      by (destruct (Nat.ltb_spec 1 (length cs)), (Nat.ltb_spec 2 (length cs + 1));
          auto; lia).
    destruct (Nat.ltb_spec 1 (length cs)) as [H|H]; [|reflexivity].
    destruct Hc as [-> | Hc]; [|lia].
    replace (length cs + 1 - 1) with (length cs) by lia.
    pose proof (@pass_loop_spec sentinelRank (length cs) [] cs [] []) as P.
    simpl in P. rewrite P by (auto; lia). clear P.
    simpl. apply IH; [auto|]. apply pass_below, Hb.
Qed.

End Rounds.

(** *** What a list of pairs denotes: the largest tau of each rank *)

Section Denotation.

Import FastRSInfluenceOracle EstimatorSpec.

Definition omax (a b : option nat) : option nat :=
  match a, b with
  | None, _ => b
  | _, None => a
  | Some x, Some y => Some (Nat.max x y)
  end.

Fixpoint dmax (c : pairs) (r : nat) : option nat :=
  match c with
  | [] => None
  | z :: c' => if fst z =? r then omax (Some (snd z)) (dmax c' r) else dmax c' r
  end.

(** Strictly ascending ranks. *)
Definition ssorted (c : pairs) : Prop :=
  StronglySorted (fun a b => fst a < fst b) c.

Arguments omax : simpl never.

Lemma dmax_cons : forall z c r,
  dmax (z :: c) r = if fst z =? r then omax (Some (snd z)) (dmax c r) else dmax c r.
Proof. reflexivity. Qed.

Ltac omax_solve :=
  repeat match goal with
         | |- context [dmax ?c ?r] => destruct (dmax c r)
         end;
  unfold omax; try reflexivity; f_equal; lia.

Lemma omax_assoc : forall a b c, omax a (omax b c) = omax (omax a b) c.
Proof. intros [a|] [b|] [c|]; unfold omax; auto. f_equal. lia. Qed.

Lemma omax_comm : forall a b, omax a b = omax b a.
Proof. intros [a|] [b|]; unfold omax; auto. f_equal. lia. Qed.

Lemma omax_None_r : forall a, omax a None = a.
Proof. intros [a|]; reflexivity. Qed.

Lemma dmax_app : forall a b r, dmax (a ++ b) r = omax (dmax a r) (dmax b r).
Proof.
  induction a as [|z a IH]; intros b r; [reflexivity|].
  simpl app. rewrite !dmax_cons, IH.
  destruct (fst z =? r); [apply omax_assoc|reflexivity].
Qed.

Lemma dmax_merge2 : forall c1 c2 r,
  dmax (merge2 c1 c2) r = omax (dmax c1 r) (dmax c2 r).
Proof.
  induction c1 as [|z1 c1 IH1]; intros c2 r.
  - rewrite merge2_nil_l. reflexivity.
  - induction c2 as [|z2 c2 IH2].
    + rewrite merge2_nil_r, omax_None_r. reflexivity.
    + rewrite merge2_cons.
      destruct (Nat.ltb_spec (fst z1) (fst z2)) as [H1|H1].
      { rewrite !dmax_cons, IH1, !dmax_cons.
        destruct (fst z1 =? r); [rewrite omax_assoc|]; reflexivity. }
      destruct (Nat.ltb_spec (fst z2) (fst z1)) as [H2|H2].
      { rewrite dmax_cons, IH2, !dmax_cons.
        destruct (fst z1 =? r), (fst z2 =? r); omax_solve. }
      assert (E : fst z1 = fst z2) by lia.
      destruct (Nat.ltb_spec (snd z2) (snd z1)) as [H3|H3].
      { rewrite !dmax_cons, IH1, E.
        destruct (fst z2 =? r); [|reflexivity]. omax_solve. }
      rewrite !dmax_cons, IH1, E.
      destruct (fst z2 =? r); [|reflexivity]. omax_solve.
Qed.

Lemma dmax_pass : forall cs r, dmax (concat (pass cs)) r = dmax (concat cs) r.
Proof.
  induction cs as [| c | c1 c2 cs IH] using pair_induction; intros r; auto.
  simpl. rewrite !dmax_app, dmax_merge2, IH, omax_assoc. reflexivity.
Qed.

Lemma dmax_rounds : forall fuel cs r,
  dmax (concat (rounds fuel cs)) r = dmax (concat cs) r.
Proof.
  induction fuel as [|fuel IH]; intros cs r; simpl; [reflexivity|].
  destruct (1 <? length cs); [|reflexivity].
  rewrite IH. apply dmax_pass.
Qed.

Lemma dmax_coalesce : forall Z z r, dmax (coalesce z Z) r = dmax (z :: Z) r.
Proof.
  induction Z as [|y Z IH]; intros z r; [reflexivity|].
  simpl coalesce.
  destruct (Nat.ltb_spec (fst y) (fst z)) as [H1|H1].
  { rewrite dmax_cons, IH, !dmax_cons.
    destruct (fst y =? r), (fst z =? r); omax_solve. }
  destruct (Nat.ltb_spec (fst z) (fst y)) as [H2|H2]; [reflexivity|].
  assert (E : fst z = fst y) by lia.
  destruct (Nat.ltb_spec (snd y) (snd z)) as [H3|H3]; rewrite !dmax_cons, E;
    destruct (fst y =? r); try reflexivity; omax_solve.
Qed.

Lemma dmax_merge_all : forall lists r,
  dmax (merge_all lists) r = dmax (concat lists) r.
Proof.
  intros lists r. unfold merge_all.
  induction (concat lists) as [|z Z IH]; [reflexivity|].
  simpl fold_right. rewrite dmax_coalesce, !dmax_cons, IH. reflexivity.
Qed.

Lemma merge2_ssorted : forall c1 c2,
  ssorted c1 -> ssorted c2 -> ssorted (merge2 c1 c2).
Proof.
  unfold ssorted.
  induction c1 as [|z1 c1 IH1]; intros c2 S1 S2.
  - rewrite merge2_nil_l. assumption.
  - induction c2 as [|z2 c2 IH2].
    + rewrite merge2_nil_r. assumption.
    + rewrite merge2_cons.
      inversion S1 as [|? ? S1' F1]; subst.
      inversion S2 as [|? ? S2' F2]; subst.
      rewrite Forall_forall in F1, F2.
      destruct (Nat.ltb_spec (fst z1) (fst z2)) as [H1|H1].
      { constructor; [apply IH1; assumption|].
        rewrite Forall_forall. intros z Hz. apply merge2_In in Hz.
        destruct Hz as [Hz|[<-|Hz]]; [apply F1, Hz|lia|].
        apply F2 in Hz. lia. }
      destruct (Nat.ltb_spec (fst z2) (fst z1)) as [H2|H2].
      { constructor; [apply IH2; assumption|].
        rewrite Forall_forall. intros z Hz. apply merge2_In in Hz.
        destruct Hz as [[<-|Hz]|Hz]; [lia| |apply F2, Hz].
        apply F1 in Hz. lia. }
      assert (E : fst z1 = fst z2) by lia.
      destruct (snd z2 <? snd z1).
      { constructor; [apply IH1; assumption|].
        rewrite Forall_forall. intros z Hz. apply merge2_In in Hz.
        destruct Hz as [Hz|Hz]; [apply F1, Hz|]. apply F2 in Hz. lia. }
      constructor; [apply IH1; assumption|].
      rewrite Forall_forall. intros z Hz. apply merge2_In in Hz.
      destruct Hz as [Hz|Hz]; [|apply F2, Hz]. apply F1 in Hz. lia.
Qed.

Lemma pass_ssorted : forall cs, Forall ssorted cs -> Forall ssorted (pass cs).
Proof.
  induction cs as [| c | c1 c2 cs IH] using pair_induction; intros H; simpl; auto.
  inversion H as [|? ? H1 H']; subst. inversion H' as [|? ? H2 H'']; subst.
  constructor; [apply merge2_ssorted; assumption|auto].
Qed.

Lemma rounds_ssorted : forall fuel cs, Forall ssorted cs -> Forall ssorted (rounds fuel cs).
Proof.
  induction fuel as [|fuel IH]; intros cs H; simpl; auto.
  destruct (1 <? length cs); auto. apply IH, pass_ssorted, H.
Qed.

Lemma coalesce_In : forall Z z y, In y (coalesce z Z) -> y = z \/ In y Z.
Proof.
  induction Z as [|x Z IH]; intros z y; simpl.
  - intuition.
  - destruct (fst x <? fst z); [|destruct (fst z <? fst x);
      [|destruct (snd x <? snd z)]]; simpl; intros H.
    + destruct H as [H|H]; auto. apply IH in H. tauto.
    + intuition.
    + intuition.
    + intuition.
Qed.

Lemma coalesce_ssorted : forall Z z, ssorted Z -> ssorted (coalesce z Z).
Proof.
  unfold ssorted. induction Z as [|x Z IH]; intros z S; simpl.
  - repeat constructor.
  - inversion S as [|? ? S' F]; subst. rewrite Forall_forall in F.
    destruct (Nat.ltb_spec (fst x) (fst z)) as [H1|H1].
    { constructor; [apply IH; assumption|].
      rewrite Forall_forall. intros y Hy. apply coalesce_In in Hy.
      destruct Hy as [->|Hy]; [assumption|apply F, Hy]. }
    destruct (Nat.ltb_spec (fst z) (fst x)) as [H2|H2].
    { constructor; [assumption|].
      constructor; [assumption|].
      rewrite Forall_forall. intros y Hy. apply F in Hy. lia. }
    assert (E : fst z = fst x) by lia.
    destruct (snd x <? snd z).
    + constructor; [assumption|].
      rewrite Forall_forall. intros y Hy. apply F in Hy. lia.
    + constructor; [assumption|].
      rewrite Forall_forall. intros y Hy. apply F in Hy. lia.
Qed.

Lemma merge_all_ssorted : forall lists, ssorted (merge_all lists).
Proof.
  intros lists. unfold merge_all.
  induction (concat lists) as [|z Z IH]; simpl.
  - constructor.
  - apply coalesce_ssorted, IH.
Qed.

Lemma dmax_above : forall c r,
  Forall (fun z => r < fst z) c -> dmax c r = None.
Proof.
  induction c as [|z c IH]; intros r H; simpl; [reflexivity|].
  inversion H as [|? ? Hz H']; subst.
  replace (fst z =? r) with false by (symmetry; apply Nat.eqb_neq; lia).
  apply IH, H'.
Qed.

Lemma dmax_head : forall z c,
  Forall (fun y => fst z < fst y) c -> dmax (z :: c) (fst z) = Some (snd z).
Proof.
  intros z c H. rewrite dmax_cons, Nat.eqb_refl, dmax_above by assumption.
  reflexivity.
Qed.

(** Two lists with strictly ascending ranks that denote the same map are
    the same list. *)
Lemma ssorted_dmax_eq : forall a b,
  ssorted a -> ssorted b -> (forall r, dmax a r = dmax b r) -> a = b.
Proof.
  unfold ssorted.
  induction a as [|x a IH]; intros b Sa Sb H.
  - destruct b as [|y b]; [reflexivity|].
    inversion Sb as [|? ? _ Fb]; subst.
    specialize (H (fst y)). rewrite dmax_head in H by assumption. discriminate.
  - inversion Sa as [|? ? Sa' Fa]; subst.
    destruct b as [|y b].
    + specialize (H (fst x)). rewrite dmax_head in H by assumption. discriminate.
    + inversion Sb as [|? ? Sb' Fb]; subst.
      assert (E : fst x = fst y).
      { destruct (Nat.lt_trichotomy (fst x) (fst y)) as [L|[E|L]]; [|exact E|].
        - specialize (H (fst x)). rewrite dmax_head in H by assumption.
          rewrite dmax_above in H; [discriminate|].
          constructor; [assumption|].
          rewrite Forall_forall in *. intros z Hz. apply Fb in Hz. lia.
        - specialize (H (fst y)). rewrite (@dmax_head y b Fb) in H.
          rewrite dmax_above in H; [discriminate|].
          constructor; [assumption|].
          rewrite Forall_forall in *. intros z Hz. apply Fa in Hz. lia. }
      assert (x = y).
      { pose proof (H (fst x)) as H'. rewrite dmax_head in H' by assumption.
        rewrite E, dmax_head in H' by assumption.
        destruct x, y; simpl in *. congruence. }
      subst y. f_equal. apply IH; try assumption.
      intros r. specialize (H r). rewrite !dmax_cons in H.
      destruct (Nat.eqb_spec (fst x) r) as [Er|N]; [|exact H].
      subst r. rewrite !dmax_above by assumption. reflexivity.
Qed.

(** The last chunk standing is the reference merge of all chunks. *)
Lemma rounds_merge_all : forall fuel cs c,
  Forall ssorted cs -> rounds fuel cs = [c] -> c = merge_all cs.
Proof.
  intros fuel cs c Hs Hr.
  apply ssorted_dmax_eq.
  - pose proof (rounds_ssorted fuel Hs) as H. rewrite Hr in H.
    inversion H; assumption.
  - apply merge_all_ssorted.
  - intros r. rewrite dmax_merge_all, <- (dmax_rounds fuel cs r), Hr.
    simpl. rewrite app_nil_r. reflexivity.
Qed.

End Denotation.

(** *** The estimator *)

Lemma last_nth : forall (A : Type) (xs : list A) d,
  last xs d = nth (length xs - 1) xs d.
Proof.
  induction xs as [|x xs IH]; intros d; [reflexivity|].
  destruct xs as [|y xs]; [reflexivity|].
  change (last (x :: y :: xs) d) with (last (y :: xs) d).
  rewrite IH. simpl. rewrite Nat.sub_0_r. reflexivity.
Qed.

Lemma firstn_incl : forall (A : Type) j (xs : list A) x,
  In x (firstn j xs) -> In x xs.
Proof.
  induction j as [|j IH]; intros xs x H; [destruct H|].
  destruct xs as [|y xs]; [destruct H|].
  simpl in H. destruct H as [H|H]; [left; assumption|right; apply IH, H].
Qed.

Lemma firstn_Forall : forall (A : Type) (P : A -> Prop) j xs,
  Forall P xs -> Forall P (firstn j xs).
Proof.
  intros A P j xs H. rewrite Forall_forall in *. intros x Hx.
  apply H. apply firstn_incl in Hx. assumption.
Qed.

Lemma firstn_StronglySorted : forall (A : Type) (R : A -> A -> Prop) j xs,
  StronglySorted R xs -> StronglySorted R (firstn j xs).
Proof.
  induction j as [|j IH]; intros xs H; [constructor|].
  destruct xs as [|x xs]; [constructor|].
  inversion H as [|? ? H1 H2]; subst. simpl.
  constructor; [apply IH, H1|apply firstn_Forall, H2].
Qed.

Section EstimatorCorrect.

Import FastRSInfluenceOracle EstimatorSpec.

Variable double : Type.
Variable d_zero : double.
Variable d_add : double -> double -> double.
Variable d_inv : nat -> double.
Variable d_scale : double -> nat -> double.

Variable NumVertices : nat.
Variable sketches : list (list nat).
Variables k l : nat.

(** A sorted bottom-k sketch: strictly ascending, at most [k] ranks, all
    of them below [n * l]. *)
Definition bottom_k_sketch (sketch : list nat) : Prop :=
  StronglySorted lt sketch /\ length sketch <= k /\
  Forall (fun r => r < NumVertices * l) sketch.

Definition seed_ok (s : nat) : Prop :=
  s < length sketches /\ bottom_k_sketch (nth s sketches []).

(** The lists of the seeds of [S], in the order of [S]. *)
Definition seed_lists (S : list nat) : list (list (nat * nat)) :=
  map (fun s => seed_list NumVertices k l (nth s sketches [])) S.

(** [n] times the sum of [1 / tau] over a list of pairs. *)
Definition scaled_sum (Z : list (nat * nat)) : double :=
  d_scale (fold_left (fun sum z => d_add sum (d_inv (snd z))) Z d_zero) NumVertices.

Lemma collect_step_spec : forall sourceI sourceZ s,
  1 <= k -> s < length sketches ->
  collect_step NumVertices sketches k l (sourceI, sourceZ) s
  = Ok (sourceI ++ [length sourceZ],
        (sourceZ ++ seed_list NumVertices k l (nth s sketches []))
          ++ [sentinel (NumVertices * l)]).
Proof.
  intros sourceI sourceZ s Hk Hs. unfold collect_step, read.
  rewrite (nth_error_nth' sketches [] Hs). simpl bind.
  set (sketch := nth s sketches []).
  unfold seed_list, tau.
  destruct (Nat.eqb_spec (length sketch) k) as [E|E].
  - destruct sketch as [|r sketch'] eqn:Es; [simpl in E; lia|].
    rewrite <- Es in *. simpl bind.
    rewrite last_nth, E. reflexivity.
  - simpl bind. rewrite firstn_all. reflexivity.
Qed.

Lemma collect_spec : forall S sourceI sourceZ,
  1 <= k -> Forall seed_ok S ->
  foldM (collect_step NumVertices sketches k l) S (sourceI, sourceZ)
  = Ok (sourceI ++ offs (length sourceZ) (seed_lists S),
        sourceZ ++ flat (NumVertices * l) (seed_lists S)).
Proof.
  induction S as [|s S IH]; intros sourceI sourceZ Hk Hok.
  - simpl. rewrite !app_nil_r. reflexivity.
  - inversion Hok as [|? ? [Hs _] Hok']; subst.
    rewrite foldM_cons, collect_step_spec by assumption. simpl bind.
    rewrite IH by assumption.
    simpl seed_lists. simpl offs. rewrite flat_cons.
    rewrite <- !app_assoc. simpl.
    rewrite !length_app. simpl. rewrite Nat.add_assoc. reflexivity.
Qed.

Lemma map_pair_ssorted : forall t ranks,
  StronglySorted lt ranks -> ssorted (map (fun r => (r, t)) ranks).
Proof.
  unfold ssorted. induction ranks as [|r ranks IH]; intros H; simpl.
  - constructor.
  - inversion H as [|? ? H1 H2]; subst.
    constructor; [apply IH, H1|].
    rewrite Forall_map. exact H2.
Qed.

Lemma seed_list_ssorted : forall sketch,
  bottom_k_sketch sketch -> ssorted (seed_list NumVertices k l sketch).
Proof.
  intros sketch (Hs & _ & _). unfold seed_list.
  apply map_pair_ssorted.
  destruct (length sketch =? k); [apply firstn_StronglySorted|]; assumption.
Qed.

Lemma seed_list_below : forall sketch,
  bottom_k_sketch sketch ->
  below (NumVertices * l) (seed_list NumVertices k l sketch).
Proof.
  intros sketch (_ & _ & Hb). unfold seed_list, below.
  rewrite Forall_map. simpl.
  destruct (length sketch =? k); [apply firstn_Forall|]; assumption.
Qed.

Lemma seed_lists_ssorted : forall S, Forall seed_ok S -> Forall ssorted (seed_lists S).
Proof.
  intros S H. unfold seed_lists. rewrite Forall_map.
  eapply Forall_impl; [|exact H].
  intros s [_ Hs]. apply seed_list_ssorted, Hs.
Qed.

Lemma seed_lists_below : forall S,
  Forall seed_ok S -> Forall (below (NumVertices * l)) (seed_lists S).
Proof.
  intros S H. unfold seed_lists. rewrite Forall_map.
  eapply Forall_impl; [|exact H].
  intros s [_ Hs]. apply seed_list_below, Hs.
Qed.

(** The buffer that the estimator accumulates over is the reference merge
    of the lists of the seeds. *)
Lemma Estimator_Z_spec : forall checked S,
  1 <= k -> S <> [] -> checked = false \/ length S = 1 ->
  Forall seed_ok S ->
  Estimator_Z checked NumVertices sketches S k l
  = Ok (merge_all (seed_lists S)).
Proof.
  intros checked S Hk Hne Hc Hok. unfold Estimator_Z.
  rewrite collect_spec by assumption. cbn [bind app].
  set (cs := seed_lists S).
  assert (Hlen : length cs = length S) by (unfold cs, seed_lists; apply length_map).
  assert (Hpos : 1 <= length S) by (destruct S; simpl; [congruence|lia]).
  change (length (@nil (nat * nat))) with 0.
  rewrite !length_app, offs_length.
  change (length [length (flat (NumVertices * l) cs)]) with 1.
  assert (Hlen' : @length pairs cs = length S) by exact Hlen.
  match goal with
  | |- context [2 <=? ?x] => destruct (Nat.leb_spec 2 x) as [_|Hx]; [|lia]
  end.
  rewrite Assert_true. cbn [bind].
  rewrite merge_rounds_spec;
    [|destruct Hc; [left; assumption|right; lia]
     |apply seed_lists_below; assumption].
  cbn [bind].
  unfold pairs in *.
  assert (Hcs : cs <> []) by (intros E; rewrite E in Hlen; simpl in Hlen; lia).
  assert (Hr : length (rounds (length cs + 1) cs) = 1)
    by (apply rounds_length; [unfold pairs; lia|assumption]).
  destruct (rounds (length cs + 1) cs) as [|c [|c' rest]] eqn:Er;
    [discriminate Hr| |discriminate Hr].
  apply rounds_merge_all in Er; [|apply seed_lists_ssorted; assumption].
  subst c. unfold flat. simpl concat. rewrite app_nil_r.
  destruct (merge_all cs ++ [sentinel (NumVertices * l)]) as [|z Z] eqn:Ez.
  - destruct (merge_all cs); discriminate.
  - rewrite Assert_true. cbn [bind]. rewrite <- Ez.
    rewrite removelast_last. reflexivity.
Qed.

End EstimatorCorrect.

Section EstimatorTheorems.

Import FastRSInfluenceOracle EstimatorSpec.

Variable double : Type.
Variable d_zero : double.
Variable d_add : double -> double -> double.
Variable d_inv : nat -> double.
Variable d_scale : double -> nat -> double.

(** C2 (as amended): for every non-empty seed set [S] of vertices whose
    sketches are sorted bottom-k sketches, [Estimator(S, k, l)] (with its
    assertions compiled out, or for a single seed) returns [n] times the
    sum of [1 / tau] over the reference merge of the lists of the seeds:
    the lists merged by ascending rank, equal ranks coalesced into the
    entry with the larger tau. *)
Theorem Estimator_refines_reference :
  forall (checked : bool) (NumVertices : nat) (sketches : list (list nat))
         (S : list nat) (k l : nat),
  1 <= k -> S <> [] -> checked = false \/ length S = 1 ->
  Forall (seed_ok NumVertices sketches k l) S ->
  Estimator d_zero d_add d_inv d_scale checked NumVertices sketches S k l
  = Ok (scaled_sum d_zero d_add d_inv d_scale NumVertices
          (merge_all (seed_lists NumVertices sketches k l S))).
Proof.
  intros checked NumVertices sketches S k l Hk Hne Hc Hok.
  unfold Estimator. rewrite Estimator_Z_spec by assumption.
  reflexivity.
Qed.

(** C8 (as amended): the estimator does not accept the empty seed set.  On
    [S = {}] the assertion [sourceI.size() >= 2] fails, and with the
    assertions compiled out [sourceZ.pop_back()] is applied to an empty
    vector; no value is returned.  On every singleton seed set it returns
    the scaled sum over the list of the seed. *)
Theorem Estimator_empty_seed_set :
  forall (checked : bool) (NumVertices : nat) (sketches : list (list nat))
         (k l : nat),
  1 <= k -> 1 <= l ->
  Estimator d_zero d_add d_inv d_scale checked NumVertices sketches [] k l
  = (if checked then AssertionFailure else UndefinedBehaviour) /\
  (forall s, seed_ok NumVertices sketches k l s ->
     Estimator d_zero d_add d_inv d_scale checked NumVertices sketches [s] k l
     = Ok (scaled_sum d_zero d_add d_inv d_scale NumVertices
             (merge_all (seed_lists NumVertices sketches k l [s])))).
Proof.
  intros checked NumVertices sketches k l Hk Hl. split.
  - destruct checked; reflexivity.
  - intros s Hs. unfold Estimator. rewrite Estimator_Z_spec; auto.
    discriminate.
Qed.

End EstimatorTheorems.

(** Exact rational arithmetic in the place of [double]. *)
Definition Q_inv (tau : nat) : QArith_base.Q := QArith_base.Qmake 1 (Pos.of_nat tau).
Definition Q_scale (estimate : QArith_base.Q) (n : nat) : QArith_base.Q :=
  QArith_base.Qmult estimate (QArith_base.Qmake (Z.of_nat n) 1).
Definition Q_Estimator :=
  FastRSInfluenceOracle.Estimator (QArith_base.Qmake 0 1) QArith_base.Qplus
    Q_inv Q_scale.

(** The sketches of the line graph 0 -> 1 -> 2 -> 3 -> 4 in one instance
    that holds every arc, for k = 4 and the identity permutation. *)
Definition line_sketches : list (list nat) :=
  [[0; 1; 2; 3]; [1; 2; 3; 4]; [2; 3; 4]; [3; 4]; [4]].

Lemma line_sketches_ok : forall s,
  s < 5 -> seed_ok 5 line_sketches 4 1 s.
Proof.
  intros s Hs. unfold seed_ok, bottom_k_sketch. split; [exact Hs|].
  assert (s = 0 \/ s = 1 \/ s = 2 \/ s = 3 \/ s = 4) as [->|[->|[->|[->| ->]]]]
    by lia; simpl; repeat split; repeat constructor; lia.
Qed.

Lemma Estimator_refines_reference_witness :
  Q_Estimator false 5 line_sketches [0; 1; 2] 4 1
  = Ok (QArith_base.Qmake 8875 1500).
Proof.
  unfold Q_Estimator.
  rewrite (@Estimator_refines_reference _ (QArith_base.Qmake 0 1)
             QArith_base.Qplus Q_inv Q_scale false 5 line_sketches [0; 1; 2] 4 1).
  - reflexivity.
  - lia.
  - discriminate.
  - left. reflexivity.
  - repeat constructor; apply line_sketches_ok; lia.
Defined.

(** C2 (as stated) fails on the empty seed set, where the reference sum is
    0 but the estimator returns nothing, and, where [Assert] is active, on
    every seed set with two or more seeds: [Assert((i + 2) < num)] is
    violated when the last two chunks are merged. *)
Lemma Estimator_reference_counterexample :
  Forall (seed_ok 5 line_sketches 4 1) [] /\
  scaled_sum (QArith_base.Qmake 0 1) QArith_base.Qplus Q_inv Q_scale 5
    (EstimatorSpec.merge_all (seed_lists 5 line_sketches 4 1 []))
  = QArith_base.Qmake 0 1 /\
  Q_Estimator false 5 line_sketches [] 4 1 = UndefinedBehaviour /\
  Q_Estimator true 5 line_sketches [] 4 1 = AssertionFailure /\
  Forall (seed_ok 5 line_sketches 4 1) [0; 1] /\
  Q_Estimator true 5 line_sketches [0; 1] 4 1 = AssertionFailure.
Proof.
  repeat split; try reflexivity; repeat constructor;
    apply line_sketches_ok; lia.
Qed.

Lemma Estimator_empty_seed_set_witness :
  Q_Estimator true 5 line_sketches [] 4 1 = AssertionFailure /\
  Q_Estimator true 5 line_sketches [4] 4 1 = Ok (QArith_base.Qmake 5 5).
Proof.
  unfold Q_Estimator.
  destruct (@Estimator_empty_seed_set _ (QArith_base.Qmake 0 1)
              QArith_base.Qplus Q_inv Q_scale true 5 line_sketches 4 1)
    as [H0 H1]; [lia|lia|].
  split; [exact H0|].
  rewrite H1 by (apply line_sketches_ok; lia). reflexivity.
Defined.

(** C8 (as stated) fails: on the empty seed set the estimator does not
    return 0; it returns nothing. *)
Lemma Estimator_empty_seed_set_counterexample :
  Q_Estimator true 5 line_sketches [] 4 1 <> Ok (QArith_base.Qmake 0 1) /\
  Q_Estimator false 5 line_sketches [] 4 1 <> Ok (QArith_base.Qmake 0 1) /\
  Q_Estimator true 5 line_sketches [] 4 1 = AssertionFailure /\
  Q_Estimator false 5 line_sketches [] 4 1 = UndefinedBehaviour.
Proof. repeat split; discriminate. Qed.

(** ** The search space *)

Section FastSetFacts.

Import FastSet.

Variable numElements : nat.

(** A search space over [0, numElements): the flags and the key vector
    agree, and no key is stored twice. *)
Definition consistent (s : FastSet.t) : Prop :=
  length (isContained s) = numElements /\
  NoDup (containedKeys s) /\
  (forall key, In key (containedKeys s) -> key < numElements) /\
  (forall key, IsContained s key = true <-> In key (containedKeys s)).

Lemma make_consistent : consistent (make numElements).
Proof.
  unfold consistent, make, IsContained. simpl. repeat split.
  - apply repeat_length.
  - constructor.
  - intros key [].
  - intros H. rewrite nth_repeat in H. discriminate.
  - intros [].
Qed.

Lemma clear_flags : forall keys flags key,
  nth key (fold_left (fun c x => upd x false c) keys flags) false
  = if existsb (Nat.eqb key) keys then false else nth key flags false.
Proof.
  induction keys as [|x keys IH]; intros flags key; simpl; [reflexivity|].
  rewrite IH, nth_upd.
  destruct (Nat.eqb_spec key x) as [->|N]; simpl.
  - rewrite Nat.eqb_refl. simpl.
    destruct (existsb (Nat.eqb x) keys); [reflexivity|].
    destruct (x <? length flags) eqn:E; [reflexivity|].
    apply nth_overflow. apply Nat.ltb_ge. assumption.
  - replace (x =? key) with false by (symmetry; apply Nat.eqb_neq; lia).
    reflexivity.
Qed.

Lemma clear_length : forall keys flags,
  length (fold_left (fun c x => upd x false c) keys flags) = length flags.
Proof.
  induction keys as [|x keys IH]; intros flags; simpl; [reflexivity|].
  rewrite IH. apply upd_length.
Qed.

Lemma Clear_consistent : forall s,
  consistent s -> consistent (Clear s) /\ containedKeys (Clear s) = [].
Proof.
  intros s (L & ND & R & C). split; [|reflexivity].
  unfold consistent, Clear, IsContained. simpl. repeat split.
  - rewrite clear_length. assumption.
  - constructor.
  - intros key [].
  - intros H. rewrite clear_flags in H.
    destruct (existsb (Nat.eqb key) (containedKeys s)) eqn:E; [discriminate|].
    apply C in H. exfalso.
    assert (X : existsb (Nat.eqb key) (containedKeys s) = true).
    { apply existsb_exists. exists key. split; [assumption|apply Nat.eqb_refl]. }
    congruence.
  - intros [].
Qed.

Lemma Insert_consistent : forall s key,
  consistent s -> key < numElements ->
  consistent (Insert s key) /\
  containedKeys (Insert s key)
  = (if IsContained s key then containedKeys s else containedKeys s ++ [key]) /\
  (forall x, In x (containedKeys (Insert s key)) <-> In x (containedKeys s) \/ x = key).
Proof.
  intros s key (L & ND & R & C) Hkey.
  assert (K : containedKeys (Insert s key)
              = (if IsContained s key then containedKeys s
                 else containedKeys s ++ [key])).
  { unfold Insert. simpl. destruct (IsContained s key); reflexivity. }
  assert (M : forall x, In x (containedKeys (Insert s key))
                        <-> In x (containedKeys s) \/ x = key).
  { intros x. rewrite K. destruct (IsContained s key) eqn:E.
    - split; [auto|]. intros [H| ->]; [assumption|]. apply C. assumption.
    - rewrite in_app_iff. simpl. intuition. }
  split; [|split; assumption].
  unfold consistent. repeat split.
  - unfold Insert. simpl. rewrite upd_length. assumption.
  - rewrite K. destruct (IsContained s key) eqn:E; [assumption|].
    apply NoDup_app; [assumption|repeat constructor; intros []|].
    intros x Hx [<-|[]]. apply C in Hx. congruence.
  - intros x Hx. apply M in Hx. destruct Hx as [Hx| ->]; auto.
  - intros H. apply M. unfold Insert, IsContained in H. simpl in H.
    rewrite nth_upd in H.
    destruct (Nat.eqb_spec key key0) as [->|N]; simpl in H; [auto|].
    left. apply C. exact H.
  - intros H. apply M in H. unfold Insert, IsContained. simpl.
    rewrite nth_upd.
    destruct (Nat.eqb_spec key key0) as [->|N]; simpl.
    + replace (key0 <? length (isContained s)) with true
        by (symmetry; apply Nat.ltb_lt; lia).
      reflexivity.
    + destruct H as [H|H]; [apply C; assumption|congruence].
Qed.

Lemma consistent_size : forall s, consistent s -> Size s <= numElements.
Proof.
  intros s (L & ND & R & C). unfold Size.
  rewrite <- (length_seq numElements 0).
  apply NoDup_incl_length; [assumption|].
  intros x Hx. apply in_seq. apply R in Hx. lia.
Qed.

End FastSetFacts.

(** ** Bottom-k lists *)

Section SetUnion.

Import FastRSInfluenceOracle.

Lemma set_union_nil_l : forall ys, set_union [] ys = ys.
Proof. destruct ys; reflexivity. Qed.

Lemma set_union_nil_r : forall xs, set_union xs [] = xs.
Proof. destruct xs; reflexivity. Qed.

Lemma set_union_cons : forall x xs y ys,
  set_union (x :: xs) (y :: ys) =
  if y <? x then y :: set_union (x :: xs) ys
  else x :: (if x <? y then set_union xs (y :: ys) else set_union xs ys).
Proof. reflexivity. Qed.

Lemma set_union_In : forall xs ys z,
  In z (set_union xs ys) <-> In z xs \/ In z ys.
Proof.
  induction xs as [|x xs IHx]; intros ys z.
  - rewrite set_union_nil_l. simpl. tauto.
  - induction ys as [|y ys IHy].
    + rewrite set_union_nil_r. simpl. tauto.
    + rewrite set_union_cons.
      destruct (Nat.ltb_spec y x) as [H1|H1].
      * simpl. rewrite IHy. simpl. tauto.
      * destruct (Nat.ltb_spec x y) as [H2|H2]; simpl; rewrite IHx; simpl.
        -- tauto.
        -- assert (x = y) by lia. subst y. tauto.
Qed.

Lemma set_union_sorted : forall xs ys,
  StronglySorted lt xs -> StronglySorted lt ys ->
  StronglySorted lt (set_union xs ys).
Proof.
  induction xs as [|x xs IHx]; intros ys Sx Sy.
  - rewrite set_union_nil_l. assumption.
  - induction ys as [|y ys IHy].
    + rewrite set_union_nil_r. assumption.
    + rewrite set_union_cons.
      inversion Sx as [|? ? Sx' Fx]; subst.
      inversion Sy as [|? ? Sy' Fy]; subst.
      rewrite Forall_forall in Fx, Fy.
      destruct (Nat.ltb_spec y x) as [H1|H1].
      * constructor; [apply IHy; assumption|].
        rewrite Forall_forall. intros z Hz. apply set_union_In in Hz.
        destruct Hz as [[<-|Hz]|Hz]; [lia| |apply Fy, Hz].
        apply Fx in Hz. lia.
      * destruct (Nat.ltb_spec x y) as [H2|H2].
        -- constructor; [apply IHx; assumption|].
           rewrite Forall_forall. intros z Hz. apply set_union_In in Hz.
           destruct Hz as [Hz|[<-|Hz]]; [apply Fx, Hz|lia|].
           apply Fy in Hz. lia.
        -- constructor; [apply IHx; assumption|].
           rewrite Forall_forall. intros z Hz. apply set_union_In in Hz.
           destruct Hz as [Hz|Hz]; [apply Fx, Hz|]. apply Fy in Hz. lia.
Qed.

End SetUnion.

Section BottomK.

Variable k : nat.

(** [X] holds the [k] smallest members of [P], ascending (all of them
    when [P] has fewer than [k] members). *)
Definition bottom_k (P : nat -> Prop) (X : list nat) : Prop :=
  StronglySorted lt X /\
  length X <= k /\
  (forall r, In r X -> P r) /\
  (forall r, P r -> ~ In r X -> length X = k /\ forall x, In x X -> x < r).

Lemma sorted_NoDup : forall xs, StronglySorted lt xs -> NoDup xs.
Proof.
  induction xs as [|x xs IH]; intros H; [constructor|].
  inversion H as [|? ? H1 H2]; subst. constructor; [|apply IH, H1].
  intros Hin. rewrite Forall_forall in H2. apply H2 in Hin. lia.
Qed.

Lemma bottom_k_ext : forall (P Q : nat -> Prop) X,
  (forall r, P r <-> Q r) -> bottom_k P X -> bottom_k Q X.
Proof.
  intros P Q X H (S & L & I & M).
  split; [assumption|]. split; [assumption|]. split.
  - intros r Hr. apply H, I, Hr.
  - intros r Hr Hn. apply (M r); [apply H|]; assumption.
Qed.

Lemma bottom_k_nil : forall P : nat -> Prop,
  1 <= k -> (forall r, ~ P r) -> bottom_k P [].
Proof.
  intros P Hk H.
  split; [constructor|]. split; [simpl; lia|]. split.
  - intros r [].
  - intros r Hr. exfalso. apply (H r). assumption.
Qed.

(** A list that is not full holds every member. *)
Lemma bottom_k_all : forall P X r,
  bottom_k P X -> length X < k -> P r -> In r X.
Proof.
  intros P X r (S & L & I & M) Hl Hr.
  destruct (in_dec Nat.eq_dec r X) as [Hin|Hn]; [assumption|].
  destruct (M r Hr Hn). lia.
Qed.

Lemma bottom_k_subset_length : forall (P Q : nat -> Prop) X Y,
  bottom_k P X -> bottom_k Q Y -> (forall r, P r -> Q r) ->
  length Y < k -> length X <= length Y.
Proof.
  intros P Q X Y HX HY H Hl.
  apply NoDup_incl_length.
  - apply sorted_NoDup. apply HX.
  - intros r Hr. apply (@bottom_k_all Q Y r HY Hl). apply H.
    destruct HX as (_ & _ & I & _). apply I, Hr.
Qed.

Lemma sorted_snoc : forall xs r,
  StronglySorted lt xs -> (forall x, In x xs -> x < r) ->
  StronglySorted lt (xs ++ [r]).
Proof.
  induction xs as [|x xs IH]; intros r S H; simpl.
  - repeat constructor.
  - inversion S as [|? ? S' F]; subst. constructor.
    + apply IH; [assumption|]. intros y Hy. apply H. right. assumption.
    + rewrite Forall_forall in *. intros y Hy. apply in_app_or in Hy.
      destruct Hy as [Hy|[<-|[]]]; [apply F, Hy|]. apply H. left. reflexivity.
Qed.

(** A new largest member is appended to a list that is not full. *)
Lemma bottom_k_append : forall (P : nat -> Prop) X r,
  bottom_k P X -> length X < k -> (forall x, P x -> x < r) ->
  bottom_k (fun x => P x \/ x = r) (X ++ [r]).
Proof.
  intros P X r HX Hl Hr.
  pose proof HX as (S & L & I & M).
  split; [|split; [|split]].
  - apply sorted_snoc; [assumption|]. intros x Hx. apply Hr, I, Hx.
  - rewrite length_app. simpl. lia.
  - intros x Hx. apply in_app_or in Hx. destruct Hx as [Hx|[<-|[]]]; auto.
  - intros x Hx Hn. exfalso. apply Hn. apply in_or_app.
    destruct Hx as [Hx| ->]; [left|right; left; reflexivity].
    apply (@bottom_k_all P X x HX Hl Hx).
Qed.

(** A new largest member leaves a full list as it is. *)
Lemma bottom_k_full : forall (P P' : nat -> Prop) X r,
  bottom_k P X -> k <= length X -> (forall x, P x -> x < r) ->
  (forall z, P z -> P' z) -> (forall z, P' z -> P z \/ z = r) ->
  bottom_k P' X.
Proof.
  intros P P' X r (S & L & I & M) Hl Hr Hsub Hsup.
  split; [assumption|]. split; [assumption|]. split.
  - intros x Hx. apply Hsub, I, Hx.
  - intros x Hx Hn. destruct (Hsup x Hx) as [Hp| ->]; [apply (M x Hp Hn)|].
    split; [lia|]. intros y Hy. apply Hr, I, Hy.
Qed.

Lemma sorted_filter_prefix : forall r xs,
  StronglySorted lt xs ->
  forall j, j < length (filter (fun y => y <? r) xs) -> nth j xs 0 < r.
Proof.
  intros r. induction xs as [|x xs IH]; intros S j Hj; simpl in Hj; [lia|].
  inversion S as [|? ? S' F]; subst.
  destruct (Nat.ltb_spec x r) as [H|H].
  - destruct j as [|j]; simpl; [assumption|].
    apply IH; [assumption|]. simpl in Hj. lia.
  - assert (E : filter (fun y => y <? r) xs = []).
    { clear - F H. rewrite Forall_forall in F.
      induction xs as [|y xs IH]; simpl; [reflexivity|].
      replace (y <? r) with false.
      - apply IH. intros z Hz. apply F. right. assumption.
      - symmetry. apply Nat.ltb_ge.
        assert (x < y) by (apply F; left; reflexivity). lia. }
    rewrite E in Hj. simpl in Hj. lia.
Qed.

Lemma firstn_nth_In : forall j (xs : list nat) x,
  In x (firstn j xs) -> exists p, p < j /\ p < length xs /\ nth p xs 0 = x.
Proof.
  induction j as [|j IH]; intros xs x H; [destruct H|].
  destruct xs as [|y xs]; [destruct H|].
  simpl in H. destruct H as [<-|H].
  - exists 0. simpl. repeat split; lia.
  - destruct (IH xs x H) as (p & Hp & Hl & E).
    exists (S p). simpl. repeat split; auto; lia.
Qed.

(** The first [k] entries of a sorted list are below [r] as soon as the
    list holds [k] entries below [r]. *)
Lemma firstn_below : forall U X r,
  StronglySorted lt U -> NoDup X -> length X = k ->
  (forall x, In x X -> In x U /\ x < r) ->
  forall x, In x (firstn k U) -> x < r.
Proof.
  intros U X r SU ND LX HX x Hx.
  destruct (@firstn_nth_In k U x Hx) as (p & Hp & Hl & <-).
  apply sorted_filter_prefix; [assumption|].
  assert (length X <= length (filter (fun y => y <? r) U)).
  { apply NoDup_incl_length; [assumption|].
    intros y Hy. apply filter_In. destruct (HX y Hy) as [H1 H2].
    split; [assumption|]. apply Nat.ltb_lt. assumption. }
  lia.
Qed.

Lemma sorted_firstn_lt : forall j U,
  StronglySorted lt U ->
  forall x y, In x (firstn j U) -> In y U -> ~ In y (firstn j U) -> x < y.
Proof.
  induction j as [|j IH]; intros U S x y Hx Hy Hn; [destruct Hx|].
  destruct U as [|u U]; [destruct Hx|].
  inversion S as [|? ? S' F]; subst. rewrite Forall_forall in F.
  simpl in Hx, Hn.
  destruct Hy as [<-|Hy]; [exfalso; apply Hn; left; reflexivity|].
  destruct Hx as [<-|Hx]; [apply F, Hy|].
  apply (IH U S' x y Hx Hy). intros H. apply Hn. right. assumption.
Qed.

(** The local sketch merged into the global one and trimmed. *)
Definition trim (Z : list nat) : list nat :=
  if k <? length Z then firstn k Z else Z.

Lemma trim_firstn : forall Z, trim Z = firstn k Z.
Proof.
  intros Z. unfold trim. destruct (Nat.ltb_spec k (length Z)); [reflexivity|].
  symmetry. apply firstn_all2. assumption.
Qed.

Lemma bottom_k_merge : forall (P Q : nat -> Prop) X Y,
  bottom_k P X -> bottom_k Q Y ->
  bottom_k (fun r => P r \/ Q r)
    (trim (FastRSInfluenceOracle.set_union X Y)).
Proof.
  intros P Q X Y (SX & LX & IX & MX) (SY & LY & IY & MY).
  rewrite trim_firstn.
  set (U := FastRSInfluenceOracle.set_union X Y).
  assert (SU : StronglySorted lt U) by (apply set_union_sorted; assumption).
  assert (HU : forall z, In z U <-> In z X \/ In z Y) by (apply set_union_In).
  assert (Full : forall (R : nat -> Prop) W r,
             StronglySorted lt W -> (forall w, In w W -> In w U) ->
             length W = k -> (forall w, In w W -> w < r) ->
             length (firstn k U) = k /\ forall x, In x (firstn k U) -> x < r).
  { intros R W r SW HW LW Hlt. split.
    - rewrite length_firstn.
      assert (length W <= length U).
      { apply NoDup_incl_length; [apply sorted_NoDup; assumption|].
        intros w Hw. apply HW, Hw. }
      lia.
    - apply (@firstn_below U W r); auto.
      apply sorted_NoDup. assumption. }
  split; [|split; [|split]].
  - apply firstn_StronglySorted. assumption.
  - rewrite length_firstn. lia.
  - intros r Hr. apply firstn_incl in Hr. apply HU in Hr.
    destruct Hr as [Hr|Hr]; [left; apply IX|right; apply IY]; assumption.
  - intros r Hr Hn.
    destruct (in_dec Nat.eq_dec r U) as [Hin|Hnin].
    + split.
      * rewrite length_firstn.
        destruct (Nat.le_gt_cases (length U) k) as [Hle|Hgt]; [|lia].
        exfalso. apply Hn. rewrite firstn_all2 by assumption. assumption.
      * intros x Hx. apply (@sorted_firstn_lt k U SU x r); assumption.
    + destruct Hr as [Hr|Hr].
      * destruct (MX r Hr) as [E Hlt]; [intros C; apply Hnin, HU; auto|].
        apply (Full P X r); auto. intros w Hw. apply HU. auto.
      * destruct (MY r Hr) as [E Hlt]; [intros C; apply Hnin, HU; auto|].
        apply (Full Q Y r); auto. intros w Hw. apply HU. auto.
Qed.

(** The predicate determines the list. *)
Lemma sorted_same_members : forall X Y,
  StronglySorted lt X -> StronglySorted lt Y ->
  (forall r, In r X <-> In r Y) -> X = Y.
Proof.
  induction X as [|x X IH]; intros Y SX SY H.
  - destruct Y as [|y Y]; [reflexivity|].
    exfalso. apply (H y). left. reflexivity.
  - destruct Y as [|y Y].
    + exfalso. apply (H x). left. reflexivity.
    + inversion SX as [|? ? SX' FX]; subst.
      inversion SY as [|? ? SY' FY]; subst.
      rewrite Forall_forall in FX, FY.
      assert (x = y).
      { assert (Hx : In x (y :: Y)) by (apply H; left; reflexivity).
        assert (Hy : In y (x :: X)) by (apply H; left; reflexivity).
        destruct Hx as [Hx|Hx]; [auto|].
        destruct Hy as [Hy|Hy]; [auto|].
        apply FX in Hy. apply FY in Hx. lia. }
      subst y. f_equal. apply IH; auto.
      intros r. split; intros Hr.
      * assert (Hr' : In r (x :: Y)) by (apply H; right; assumption).
        destruct Hr' as [<-|Hr']; [|assumption].
        apply FX in Hr. lia.
      * assert (Hr' : In r (x :: X)) by (apply H; right; assumption).
        destruct Hr' as [<-|Hr']; [|assumption].
        apply FY in Hr. lia.
Qed.

Lemma bottom_k_unique : forall P X Y, bottom_k P X -> bottom_k P Y -> X = Y.
Proof.
  assert (Half : forall P X Y, bottom_k P X -> bottom_k P Y ->
                   forall r, In r X -> In r Y).
  { intros P X Y (SX & LX & IX & MX) (SY & LY & IY & MY) r Hr.
    destruct (in_dec Nat.eq_dec r Y) as [Hin|Hn]; [assumption|].
    destruct (MY r (IX r Hr) Hn) as [E Hlt].
    assert (Hincl : incl Y X).
    { intros y Hy. destruct (in_dec Nat.eq_dec y X) as [Hi|Hni]; [assumption|].
      destruct (MX y (IY y Hy) Hni) as [_ Hlt'].
      specialize (Hlt y Hy). specialize (Hlt' r Hr). lia. }
    assert (Hback : incl X Y).
    { apply NoDup_length_incl; [apply sorted_NoDup; assumption|lia|assumption]. }
    exfalso. apply Hn, Hback, Hr. }
  intros P X Y HX HY. apply sorted_same_members.
  - apply HX.
  - apply HY.
  - intros r. split; [apply (Half P X Y)|apply (Half P Y X)]; assumption.
Qed.

End BottomK.

(** ** The preprocessing: reverse searches with pruning *)

Section Reachability.

Import FastRSInfluenceOracle.

Variable graph : FastStaticGraph.t.
Variable Contained : nat -> nat -> nat -> nat -> bool.
Variable l : nat.

Local Abbreviation N := (n graph).

(** What the reverse search meets.  [v] is a scanned predecessor of [u]
    in instance [i]: the backward scan at [u] runs its body on an arc
    whose other vertex is [v], and the arc from [v] to [u] is contained
    in the instance. *)
Definition scanned_predecessor (i u v : nat) : Prop :=
  exists a, In a (FastStaticGraph.backward_scan graph u) /\
            v = Z.to_nat (FastArc.OtherVertexId a) /\
            Contained v u i l = true.

(** [v] is met from [s] in instance [i] along scanned predecessors. *)
Inductive scan_reaches (i s : nat) : nat -> Prop :=
| sr_source : scan_reaches i s s
| sr_arc : forall u v,
    scan_reaches i s u -> scanned_predecessor i u v -> scan_reaches i s v.

Lemma scan_reaches_trans : forall i s u v,
  scan_reaches i s u -> scan_reaches i u v -> scan_reaches i s v.
Proof.
  intros i s u v Hsu Huv. induction Huv as [|x y Hux IH Hp].
  - assumption.
  - apply sr_arc with x; assumption.
Qed.

(** The other vertex of every scanned arc is a vertex of the graph. *)
Definition scans_in_range : Prop :=
  forall u a, u < N -> In a (FastStaticGraph.backward_scan graph u) ->
              Z.to_nat (FastArc.OtherVertexId a) < N.

Hypothesis graph_ok : scans_in_range.

Lemma scanned_predecessor_range : forall i u v, u < N -> scanned_predecessor i u v -> v < N.
Proof.
  intros i u v Hu (a & Ha & -> & _). apply graph_ok with (u := u); assumption.
Qed.

Lemma scan_reaches_range : forall i s v,
  s < N -> scan_reaches i s v -> v < N.
Proof.
  intros i s v Hs H. induction H as [|u v Hu IH Hp]; [assumption|].
  apply scanned_predecessor_range with (i := i) (u := u); assumption.
Qed.

(** *** Arc expansion *)

Lemma expand_arcs : forall u i arcs searchSpace,
  consistent N searchSpace ->
  (forall a, In a arcs -> Z.to_nat (FastArc.OtherVertexId a) < N) ->
  let searchSpace' := fold_left (expand_step Contained l u i) arcs searchSpace in
  consistent N searchSpace' /\
  (exists new, FastSet.containedKeys searchSpace'
               = FastSet.containedKeys searchSpace ++ new) /\
  (forall x, In x (FastSet.containedKeys searchSpace') <->
             In x (FastSet.containedKeys searchSpace) \/
             exists a, In a arcs /\ x = Z.to_nat (FastArc.OtherVertexId a) /\
                       Contained x u i l = true).
Proof.
  intros u i. induction arcs as [|a arcs IH]; intros S HS Hr; simpl.
  - split; [assumption|]. split; [exists []; rewrite app_nil_r; reflexivity|].
    intros x. split; [auto|]. intros [H|(a & [] & _)]. assumption.
  - set (v := Z.to_nat (FastArc.OtherVertexId a)).
    assert (Hv : v < N) by (apply Hr; left; reflexivity).
    assert (Hr' : forall b, In b arcs -> Z.to_nat (FastArc.OtherVertexId b) < N)
      by (intros b Hb; apply Hr; right; assumption).
    destruct (@Insert_consistent N S v HS Hv) as (HS1 & K1 & M1).
    assert (Estep : expand_step Contained l u i S a
                    = if Contained v u i l && negb (FastSet.IsContained S v)
                      then FastSet.Insert S v else S) by reflexivity.
    rewrite Estep. clear Estep.
    destruct (Contained v u i l) eqn:C; simpl andb.
    + destruct (FastSet.IsContained S v) eqn:E; simpl negb; cbv iota.
      * destruct (IH S HS Hr') as (H1 & H2 & H3).
        split; [assumption|]. split; [assumption|].
        intros x. rewrite H3. split.
        -- intros [H|(b & Hb & Hx & Hc)]; [auto|].
           right. exists b. auto.
        -- intros [H|(b & [<-|Hb] & Hx & Hc)]; [auto| |].
           ++ left. subst x. fold v. apply HS. assumption.
           ++ right. exists b. auto.
      * destruct (IH (FastSet.Insert S v) HS1 Hr') as (H1 & (new & H2) & H3).
        split; [assumption|]. split.
        -- exists ([v] ++ new). rewrite H2, K1, <- app_assoc. reflexivity.
        -- intros x. rewrite H3, M1. split.
           ++ intros [[H| ->]|(b & Hb & Hx & Hc)]; [auto| |].
              ** right. exists a. auto.
              ** right. exists b. auto.
           ++ intros [H|(b & [<-|Hb] & Hx & Hc)]; [auto| |].
              ** left. right. assumption.
              ** right. exists b. auto.
    + cbv iota.
      destruct (IH S HS Hr') as (H1 & H2 & H3).
      split; [assumption|]. split; [assumption|].
      intros x. rewrite H3. split.
      * intros [H|(b & Hb & Hx & Hc)]; [auto|]. right. exists b. auto.
      * intros [H|(b & [<-|Hb] & Hx & Hc)]; [auto| |].
        -- subst x. fold v in Hc. congruence.
        -- right. exists b. auto.
Qed.

Lemma expand_spec : forall u i searchSpace,
  consistent N searchSpace -> u < N ->
  consistent N (expand graph Contained l u i searchSpace) /\
  (exists new, FastSet.containedKeys (expand graph Contained l u i searchSpace)
               = FastSet.containedKeys searchSpace ++ new) /\
  (forall x, In x (FastSet.containedKeys (expand graph Contained l u i searchSpace))
             <-> In x (FastSet.containedKeys searchSpace) \/ scanned_predecessor i u x).
Proof.
  intros u i S HS Hu. unfold expand.
  apply expand_arcs; [assumption|].
  intros a Ha. apply graph_ok with (u := u); assumption.
Qed.

End Reachability.

Lemma firstn_succ_app : forall (A : Type) (d : A) j (keys new : list A),
  j < length keys ->
  firstn (j + 1) (keys ++ new) = firstn j keys ++ [nth j keys d].
Proof.
  intros A d. induction j as [|j IH]; intros keys new H.
  - destruct keys as [|x keys]; [simpl in H; lia|]. reflexivity.
  - destruct keys as [|x keys]; [simpl in H; lia|].
    simpl in H. simpl. f_equal. apply IH. lia.
Qed.

Lemma NoDup_nth_firstn : forall j (keys : list nat),
  NoDup keys -> j < length keys -> ~ In (nth j keys 0) (firstn j keys).
Proof.
  induction j as [|j IH]; intros keys ND H; [intros []|].
  destruct keys as [|x keys]; [simpl in H; lia|].
  inversion ND as [|? ? Hx ND']; subst. simpl in H. simpl.
  intros [E|Hin].
  - apply Hx. rewrite E. apply nth_In. lia.
  - apply (IH keys ND'); [lia|assumption].
Qed.

Section Search.

Import FastRSInfluenceOracle.

Variable graph : FastStaticGraph.t.
Variable Contained : nat -> nat -> nat -> nat -> bool.
Variables k l : nat.

Local Abbreviation N := (n graph).
Local Abbreviation reaches := (scan_reaches graph Contained l).
Local Abbreviation pred := (scanned_predecessor graph Contained l).

Hypothesis graph_ok : scans_in_range graph.

Variables i rank source : nat.
Variable L0 : list (list nat).

Hypothesis source_ok : source < N.
Hypothesis L0_length : length L0 = N.

(** The state of the search from [source]: the keys are reached from the
    source; a key taken from the queue whose local sketch is not full has
    received the rank and has all its predecessors in the queue; every
    other local sketch is as before the search. *)
Definition search_inv (st : search_state) : Prop :=
  let '(ss, ind, L) := st in
  let keys := FastSet.containedKeys ss in
  consistent N ss /\ ind <= length keys /\ length L = length L0 /\
  In source keys /\
  (forall x, In x keys -> reaches i source x) /\
  (forall u, In u (firstn ind keys) -> length (nth u L0 []) < k ->
     nth u L [] = nth u L0 [] ++ [rank] /\
     forall v, pred i u v -> In v keys) /\
  (forall u, ~ In u (firstn ind keys) \/ k <= length (nth u L0 []) ->
     nth u L [] = nth u L0 []).

Lemma bfs_loop_unfold : forall fuel ss ind L,
  bfs_loop graph Contained k l (Datatypes.S fuel) rank i (ss, ind, L) =
  if ind <? FastSet.Size ss then
    if k <=? length (nth (FastSet.KeyByIndex ss ind) L [])
    then bfs_loop graph Contained k l fuel rank i (ss, ind + 1, L)
    else bfs_loop graph Contained k l fuel rank i
           (expand graph Contained l (FastSet.KeyByIndex ss ind) i ss, ind + 1,
            upd (FastSet.KeyByIndex ss ind)
              (nth (FastSet.KeyByIndex ss ind) L [] ++ [rank]) L)
  else (ss, ind, L).
Proof. reflexivity. Qed.

Lemma search_step_pruned : forall ss ind L,
  search_inv (ss, ind, L) -> ind < FastSet.Size ss ->
  k <= length (nth (FastSet.KeyByIndex ss ind) L []) ->
  search_inv (ss, ind + 1, L).
Proof.
  intros ss ind L (HS & Hind & HL & Hsrc & Hreach & Hdone & Hrest) Hlt Hfull.
  unfold FastSet.Size, FastSet.KeyByIndex in *.
  set (keys := FastSet.containedKeys ss) in *.
  set (u := nth ind keys 0) in *.
  assert (Hnew : ~ In u (firstn ind keys)).
  { apply NoDup_nth_firstn; [apply HS|assumption]. }
  assert (Hu : nth u L [] = nth u L0 []) by (apply Hrest; left; assumption).
  assert (Hf : firstn (ind + 1) keys = firstn ind keys ++ [u]).
  { rewrite <- (app_nil_r keys) at 1. apply firstn_succ_app. assumption. }
  unfold search_inv. fold keys. rewrite Hf.
  split; [assumption|]. split; [lia|]. split; [assumption|].
  split; [assumption|]. split; [assumption|]. split.
  - intros u' Hin Hopen. apply in_app_or in Hin.
    destruct Hin as [Hin|[<-|[]]]; [apply Hdone; assumption|].
    rewrite Hu in Hfull. lia.
  - intros u' [Hn|Hf']; apply Hrest; [|right; assumption].
    left. intros Hin. apply Hn. apply in_or_app. left. assumption.
Qed.

Lemma search_step_expand : forall ss ind L,
  search_inv (ss, ind, L) -> ind < FastSet.Size ss ->
  length (nth (FastSet.KeyByIndex ss ind) L []) < k ->
  search_inv (expand graph Contained l (FastSet.KeyByIndex ss ind) i ss, ind + 1,
              upd (FastSet.KeyByIndex ss ind)
                (nth (FastSet.KeyByIndex ss ind) L [] ++ [rank]) L).
Proof.
  intros ss ind L (HS & Hind & HL & Hsrc & Hreach & Hdone & Hrest) Hlt Hopen.
  unfold FastSet.Size, FastSet.KeyByIndex in *.
  set (keys := FastSet.containedKeys ss) in *.
  set (u := nth ind keys 0) in *.
  assert (Hin_u : In u keys) by (apply nth_In; assumption).
  assert (Hu_range : u < N) by (apply HS; assumption).
  assert (Hnew : ~ In u (firstn ind keys)).
  { apply NoDup_nth_firstn; [apply HS|assumption]. }
  assert (Hu : nth u L [] = nth u L0 []) by (apply Hrest; left; assumption).
  destruct (@expand_spec graph Contained l graph_ok u i ss HS Hu_range)
    as (HS' & (new & Hkeys) & Hmem).
  set (ss' := expand graph Contained l u i ss) in *.
  assert (Hf : firstn (ind + 1) (FastSet.containedKeys ss')
               = firstn ind keys ++ [u]).
  { rewrite Hkeys. apply firstn_succ_app. assumption. }
  unfold search_inv. rewrite Hf.
  split; [assumption|]. split; [rewrite Hkeys, length_app; fold keys; lia|].
  split; [rewrite upd_length; assumption|].
  split; [apply Hmem; left; assumption|]. split; [|split].
  - intros x Hx. apply Hmem in Hx. destruct Hx as [Hx|Hx].
    + apply Hreach. assumption.
    + apply sr_arc with u; [apply Hreach; assumption|assumption].
  - intros u' Hin Hopen'. apply in_app_or in Hin.
    destruct Hin as [Hin|[<-|[]]].
    + assert (u' <> u) by (intros ->; contradiction).
      rewrite nth_upd_ne by auto.
      destruct (Hdone u' Hin Hopen') as [E Hp]. split; [assumption|].
      intros v Hv. apply Hmem. left. apply Hp. assumption.
    + split.
      * rewrite nth_upd_eq by (rewrite HL, L0_length; assumption).
        rewrite Hu. reflexivity.
      * intros v Hv. apply Hmem. right. assumption.
  - intros u' Hc.
    assert (u' <> u).
    { intros ->. destruct Hc as [Hn|Hf'].
      - apply Hn. apply in_or_app. right. left. reflexivity.
      - rewrite Hu in Hopen. lia. }
    rewrite nth_upd_ne by auto. apply Hrest.
    destruct Hc as [Hn|Hf']; [left|right; assumption].
    intros Hin. apply Hn. apply in_or_app. left. assumption.
Qed.

Lemma bfs_loop_spec : forall fuel ss ind L,
  search_inv (ss, ind, L) -> N <= ind + fuel ->
  exists ss' L',
    bfs_loop graph Contained k l fuel rank i (ss, ind, L)
    = (ss', FastSet.Size ss', L') /\
    search_inv (ss', FastSet.Size ss', L').
Proof.
  induction fuel as [|fuel IH]; intros ss ind L Hinv Hfuel.
  - assert (ind = FastSet.Size ss).
    { destruct Hinv as (HS & Hind & _).
      pose proof (consistent_size HS). unfold FastSet.Size in *. lia. }
    subst ind. exists ss, L. split; [reflexivity|assumption].
  - rewrite bfs_loop_unfold.
    destruct (Nat.ltb_spec ind (FastSet.Size ss)) as [Hlt|Hge].
    + destruct (Nat.leb_spec k (length (nth (FastSet.KeyByIndex ss ind) L [])))
        as [Hfull|Hopen].
      * apply IH; [|lia]. apply search_step_pruned; assumption.
      * apply IH; [|lia]. apply search_step_expand; assumption.
    + assert (ind = FastSet.Size ss).
      { destruct Hinv as (HS & Hind & _). unfold FastSet.Size in *. lia. }
      subst ind. exists ss, L. split; [reflexivity|assumption].
Qed.

Hypothesis L0_mono : forall u x,
  u < N -> x < N ->
  reaches i u x -> length (nth x L0 []) < k -> length (nth u L0 []) < k.

Lemma search_inv_init : forall ss0,
  consistent N ss0 ->
  search_inv (FastSet.Insert (FastSet.Clear ss0) source, 0, L0).
Proof.
  intros ss0 H0.
  destruct (Clear_consistent H0) as [Hc Hk].
  destruct (@Insert_consistent N (FastSet.Clear ss0) source Hc source_ok)
    as (Hi & _ & Hmem).
  unfold search_inv.
  split; [assumption|]. split; [lia|]. split; [reflexivity|].
  split; [apply Hmem; right; reflexivity|]. split; [|split].
  - intros x Hx. apply Hmem in Hx. rewrite Hk in Hx.
    destruct Hx as [[]| ->]. apply sr_source.
  - intros u [].
  - reflexivity.
Qed.

Lemma search_inv_visited : forall ss L,
  search_inv (ss, FastSet.Size ss, L) ->
  forall x, reaches i source x -> length (nth x L0 []) < k ->
  In x (FastSet.containedKeys ss).
Proof.
  intros ss L (HS & Hind & HL & Hsrc & Hreach & Hdone & Hrest).
  unfold FastSet.Size in Hdone. rewrite firstn_all in Hdone.
  induction 1 as [|u v Hu IH Hp]; intros Hopen; [assumption|].
  assert (Hopen_u : length (nth u L0 []) < k).
  { assert (Hu_range : u < N).
    { apply (@scan_reaches_range graph Contained l graph_ok i source);
        assumption. }
    apply L0_mono with v; [assumption| |
      apply sr_arc with u; [apply sr_source|assumption] | assumption].
    apply (@scanned_predecessor_range graph Contained l graph_ok i u); assumption. }
  destruct (Hdone u (IH Hopen_u) Hopen_u) as [_ Hpred].
  apply Hpred. assumption.
Qed.

(** One search: the rank is appended to the local sketch of exactly the
    visited vertices whose local sketch was not full; the visited vertices
    are reached from the source, and they include every reached vertex
    whose local sketch was not full. *)
Lemma search_from_spec : forall ss0,
  consistent N ss0 ->
  exists ss' ind' L',
    bfs_loop graph Contained k l N rank i
      (FastSet.Insert (FastSet.Clear ss0) source, 0, L0) = (ss', ind', L') /\
    consistent N ss' /\ length L' = N /\
    (forall u, In u (FastSet.containedKeys ss') -> reaches i source u) /\
    (forall u, reaches i source u -> length (nth u L0 []) < k ->
       In u (FastSet.containedKeys ss')) /\
    (forall u, In u (FastSet.containedKeys ss') -> length (nth u L0 []) < k ->
       nth u L' [] = nth u L0 [] ++ [rank]) /\
    (forall u, ~ In u (FastSet.containedKeys ss') \/ k <= length (nth u L0 []) ->
       nth u L' [] = nth u L0 []).
Proof.
  intros ss0 H0.
  destruct (@bfs_loop_spec N _ 0 L0 (search_inv_init H0)) as (ss' & L' & E & Hinv);
    [lia|].
  exists ss', (FastSet.Size ss'), L'. split; [assumption|].
  pose proof (search_inv_visited Hinv) as Hvis.
  destruct Hinv as (HS & Hind & HL & Hsrc & Hreach & Hdone & Hrest).
  unfold FastSet.Size in Hdone, Hrest. rewrite firstn_all in Hdone, Hrest.
  split; [assumption|]. split; [lia|]. split; [assumption|].
  split; [assumption|]. split; [|assumption].
  intros u Hu Hopen. apply Hdone; assumption.
Qed.

End Search.

(** *** Grouping the ranks by instance *)

Lemma map_nth_seq_id : forall (xs : list nat),
  map (fun r => nth r xs 0) (seq 0 (length xs)) = xs.
Proof.
  intros xs. apply nth_ext with (d := 0) (d' := 0).
  - rewrite length_map, length_seq. reflexivity.
  - intros j Hj. rewrite length_map, length_seq in Hj.
    rewrite (nth_indep _ 0 (nth 0 xs 0)) by (rewrite length_map, length_seq; lia).
    rewrite (map_nth (fun r => nth r xs 0)), seq_nth by assumption.
    reflexivity.
Qed.

Lemma filter_map_comm : forall (A B : Type) (f : B -> bool) (g : A -> B) xs,
  filter f (map g xs) = map g (filter (fun x => f (g x)) xs).
Proof.
  intros A B f g. induction xs as [|x xs IH]; simpl; [reflexivity|].
  destruct (f (g x)); simpl; rewrite IH; reflexivity.
Qed.

Lemma filter_length_perm : forall (f : nat -> bool) xs ys,
  Permutation xs ys -> length (filter f xs) = length (filter f ys).
Proof.
  intros f xs ys H. induction H as [|x xs ys H IH|x y xs|xs ys zs H1 IH1 H2 IH2];
    simpl.
  - reflexivity.
  - destruct (f x); simpl; rewrite IH; reflexivity.
  - destruct (f x), (f y); reflexivity.
  - rewrite IH1. assumption.
Qed.

Lemma filter_all : forall (A : Type) (f : A -> bool) xs,
  (forall x, In x xs -> f x = true) -> filter f xs = xs.
Proof.
  intros A f. induction xs as [|x xs IH]; intros H; simpl; [reflexivity|].
  rewrite (H x) by (left; reflexivity). f_equal. apply IH.
  intros y Hy. apply H. right. assumption.
Qed.

Lemma filter_none : forall (A : Type) (f : A -> bool) xs,
  (forall x, In x xs -> f x = false) -> filter f xs = [].
Proof.
  intros A f. induction xs as [|x xs IH]; intros H; simpl; [reflexivity|].
  rewrite (H x) by (left; reflexivity). apply IH.
  intros y Hy. apply H. right. assumption.
Qed.

(** Each of the first [c] blocks of [m] consecutive numbers has [m]
    members. *)
Lemma block_count : forall m i c,
  length (filter (fun x => x / m =? i) (seq 0 (m * c)))
  = if i <? c then m else 0.
Proof.
  intros m i. induction c as [|c IH].
  - rewrite Nat.mul_0_r. reflexivity.
  - replace (m * S c) with (m * c + m) by lia.
    rewrite seq_app, filter_app, length_app, IH. simpl.
    assert (Hq : forall x, In x (seq (m * c) m) -> x / m = c).
    { intros x Hx. apply in_seq in Hx.
      symmetry. apply Nat.div_unique with (x - m * c); lia. }
    destruct (Nat.eq_dec i c) as [->|Hne].
    + rewrite filter_all.
      * rewrite length_seq.
        destruct (Nat.ltb_spec c c); [lia|].
        destruct (Nat.ltb_spec c (S c)); lia.
      * intros x Hx. apply Nat.eqb_eq. apply Hq. assumption.
    + rewrite filter_none.
      * simpl. destruct (Nat.ltb_spec i c), (Nat.ltb_spec i (S c)); lia.
      * intros x Hx. apply Nat.eqb_neq. rewrite (Hq x Hx). lia.
Qed.

Lemma fold_left_seq_inv : forall (A : Type) (f : A -> nat -> A)
  (P : nat -> A -> Prop) m a,
  P 0 a -> (forall j b, j < m -> P j b -> P (S j) (f b j)) ->
  P m (fold_left f (seq 0 m) a).
Proof.
  intros A f P. induction m as [|m IH]; intros a H0 Hstep; [assumption|].
  rewrite seq_S, fold_left_app. simpl. apply Hstep; [lia|].
  apply IH; [assumption|]. intros j b Hj. apply Hstep. lia.
Qed.

Lemma filter_seq_sorted : forall (f : nat -> bool) m,
  StronglySorted lt (filter f (seq 0 m)).
Proof.
  intros f m. generalize 0. induction m as [|m IH]; intros s; simpl;
    [constructor|].
  assert (H : Forall (lt s) (filter f (seq (S s) m))).
  { apply Forall_forall. intros x Hx. apply filter_In in Hx.
    destruct Hx as [Hx _]. apply in_seq in Hx. lia. }
  destruct (f s); [constructor; [apply IH|assumption]|apply IH].
Qed.

Section Ranks.

Import FastRSInfluenceOracle.

Variable graph : FastStaticGraph.t.
Variable permutation : list nat.
Variable l : nat.

Local Abbreviation N := (n graph).

(** The instance and the source vertex the permutation assigns to rank
    [r]. *)
Definition instance_of (r : nat) : nat := nth r permutation 0 / N.
Definition source_of (r : nat) : nat := nth r permutation 0 mod N.

(** The ranks of instance [i], ascending. *)
Definition ranks_of (i : nat) : list nat :=
  filter (fun r => instance_of r mod 2 ^ 16 =? i) (seq 0 (length permutation)).

Lemma group_fold : forall i rs acc,
  i < length acc ->
  nth i (fold_left (group_step graph permutation) rs acc) []
  = nth i acc [] ++
    map (fun r => (r, source_of r))
        (filter (fun r => instance_of r mod 2 ^ 16 =? i) rs).
Proof.
  intros i. induction rs as [|r rs IH]; intros acc Hi.
  - simpl. rewrite app_nil_r. reflexivity.
  - cbn [fold_left filter]. rewrite IH.
    + unfold group_step. fold (instance_of r). fold (source_of r).
      rewrite nth_upd.
      destruct (Nat.eqb_spec (instance_of r mod 2 ^ 16) i) as [E|Hne].
      * destruct (Nat.ltb_spec (instance_of r mod 2 ^ 16) (length acc)) as [_|Hge];
          [|lia].
        rewrite E. cbn [andb map]. rewrite <- app_assoc. reflexivity.
      * reflexivity.
    + unfold group_step. rewrite upd_length. assumption.
Qed.

Lemma instanceRanks_nth : forall i,
  i < l ->
  nth i (instanceRanks graph permutation l) []
  = map (fun r => (r, source_of r)) (ranks_of i).
Proof.
  intros i Hi. unfold instanceRanks. rewrite group_fold.
  - rewrite nth_repeat. reflexivity.
  - rewrite repeat_length. assumption.
Qed.

Lemma ranks_of_sorted : forall i, StronglySorted lt (ranks_of i).
Proof. intros i. apply filter_seq_sorted. Qed.

Hypothesis l_range : l < 2 ^ 16.
Hypothesis permutation_ok : Permutation permutation (seq 0 (N * l)).

Lemma permutation_length : length permutation = N * l.
Proof.
  rewrite (Permutation_length permutation_ok). apply length_seq.
Qed.

Lemma permutation_range : forall r, r < N * l -> nth r permutation 0 < N * l.
Proof.
  intros r Hr.
  assert (H : In (nth r permutation 0) (seq 0 (N * l))).
  { apply (Permutation_in _ permutation_ok). apply nth_In.
    rewrite permutation_length. assumption. }
  apply in_seq in H. lia.
Qed.

Lemma instance_of_range : forall r, r < N * l -> instance_of r < l.
Proof.
  intros r Hr. apply Nat.Div0.div_lt_upper_bound.
  apply permutation_range. assumption.
Qed.

Lemma source_of_range : forall r, r < N * l -> source_of r < N.
Proof.
  intros r Hr. apply Nat.mod_upper_bound. lia.
Qed.

Lemma ranks_of_In : forall i r,
  In r (ranks_of i) <-> r < N * l /\ instance_of r = i.
Proof.
  intros i r. unfold ranks_of. rewrite filter_In, in_seq, permutation_length.
  rewrite Nat.eqb_eq. split.
  - intros [H1 H2]. assert (Hr : r < N * l) by lia. split; [assumption|].
    rewrite Nat.mod_small in H2; [assumption|].
    pose proof (instance_of_range Hr). lia.
  - intros [H1 H2]. split; [lia|].
    rewrite Nat.mod_small; [assumption|].
    pose proof (instance_of_range H1). lia.
Qed.

(** Every instance has exactly one rank per vertex. *)
Lemma ranks_of_length : forall i, i < l -> length (ranks_of i) = N.
Proof.
  intros i Hi. unfold ranks_of.
  rewrite <- (length_map (fun r => nth r permutation 0)).
  unfold instance_of.
  rewrite <- (filter_map_comm (fun x => (x / N) mod 2 ^ 16 =? i)
                (fun r => nth r permutation 0)).
  rewrite map_nth_seq_id.
  rewrite (filter_length_perm _ permutation_ok).
  rewrite (filter_ext_in (fun x => (x / N) mod 2 ^ 16 =? i) (fun x => x / N =? i)).
  - rewrite block_count. destruct (Nat.ltb_spec i l); [reflexivity|lia].
  - intros x Hx. apply in_seq in Hx.
    rewrite Nat.mod_small; [reflexivity|].
    assert (x / N < l) by (apply Nat.Div0.div_lt_upper_bound; lia). lia.
Qed.

Lemma instanceRanks_entry : forall i j,
  i < l -> j < N ->
  nth j (nth i (instanceRanks graph permutation l) []) (0, 0)
  = (nth j (ranks_of i) 0, source_of (nth j (ranks_of i) 0)).
Proof.
  intros i j Hi Hj. rewrite instanceRanks_nth by assumption.
  rewrite (nth_indep _ (0, 0) (0, source_of 0))
    by (rewrite length_map, ranks_of_length; assumption).
  apply (map_nth (fun r => (r, source_of r))).
Qed.

End Ranks.

(** *** The searches of one instance *)

Section Preprocessing.

Import FastRSInfluenceOracle.

Variable graph : FastStaticGraph.t.
Variable Contained : nat -> nat -> nat -> nat -> bool.
Variable permutation : list nat.
Variables k l : nat.

Local Abbreviation N := (n graph).
Local Abbreviation reaches := (scan_reaches graph Contained l).
Local Abbreviation ranks := (ranks_of graph permutation).
Local Abbreviation src := (source_of graph permutation).
Local Abbreviation inst := (instance_of graph permutation).

Hypothesis graph_ok : scans_in_range graph.
Hypothesis k_pos : 1 <= k.
Hypothesis l_range : l < 2 ^ 16.
Hypothesis permutation_ok : Permutation permutation (seq 0 (N * l)).

(** The ranks that the first [j] searches of instance [i] offer to
    vertex [v]. *)
Definition local (i j v r : nat) : Prop :=
  In r (firstn j (ranks i)) /\ reaches i (src r) v.

Definition local_inv (i j : nat) (st : FastSet.t * list (list nat)) : Prop :=
  let '(ss, L) := st in
  consistent N ss /\ length L = N /\
  forall v, v < N -> bottom_k k (local i j v) (nth v L []).

Lemma ranks_prefix_lt : forall i j x,
  j < length (ranks i) -> In x (firstn j (ranks i)) -> x < nth j (ranks i) 0.
Proof.
  intros i j x Hj Hx.
  pose proof (ranks_of_sorted graph permutation i) as Hs.
  apply (@sorted_firstn_lt j (ranks i) Hs); [assumption|apply nth_In; assumption|].
  apply NoDup_nth_firstn; [apply sorted_NoDup|]; assumption.
Qed.

Lemma ranks_prefix_succ : forall i j,
  j < length (ranks i) ->
  firstn (S j) (ranks i) = firstn j (ranks i) ++ [nth j (ranks i) 0].
Proof.
  intros i j Hj. rewrite <- Nat.add_1_r.
  rewrite <- (app_nil_r (ranks i)) at 1. apply firstn_succ_app. assumption.
Qed.

Lemma local_mono : forall i j L u x,
  (forall v, v < N -> bottom_k k (local i j v) (nth v L [])) ->
  u < N -> x < N -> reaches i u x ->
  length (nth x L []) < k -> length (nth u L []) < k.
Proof.
  intros i j L u x HB Hu Hx Hux Hopen.
  enough (length (nth u L []) <= length (nth x L [])) by lia.
  apply (@bottom_k_subset_length k (local i j u) (local i j x));
    [apply HB; assumption|apply HB; assumption| |assumption].
  intros r [Hr Hreach]. split; [assumption|].
  apply scan_reaches_trans with u; assumption.
Qed.

Lemma search_step_inv : forall i j st,
  i < l -> j < N -> local_inv i j st ->
  local_inv i (S j) (search graph Contained permutation k l i st j).
Proof.
  intros i j [ss L] Hi Hj (HS & HL & HB).
  assert (Hlen : length (ranks i) = N)
    by (apply ranks_of_length with (l := l); assumption).
  unfold search.
  rewrite (@instanceRanks_entry graph permutation l l_range permutation_ok i j Hi Hj).
  set (r := nth j (ranks i) 0).
  assert (Hr : r < N * l /\ inst r = i).
  { apply (@ranks_of_In graph permutation l l_range permutation_ok i r).
    apply nth_In. lia. }
  assert (Hs : src r < N)
    by (unfold source_of; apply Nat.mod_upper_bound; lia).
  destruct (@search_from_spec graph Contained k l graph_ok i r (src r) L
              Hs HL (fun u x => @local_mono i j L u x HB) ss HS)
    as (ss' & ind' & L' & E & HS' & HL' & Hreach & Hvis & Happ & Hsame).
  rewrite E. split; [assumption|]. split; [assumption|].
  intros v Hv.
  assert (Hlt : forall x, local i j v x -> x < r).
  { intros x [Hx _]. apply ranks_prefix_lt; [lia|assumption]. }
  assert (Hsub : forall z, local i j v z -> local i (S j) v z).
  { intros z [Hz Hzr]. split; [|assumption].
    rewrite ranks_prefix_succ by lia. apply in_or_app. left. assumption. }
  assert (Hsup : forall z, local i (S j) v z -> local i j v z \/ z = r).
  { intros z [Hz Hzr]. rewrite ranks_prefix_succ in Hz by lia.
    apply in_app_or in Hz. destruct Hz as [Hz|[Hz|[]]].
    - left. split; assumption.
    - right. symmetry. assumption. }
  destruct (le_lt_dec k (length (nth v L []))) as [Hfull|Hopen].
  - rewrite Hsame by (right; assumption).
    apply (@bottom_k_full k (local i j v) (local i (S j) v) _ r);
      [apply HB|..]; assumption.
  - destruct (in_dec Nat.eq_dec v (FastSet.containedKeys ss')) as [Hin|Hnin].
    + rewrite Happ by assumption.
      apply bottom_k_ext with (P := fun x => local i j v x \/ x = r).
      * intros x. split.
        -- intros [Hx| ->]; [apply Hsub; assumption|].
           split; [|apply Hreach; assumption].
           rewrite ranks_prefix_succ by lia. apply in_or_app. right. left.
           reflexivity.
        -- apply Hsup.
      * apply bottom_k_append; [apply HB; assumption|assumption|assumption].
    + rewrite Hsame by (left; assumption).
      apply bottom_k_ext with (P := local i j v); [|apply HB; assumption].
      intros x. split; [apply Hsub|].
      intros Hx. destruct (Hsup x Hx) as [H| ->]; [assumption|].
      exfalso. apply Hnin. apply Hvis; [|assumption]. apply Hx.
Qed.

Lemma searches_inv : forall i ss L,
  i < l -> consistent N ss -> length L = N ->
  (forall v, v < N -> nth v L [] = []) ->
  local_inv i N
    (fold_left (search graph Contained permutation k l i) (seq 0 N) (ss, L)).
Proof.
  intros i ss L Hi HS HL Hempty.
  apply (@fold_left_seq_inv _ (search graph Contained permutation k l i)
           (local_inv i)).
  - split; [assumption|]. split; [assumption|].
    intros v Hv. rewrite Hempty by assumption.
    apply bottom_k_nil; [assumption|]. intros r [[] _].
  - intros j st Hj Hinv. apply search_step_inv; assumption.
Qed.

(** *** Merging the local sketches into the global sketches *)

Definition merge_inv (X L : list (list nat)) (j : nat)
  (st : list (list nat) * list (list nat)) : Prop :=
  let '(X', L') := st in
  length X' = length X /\ length L' = length L /\
  (forall u, u < j ->
     nth u X' [] = trim k (set_union (nth u X []) (nth u L [])) /\
     nth u L' [] = []) /\
  (forall u, j <= u -> nth u X' [] = nth u X [] /\ nth u L' [] = nth u L []).

Lemma merge_loop_inv : forall X L,
  length X = N -> length L = N ->
  merge_inv X L N (fold_left (merge_step k) (seq 0 N) (X, L)).
Proof.
  intros X L HX HL.
  apply (@fold_left_seq_inv _ (merge_step k) (merge_inv X L)).
  - repeat split; intros; lia.
  - intros j [X' L'] Hj (HX' & HL' & Hdone & Hrest).
    destruct (Hrest j (le_n j)) as [EX EL].
    unfold merge_step, merge_inv. rewrite !upd_length.
    split; [assumption|]. split; [assumption|]. split.
    + intros u Hu. destruct (Nat.eq_dec u j) as [->|Hne].
      * rewrite !nth_upd_eq by lia. rewrite EX, EL. split; reflexivity.
      * rewrite !nth_upd_ne by auto. apply Hdone. lia.
    + intros u Hu. rewrite !nth_upd_ne by lia. apply Hrest. lia.
Qed.

(** *** All instances *)

(** The ranks of the instances before [i] whose source reverse-reaches
    [v] in the instance of the rank. *)
Definition upto (i v r : nat) : Prop :=
  r < N * l /\ inst r < i /\ reaches (inst r) (src r) v.

Definition global_inv (i : nat)
  (st : FastSet.t * list (list nat) * list (list nat)) : Prop :=
  let '(ss, X, L) := st in
  consistent N ss /\ length X = N /\ length L = N /\
  (forall v, v < N -> nth v L [] = []) /\
  (forall v, v < N -> bottom_k k (upto i v) (nth v X [])).

Lemma instance_step_inv : forall i st,
  i < l -> global_inv i st ->
  global_inv (S i) (instance_step graph Contained permutation k l st i).
Proof.
  intros i [[ss X] L] Hi (HS & HX & HL & Hempty & HG).
  unfold instance_step.
  pose proof (@searches_inv i ss L Hi HS HL Hempty) as Hloc.
  destruct (fold_left (search graph Contained permutation k l i) (seq 0 N) (ss, L))
    as [ss1 L1].
  destruct Hloc as (HS1 & HL1 & HB).
  pose proof (@merge_loop_inv X L1 HX HL1) as Hm.
  destruct (fold_left (merge_step k) (seq 0 N) (X, L1)) as [X2 L2].
  destruct Hm as (HX2 & HL2 & Hdone & _).
  split; [assumption|]. split; [lia|]. split; [lia|]. split.
  - intros v Hv. apply Hdone. assumption.
  - intros v Hv. destruct (Hdone v Hv) as [-> _].
    apply bottom_k_ext with (P := fun r => upto i v r \/ local i N v r).
    + intros r. split.
      * intros [(H1 & H2 & H3)|[H1 H2]].
        -- split; [assumption|]. split; [lia|assumption].
        -- rewrite firstn_all2 in H1
             by (rewrite (@ranks_of_length graph permutation l l_range
                            permutation_ok i Hi); lia).
           apply (@ranks_of_In graph permutation l l_range permutation_ok) in H1.
           destruct H1 as [H1 E]. split; [assumption|].
           rewrite E. split; [lia|assumption].
      * intros (H1 & H2 & H3).
        destruct (Nat.eq_dec (inst r) i) as [E|Hne].
        -- right. split.
           ++ rewrite firstn_all2
                by (rewrite (@ranks_of_length graph permutation l l_range
                               permutation_ok i Hi); lia).
              apply (@ranks_of_In graph permutation l l_range permutation_ok).
              split; assumption.
           ++ rewrite <- E. assumption.
        -- left. split; [assumption|]. split; [lia|assumption].
    + apply bottom_k_merge; [apply HG|apply HB]; assumption.
Qed.

(** The ranks from whose source the scans lead to [v] in the instance of
    the rank. *)
Definition scan_covers (v r : nat) : Prop :=
  r < N * l /\ reaches (inst r) (src r) v.

Lemma RunPreprocessing_bottom_k : forall v,
  v < N ->
  bottom_k k (scan_covers v) (nth v (RunPreprocessing graph Contained permutation k l) []).
Proof.
  intros v Hv. unfold RunPreprocessing.
  pose proof (@fold_left_seq_inv _
                (instance_step graph Contained permutation k l) global_inv l
                (FastSet.make N, repeat [] N, repeat [] N)) as H.
  destruct (fold_left (instance_step graph Contained permutation k l) (seq 0 l)
              (FastSet.make N, repeat [] N, repeat [] N)) as [[ss X] L].
  destruct H as (_ & _ & _ & _ & HG).
  - split; [apply make_consistent|]. rewrite !repeat_length.
    split; [reflexivity|]. split; [reflexivity|]. split.
    + intros u Hu. apply nth_repeat.
    + intros u Hu. rewrite nth_repeat. apply bottom_k_nil; [assumption|].
      intros r (_ & H0 & _). lia.
  - intros i st Hi. apply instance_step_inv. assumption.
  - apply bottom_k_ext with (P := upto l v); [|apply HG; assumption].
    intros r. split.
    + intros (H1 & _ & H3). split; assumption.
    + intros [H1 H3]. split; [assumption|]. split; [|assumption].
      apply (@instance_of_range graph permutation l l_range permutation_ok r H1).
Qed.

End Preprocessing.

(** *** Graphs built from an arc list *)

Lemma ReadFromArcList_scans_in_range :
  forall checked numVertices inArcs isDirected,
  (Z.of_nat numVertices <= 2 ^ 30)%Z ->
  in_range numVertices isDirected inArcs ->
  (2 * Z.of_nat (length inArcs) < 2 ^ 32)%Z ->
  exists g,
    FastStaticGraph.ReadFromArcList checked numVertices inArcs isDirected true
    = Ok g /\
    scans_in_range g.
Proof.
  intros checked numVertices inArcs isDirected Hfit Hr Harcs.
  destruct (@ReadFromArcList_incoming checked numVertices inArcs isDirected Hr Harcs)
    as (g & E & Hh & _ & _ & _ & Hinc).
  exists g. split; [exact E|].
  assert (Hn : FastRSInfluenceOracle.n g = numVertices).
  { unfold FastRSInfluenceOracle.n. rewrite Hh. reflexivity. }
  intros u a Hu Ha. rewrite Hn in *.
  unfold FastStaticGraph.backward_scan in Ha. apply take_while_In in Ha.
  destruct Ha as [Ha _].
  unfold FastStaticGraph.FORALL_INCIDENT_ARCS_BACKWARD in Ha.
  apply in_rev in Ha. rewrite Hinc in Ha by assumption.
  apply in_built_block_record in Ha.
  apply (@record_other numVertices inArcs isDirected Hfit Hr u a Ha).
Qed.

(** ** More on FastArc.h: the accessors of the arc word *)

Section ArcAccessors.

Local Open Scope Z_scope.
Import FastArc.

Lemma land_ones30_testbit : forall v m, 0 <= m ->
  Z.testbit (Z.land v 0x3FFFFFFF) m = Z.testbit v m && (m <? 30).
Proof.
  intros v m Hm. change 0x3FFFFFFF with (Z.ones 30).
  rewrite Z.land_spec. destruct (Z.ltb_spec m 30).
  - rewrite Z.ones_spec_low by lia. reflexivity.
  - rewrite Z.ones_spec_high by lia. reflexivity.
Qed.

Lemma land_flags_testbit : forall a m, 0 <= m ->
  Z.testbit (Z.land a 0xC0000000) m = Z.testbit a m && ((m =? 30) || (m =? 31)).
Proof.
  intros a m Hm. change 0xC0000000 with (Z.lor (2 ^ 30) (2 ^ 31)).
  rewrite Z.land_spec, Z.lor_spec, !Z.pow2_bits_eqb by lia.
  rewrite (Z.eqb_sym 30), (Z.eqb_sym 31). reflexivity.
Qed.

Lemma OtherVertexId_mod : forall a, OtherVertexId a = a mod 2 ^ 30.
Proof.
  intros a. unfold OtherVertexId. change 0x3FFFFFFF with (Z.ones 30).
  apply Z.land_ones. lia.
Qed.

Lemma SetOtherVertexId_testbit : forall a v m, 0 <= m ->
  Z.testbit (SetOtherVertexId v a) m
  = if m <? 30 then Z.testbit v m
    else Z.testbit a m && ((m =? 30) || (m =? 31)).
Proof.
  intros a v m Hm. unfold SetOtherVertexId.
  rewrite Z.lor_spec, land_flags_testbit, land_ones30_testbit by assumption.
  destruct (Z.ltb_spec m 30).
  - replace (m =? 30) with false by (symmetry; apply Z.eqb_neq; lia).
    replace (m =? 31) with false by (symmetry; apply Z.eqb_neq; lia).
    rewrite andb_false_r, andb_true_r. reflexivity.
  - rewrite andb_false_r, orb_false_r. reflexivity.
Qed.

Lemma word_bits : forall x,
  0 <= x -> (forall m, 32 <= m -> Z.testbit x m = false) -> word x.
Proof.
  intros x H0 Hhigh. split; [assumption|].
  assert (E : x = x mod 2 ^ 32).
  { apply Z.bits_inj'. intros m Hm.
    destruct (Z.ltb_spec m 32).
    - rewrite Z.mod_pow2_bits_low by lia. reflexivity.
    - rewrite Z.mod_pow2_bits_high by lia. apply Hhigh. assumption. }
  rewrite E. apply Z.mod_pos_bound. lia.
Qed.

(** The setters keep the word within 32 bits. *)
Lemma setters_word : forall a v,
  word a ->
  word (SetOtherVertexId v a) /\ word (SetForwardFlag a) /\
  word (SetBackwardFlag a) /\ word (Invalidate a).
Proof.
  intros a v Wa. pose proof Wa as [H0 H1].
  split; [|split; [|split]].
  - apply word_bits.
    + unfold SetOtherVertexId. apply Z.lor_nonneg.
      split; apply Z.land_nonneg; right; lia.
    + intros m Hm. rewrite SetOtherVertexId_testbit by lia.
      destruct (Z.ltb_spec m 30); [lia|].
      replace (m =? 30) with false by (symmetry; apply Z.eqb_neq; lia).
      replace (m =? 31) with false by (symmetry; apply Z.eqb_neq; lia).
      apply andb_false_r.
  - apply word_bits.
    + unfold SetForwardFlag. apply Z.lor_nonneg. lia.
    + intros m Hm. unfold SetForwardFlag. change 0x40000000 with (2 ^ 30).
      rewrite Z.lor_spec, Z.pow2_bits_eqb, (word_high_bits Wa) by lia.
      apply Z.eqb_neq. lia.
  - apply word_bits.
    + unfold SetBackwardFlag. apply Z.lor_nonneg. lia.
    + intros m Hm. unfold SetBackwardFlag. change 0x80000000 with (2 ^ 31).
      rewrite Z.lor_spec, Z.pow2_bits_eqb, (word_high_bits Wa) by lia.
      apply Z.eqb_neq. lia.
  - apply word_bits.
    + unfold Invalidate. apply Z.land_nonneg. left. assumption.
    + intros m Hm. unfold Invalidate. rewrite land_ones30_testbit by lia.
      rewrite (word_high_bits Wa) by lia. reflexivity.
Qed.

(** X1: [SetOtherVertexId(v)] stores the low 30 bits of [v]: the other
    vertex id read back is [v mod 2^30], hence [v] itself for every
    [v < 2^30] and a different vertex for a larger one; the two direction
    flags are not touched. *)
Theorem SetOtherVertexId_OtherVertexId : forall a v,
  OtherVertexId (SetOtherVertexId v a) = v mod 2 ^ 30 /\
  Forward (SetOtherVertexId v a) = Forward a /\
  Backward (SetOtherVertexId v a) = Backward a.
Proof.
  intros a v. split; [|split].
  - rewrite OtherVertexId_mod.
    apply Z.bits_inj'. intros m Hm.
    destruct (Z.ltb_spec m 30).
    + rewrite !Z.mod_pow2_bits_low, SetOtherVertexId_testbit by lia.
      destruct (Z.ltb_spec m 30); [reflexivity|lia].
    + rewrite !Z.mod_pow2_bits_high by lia. reflexivity.
  - rewrite !Forward_testbit, SetOtherVertexId_testbit by lia.
    simpl. rewrite andb_true_r. reflexivity.
  - rewrite !Backward_testbit, SetOtherVertexId_testbit by lia.
    simpl. rewrite andb_true_r. reflexivity.
Qed.

Lemma OtherVertexId_lor_flag : forall a n,
  30 <= n -> OtherVertexId (Z.lor a (2 ^ n)) = OtherVertexId a.
Proof.
  intros a n Hn. unfold OtherVertexId.
  apply Z.bits_inj'. intros m Hm.
  rewrite !land_ones30_testbit, Z.lor_spec, Z.pow2_bits_eqb by lia.
  destruct (Z.ltb_spec m 30).
  - replace (n =? m) with false by (symmetry; apply Z.eqb_neq; lia).
    rewrite orb_false_r. reflexivity.
  - rewrite !andb_false_r. reflexivity.
Qed.

Lemma GetErrors_Valid : forall a, GetErrors a = 0%nat <-> Valid a = true.
Proof.
  intros a. rewrite Valid_flags. unfold GetErrors.
  destruct (Forward a), (Backward a); simpl; split; intros H;
    try reflexivity; discriminate.
Qed.

(** X2: [SetForwardFlag] and [SetBackwardFlag] set their flag and leave
    the other flag and the other vertex id as they are; [Invalidate]
    clears both flags and keeps the other vertex id; and [GetErrors]
    reports an error exactly for the arcs that [Valid] rejects. *)
Theorem flag_setters : forall a,
  (Forward (SetForwardFlag a) = true /\
   Backward (SetForwardFlag a) = Backward a /\
   OtherVertexId (SetForwardFlag a) = OtherVertexId a) /\
  (Backward (SetBackwardFlag a) = true /\
   Forward (SetBackwardFlag a) = Forward a /\
   OtherVertexId (SetBackwardFlag a) = OtherVertexId a) /\
  (Forward (Invalidate a) = false /\ Backward (Invalidate a) = false /\
   Valid (Invalidate a) = false /\
   OtherVertexId (Invalidate a) = OtherVertexId a /\
   GetErrors (Invalidate a) = 1%nat) /\
  (GetErrors a = 0%nat <-> Valid a = true).
Proof.
  intros a.
  assert (HF : Forward (Invalidate a) = false).
  { rewrite Forward_testbit. unfold Invalidate.
    rewrite land_ones30_testbit by lia. apply andb_false_r. }
  assert (HB : Backward (Invalidate a) = false).
  { rewrite Backward_testbit. unfold Invalidate.
    rewrite land_ones30_testbit by lia. apply andb_false_r. }
  split; [|split; [|split]].
  - unfold SetForwardFlag. change 0x40000000 with (2 ^ 30).
    rewrite Forward_testbit, !Backward_testbit, !Z.lor_spec by lia.
    rewrite !Z.pow2_bits_eqb by lia.
    split; [apply orb_true_r|]. split; [apply orb_false_r|].
    apply OtherVertexId_lor_flag. lia.
  - unfold SetBackwardFlag. change 0x80000000 with (2 ^ 31).
    rewrite Backward_testbit, !Forward_testbit, !Z.lor_spec by lia.
    rewrite !Z.pow2_bits_eqb by lia.
    split; [apply orb_true_r|]. split; [apply orb_false_r|].
    apply OtherVertexId_lor_flag. lia.
  - split; [exact HF|]. split; [exact HB|]. split; [|split].
    + rewrite Valid_flags, HF, HB. reflexivity.
    + unfold Invalidate, OtherVertexId. rewrite <- Z.land_assoc.
      reflexivity.
    + unfold GetErrors. rewrite HF, HB. reflexivity.
  - apply GetErrors_Valid.
Qed.

(** X3: [operator<] is a strict weak ordering, as [std::sort] requires:
    irreflexive, transitive, with a transitive incomparability; and on
    valid 32-bit arc words it is total, two arcs that it does not order
    being the same word. *)
Theorem operator_lt_strict_weak_order : forall x y z,
  operator_lt x x = false /\
  (operator_lt x y = true -> operator_lt y z = true -> operator_lt x z = true) /\
  (operator_lt x y = false -> operator_lt y x = false ->
   operator_lt y z = false -> operator_lt z y = false ->
   operator_lt x z = false /\ operator_lt z x = false) /\
  (word x -> word y -> Valid x = true -> Valid y = true ->
   operator_lt x y = true \/ x = y \/ operator_lt y x = true).
Proof.
  intros x y z. split; [|split; [|split]].
  - apply operator_lt_false_iff. lia.
  - rewrite !operator_lt_iff. lia.
  - rewrite !operator_lt_false_iff. lia.
  - intros Wx Wy Vx Vy.
    destruct (operator_lt x y) eqn:Exy; [left; reflexivity|].
    destruct (operator_lt y x) eqn:Eyx; [right; right; reflexivity|].
    right. left. apply equivalent_arcs_equal; assumption.
Qed.

End ArcAccessors.

Lemma operator_lt_strict_weak_order_witness :
  (FastArc.operator_lt 0x40000001 0x40000001 = false) /\
  (FastArc.operator_lt 0x40000001 0xC0000000 = true \/
   0x40000001 = 0xC0000000 \/
   FastArc.operator_lt 0xC0000000 0x40000001 = true)%Z.
Proof.
  destruct (operator_lt_strict_weak_order 0x40000001 0xC0000000 0x80000002)
    as (H1 & _ & _ & H4).
  split; [exact H1|].
  apply H4; [split; vm_compute; congruence|split; vm_compute; congruence
            |reflexivity|reflexivity].
Defined.

(** ** More on FastSet.h: insertion, deletion, clearing *)

Lemma upd_app_l : forall (A : Type) i (x : A) l1 l2,
  i < length l1 -> upd i x (l1 ++ l2) = upd i x l1 ++ l2.
Proof.
  induction i as [|i IH]; intros x [|a l1] l2 H; simpl in *; try lia.
  - reflexivity.
  - f_equal. apply IH. lia.
Qed.

Lemma upd_app_r : forall (A : Type) i (x : A) l1 l2,
  upd (length l1 + i) x (l1 ++ l2) = l1 ++ upd i x l2.
Proof.
  intros A i x l1 l2. induction l1 as [|a l1 IH]; simpl.
  - reflexivity.
  - f_equal. exact IH.
Qed.

Lemma upd_overflow : forall (A : Type) i (x : A) l,
  length l <= i -> upd i x l = l.
Proof.
  induction i as [|i IH]; intros x [|a l] H; simpl in *; try lia; try reflexivity.
  f_equal. apply IH. lia.
Qed.

Lemma upd_upd : forall (A : Type) i (x y : A) l,
  upd i y (upd i x l) = upd i y l.
Proof.
  induction i as [|i IH]; intros x y [|a l]; simpl; try reflexivity.
  f_equal. apply IH.
Qed.

Lemma upd_same : forall (A : Type) i (d : A) l,
  upd i (nth i l d) l = l.
Proof.
  induction i as [|i IH]; intros d [|a l]; simpl; try reflexivity.
  f_equal. apply IH.
Qed.

Lemma In_upd : forall (A : Type) i (x y : A) l,
  In y (upd i x l) -> y = x \/ In y l.
Proof.
  induction i as [|i IH]; intros x y [|a l] H; simpl in *; try tauto.
  - destruct H as [H|H]; auto.
  - destruct H as [H|H]; auto. apply IH in H. tauto.
Qed.

(** Taking the element at [j] out of [ks ++ [b]] by moving [b] into its
    place. *)
Lemma swap_remove_perm : forall (ks : list nat) b j,
  j <= length ks ->
  Permutation (nth j (ks ++ [b]) 0 :: upd j b ks) (ks ++ [b]).
Proof.
  induction ks as [|a ks IH]; intros b j Hj; simpl in *.
  - assert (j = 0) by lia. subst j. simpl. apply Permutation_refl.
  - destruct j as [|j]; simpl.
    + change (a :: ks ++ [b]) with ((a :: ks) ++ [b]).
      rewrite <- Permutation_cons_append. apply perm_swap.
    + rewrite perm_swap. constructor. apply IH. lia.
Qed.

Section FastSetOperations.

Import FastSet.

Variable numElements : nat.
Variable checked : bool.

Lemma consistent_flag : forall s key,
  consistent numElements s -> In key (containedKeys s) ->
  nth key (isContained s) false = true /\ key < length (isContained s).
Proof.
  intros s key (L & ND & R & C) Hin. split.
  - apply C. assumption.
  - rewrite L. apply R. assumption.
Qed.

(** X4: [Insert] of an in-range key into a consistent set makes the key
    a member and changes no other membership; the size grows by one
    exactly when the key was not a member; the keys keep their indices,
    and a new key gets the next index. *)
Theorem Insert_spec : forall s key,
  consistent numElements s -> key < numElements ->
  consistent numElements (Insert s key) /\
  IsContained (Insert s key) key = true /\
  (forall key', key' <> key ->
     IsContained (Insert s key) key' = IsContained s key') /\
  Size (Insert s key) = Size s + (if IsContained s key then 0 else 1) /\
  (forall j, j < Size s -> KeyByIndex (Insert s key) j = KeyByIndex s j) /\
  (IsContained s key = false -> KeyByIndex (Insert s key) (Size s) = key).
Proof.
  intros s key HS Hkey.
  destruct (@Insert_consistent numElements s key HS Hkey) as (HS' & K & M).
  split; [assumption|]. split; [|split; [|split; [|split]]].
  - apply HS'. apply M. right. reflexivity.
  - intros key' Hne. unfold Insert, IsContained. simpl.
    apply nth_upd_ne. auto.
  - unfold Size. rewrite K. destruct (IsContained s key).
    + lia.
    + rewrite length_app. simpl. lia.
  - intros j Hj. unfold KeyByIndex, Size in *. rewrite K.
    destruct (IsContained s key); [reflexivity|].
    apply app_nth1. assumption.
  - intros E. unfold KeyByIndex, Size. rewrite K, E.
    rewrite app_nth2 by lia. rewrite Nat.sub_diag. reflexivity.
Qed.

Lemma Clear_make : forall s,
  consistent numElements s -> Clear s = make numElements.
Proof.
  intros s (L & ND & R & C). unfold Clear, make. f_equal.
  apply nth_ext with (d := false) (d' := false).
  - rewrite clear_length, repeat_length. assumption.
  - intros key _. rewrite clear_flags, nth_repeat.
    destruct (existsb (Nat.eqb key) (containedKeys s)) eqn:E; [reflexivity|].
    destruct (nth key (isContained s) false) eqn:F; [|reflexivity].
    exfalso. apply C in F.
    assert (X : existsb (Nat.eqb key) (containedKeys s) = true).
    { apply existsb_exists. exists key. split; [assumption|apply Nat.eqb_refl]. }
    congruence.
Qed.

(** X5: [Clear] on a consistent set, which resets only the flags of the
    keys it holds, gives the empty set of the same capacity: the state of
    a freshly constructed set, with no key and every flag down. *)
Theorem Clear_spec : forall s,
  consistent numElements s ->
  Clear s = make numElements /\
  Size (Clear s) = 0 /\ IsEmpty (Clear s) = true /\
  (forall key, IsContained (Clear s) key = false) /\
  consistent numElements (Clear s).
Proof.
  intros s HS. rewrite (Clear_make HS).
  split; [reflexivity|]. split; [reflexivity|]. split; [reflexivity|].
  split; [|apply make_consistent].
  intros key. unfold IsContained, make. simpl. apply nth_repeat.
Qed.

Lemma DeleteBack_last : forall flags ks b,
  b < length flags ->
  DeleteBack checked {| isContained := flags; containedKeys := ks ++ [b] |}
  = Ok (b, {| isContained := upd b false flags; containedKeys := ks |}).
Proof.
  intros flags ks b Hb. unfold DeleteBack. cbn [containedKeys isContained].
  rewrite length_app. simpl.
  replace (0 <? length ks + 1) with true by (symmetry; apply Nat.ltb_lt; lia).
  rewrite Assert_true. cbn [bind].
  replace (length ks + 1 - 1) with (length ks) by lia.
  unfold read. rewrite nth_error_app2 by lia. rewrite Nat.sub_diag. simpl.
  rewrite (@modify_ok _ flags b (fun _ => false) false Hb). cbn [bind].
  rewrite removelast_last. reflexivity.
Qed.

(** X6: [DeleteBack] undoes the [Insert] of a new key: it returns the key
    and leaves the set as it was before the insertion, flags included. *)
Theorem DeleteBack_Insert : forall s key,
  consistent numElements s -> key < numElements ->
  IsContained s key = false ->
  DeleteBack checked (Insert s key) = Ok (key, s).
Proof.
  intros s key (L & ND & R & C) Hkey E.
  unfold Insert. rewrite E. cbn [negb].
  rewrite DeleteBack_last by (rewrite upd_length; lia).
  rewrite upd_upd. unfold IsContained in E. rewrite <- E at 1.
  rewrite upd_same. destruct s. reflexivity.
Qed.

Lemma DeleteByIndex_last : forall flags ks b index,
  index <= length ks ->
  nth (nth index (ks ++ [b]) 0) flags false = true ->
  nth index (ks ++ [b]) 0 < length flags ->
  DeleteByIndex checked
    {| isContained := flags; containedKeys := ks ++ [b] |} index
  = Ok (nth index (ks ++ [b]) 0,
        {| isContained := upd (nth index (ks ++ [b]) 0) false flags;
           containedKeys := upd index b ks |}).
Proof.
  intros flags ks b index Hi Hflag Hrange.
  set (key := nth index (ks ++ [b]) 0) in *.
  assert (Hlen : length (ks ++ [b]) = length ks + 1)
    by (rewrite length_app; simpl; lia).
  unfold DeleteByIndex. cbn [containedKeys isContained]. rewrite Hlen.
  replace (index <? length ks + 1) with true by (symmetry; apply Nat.ltb_lt; lia).
  rewrite Assert_true. cbn [bind].
  rewrite (@read_ok _ (ks ++ [b]) index 0) by lia. fold key.
  assert (Hblock : (if checked
                    then key0 <- Ok key ;; flag <- read flags key0 ;; Assert checked flag
                    else Ok tt) = Ok tt).
  { destruct checked; [|reflexivity]. cbn [bind].
    rewrite (@read_ok _ flags key false Hrange), Hflag. reflexivity. }
  rewrite Hblock. cbn [bind].
  rewrite (@modify_ok _ flags key (fun _ => false) false Hrange). cbn [bind].
  replace (length ks + 1 - 1) with (length ks) by lia.
  unfold read. rewrite nth_error_app2 by lia. rewrite Nat.sub_diag. simpl.
  f_equal. f_equal. f_equal.
  destruct (Nat.eq_dec index (length ks)) as [->|Hne].
  - rewrite <- (Nat.add_0_r (length ks)) at 1 2.
    rewrite upd_app_r. simpl. rewrite Nat.add_0_r.
    rewrite <- (Nat.add_0_r (length ks)) at 1.
    rewrite upd_app_r. simpl. rewrite removelast_last.
    symmetry. apply upd_overflow. lia.
  - rewrite upd_app_l by lia.
    rewrite <- (upd_length index b ks) at 1.
    rewrite <- (Nat.add_0_r (length (upd index b ks))).
    rewrite upd_app_r. simpl. apply removelast_last.
Qed.

(** X7: [DeleteByIndex] on a consistent set, at an index below its size,
    returns the key at the index and removes exactly this key: the last
    key takes the freed index and every other key keeps its index, the
    flag of the removed key is cleared and no other flag changes, the size
    drops by one and the set stays consistent. *)
Theorem DeleteByIndex_spec : forall s index,
  consistent numElements s -> index < Size s ->
  exists s',
    DeleteByIndex checked s index = Ok (KeyByIndex s index, s') /\
    consistent numElements s' /\
    Size s' = Size s - 1 /\
    Permutation (KeyByIndex s index :: containedKeys s') (containedKeys s) /\
    (forall key, IsContained s' key
                 = IsContained s key && negb (key =? KeyByIndex s index)) /\
    (forall i, i < Size s' ->
       KeyByIndex s' i
       = if i =? index then KeyByIndex s (Size s - 1) else KeyByIndex s i) /\
    isContained s' = upd (KeyByIndex s index) false (isContained s).
Proof.
  intros [flags keys] index HS Hi. pose proof HS as (L & ND & R & C).
  unfold Size, KeyByIndex in *. cbn [containedKeys isContained] in *.
  destruct (exists_last (l := keys)) as (ks & b & ->);
    [intros ->; simpl in Hi; lia|].
  rewrite length_app in Hi. simpl in Hi.
  set (key := nth index (ks ++ [b]) 0) in *.
  assert (Hin : In key (ks ++ [b]))
    by (apply nth_In; rewrite length_app; simpl; lia).
  destruct (@consistent_flag _ key HS Hin) as [Hflag Hrange].
  cbn [isContained] in Hflag, Hrange.
  assert (Hperm : Permutation (key :: upd index b ks) (ks ++ [b]))
    by (apply swap_remove_perm; lia).
  assert (ND' : NoDup (key :: upd index b ks)).
  { apply (Permutation_NoDup (Permutation_sym Hperm)). assumption. }
  exists {| isContained := upd key false flags; containedKeys := upd index b ks |}.
  split; [apply DeleteByIndex_last; [lia|assumption|assumption]|].
  assert (Hflags : forall x, nth x (upd key false flags) false
                             = nth x flags false && negb (x =? key)).
  { intros x. rewrite nth_upd.
    destruct (Nat.eqb_spec key x) as [->|Hne]; simpl.
    - replace (x <? length flags) with true by (symmetry; apply Nat.ltb_lt; lia).
      rewrite Nat.eqb_refl, andb_false_r. reflexivity.
    - replace (x =? key) with false by (symmetry; apply Nat.eqb_neq; auto).
      rewrite andb_true_r. reflexivity. }
  split; [|split; [|split; [assumption|]]].
  - unfold consistent. cbn [containedKeys isContained].
    split; [rewrite upd_length; assumption|].
    split; [inversion ND'; assumption|]. split.
    + intros x Hx. apply R.
      apply (Permutation_in _ Hperm). right. assumption.
    + intros x. unfold IsContained. cbn [isContained]. rewrite Hflags.
      inversion ND' as [|? ? Hnotin _]; subst. split.
      * intros H. apply andb_prop in H. destruct H as [H1 H2].
        apply C in H1. cbn [containedKeys] in H1.
        apply (Permutation_in _ (Permutation_sym Hperm)) in H1.
        destruct H1 as [E|H1]; [|assumption].
        subst x. rewrite Nat.eqb_refl in H2. discriminate.
      * intros H. apply andb_true_intro. split.
        -- apply C. cbn [containedKeys].
           apply (Permutation_in _ Hperm). right. assumption.
        -- apply negb_true_iff. apply Nat.eqb_neq. intros ->. contradiction.
  - cbn [containedKeys]. rewrite upd_length, length_app. simpl. lia.
  - split; [|split; [|reflexivity]].
    + intros x. unfold IsContained. cbn [isContained]. apply Hflags.
    + cbn [containedKeys]. rewrite upd_length. intros i Hlt.
      rewrite nth_upd, length_app. simpl.
      replace (length ks + 1 - 1) with (length ks) by lia.
      rewrite (app_nth2 ks [b] 0) by lia. rewrite Nat.sub_diag. simpl.
      rewrite (app_nth1 ks [b] 0 Hlt).
      destruct (Nat.eqb_spec i index) as [->|Hne].
      * rewrite Nat.eqb_refl.
        replace (index <? length ks) with true
          by (symmetry; apply Nat.ltb_lt; assumption).
        reflexivity.
      * replace (index =? i) with false
          by (symmetry; apply Nat.eqb_neq; auto).
        reflexivity.
Qed.

(** X8: deleting from nothing is an error.  [DeleteBack] on a set
    without keys, and [DeleteByIndex] at an index that is not below the
    size, fail their assertion; where assertions are compiled out they
    read outside the key vector. *)
Theorem Delete_out_of_range : forall s index,
  (Size s = 0 ->
   DeleteBack checked s
   = if checked then AssertionFailure else UndefinedBehaviour) /\
  (Size s <= index ->
   DeleteByIndex checked s index
   = if checked then AssertionFailure else UndefinedBehaviour).
Proof.
  intros s index. unfold Size. split.
  - intros E. unfold DeleteBack. rewrite E.
    destruct checked; [reflexivity|]. cbn.
    destruct (containedKeys s); [reflexivity|discriminate].
  - intros H. unfold DeleteByIndex.
    replace (index <? length (containedKeys s)) with false
      by (symmetry; apply Nat.ltb_ge; assumption).
    destruct checked; [reflexivity|]. cbn [Assert andb bind].
    unfold read.
    replace (nth_error (containedKeys s) index) with (@None nat)
      by (symmetry; apply nth_error_None; assumption).
    reflexivity.
Qed.

Lemma Insert_fold : forall ks s,
  consistent numElements s -> (forall x, In x ks -> x < numElements) ->
  consistent numElements (fold_left Insert ks s) /\
  forall key, In key (containedKeys (fold_left Insert ks s))
              <-> In key (containedKeys s) \/ In key ks.
Proof.
  induction ks as [|k ks IH]; intros s HS Hr; simpl.
  - split; [assumption|]. intros key. tauto.
  - destruct (@Insert_consistent numElements s k HS) as (HS' & _ & M);
      [apply Hr; left; reflexivity|].
    destruct (IH (Insert s k) HS') as [HS'' M''];
      [intros x Hx; apply Hr; right; assumption|].
    split; [assumption|]. intros key. rewrite M'', M. intuition.
Qed.

Lemma Insert_FastSet_fold : forall s other,
  Insert_FastSet s other = fold_left Insert (containedKeys other) s.
Proof.
  intros s other. unfold Insert_FastSet, Size, KeyByIndex.
  rewrite <- (map_nth_seq_id (containedKeys other)) at 2.
  generalize (seq 0 (length (containedKeys other))). intros js. revert s.
  induction js as [|j js IH]; intros s; simpl; [reflexivity|]. apply IH.
Qed.

(** X9: inserting from another fast set gives the union: on consistent
    sets of the same capacity the result is consistent and an in-range
    key is a member exactly when it was a member of one of the two. *)
Theorem Insert_FastSet_union : forall s other,
  consistent numElements s -> consistent numElements other ->
  consistent numElements (Insert_FastSet s other) /\
  forall key, key < numElements ->
    IsContained (Insert_FastSet s other) key
    = IsContained s key || IsContained other key.
Proof.
  intros s other HS HO. rewrite Insert_FastSet_fold.
  destruct (@Insert_fold (containedKeys other) s HS) as [HS' M];
    [apply HO|].
  split; [assumption|]. intros key Hkey.
  destruct HS as (_ & _ & _ & CS). destruct HO as (_ & _ & _ & CO).
  destruct HS' as (_ & _ & _ & C').
  apply eq_true_iff_eq. rewrite orb_true_iff, C', CS, CO. apply M.
Qed.

Lemma resize_grow : forall (A : Type) n (value : A) v,
  length v <= n -> resize n value v = v ++ repeat value (n - length v).
Proof.
  intros A n value v H. unfold resize. rewrite firstn_all2 by assumption.
  reflexivity.
Qed.

(** X10: [Resize] to at least the capacity keeps the keys and the
    memberships and sets the capacity, the new flags being down; on the
    default-constructed set it gives the empty set of the wanted
    capacity.  [Resize] below the number of keys fails its assertion. *)
Theorem Resize_spec : forall capacity s,
  consistent capacity s ->
  (capacity <= numElements ->
   exists s',
     Resize checked s numElements = Ok s' /\
     consistent numElements s' /\
     containedKeys s' = containedKeys s /\
     (forall key, key < numElements ->
        IsContained s' key = if key <? capacity then IsContained s key else false)) /\
  (numElements < Size s -> Resize true s numElements = AssertionFailure) /\
  Resize checked (make 0) numElements = Ok (make numElements).
Proof.
  intros capacity s HS. split; [|split].
  - intros Hle. pose proof (consistent_size HS) as Hsize.
    destruct HS as (L & ND & R & C).
    unfold Resize.
    replace (Size s <=? numElements) with true
      by (symmetry; apply Nat.leb_le; lia).
    rewrite Assert_true. cbn [bind]. eexists. split; [reflexivity|].
    assert (Hflags : forall key,
              nth key (resize numElements false (isContained s)) false
              = if key <? capacity then nth key (isContained s) false else false).
    { intros key. rewrite resize_grow by lia.
      destruct (Nat.ltb_spec key capacity).
      - apply app_nth1. lia.
      - rewrite app_nth2 by lia. apply nth_repeat. }
    split; [|split; [reflexivity|]].
    + unfold consistent. cbn [containedKeys isContained].
      split; [|split; [assumption|split]].
      * rewrite resize_grow by lia. rewrite length_app, repeat_length. lia.
      * intros key Hk. apply R in Hk. lia.
      * intros key. unfold IsContained. cbn [isContained]. rewrite Hflags.
        destruct (Nat.ltb_spec key capacity) as [Hlt|Hge]; [apply C|].
        split; [discriminate|]. intros Hk. apply R in Hk. lia.
    + intros key _. unfold IsContained. cbn [isContained]. apply Hflags.
  - intros Hlt. unfold Resize.
    replace (Size s <=? numElements) with false
      by (symmetry; apply Nat.leb_gt; assumption).
    reflexivity.
  - unfold Resize, make, resize. simpl. rewrite Assert_true.
    rewrite firstn_nil, Nat.sub_0_r. reflexivity.
Qed.

End FastSetOperations.

Lemma consistent_two_keys :
  consistent 4 (FastSet.Insert (FastSet.Insert (FastSet.make 4) 2) 0).
Proof.
  apply Insert_consistent; [|lia].
  apply Insert_consistent; [|lia].
  apply make_consistent.
Qed.

Lemma Insert_spec_witness :
  FastSet.IsContained (FastSet.Insert (FastSet.make 4) 2) 2 = true /\
  FastSet.Size (FastSet.Insert (FastSet.make 4) 2) = 1.
Proof.
  destruct (@Insert_spec 4 (FastSet.make 4) 2 (make_consistent 4))
    as (_ & H1 & _ & H2 & _); [lia|].
  split; [exact H1|exact H2].
Defined.

Lemma Clear_spec_witness :
  FastSet.Clear (FastSet.Insert (FastSet.Insert (FastSet.make 4) 2) 0)
  = FastSet.make 4.
Proof.
  apply (@Clear_spec 4 _ consistent_two_keys).
Defined.

Lemma DeleteBack_Insert_witness :
  FastSet.DeleteBack true (FastSet.Insert (FastSet.Insert (FastSet.make 4) 2) 0)
  = Ok (0, FastSet.Insert (FastSet.make 4) 2).
Proof.
  apply (@DeleteBack_Insert 4 true (FastSet.Insert (FastSet.make 4) 2) 0).
  - apply Insert_consistent; [apply make_consistent|lia].
  - lia.
  - reflexivity.
Defined.

Lemma DeleteByIndex_spec_witness :
  exists s',
    FastSet.DeleteByIndex true
      (FastSet.Insert (FastSet.Insert (FastSet.make 4) 2) 0) 0 = Ok (2, s') /\
    FastSet.Size s' = 1 /\
    FastSet.KeyByIndex s' 0 = 0.
Proof.
  destruct (@DeleteByIndex_spec 4 true _ 0 consistent_two_keys)
    as (s' & E & _ & Hsize & _ & _ & Hkeys & _); [vm_compute; lia|].
  exists s'. split; [exact E|]. split; [exact Hsize|].
  apply (Hkeys 0). rewrite Hsize. vm_compute. lia.
Defined.

Lemma Delete_out_of_range_witness :
  FastSet.DeleteBack false (FastSet.make 4) = UndefinedBehaviour /\
  FastSet.DeleteByIndex true (FastSet.Insert (FastSet.make 4) 2) 1
  = AssertionFailure.
Proof.
  split.
  - apply (@Delete_out_of_range false (FastSet.make 4) 0). reflexivity.
  - apply (@Delete_out_of_range true (FastSet.Insert (FastSet.make 4) 2) 1).
    vm_compute. lia.
Defined.

Lemma Insert_FastSet_union_witness :
  FastSet.IsContained
    (FastSet.Insert_FastSet (FastSet.Insert (FastSet.make 4) 3)
       (FastSet.Insert (FastSet.Insert (FastSet.make 4) 2) 0)) 2 = true.
Proof.
  destruct (@Insert_FastSet_union 4 (FastSet.Insert (FastSet.make 4) 3) _
              (proj1 (@Insert_consistent 4 (FastSet.make 4) 3
                        (make_consistent 4) ltac:(lia)))
              consistent_two_keys) as [_ H].
  rewrite H by lia. reflexivity.
Defined.

Lemma Resize_spec_witness :
  exists s',
    FastSet.Resize true (FastSet.Insert (FastSet.make 4) 2) 6 = Ok s' /\
    FastSet.containedKeys s' = [2].
Proof.
  destruct (@Resize_spec 6 true 4 (FastSet.Insert (FastSet.make 4) 2))
    as ((s' & E & _ & K & _) & _).
  - apply Insert_consistent; [apply make_consistent|lia].
  - lia.
  - exists s'. split; [exact E|exact K].
Defined.


(** ** Permutations.h *)

Section PermutationFacts.

Import Permutations.

Lemma range_permutation : forall (p : list nat),
  NoDup p -> (forall x, In x p -> x < length p) ->
  Permutation p (seq 0 (length p)).
Proof.
  intros p ND Hr. apply NoDup_Permutation_bis.
  - assumption.
  - rewrite length_seq. lia.
  - intros x Hx. apply in_seq. apply Hr in Hx. lia.
Qed.

Lemma permutation_range_facts : forall (p : list nat),
  Permutation p (seq 0 (length p)) ->
  NoDup p /\ (forall x, In x p <-> x < length p).
Proof.
  intros p H. split.
  - apply (Permutation_NoDup (Permutation_sym H)). apply seq_NoDup.
  - intros x. split.
    + intros Hx. apply (Permutation_in _ H) in Hx. apply in_seq in Hx. lia.
    + intros Hx. apply (Permutation_in _ (Permutation_sym H)).
      apply in_seq. lia.
Qed.

Lemma IsPermutation_loop_spec : forall size items appears,
  length appears = size ->
  (IsPermutation_loop size items appears = true <->
   NoDup items /\
   forall x, In x items -> x < size /\ nth x appears false = false).
Proof.
  intros size. induction items as [|item items IH]; intros appears HL; simpl.
  - split; [|reflexivity]. intros _. split; [constructor|intros x []].
  - destruct (Nat.leb_spec size item) as [Hge|Hlt].
    + split; [discriminate|]. intros [_ H].
      destruct (H item (or_introl eq_refl)). lia.
    + destruct (nth item appears false) eqn:E.
      * split; [discriminate|]. intros [_ H].
        destruct (H item (or_introl eq_refl)). congruence.
      * rewrite IH by (rewrite upd_length; assumption). split.
        -- intros [ND H]. split.
           ++ constructor; [|assumption]. intros Hin.
              destruct (H item Hin) as [_ F].
              rewrite nth_upd_eq in F by lia. discriminate.
           ++ intros x [<-|Hx]; [split; assumption|].
              destruct (H x Hx) as [Hs F]. split; [assumption|].
              rewrite nth_upd in F.
              destruct (Nat.eqb_spec item x) as [->|Hne]; simpl in F; [|assumption].
              replace (x <? length appears) with true in F
                by (symmetry; apply Nat.ltb_lt; lia).
              discriminate.
        -- intros [ND H]. inversion ND as [|? ? Hnotin ND']; subst. split.
           ++ assumption.
           ++ intros x Hx. destruct (H x (or_intror Hx)) as [Hs F].
              split; [assumption|].
              rewrite nth_upd_ne; [assumption|].
              intros ->. contradiction.
Qed.

(** X11: [IsPermutation] decides what its name says: it returns true
    exactly for the vectors that are a rearrangement of
    [0, 1, ..., size - 1]. *)
Theorem IsPermutation_correct : forall permutation,
  IsPermutation permutation = true <->
  Permutation permutation (seq 0 (length permutation)).
Proof.
  intros p. unfold IsPermutation.
  rewrite IsPermutation_loop_spec by apply repeat_length. split.
  - intros [ND H]. apply range_permutation; [assumption|].
    intros x Hx. apply H. assumption.
  - intros H. destruct (permutation_range_facts H) as [ND M].
    split; [assumption|]. intros x Hx. split; [apply M; assumption|].
    apply nth_repeat.
Qed.

Lemma identity_fill : forall (p : list nat),
  fold_left (fun q i => upd i i q) (seq 0 (length p)) p = seq 0 (length p).
Proof.
  intros p.
  pose proof (@fold_left_seq_inv _ (fun q i => upd i i q)
                (fun j q => length q = length p /\
                            forall i, i < j -> nth i q 0 = i)
                (length p) p) as H.
  destruct H as [HL Hn].
  - split; [reflexivity|]. intros i Hi. lia.
  - intros j q Hj [HLq Hq]. split; [rewrite upd_length; assumption|].
    intros i Hi. destruct (Nat.eq_dec i j) as [->|Hne].
    + apply nth_upd_eq. lia.
    + rewrite nth_upd_ne by auto. apply Hq. lia.
  - apply nth_ext with (d := 0) (d' := 0).
    + rewrite length_seq. assumption.
    + intros i Hi. rewrite seq_nth by lia. apply Hn. lia.
Qed.

Lemma resize_length : forall (A : Type) n (value : A) v,
  length (resize n value v) = n.
Proof.
  intros A n value v. unfold resize.
  rewrite length_app, length_firstn, repeat_length. lia.
Qed.

Lemma GenerateIdentityPermutation_seq : forall permutation numElements,
  GenerateIdentityPermutation permutation numElements = seq 0 numElements.
Proof.
  intros p n. unfold GenerateIdentityPermutation.
  rewrite identity_fill, resize_length. reflexivity.
Qed.

(** X12: [GenerateIdentityPermutation] overwrites whatever the vector
    held with [0, 1, ..., numElements - 1], which [IsPermutation]
    accepts. *)
Theorem GenerateIdentityPermutation_spec : forall permutation numElements,
  GenerateIdentityPermutation permutation numElements = seq 0 numElements /\
  (forall i, i < numElements ->
     nth i (GenerateIdentityPermutation permutation numElements) 0 = i) /\
  IsPermutation (GenerateIdentityPermutation permutation numElements) = true.
Proof.
  intros p n. rewrite GenerateIdentityPermutation_seq.
  split; [reflexivity|]. split.
  - intros i Hi. apply seq_nth. assumption.
  - apply IsPermutation_correct. rewrite length_seq. apply Permutation_refl.
Qed.

Lemma nth_resize : forall n (v : list nat) x,
  length v <= n -> nth x (resize n 0 v) 0 = nth x v 0.
Proof.
  intros n v x H. unfold resize. rewrite firstn_all2 by assumption.
  destruct (Nat.lt_ge_cases x (length v)).
  - apply app_nth1. assumption.
  - rewrite app_nth2 by assumption. rewrite nth_repeat.
    symmetry. apply nth_overflow. assumption.
Qed.

Section Inverse.

Variable p : list nat.

Hypothesis p_perm : Permutation p (seq 0 (length p)).

Let n := length p.

Definition inverse_inv (j : nat) (out : list nat) : Prop :=
  length out <= n /\
  (forall i, i < j -> nth i p 0 < length out /\ nth (nth i p 0) out 0 = i) /\
  (forall x, x < length out -> nth x out 0 < n).

Lemma inverse_loop : inverse_inv n (GenerateInversePermutation p).
Proof.
  destruct (permutation_range_facts p_perm) as [ND M].
  assert (Hinj : forall i j, i < n -> j < n -> nth i p 0 = nth j p 0 -> i = j).
  { intros i j Hi Hj. apply (proj1 (NoDup_nth p 0) ND); assumption. }
  unfold GenerateInversePermutation.
  apply (@fold_left_seq_inv _ (inverse_step p) inverse_inv).
  - split; [simpl; lia|]. split; [intros i Hi; lia|]. intros x Hx. simpl in Hx. lia.
  - intros j out Hj (HL & Hdone & Hval).
    set (x := nth j p 0).
    assert (Hx : x < n) by (apply M; apply nth_In; assumption).
    unfold inverse_step. fold x.
    set (out' := if length out <=? x then resize (x + 1) 0 out else out).
    assert (HL' : length out' <= n /\ x < length out' /\ length out <= length out').
    { unfold out'. destruct (Nat.leb_spec (length out) x).
      - rewrite resize_length. lia.
      - lia. }
    assert (Hnth : forall y, nth y out' 0 = nth y out 0).
    { intros y. unfold out'. destruct (Nat.leb_spec (length out) x).
      - apply nth_resize. lia.
      - reflexivity. }
    split; [rewrite upd_length; lia|]. split.
    + intros i Hi. rewrite upd_length.
      destruct (Nat.eq_dec i j) as [->|Hne].
      * fold x. split; [lia|]. apply nth_upd_eq. lia.
      * assert (Hij : i < j) by lia.
        destruct (Hdone i Hij) as [H1 H2]. split; [lia|].
        rewrite nth_upd_ne, Hnth; [assumption|].
        intros E. apply Hne. apply Hinj; [lia|lia|]. symmetry. exact E.
    + intros y Hy. rewrite upd_length in Hy. rewrite nth_upd.
      destruct (Nat.eqb_spec x y) as [->|Hne]; simpl.
      * replace (y <? length out') with true
          by (symmetry; apply Nat.ltb_lt; lia). lia.
      * rewrite Hnth. destruct (Nat.lt_ge_cases y (length out)).
        -- apply Hval. assumption.
        -- rewrite nth_overflow by assumption. lia.
Qed.

Lemma inverse_spec :
  let q := GenerateInversePermutation p in
  length q = n /\
  (forall i, i < n -> nth (nth i p 0) q 0 = i) /\
  (forall j, j < n -> nth (nth j q 0) p 0 = j) /\
  Permutation q (seq 0 (length q)).
Proof.
  intros q. destruct inverse_loop as (HL & Hdone & Hval). fold q in HL, Hdone, Hval.
  destruct (permutation_range_facts p_perm) as [ND M].
  assert (Hlen : length q = n).
  { destruct (Nat.eq_dec n 0) as [E|Hpos]; [lia|].
    assert (Hin : In (n - 1) p) by (apply M; fold n; lia).
    destruct (In_nth p (n - 1) 0 Hin) as (i & Hi & E).
    destruct (Hdone i Hi) as [H1 _]. rewrite E in H1. lia. }
  split; [assumption|]. split; [intros i Hi; apply Hdone; assumption|].
  assert (Hright : forall j, j < n -> nth (nth j q 0) p 0 = j).
  { intros j Hj. assert (Hin : In j p) by (apply M; assumption).
    destruct (In_nth p j 0 Hin) as (i & Hi & E).
    destruct (Hdone i Hi) as [_ H2]. rewrite E in H2. rewrite H2. exact E. }
  split; [assumption|].
  apply range_permutation.
  - apply (NoDup_nth q 0). intros i j Hi Hj E.
    rewrite <- (Hright i), <- (Hright j) by lia. rewrite E. reflexivity.
  - intros x Hx. destruct (In_nth q x 0 Hx) as (j & Hj & <-).
    rewrite Hlen. apply Hval. assumption.
Qed.

End Inverse.

(** X13: for a permutation of [0 .. n-1], [GenerateInversePermutation]
    delivers its inverse: a permutation [q] of the same length with
    [q[p[i]] = i] and [p[q[j]] = j] for all indices; and inverting twice
    gives the permutation back. *)
Theorem GenerateInversePermutation_inverse : forall inputPermutation,
  Permutation inputPermutation (seq 0 (length inputPermutation)) ->
  let outputPermutation := GenerateInversePermutation inputPermutation in
  length outputPermutation = length inputPermutation /\
  (forall i, i < length inputPermutation ->
     nth (nth i inputPermutation 0) outputPermutation 0 = i) /\
  (forall j, j < length inputPermutation ->
     nth (nth j outputPermutation 0) inputPermutation 0 = j) /\
  IsPermutation outputPermutation = true /\
  GenerateInversePermutation outputPermutation = inputPermutation.
Proof.
  intros p Hp q.
  destruct (inverse_spec Hp) as (HL & Hleft & Hright & Hq). fold q in HL, Hleft, Hright, Hq.
  split; [assumption|]. split; [assumption|]. split; [assumption|].
  split; [apply IsPermutation_correct; assumption|].
  destruct (inverse_spec Hq) as (HL2 & Hleft2 & _ & _).
  apply nth_ext with (d := 0) (d' := 0); [lia|].
  intros i Hi. rewrite <- (Hleft i) at 1 by lia.
  apply Hleft2. rewrite HL.
  destruct (permutation_range_facts Hp) as [_ M]. apply M. apply nth_In. lia.
Qed.

End PermutationFacts.

Lemma GenerateInversePermutation_inverse_witness :
  Permutations.GenerateInversePermutation [2; 0; 3; 1] = [1; 3; 0; 2] /\
  Permutations.GenerateInversePermutation
    (Permutations.GenerateInversePermutation [2; 0; 3; 1]) = [2; 0; 3; 1].
Proof.
  split; [reflexivity|].
  apply (@GenerateInversePermutation_inverse [2; 0; 3; 1]).
  apply NoDup_Permutation.
  - repeat constructor; simpl; lia.
  - repeat constructor; simpl; lia.
  - intros x. simpl. lia.
Defined.

Section ShuffledPermutations.

Import Permutations.

Variable shuffle : list nat -> list nat.

(** What the standard guarantees of [std::shuffle]: it reorders its
    range. *)
Hypothesis shuffle_permutes : forall v, Permutation (shuffle v) v.

(** X14: [GenerateRandomPermutation] delivers a permutation of
    [0 .. numElements - 1] whatever the generator draws, and the empty
    vector for [numElements = 0]; the previous content of the vector does
    not matter. *)
Theorem GenerateRandomPermutation_permutation : forall permutation numElements,
  Permutation (GenerateRandomPermutation shuffle permutation numElements)
    (seq 0 numElements) /\
  length (GenerateRandomPermutation shuffle permutation numElements) = numElements /\
  IsPermutation (GenerateRandomPermutation shuffle permutation numElements) = true /\
  GenerateRandomPermutation shuffle permutation 0 = [].
Proof.
  intros p n.
  assert (H : Permutation (GenerateRandomPermutation shuffle p n) (seq 0 n)).
  { unfold GenerateRandomPermutation. destruct (Nat.leb_spec n 0) as [H0|Hpos].
    - assert (n = 0) by lia. subst n. apply Permutation_refl.
    - rewrite GenerateIdentityPermutation_seq. apply shuffle_permutes. }
  assert (HL : length (GenerateRandomPermutation shuffle p n) = n).
  { rewrite (Permutation_length H). apply length_seq. }
  split; [assumption|]. split; [assumption|]. split; [|reflexivity].
  apply IsPermutation_correct. rewrite HL. assumption.
Qed.

Lemma blow_up_In : forall weights x,
  In x (blow_up weights) <-> x < length weights /\ 0 < nth x weights 0.
Proof.
  intros w x. unfold blow_up. rewrite in_flat_map. split.
  - intros (i & Hi & Hx). apply in_seq in Hi.
    assert (x = i) by (apply repeat_spec in Hx; assumption). subst i.
    split; [lia|]. destruct (nth x w 0); [destruct Hx|lia].
  - intros [H1 H2]. exists x. split; [apply in_seq; lia|].
    destruct (nth x w 0); [lia|left; reflexivity].
Qed.

Lemma select_fold : forall n L selected permutation,
  length selected = n -> (forall x, In x L -> x < n) ->
  NoDup permutation ->
  (forall x, nth x selected false = true <-> In x permutation) ->
  exists selected' permutation',
    fold_left select_step L (selected, permutation) = (selected', permutation') /\
    length selected' = n /\ NoDup permutation' /\
    (forall x, nth x selected' false = true <-> In x permutation') /\
    (forall x, In x permutation' <-> In x permutation \/ In x L).
Proof.
  intros n. induction L as [|e L IH]; intros sel perm HL Hr ND C.
  - exists sel, perm. split; [reflexivity|]. split; [assumption|].
    split; [assumption|]. split; [assumption|]. intros x. simpl. tauto.
  - assert (He : e < n) by (apply Hr; left; reflexivity).
    assert (Hr' : forall x, In x L -> x < n)
      by (intros x Hx; apply Hr; right; assumption).
    cbn [fold_left]. unfold select_step at 2.
    destruct (nth e sel false) eqn:E; cbn [negb].
    + destruct (IH sel perm HL Hr' ND C) as (sel' & perm' & Ef & H1 & H2 & H3 & H4).
      exists sel', perm'. split; [exact Ef|]. split; [assumption|].
      split; [assumption|]. split; [assumption|]. intros x. split.
      * intros Hx. apply H4 in Hx. simpl. tauto.
      * intros [Hx|[<-|Hx]]; apply H4; [left; assumption| |right; assumption].
        left. apply C. assumption.
    + destruct (IH (upd e true sel) (perm ++ [e])) as (sel' & perm' & Ef & H1 & H2 & H3 & H4).
      * rewrite upd_length. assumption.
      * assumption.
      * apply NoDup_app; [assumption|repeat constructor; intros []|].
        intros x Hx [<-|[]]. apply C in Hx. congruence.
      * intros x. rewrite nth_upd, in_app_iff.
        destruct (Nat.eqb_spec e x) as [->|Hne]; simpl.
        -- replace (x <? length sel) with true
             by (symmetry; apply Nat.ltb_lt; lia).
           split; auto.
        -- rewrite C. split; [auto|]. intros [H|[H|[]]]; [assumption|contradiction].
      * exists sel', perm'. split; [exact Ef|]. split; [assumption|].
        split; [assumption|]. split; [assumption|]. intros x. split.
        -- intros Hx. apply H4 in Hx. rewrite in_app_iff in Hx. simpl in *. tauto.
        -- intros Hx. apply H4. rewrite in_app_iff. simpl in *. tauto.
Qed.

Lemma zero_weight_fold : forall (weights : list nat) L permutation,
  fold_left (fun permutation i =>
               if nth i weights 0 =? 0 then permutation ++ [i] else permutation)
    L permutation
  = permutation ++ filter (fun i => nth i weights 0 =? 0) L.
Proof.
  intros w. induction L as [|i L IH]; intros perm; simpl.
  - symmetry. apply app_nil_r.
  - rewrite IH. destruct (nth i w 0 =? 0); [|reflexivity].
    rewrite <- app_assoc. reflexivity.
Qed.

(** X15: [GenerateWeightedRandomPermutation] returns a permutation of
    [0 .. n-1] for every weight vector, so that its closing assertion
    holds: first the elements of positive weight, each once, in the
    order of their first occurrence in the shuffled multiset, then the
    elements of weight zero in ascending order. *)
Theorem GenerateWeightedRandomPermutation_permutation : forall checked weights,
  exists positive zero,
    GenerateWeightedRandomPermutation shuffle checked weights
    = Ok (positive ++ zero) /\
    Permutation (positive ++ zero) (seq 0 (length weights)) /\
    (forall x, In x positive -> 0 < nth x weights 0) /\
    zero = filter (fun i => nth i weights 0 =? 0) (seq 0 (length weights)).
Proof.
  intros checked weights. destruct weights as [|w0 ws].
  - exists [], []. simpl. split; [reflexivity|].
    split; [apply Permutation_refl|]. split; [intros x []|reflexivity].
  - set (w0w := w0 :: ws). set (n := length w0w).
    assert (Hunfold : GenerateWeightedRandomPermutation shuffle checked w0w
              = (let '(_, permutation) :=
                   fold_left select_step (shuffle (blow_up w0w))
                     (repeat false (length w0w), []) in
                 let permutation :=
                   fold_left (fun permutation i =>
                                if nth i w0w 0 =? 0 then permutation ++ [i]
                                else permutation)
                     (seq 0 (length w0w)) permutation in
                 Assert checked (length permutation =? length w0w) ;;;
                 Ok permutation)) by reflexivity.
    clearbody w0w.
    rewrite Hunfold. clear Hunfold.
    destruct (@select_fold n (shuffle (blow_up w0w)) (repeat false n) [])
      as (sel' & pos & Ef & _ & ND & _ & Hmem).
    + apply repeat_length.
    + intros x Hx. apply (Permutation_in _ (shuffle_permutes _)) in Hx.
      apply blow_up_In in Hx. apply Hx.
    + constructor.
    + intros x. rewrite nth_repeat. split; [discriminate|intros []].
    + fold n. rewrite Ef, zero_weight_fold.
      set (zero := filter (fun i => nth i w0w 0 =? 0) (seq 0 n)).
      assert (Hpos : forall x, In x pos <-> x < n /\ 0 < nth x w0w 0).
      { intros x. rewrite Hmem. split.
        - intros [[]|Hx]. apply (Permutation_in _ (shuffle_permutes _)) in Hx.
          apply blow_up_In in Hx. exact Hx.
        - intros Hx. right.
          apply (Permutation_in _ (Permutation_sym (shuffle_permutes _))).
          apply blow_up_In. exact Hx. }
      assert (Hzero : forall x, In x zero <-> x < n /\ nth x w0w 0 = 0).
      { intros x. unfold zero. rewrite filter_In, in_seq, Nat.eqb_eq. lia. }
      assert (Hperm : Permutation (pos ++ zero) (seq 0 n)).
      { apply NoDup_Permutation.
        - apply NoDup_app; [assumption| |].
          + apply NoDup_filter. apply seq_NoDup.
          + intros x Hx Hz. apply Hpos in Hx. apply Hzero in Hz. lia.
        - apply seq_NoDup.
        - intros x. rewrite in_app_iff, Hpos, Hzero, in_seq. lia. }
      exists pos, zero. cbv zeta.
      replace (length (pos ++ zero) =? n) with true.
      * rewrite Assert_true. cbn [bind]. split; [reflexivity|].
        split; [assumption|]. split; [|reflexivity].
        intros x Hx. apply Hpos. assumption.
      * symmetry. apply Nat.eqb_eq. rewrite (Permutation_length Hperm).
        apply length_seq.
Qed.

End ShuffledPermutations.

Lemma GenerateRandomPermutation_permutation_witness :
  Permutation (Permutations.GenerateRandomPermutation (@rev nat) [7; 7] 3) [0; 1; 2].
Proof.
  apply (@GenerateRandomPermutation_permutation (@rev nat)
           (fun v => Permutation_sym (Permutation_rev v)) [7; 7] 3).
Defined.

Lemma GenerateWeightedRandomPermutation_permutation_witness :
  exists positive zero,
    Permutations.GenerateWeightedRandomPermutation (@rev nat) true [2; 0; 1]
    = Ok (positive ++ zero) /\
    Permutation (positive ++ zero) [0; 1; 2].
Proof.
  destruct (@GenerateWeightedRandomPermutation_permutation (@rev nat)
              (fun v => Permutation_sym (Permutation_rev v)) true [2; 0; 1])
    as (positive & zero & E & H & _).
  exists positive, zero. split; [exact E|exact H].
Defined.

(** ** More on FastStaticGraph.h: the graph that ReadFromArcList builds *)

Section BuiltGraphFacts.

Import FastArc FastStaticGraph.

Variable checked : bool.
Variable numVertices : nat.
Variable inArcs : list (nat * nat).
Variable isDirected : bool.

Hypothesis vertices_fit : (Z.of_nat numVertices <= 2 ^ 30)%Z.
Hypothesis arcs_in_range : in_range numVertices isDirected inArcs.
Hypothesis arcs_fit : (2 * Z.of_nat (length inArcs) < 2 ^ 32)%Z.

(** The graph built with incoming arcs: its layout, its blocks and its
    scans. *)
Lemma built_graph_facts :
  exists g,
    ReadFromArcList checked numVertices inArcs isDirected true = Ok g /\
    header g = {| NumVertices := numVertices; NumArcs := 2 * length inArcs;
                  IsDirected := isDirected |} /\
    length (vertices g) = numVertices + 1 /\
    (forall v, v <= numVertices -> FirstArcId g v = built_offset inArcs isDirected v) /\
    length (arcs g) = 2 * length inArcs + 1 /\
    (forall v, v < numVertices ->
       incident g v = built_block inArcs isDirected v /\
       (forall a, In a (incident g v) <-> record_of inArcs isDirected v a) /\
       forward_scan g v = filter Forward (incident g v) /\
       backward_scan g v = filter Backward (rev (incident g v)) /\
       Forall (fun a => Valid a = true) (incident g v)).
Proof.
  destruct (@ReadFromArcList_incoming checked numVertices inArcs isDirected
              arcs_in_range arcs_fit) as (g & E & Hh & Lv & Hfirst & La & Hinc).
  destruct (@built_graph_scans checked numVertices inArcs isDirected
              vertices_fit arcs_in_range arcs_fit) as (g' & E' & Hscan).
  assert (g' = g) by congruence. subst g'.
  exists g. split; [exact E|]. split; [exact Hh|]. split; [exact Lv|].
  split; [exact Hfirst|]. split; [exact La|].
  intros v Hv. destruct (Hscan v Hv) as (HV & _ & HF & HB).
  split; [apply Hinc; assumption|]. split; [|split; [|split]; assumption].
  intros a. rewrite Hinc by assumption. apply in_built_block_record.
Qed.

Lemma record_forward : forall u w,
  u < numVertices ->
  (exists a, record_of inArcs isDirected u a /\ Forward a = true /\
             OtherVertexId a = Z.of_nat w) <->
  In (u, w) inArcs \/ (isDirected = false /\ In (w, u) inArcs).
Proof.
  intros u w Hu. split.
  - intros (a & (x & y & Hin & H) & HF & HO).
    destruct (arc_endpoints vertices_fit arcs_in_range _ _ Hin) as (_ & _ & Zx & Zy).
    destruct H as [[-> ->]|[-> ->]].
    + destruct (mk_spec true (negb isDirected) Zy) as (O & _ & _).
      rewrite O in HO. apply Nat2Z.inj in HO. subst y. left. exact Hin.
    + destruct (mk_spec (negb isDirected) true Zx) as (O & F & _).
      rewrite O in HO. apply Nat2Z.inj in HO. subst x.
      rewrite F in HF. right. split; [|exact Hin].
      destruct isDirected; [discriminate|reflexivity].
  - intros [Hin|[D Hin]];
      destruct (arc_endpoints vertices_fit arcs_in_range _ _ Hin)
        as (_ & _ & Zx & Zy).
    + exists (mk (Z.of_nat w) true (negb isDirected)).
      destruct (mk_spec true (negb isDirected) Zy) as (O & F & _).
      split; [|split; assumption]. exists u, w. split; [exact Hin|]. left. auto.
    + exists (mk (Z.of_nat w) (negb isDirected) true).
      destruct (mk_spec (negb isDirected) true Zx) as (O & F & _).
      split; [|split; [rewrite F, D; reflexivity|assumption]].
      exists w, u. split; [exact Hin|]. right. auto.
Qed.

Lemma record_backward : forall u w,
  u < numVertices ->
  (exists a, record_of inArcs isDirected u a /\ Backward a = true /\
             OtherVertexId a = Z.of_nat w) <->
  In (w, u) inArcs \/ (isDirected = false /\ In (u, w) inArcs).
Proof.
  intros u w Hu. split.
  - intros (a & (x & y & Hin & H) & HB & HO).
    destruct (arc_endpoints vertices_fit arcs_in_range _ _ Hin) as (_ & _ & Zx & Zy).
    destruct H as [[-> ->]|[-> ->]].
    + destruct (mk_spec true (negb isDirected) Zy) as (O & _ & B).
      rewrite O in HO. apply Nat2Z.inj in HO. subst y.
      rewrite B in HB. right. split; [|exact Hin].
      destruct isDirected; [discriminate|reflexivity].
    + destruct (mk_spec (negb isDirected) true Zx) as (O & _ & _).
      rewrite O in HO. apply Nat2Z.inj in HO. subst x. left. exact Hin.
  - intros [Hin|[D Hin]];
      destruct (arc_endpoints vertices_fit arcs_in_range _ _ Hin)
        as (_ & _ & Zx & Zy).
    + exists (mk (Z.of_nat w) (negb isDirected) true).
      destruct (mk_spec (negb isDirected) true Zx) as (O & _ & B).
      split; [|split; assumption]. exists w, u. split; [exact Hin|]. right. auto.
    + exists (mk (Z.of_nat w) true (negb isDirected)).
      destruct (mk_spec true (negb isDirected) Zy) as (O & _ & B).
      split; [|split; [rewrite B, D; reflexivity|assumption]].
      exists u, w. split; [exact Hin|]. left. auto.
Qed.

(** X16: the graph that [ReadFromArcList] builds with incoming arcs
    represents the arc list: the forward scan at [u] (which stops at the
    first arc without the forward flag) meets the other vertex [w]
    exactly when [u -> w] is an input arc, the backward scan exactly when
    [w -> u] is one; in an undirected graph both scans meet both ends'
    neighbours. *)
Theorem ReadFromArcList_adjacency :
  exists g,
    ReadFromArcList checked numVertices inArcs isDirected true = Ok g /\
    forall u w, u < numVertices ->
      ((exists a, In a (forward_scan g u) /\ OtherVertexId a = Z.of_nat w) <->
       In (u, w) inArcs \/ (isDirected = false /\ In (w, u) inArcs)) /\
      ((exists a, In a (backward_scan g u) /\ OtherVertexId a = Z.of_nat w) <->
       In (w, u) inArcs \/ (isDirected = false /\ In (u, w) inArcs)).
Proof.
  destruct built_graph_facts as (g & E & _ & _ & _ & _ & Hblocks).
  exists g. split; [exact E|]. intros u w Hu.
  destruct (Hblocks u Hu) as (_ & Hrec & HF & HB & _). split.
  - rewrite <- record_forward by assumption. rewrite HF. split.
    + intros (a & Ha & HO). apply filter_In in Ha. destruct Ha as [Ha F].
      exists a. split; [apply Hrec; assumption|]. split; assumption.
    + intros (a & Ha & F & HO). exists a. split; [|assumption].
      apply filter_In. split; [apply Hrec; assumption|assumption].
  - rewrite <- record_backward by assumption. rewrite HB. split.
    + intros (a & Ha & HO). apply filter_In in Ha. destruct Ha as [Ha B].
      apply in_rev in Ha.
      exists a. split; [apply Hrec; assumption|]. split; assumption.
    + intros (a & Ha & B & HO). exists a. split; [|assumption].
      apply filter_In. split; [|assumption].
      apply -> in_rev. apply Hrec. assumption.
Qed.

Lemma offset_cover : forall (deg : nat -> nat) bound id,
  id < first deg bound ->
  exists v, v < bound /\ first deg v <= id < first deg (S v).
Proof.
  intros deg. induction bound as [|b IH]; intros id H; simpl in H; [lia|].
  destruct (Nat.lt_ge_cases id (first deg b)) as [Hlt|Hge].
  - destruct (IH id Hlt) as (v & Hv & Hr). exists v. split; [lia|exact Hr].
  - exists b. split; [lia|]. simpl. lia.
Qed.

Lemma foldM_seq_inv : forall (A : Type) (f : A -> nat -> result A)
  (P : nat -> A -> Prop) m a,
  P 0 a ->
  (forall j b, j < m -> P j b -> exists b', f b j = Ok b' /\ P (S j) b') ->
  exists r, foldM f (seq 0 m) a = Ok r /\ P m r.
Proof.
  intros A f P. induction m as [|m IH]; intros a H0 Hstep.
  - exists a. split; [reflexivity|assumption].
  - destruct (IH a H0) as (r & E & Hr); [intros j b Hj; apply Hstep; lia|].
    destruct (Hstep m r (Nat.lt_succ_diag_r m) Hr) as (r' & E' & Hr').
    exists r'. split; [|assumption].
    rewrite seq_S, foldM_app, E. simpl. rewrite E'. reflexivity.
Qed.

(** Every arc record below the arc count lies in the block of a vertex. *)
Lemma arc_in_block : forall g,
  length (arcs g) = 2 * length inArcs + 1 ->
  (forall v, v <= numVertices -> FirstArcId g v = built_offset inArcs isDirected v) ->
  forall arcId, arcId < 2 * length inArcs ->
  exists v, v < numVertices /\ In (nth arcId (arcs g) 0%Z) (incident g v).
Proof.
  intros g La Hfirst arcId Hid.
  rewrite <- (built_offset_total arcs_in_range) in Hid.
  destruct (offset_cover _ _ Hid) as (v & Hv & Hlo & Hhi).
  pose proof (built_offset_total arcs_in_range) as Htot.
  assert (Hmono : built_offset inArcs isDirected (S v)
                  <= built_offset inArcs isDirected numVertices)
    by (apply first_mono; lia).
  exists v. split; [assumption|].
  unfold incident. rewrite !Hfirst by lia.
  replace (v + 1) with (S v) by lia.
  fold (built_offset inArcs isDirected v) in Hlo.
  fold (built_offset inArcs isDirected (S v)) in Hhi.
  set (lo := built_offset inArcs isDirected v) in *.
  set (hi := built_offset inArcs isDirected (S v)) in *.
  replace (nth arcId (arcs g) 0%Z)
    with (nth (arcId - lo) (firstn (hi - lo) (skipn lo (arcs g))) 0%Z).
  - apply nth_In. rewrite length_firstn, length_skipn. lia.
  - rewrite nth_firstn.
    replace (arcId - lo <? hi - lo) with true
      by (symmetry; apply Nat.ltb_lt; lia).
    rewrite nth_skipn. f_equal. lia.
Qed.

Variable VertexGetErrors : nat -> nat.

(** X17: the consistency check passes on every graph built with incoming
    arcs: the first arc ids are in range and do not decrease, every arc
    record points to a vertex of the graph and has a direction flag, so
    that [GetErrors] counts nothing but what the vertex records
    themselves report, and the assertion of [BuildFromArcList] on its
    result holds when they report nothing. *)
Theorem GetErrors_built_graph :
  exists g,
    ReadFromArcList checked numVertices inArcs isDirected true = Ok g /\
    GetErrors VertexGetErrors g
    = Ok (fold_left (fun numErrors v => numErrors + VertexGetErrors (FirstArcId g v))
            (seq 0 numVertices) 0) /\
    ((forall first, VertexGetErrors first = 0) ->
     GetErrors VertexGetErrors g = Ok 0).
Proof.
  destruct built_graph_facts as (g & E & Hh & Lv & Hfirst & La & Hblocks).
  exists g. split; [exact E|].
  pose proof (built_offset_total arcs_in_range) as Htot.
  set (total := fun j => fold_left
                  (fun numErrors v => numErrors + VertexGetErrors (FirstArcId g v))
                  (seq 0 j) 0).
  assert (Hn : NumVertices (header g) = numVertices) by (rewrite Hh; reflexivity).
  assert (Hm : NumArcs (header g) = 2 * length inArcs) by (rewrite Hh; reflexivity).
  assert (Hv : exists e, foldM (check_vertex VertexGetErrors g) (seq 0 numVertices) 0
                         = Ok e /\ e = total numVertices).
  { apply (@foldM_seq_inv _ (check_vertex VertexGetErrors g)
             (fun j e => e = total j)); [reflexivity|].
    intros j e Hj ->. unfold check_vertex.
    rewrite (@read_ok _ (vertices g) j 0) by lia. cbn [bind].
    fold (FirstArcId g j). rewrite Hm.
    assert (Hle : FirstArcId g j <= 2 * length inArcs).
    { rewrite Hfirst by lia. rewrite <- Htot. apply first_mono. lia. }
    replace (2 * length inArcs + 1 <=? FirstArcId g j) with false
      by (symmetry; apply Nat.leb_gt; lia).
    assert (Hprev : (if 0 <? j
                     then previous <- read (vertices g) (j - 1) ;;
                          Ok (if FirstArcId g j <? previous
                              then total j + 1 else total j)
                     else Ok (total j)) = Ok (total j)).
    { destruct (Nat.ltb_spec 0 j) as [Hpos|H0]; [|reflexivity].
      rewrite (@read_ok _ (vertices g) (j - 1) 0) by lia. cbn [bind].
      fold (FirstArcId g (j - 1)).
      replace (FirstArcId g j <? FirstArcId g (j - 1)) with false; [reflexivity|].
      symmetry. apply Nat.ltb_ge. rewrite !Hfirst by lia.
      apply first_mono. lia. }
    rewrite Hprev. cbn [bind]. eexists. split; [reflexivity|].
    unfold total. rewrite seq_S, fold_left_app. reflexivity. }
  destruct Hv as (e & Ev & ->).
  assert (Ha : exists e, foldM (check_arc g) (seq 0 (2 * length inArcs))
                           (total numVertices) = Ok e /\ e = total numVertices).
  { apply (@foldM_seq_inv _ (check_arc g) (fun _ e => e = total numVertices));
      [reflexivity|].
    intros j e Hj ->. unfold check_arc.
    rewrite (@read_ok _ (arcs g) j 0%Z) by lia. cbn [bind].
    destruct (@arc_in_block g La Hfirst j Hj) as (v & Hvn & Hin).
    destruct (Hblocks v Hvn) as (_ & Hrec & _ & _ & Hvalid).
    rewrite Forall_forall in Hvalid.
    destruct (record_other vertices_fit arcs_in_range (proj1 (Hrec _) Hin))
      as [H0 H1].
    rewrite Hn.
    replace (Z.of_nat numVertices <=? OtherVertexId (nth j (arcs g) 0%Z))%Z
      with false by (symmetry; apply Z.leb_gt; lia).
    rewrite (proj2 (GetErrors_Valid _) (Hvalid _ Hin)), Nat.add_0_r.
    eexists. split; reflexivity. }
  destruct Ha as (e & Ea & ->).
  assert (Hres : GetErrors VertexGetErrors g = Ok (total numVertices)).
  { unfold GetErrors. rewrite Hn, Hm, Ev. cbn [bind]. rewrite Ea. reflexivity. }
  split; [exact Hres|].
  intros Hzero. rewrite Hres. f_equal. unfold total.
  clear - Hzero. induction (seq 0 numVertices) as [|v vs IH] using rev_ind; [reflexivity|].
  rewrite fold_left_app. simpl. rewrite IH, Hzero. reflexivity.
Qed.

End BuiltGraphFacts.

(** *** Rejected arc lists *)

Section RejectedArcLists.

Import FastStaticGraph.

Variable numVertices : nat.
Variable isDirected buildIncomingArcs : bool.

Definition arc_ok (inArc : nat * nat) : bool :=
  (fst inArc <? numVertices) && (snd inArc <? numVertices) &&
  (isDirected || (fst inArc <? snd inArc)).

Lemma arc_ok_spec : forall inArc,
  arc_ok inArc = true <->
  fst inArc < numVertices /\ snd inArc < numVertices /\
  (isDirected = false -> fst inArc < snd inArc).
Proof.
  intros [a b]. unfold arc_ok. simpl.
  rewrite !andb_true_iff, orb_true_iff, !Nat.ltb_lt.
  destruct isDirected; intuition congruence.
Qed.

Lemma degree_pass_rejects : forall inArcs vertices,
  length vertices = numVertices + 1 ->
  ~ in_range numVertices isDirected inArcs ->
  foldM (degree_step true numVertices isDirected buildIncomingArcs) inArcs vertices
  = AssertionFailure.
Proof.
  induction inArcs as [|[a b] inArcs IH]; intros vertices HL Hbad.
  - exfalso. apply Hbad. constructor.
  - rewrite foldM_cons. unfold degree_step at 1.
    destruct (arc_ok (a, b)) eqn:Eok.
    + pose proof (proj1 (arc_ok_spec (a, b)) Eok) as (Ha & Hb & Hab).
      simpl in Ha, Hb, Hab.
      replace (a <? numVertices) with true by (symmetry; apply Nat.ltb_lt; lia).
      replace (b <? numVertices) with true by (symmetry; apply Nat.ltb_lt; lia).
      replace (isDirected || (a <? b)) with true.
      2:{ destruct isDirected; [reflexivity|]. simpl. symmetry.
          apply Nat.ltb_lt. auto. }
      rewrite Assert_true. cbn [bind].
      rewrite (@modify_ok _ vertices a (fun d => ArcId (d + 1)) 0) by lia. cbn [bind].
      assert (Hrest : ~ in_range numVertices isDirected inArcs).
      { intros H. apply Hbad. constructor; [|exact H].
        simpl. auto. }
      destruct (buildIncomingArcs || negb isDirected).
      * rewrite (@modify_ok _ _ b (fun d => ArcId (d + 1)) 0)
          by (rewrite upd_length; lia).
        cbn [bind]. apply IH; [rewrite !upd_length; assumption|assumption].
      * cbn [bind]. apply IH; [rewrite upd_length; assumption|assumption].
    + unfold arc_ok in Eok. simpl in Eok.
      destruct (a <? numVertices); [|reflexivity].
      destruct (b <? numVertices); [|reflexivity].
      simpl in Eok. rewrite Eok. reflexivity.
Qed.

(** X18: with assertions compiled in, [ReadFromArcList] refuses every arc
    list that breaks its input contract (an endpoint that is not a
    vertex, or, for an undirected graph, an arc whose tail is not
    smaller than its head): it stops at an assertion of the degree pass,
    before any arc is written, whether incoming arcs are built or not. *)
Theorem ReadFromArcList_rejects : forall inArcs,
  ~ in_range numVertices isDirected inArcs ->
  ReadFromArcList true numVertices inArcs isDirected buildIncomingArcs
  = AssertionFailure.
Proof.
  intros inArcs Hbad. unfold ReadFromArcList.
  rewrite degree_pass_rejects; [reflexivity|apply repeat_length|assumption].
Qed.

End RejectedArcLists.

Lemma ReadFromArcList_rejects_witness :
  FastStaticGraph.ReadFromArcList true 2 [(0, 1); (1, 2)] true true
  = AssertionFailure /\
  FastStaticGraph.ReadFromArcList true 2 [(1, 0)] false true
  = AssertionFailure.
Proof.
  split.
  - apply (@ReadFromArcList_rejects 2 true true [(0, 1); (1, 2)]).
    intros H. inversion H as [|? ? _ H']; subst.
    inversion H' as [|? ? (_ & Hb & _) _]; subst. simpl in Hb. lia.
  - apply (@ReadFromArcList_rejects 2 false true [(1, 0)]).
    intros H. inversion H as [|? ? (_ & _ & Hab) _]; subst.
    simpl in Hab. specialize (Hab eq_refl). lia.
Defined.

Lemma ReadFromArcList_adjacency_witness :
  exists g,
    FastStaticGraph.ReadFromArcList true 3 [(0, 1); (0, 2); (2, 1)] true true
    = Ok g /\
    ((exists a, In a (FastStaticGraph.forward_scan g 0) /\
                FastArc.OtherVertexId a = Z.of_nat 2) <->
     In (0, 2) [(0, 1); (0, 2); (2, 1)] \/
     (true = false /\ In (2, 0) [(0, 1); (0, 2); (2, 1)])).
Proof.
  assert (Hfit : (Z.of_nat 3 <= 2 ^ 30)%Z) by (vm_compute; discriminate).
  assert (Hrange : in_range 3 true [(0, 1); (0, 2); (2, 1)]).
  { repeat constructor; simpl; intros; try lia; discriminate. }
  assert (Harcs : (2 * Z.of_nat (length [(0, 1); (0, 2); (2, 1)]) < 2 ^ 32)%Z)
    by (vm_compute; reflexivity).
  destruct (@ReadFromArcList_adjacency true 3 [(0, 1); (0, 2); (2, 1)] true
              Hfit Hrange Harcs) as (g & E & H).
  exists g. split; [exact E|]. apply (H 0 2). lia.
Defined.

Lemma GetErrors_built_graph_witness :
  exists g,
    FastStaticGraph.ReadFromArcList true 3 [(0, 1); (0, 2); (2, 1)] true true
    = Ok g /\
    FastStaticGraph.GetErrors (fun _ => 0) g = Ok 0.
Proof.
  assert (Hfit : (Z.of_nat 3 <= 2 ^ 30)%Z) by (vm_compute; discriminate).
  assert (Hrange : in_range 3 true [(0, 1); (0, 2); (2, 1)]).
  { repeat constructor; simpl; intros; try lia; discriminate. }
  assert (Harcs : (2 * Z.of_nat (length [(0, 1); (0, 2); (2, 1)]) < 2 ^ 32)%Z)
    by (vm_compute; reflexivity).
  destruct (@GetErrors_built_graph true 3 [(0, 1); (0, 2); (2, 1)] true
              Hfit Hrange Harcs (fun _ => 0)) as (g & E & _ & H).
  exists g. split; [exact E|]. apply H. reflexivity.
Defined.

(** *** Degrees and in-degrees *)

Lemma filter_length_permutation : forall (A : Type) (f : A -> bool) xs ys,
  Permutation xs ys -> length (filter f xs) = length (filter f ys).
Proof.
  intros A f xs ys H. induction H as [|x xs ys H IH|x y xs|xs ys zs H1 IH1 H2 IH2];
    simpl.
  - reflexivity.
  - destruct (f x); simpl; rewrite IH; reflexivity.
  - destruct (f x), (f y); reflexivity.
  - rewrite IH1. assumption.
Qed.

Lemma filter_filter_comm : forall (A : Type) (f g : A -> bool) xs,
  filter f (filter g xs) = filter g (filter f xs).
Proof.
  intros A f g. induction xs as [|x xs IH]; simpl; [reflexivity|].
  destruct (f x) eqn:F, (g x) eqn:G; simpl; rewrite ?F, ?G, IH; reflexivity.
Qed.

Lemma count_flat_map : forall (A B : Type) (P : B -> bool) (f : nat -> list B) n,
  length (filter (fun va : nat * B => P (snd va))
            (flat_map (fun u => map (fun a => (u, a)) (f u)) (seq 0 n)))
  = first (fun u => length (filter P (f u))) n.
Proof.
  intros A B P f. induction n as [|n IH]; [reflexivity|].
  rewrite seq_S, flat_map_app, filter_app, length_app, IH. simpl.
  rewrite app_nil_r.
  rewrite (filter_map_comm (fun va : nat * B => P (snd va)) (fun a => (n, a))).
  rewrite length_map. reflexivity.
Qed.

Section Degrees.

Import FastArc FastStaticGraph.

Variable checked : bool.
Variable numVertices : nat.
Variable inArcs : list (nat * nat).
Variable isDirected : bool.

Hypothesis vertices_fit : (Z.of_nat numVertices <= 2 ^ 30)%Z.
Hypothesis arcs_in_range : in_range numVertices isDirected inArcs.
Hypothesis arcs_fit : (2 * Z.of_nat (length inArcs) < 2 ^ 32)%Z.

(** The test of the in-degree loop on an arc record, for the head [v]. *)
Definition counts_for (v : nat) (a : FastArc.t) : bool :=
  Forward a && (Z.to_nat (OtherVertexId a) =? v).

Lemma indeg_count : forall xs indeg,
  (forall va, In va xs -> Forward (snd va) = true ->
     Z.to_nat (OtherVertexId (snd va)) < length indeg) ->
  exists indeg',
    foldM Unbounded.indeg_step xs indeg = Ok indeg' /\
    length indeg' = length indeg /\
    forall v, nth v indeg' 0
              = nth v indeg 0
                + length (filter (fun va => counts_for v (snd va)) xs).
Proof.
  induction xs as [|x xs IH]; intros indeg H.
  - exists indeg. simpl. repeat split. intros v. lia.
  - rewrite foldM_cons. unfold Unbounded.indeg_step at 1.
    destruct (Forward (snd x)) eqn:F; cbn [negb bind].
    + assert (Hx : Z.to_nat (OtherVertexId (snd x)) < length indeg)
        by (apply H; [left; reflexivity|assumption]).
      rewrite (@modify_ok _ indeg _ (fun d => d + 1) 0 Hx). cbn [bind].
      destruct (IH (upd (Z.to_nat (OtherVertexId (snd x)))
                      (nth (Z.to_nat (OtherVertexId (snd x))) indeg 0 + 1) indeg))
        as (indeg' & E & HL & Hn).
      { intros va Hva Fva. rewrite upd_length. apply H; [right|]; assumption. }
      exists indeg'. split; [exact E|]. split; [rewrite HL; apply upd_length|].
      intros v. rewrite Hn, nth_upd. cbn [filter]. unfold counts_for at 2.
      rewrite F. cbn [andb].
      destruct (Nat.eqb_spec (Z.to_nat (OtherVertexId (snd x))) v) as [Ev|Hne].
      * rewrite Ev in *.
        replace (v <? length indeg) with true
          by (symmetry; apply Nat.ltb_lt; assumption).
        simpl. lia.
      * simpl. lia.
    + destruct (IH indeg) as (indeg' & E & HL & Hn).
      { intros va Hva Fva. apply H; [right|]; assumption. }
      exists indeg'. split; [exact E|]. split; [exact HL|].
      intros v. rewrite Hn. cbn [filter]. unfold counts_for at 2.
      rewrite F. reflexivity.
Qed.

Lemma block_filter : forall (P : FastArc.t -> bool) u ps,
  length (filter P (block u ps))
  = length (block u (filter (fun p => P (snd p 0%Z)) ps)).
Proof.
  intros P u ps. unfold block.
  rewrite (filter_map_comm P (fun p : nat * (FastArc.t -> FastArc.t) => snd p 0%Z)).
  rewrite !length_map, filter_filter_comm. reflexivity.
Qed.

Lemma count_blocks : forall (P : FastArc.t -> bool),
  first (fun u => length (filter P (built_block inArcs isDirected u))) numVertices
  = length (filter (fun p => P (snd p 0%Z)) (pushes isDirected inArcs)).
Proof.
  intros P.
  rewrite (@first_ext _ (fun u => length (block u
             (filter (fun p => P (snd p 0%Z)) (pushes isDirected inArcs))))).
  - apply block_length_sum. apply Forall_forall. intros p Hp.
    apply filter_In in Hp. destruct Hp as [Hp _].
    pose proof (all_pushes_in_range arcs_in_range) as Hr.
    rewrite Forall_forall in Hr. apply Hr. exact Hp.
  - intros u Hu. rewrite <- block_filter. unfold built_block, all_pushes.
    destruct isDirected; [|reflexivity].
    apply filter_length_permutation. apply Permutation_sym, std_sort_perm.
Qed.

Lemma count_pushes : forall (xs : list (nat * nat)) v,
  Forall (fun ab => (0 <= Z.of_nat (fst ab) < 2 ^ 30)%Z /\
                    (0 <= Z.of_nat (snd ab) < 2 ^ 30)%Z) xs ->
  length (filter (fun p => counts_for v (snd p 0%Z)) (pushes isDirected xs))
  = length (filter (fun ab => snd ab =? v) xs)
    + length (filter (fun ab => negb isDirected && (fst ab =? v)) xs).
Proof.
  intros xs v. induction xs as [|[a b] xs IH]; intros H; [reflexivity|].
  inversion H as [|? ? [Za Zb] H']; subst. simpl in Za, Zb.
  unfold pushes in *. cbn [flat_map app filter fst snd].
  rewrite write_outgoing_mk, write_incoming_mk.
  destruct (mk_spec true (negb isDirected) Zb) as (O1 & F1 & _).
  destruct (mk_spec (negb isDirected) true Za) as (O2 & F2 & _).
  assert (C1 : counts_for v (mk (Z.of_nat b) true (negb isDirected)) = (b =? v)).
  { unfold counts_for. rewrite O1, F1, Nat2Z.id. reflexivity. }
  assert (C2 : counts_for v (mk (Z.of_nat a) (negb isDirected) true)
               = negb isDirected && (a =? v)).
  { unfold counts_for. rewrite O2, F2, Nat2Z.id. reflexivity. }
  rewrite !C1, !C2.
  specialize (IH H').
  destruct (b =? v), (negb isDirected && (a =? v)); cbn [length].
  all: rewrite IH; lia.
Qed.

Lemma count_tails : forall (xs : list (nat * nat)) v,
  length (block v (pushes isDirected xs))
  = length (filter (fun ab => fst ab =? v) xs)
    + length (filter (fun ab => snd ab =? v) xs).
Proof.
  intros xs v. unfold block. rewrite length_map.
  induction xs as [|[a b] xs IH]; [reflexivity|].
  unfold pushes in *. cbn [flat_map app filter fst snd].
  destruct (a =? v), (b =? v); cbn [length]; rewrite IH; lia.
Qed.

(** X19: on a graph built with incoming arcs, the loop of the two
    constructors computes the in-degrees of the arc list: [indeg[v]] is
    the number of input arcs with head [v], for an undirected graph the
    number of input arcs with end [v]; and [NumArcs(v)], the number of
    arc records of [v], is the number of input arcs that leave [v] plus
    the number that enter it. *)
Theorem compute_indeg_counts :
  exists g indegrees,
    ReadFromArcList checked numVertices inArcs isDirected true = Ok g /\
    compute_indeg g = Ok indegrees /\
    length indegrees = numVertices /\
    forall v, v < numVertices ->
      nth v indegrees 0
      = length (filter (fun inArc => snd inArc =? v) inArcs)
        + length (filter (fun inArc => negb isDirected && (fst inArc =? v)) inArcs) /\
      NumArcs_at g v
      = length (filter (fun inArc => fst inArc =? v) inArcs)
        + length (filter (fun inArc => snd inArc =? v) inArcs).
Proof.
  destruct (@built_graph_facts checked numVertices inArcs isDirected
              vertices_fit arcs_in_range arcs_fit)
    as (g & E & Hh & Lv & Hfirst & La & Hblocks).
  assert (Hn : NumVertices (header g) = numVertices) by (rewrite Hh; reflexivity).
  pose proof (built_offset_total arcs_in_range) as Htot.
  assert (Hinc : forall v, v < numVertices ->
            incident g v = built_block inArcs isDirected v)
    by (intros v Hv; apply (Hblocks v Hv)).
  destruct (@indeg_count (FORALL_ARCS g) (repeat 0 numVertices))
    as (indegrees & Ei & HL & Hcount).
  { intros [u a] Hin F. simpl in *. rewrite repeat_length.
    apply in_FORALL_ARCS in Hin. destruct Hin as [Hu Ha]. rewrite Hn in Hu.
    destruct (Hblocks u Hu) as (_ & Hrec & _).
    apply (record_other vertices_fit arcs_in_range (proj1 (Hrec _) Ha)). }
  exists g, indegrees. split; [exact E|].
  split.
  { apply compute_indeg_fits.
    - rewrite (@built_FORALL_ARCS_length numVertices inArcs isDirected g
                 arcs_in_range Hn Hinc). lia.
    - unfold Unbounded.compute_indeg. rewrite Hn. exact Ei. }
  split; [rewrite HL; apply repeat_length|].
  intros v Hv. split.
  - rewrite Hcount, nth_repeat. simpl.
    unfold FORALL_ARCS, FORALL_INCIDENT_ARCS. rewrite Hn.
    rewrite (@count_flat_map nat _ (counts_for v) (incident g) numVertices).
    rewrite (@first_ext _ (fun u => length (filter (counts_for v)
                                     (built_block inArcs isDirected u)))).
    + rewrite count_blocks. apply count_pushes.
      apply Forall_forall. intros [a b] Hin.
      destruct (arc_endpoints vertices_fit arcs_in_range _ _ Hin)
        as (_ & _ & Za & Zb).
      split; assumption.
    + intros u Hu. destruct (Hblocks u Hu) as (-> & _). reflexivity.
  - assert (Hmono : built_offset inArcs isDirected (v + 1)
                    <= built_offset inArcs isDirected numVertices)
      by (apply first_mono; lia).
    rewrite NumArcs_at_fits;
      [|rewrite !Hfirst by lia; apply first_mono; lia
       |rewrite Hfirst by lia; lia].
    rewrite !Hfirst by lia.
    replace (v + 1) with (S v) by lia.
    unfold built_offset. simpl. unfold built_deg, all_pushes.
    rewrite count_tails. lia.
Qed.

End Degrees.

Lemma compute_indeg_counts_witness :
  exists g indegrees,
    FastStaticGraph.ReadFromArcList true 3 [(0, 1); (0, 2); (2, 1)] true true
    = Ok g /\
    FastStaticGraph.compute_indeg g = Ok indegrees /\
    nth 1 indegrees 0 = 2 /\ FastStaticGraph.NumArcs_at g 2 = 2.
Proof.
  assert (Hfit : (Z.of_nat 3 <= 2 ^ 30)%Z) by (vm_compute; discriminate).
  assert (Hrange : in_range 3 true [(0, 1); (0, 2); (2, 1)]).
  { repeat constructor; simpl; intros; try lia; discriminate. }
  assert (Harcs : (2 * Z.of_nat (length [(0, 1); (0, 2); (2, 1)]) < 2 ^ 32)%Z)
    by (vm_compute; reflexivity).
  destruct (@compute_indeg_counts true 3 [(0, 1); (0, 2); (2, 1)] true
              Hfit Hrange Harcs) as (g & d & E & Ed & _ & H).
  exists g, d. split; [exact E|]. split; [exact Ed|].
  destruct (H 1) as [H1 _]; [lia|]. destruct (H 2) as [_ H2]; [lia|].
  split; [exact H1|exact H2].
Defined.

(** ** Breadth-first searches over a FastSet *)

(** The vertices reached from the roots along the edges. *)
Inductive reaches_from (edge : nat -> nat -> Prop) (roots : list nat)
  : nat -> Prop :=
| reach_root : forall r, In r roots -> reaches_from edge roots r
| reach_edge : forall u v,
    reaches_from edge roots u -> edge u v -> reaches_from edge roots v.

Lemma reaches_from_trans : forall (edge : nat -> nat -> Prop) roots u v,
  reaches_from edge roots u -> reaches_from edge [u] v ->
  reaches_from edge roots v.
Proof.
  intros edge roots u v Hu Hv. induction Hv as [r [<-|[]]|x y Hx IH He].
  - assumption.
  - apply reach_edge with x; assumption.
Qed.

Lemma reaches_from_incl : forall (edge edge' : nat -> nat -> Prop) roots roots' v,
  (forall x y, edge x y -> edge' x y) -> incl roots roots' ->
  reaches_from edge roots v -> reaches_from edge' roots' v.
Proof.
  intros edge edge' roots roots' v He Hr H.
  induction H as [r Hin|x y Hx IH Hxy].
  - apply reach_root. apply Hr. assumption.
  - apply reach_edge with x; [assumption|apply He; assumption].
Qed.

(** The other vertex of an arc record, as a vertex id. *)
Definition head_of (a : FastArc.t) : nat := Z.to_nat (FastArc.OtherVertexId a).

Section Expansion.

Variable N : nat.

(** One arc expansion: the arcs that pass the test insert their other
    vertex unless it is in the search space. *)
Definition expand_with (pass : FastArc.t -> bool) (searchSpace : FastSet.t)
  (a : FastArc.t) : FastSet.t :=
  if pass a && negb (FastSet.IsContained searchSpace (head_of a))
  then FastSet.Insert searchSpace (head_of a) else searchSpace.

Lemma expand_with_spec : forall pass arcs searchSpace,
  consistent N searchSpace ->
  (forall a, In a arcs -> pass a = true -> head_of a < N) ->
  let searchSpace' := fold_left (expand_with pass) arcs searchSpace in
  consistent N searchSpace' /\
  (exists new, FastSet.containedKeys searchSpace'
               = FastSet.containedKeys searchSpace ++ new) /\
  (forall x, In x (FastSet.containedKeys searchSpace') <->
             In x (FastSet.containedKeys searchSpace) \/
             exists a, In a arcs /\ pass a = true /\ x = head_of a).
Proof.
  intros pass. induction arcs as [|a arcs IH]; intros ss HS Hr; simpl.
  - split; [assumption|]. split; [exists []; rewrite app_nil_r; reflexivity|].
    intros x. split; [auto|]. intros [H|(a & [] & _)]. assumption.
  - assert (Hr' : forall b, In b arcs -> pass b = true -> head_of b < N)
      by (intros b Hb; apply Hr; right; assumption).
    unfold expand_with at 2 4 6.
    destruct (pass a) eqn:Ep; cbn [andb].
    + assert (Hv : head_of a < N) by (apply Hr; [left; reflexivity|assumption]).
      destruct (@Insert_consistent N ss (head_of a) HS Hv) as (HS1 & K1 & M1).
      destruct (FastSet.IsContained ss (head_of a)) eqn:Ec; cbn [negb].
      * destruct (IH ss HS Hr') as (H1 & H2 & H3).
        split; [assumption|]. split; [assumption|].
        intros x. rewrite H3. split.
        -- intros [H|(b & Hb & Pb & ->)]; [auto|].
           right. exists b. auto.
        -- intros [H|(b & [<-|Hb] & Pb & ->)]; [auto| |].
           ++ left. apply HS. assumption.
           ++ right. exists b. auto.
      * destruct (IH _ HS1 Hr') as (H1 & (new & H2) & H3).
        split; [assumption|]. split.
        -- exists (head_of a :: new). rewrite H2, K1, <- app_assoc. reflexivity.
        -- intros x. rewrite H3, M1. split.
           ++ intros [[H| ->]|(b & Hb & Pb & ->)]; [auto| |].
              ** right. exists a. auto.
              ** right. exists b. auto.
           ++ intros [H|(b & [<-|Hb] & Pb & ->)]; [auto| |].
              ** left. right. reflexivity.
              ** right. exists b. auto.
    + destruct (IH ss HS Hr') as (H1 & H2 & H3).
      split; [assumption|]. split; [assumption|].
      intros x. rewrite H3. split.
      * intros [H|(b & Hb & Pb & ->)]; [auto|]. right. exists b. auto.
      * intros [H|(b & [<-|Hb] & Pb & ->)]; [auto|congruence|].
        right. exists b. auto.
Qed.

(** Two tests that differ only on vertices of the search space expand
    alike. *)
Lemma expand_with_agree : forall pass pass' arcs searchSpace,
  consistent N searchSpace ->
  (forall a, In a arcs -> pass a = true -> head_of a < N) ->
  (forall a, In a arcs -> pass a <> pass' a ->
     FastSet.IsContained searchSpace (head_of a) = true) ->
  fold_left (expand_with pass) arcs searchSpace
  = fold_left (expand_with pass') arcs searchSpace.
Proof.
  intros pass pass'. induction arcs as [|a arcs IH]; intros ss HS Hr Hag;
    [reflexivity|].
  cbn [fold_left].
  assert (E : expand_with pass ss a = expand_with pass' ss a).
  { unfold expand_with.
    destruct (Bool.bool_dec (pass a) (pass' a)) as [->|Hne]; [reflexivity|].
    rewrite (Hag a (or_introl eq_refl) Hne), !andb_false_r. reflexivity. }
  rewrite <- E. apply IH.
  - unfold expand_with.
    destruct (pass a && negb (FastSet.IsContained ss (head_of a))) eqn:Ec;
      [|assumption].
    apply andb_prop in Ec. destruct Ec as [Ep _].
    apply Insert_consistent; [assumption|].
    apply Hr; [left; reflexivity|assumption].
  - intros b Hb. apply Hr. right. assumption.
  - intros b Hb Hne. specialize (Hag b (or_intror Hb) Hne).
    unfold expand_with.
    destruct (pass a && negb (FastSet.IsContained ss (head_of a))) eqn:Ec;
      [|assumption].
    apply andb_prop in Ec. destruct Ec as [Ep _].
    assert (Hv : head_of a < N) by (apply Hr; [left; reflexivity|assumption]).
    destruct (@Insert_consistent N ss (head_of a) HS Hv) as (HS1 & _ & M1).
    apply HS1. apply M1. left. apply HS. assumption.
Qed.

End Expansion.

Section QueueLoop.

Variable N : nat.
Variable edge : nat -> nat -> Prop.
Variable step : nat -> FastSet.t -> FastSet.t.

Hypothesis step_spec : forall u searchSpace,
  consistent N searchSpace -> In u (FastSet.containedKeys searchSpace) ->
  consistent N (step u searchSpace) /\
  (exists new, FastSet.containedKeys (step u searchSpace)
               = FastSet.containedKeys searchSpace ++ new) /\
  (forall x, In x (FastSet.containedKeys (step u searchSpace)) <->
             In x (FastSet.containedKeys searchSpace) \/ edge u x).

(** The queue loop of a search: take the next key, expand it. *)
Fixpoint queue_loop (fuel : nat) (st : FastSet.t * nat) : FastSet.t * nat :=
  match fuel with
  | O => st
  | S fuel' =>
      let '(searchSpace, ind) := st in
      if ind <? FastSet.Size searchSpace
      then queue_loop fuel'
             (step (FastSet.KeyByIndex searchSpace ind) searchSpace, ind + 1)
      else st
  end.

Variable roots : list nat.

Definition queue_inv (st : FastSet.t * nat) : Prop :=
  let '(searchSpace, ind) := st in
  let keys := FastSet.containedKeys searchSpace in
  consistent N searchSpace /\ ind <= length keys /\
  (exists new, keys = roots ++ new) /\
  (forall x, In x keys -> reaches_from edge roots x) /\
  (forall u, In u (firstn ind keys) -> forall v, edge u v -> In v keys).

Lemma queue_step : forall searchSpace ind,
  queue_inv (searchSpace, ind) -> ind < FastSet.Size searchSpace ->
  queue_inv (step (FastSet.KeyByIndex searchSpace ind) searchSpace, ind + 1).
Proof.
  intros ss ind (HS & Hind & (new0 & Hroots) & Hreach & Hdone) Hlt.
  unfold FastSet.Size, FastSet.KeyByIndex in *.
  set (keys := FastSet.containedKeys ss) in *.
  set (u := nth ind keys 0) in *.
  assert (Hin_u : In u keys) by (apply nth_In; assumption).
  destruct (@step_spec u ss HS Hin_u) as (HS' & (new & Hkeys) & Hmem).
  fold keys in Hkeys, Hmem.
  unfold queue_inv. rewrite Hkeys.
  split; [assumption|]. split; [rewrite length_app; lia|]. split; [|split].
  - exists (new0 ++ new). rewrite Hroots, <- app_assoc. reflexivity.
  - intros x Hx. rewrite <- Hkeys in Hx. apply Hmem in Hx.
    destruct Hx as [Hx|Hx]; [apply Hreach; assumption|].
    apply reach_edge with u; [apply Hreach; assumption|assumption].
  - intros u' Hin v Hv. rewrite <- Hkeys. apply Hmem.
    rewrite (firstn_succ_app 0) in Hin by assumption.
    apply in_app_or in Hin. destruct Hin as [Hin|[<-|[]]].
    + left. apply (Hdone u' Hin v Hv).
    + right. assumption.
Qed.

Lemma queue_loop_inv : forall fuel searchSpace ind,
  queue_inv (searchSpace, ind) -> N <= ind + fuel ->
  exists searchSpace',
    queue_loop fuel (searchSpace, ind) = (searchSpace', FastSet.Size searchSpace') /\
    queue_inv (searchSpace', FastSet.Size searchSpace') /\
    ind <= FastSet.Size searchSpace'.
Proof.
  induction fuel as [|fuel IH]; intros ss ind Hinv Hfuel.
  - assert (ind = FastSet.Size ss).
    { destruct Hinv as (HS & Hind & _).
      pose proof (consistent_size HS). unfold FastSet.Size in *. lia. }
    subst ind. exists ss. split; [reflexivity|]. split; [assumption|lia].
  - cbn [queue_loop].
    destruct (Nat.ltb_spec ind (FastSet.Size ss)) as [Hlt|Hge].
    + destruct (IH _ _ (queue_step Hinv Hlt)) as (ss' & E & Hinv' & Hle); [lia|].
      exists ss'. split; [exact E|]. split; [assumption|lia].
    + assert (ind = FastSet.Size ss).
      { destruct Hinv as (HS & Hind & _). unfold FastSet.Size in *. lia. }
      subst ind. exists ss. split; [reflexivity|]. split; [assumption|lia].
Qed.

(** A search from the keys of a consistent search space ends within [N]
    rounds with the vertices reached from them, each once. *)
Lemma queue_loop_closure : forall searchSpace,
  consistent N searchSpace -> FastSet.containedKeys searchSpace = roots ->
  exists searchSpace',
    queue_loop N (searchSpace, 0) = (searchSpace', FastSet.Size searchSpace') /\
    consistent N searchSpace' /\
    (forall x, In x (FastSet.containedKeys searchSpace') <->
               reaches_from edge roots x).
Proof.
  intros ss HS Hroots.
  destruct (@queue_loop_inv N ss 0) as (ss' & E & Hinv & _); [|lia|].
  - split; [assumption|]. split; [lia|]. split; [|split].
    + exists []. rewrite app_nil_r. assumption.
    + intros x Hx. apply reach_root. rewrite <- Hroots. assumption.
    + intros u [].
  - exists ss'. split; [exact E|].
    destruct Hinv as (HS' & _ & (new & Hpre) & Hreach & Hdone).
    split; [assumption|]. intros x. split; [apply Hreach|].
    unfold FastSet.Size in Hdone. rewrite firstn_all in Hdone.
    induction 1 as [r Hr|u v Hu IH He].
    + rewrite Hpre. apply in_or_app. left. assumption.
    + apply (Hdone u IH v He).
Qed.

End QueueLoop.

Lemma list_sum_seq_S : forall (f : nat -> nat) j,
  list_sum (map f (seq 0 (S j))) = list_sum (map f (seq 0 j)) + f j.
Proof.
  intros f j. rewrite seq_S, map_app, list_sum_app. simpl. lia.
Qed.

(** *** The exact influence of the oracle *)

Section InfluenceCount.

Import FastRSInfluenceOracle.

Variable graph : FastStaticGraph.t.
Variable Contained : nat -> nat -> nat -> nat -> bool.
Variable l : nat.

Local Abbreviation N := (n graph).

(** Every arc record of a vertex points to a vertex of the graph. *)
Definition arcs_in_range : Prop :=
  forall u a, u < N -> In a (FastStaticGraph.incident graph u) -> head_of a < N.

(** [u -> v] is an arc of instance [i] that the forward scan at [u]
    meets. *)
Definition forward_arc (i u v : nat) : Prop :=
  exists a, In a (FastStaticGraph.forward_scan graph u) /\
            v = head_of a /\ Contained u v i l = true.

Hypothesis graph_ok : arcs_in_range.

Definition forward_step (i u : nat) (searchSpace : FastSet.t) : FastSet.t :=
  fold_left (forward_expand_step Contained l i u)
    (FastStaticGraph.forward_scan graph u) searchSpace.

Lemma forward_step_spec : forall i u searchSpace,
  consistent N searchSpace -> In u (FastSet.containedKeys searchSpace) ->
  consistent N (forward_step i u searchSpace) /\
  (exists new, FastSet.containedKeys (forward_step i u searchSpace)
               = FastSet.containedKeys searchSpace ++ new) /\
  (forall x, In x (FastSet.containedKeys (forward_step i u searchSpace)) <->
             In x (FastSet.containedKeys searchSpace) \/ forward_arc i u x).
Proof.
  intros i u ss HS Hu.
  assert (Hrange : u < N) by (apply HS; assumption).
  destruct (@expand_with_spec N (fun a => Contained u (head_of a) i l)
              (FastStaticGraph.forward_scan graph u) ss HS)
    as (H1 & H2 & H3).
  { intros a Ha _. unfold FastStaticGraph.forward_scan in Ha.
    apply take_while_In in Ha. apply (@graph_ok u a Hrange). apply Ha. }
  split; [exact H1|]. split; [exact H2|].
  intros x. rewrite H3. unfold forward_arc. split.
  - intros [H|(a & Ha & Pa & ->)]; [auto|]. right. exists a. auto.
  - intros [H|(a & Ha & -> & Pa)]; [auto|]. right. exists a. auto.
Qed.

Lemma influence_loop_queue : forall i fuel searchSpace ind size,
  let q := queue_loop (forward_step i) fuel (searchSpace, ind) in
  influence_loop graph Contained fuel l i (searchSpace, ind, size)
  = (fst q, snd q, size + (snd q - ind)) /\ ind <= snd q.
Proof.
  intros i. induction fuel as [|fuel IH]; intros ss ind size; cbn zeta.
  - simpl. split; [|lia]. replace (size + (ind - ind)) with size by lia.
    reflexivity.
  - cbn [influence_loop queue_loop].
    destruct (Nat.ltb_spec ind (FastSet.Size ss)) as [Hlt|Hge].
    + fold (forward_step i (FastSet.KeyByIndex ss ind) ss).
      destruct (IH (forward_step i (FastSet.KeyByIndex ss ind) ss) (ind + 1) (size + 1))
        as [E Hle].
      rewrite E. split; [|lia]. f_equal. lia.
    + simpl. split; [|lia]. replace (size + (ind - ind)) with size by lia.
      reflexivity.
Qed.

Variable S : list nat.

Hypothesis seeds_ok : forall s, In s S -> s < N.

(** The search space after the search of instance [i]. *)
Definition visited (i : nat) : list nat :=
  FastSet.containedKeys
    (fst (queue_loop (forward_step i) N
            (fold_left FastSet.Insert S (FastSet.make N), 0))).

Lemma influence_step_spec : forall i searchSpace size,
  consistent N searchSpace ->
  exists searchSpace',
    influence_step graph Contained S l (searchSpace, size) i
    = (searchSpace', size + length (visited i)) /\
    consistent N searchSpace' /\
    NoDup (visited i) /\
    (forall x, In x (visited i) <-> reaches_from (forward_arc i) S x).
Proof.
  intros i ss size HS. unfold influence_step.
  rewrite (Clear_make HS).
  destruct (@Insert_fold N S (FastSet.make N) (make_consistent N) seeds_ok)
    as [HS1 M1].
  set (ss1 := fold_left FastSet.Insert S (FastSet.make N)) in *.
  destruct (@queue_loop_closure N (forward_arc i) (forward_step i)
              (forward_step_spec i) (FastSet.containedKeys ss1) ss1 HS1 eq_refl)
    as (ss' & E & HS' & Hmem).
  destruct (influence_loop_queue i N ss1 0 size) as [Eloop _].
  rewrite Eloop. unfold visited. fold ss1. rewrite E. cbn [fst snd].
  exists ss'. rewrite Nat.sub_0_r. split; [reflexivity|].
  split; [assumption|]. split; [apply HS'|].
  intros x. rewrite Hmem. split; apply reaches_from_incl; try auto.
  - intros r Hr. apply M1 in Hr. destruct Hr as [[]|Hr]. assumption.
  - intros r Hr. apply M1. right. assumption.
Qed.

(** X20: [ComputeInfluence] counts, for every instance, the vertices
    that the seed set reaches along the arcs of the instance, each once:
    the search of an instance ends with exactly these vertices in the
    search space, and [size] is the sum of their numbers over the [l]
    instances; the value returned is [double(size) / double(l)]. *)
Theorem ComputeInfluence_counts : forall (double : Type)
  (d_ratio : nat -> nat -> double) searchSpace,
  consistent N searchSpace ->
  (forall i, NoDup (visited i) /\
     forall x, In x (visited i) <-> reaches_from (forward_arc i) S x) /\
  ComputeInfluence_size graph Contained searchSpace S l
  = list_sum (map (fun i => length (visited i)) (seq 0 l)) /\
  ComputeInfluence graph Contained d_ratio searchSpace S l
  = d_ratio (list_sum (map (fun i => length (visited i)) (seq 0 l))) l.
Proof.
  intros double d_ratio ss HS.
  assert (Hsize : ComputeInfluence_size graph Contained ss S l
                  = list_sum (map (fun i => length (visited i)) (seq 0 l))).
  { unfold ComputeInfluence_size.
    pose proof (@fold_left_seq_inv _ (influence_step graph Contained S l)
                  (fun j st => consistent N (fst st) /\
                               snd st = list_sum (map (fun i => length (visited i))
                                                    (seq 0 j)))
                  l (ss, 0)) as H.
    apply H.
    - split; [assumption|reflexivity].
    - intros j [ss' size] Hj [HS' Hs]. cbn [fst snd] in *.
      destruct (influence_step_spec j size HS') as (ss'' & E & HS'' & _).
      rewrite E. cbn [fst snd]. split; [assumption|].
      rewrite list_sum_seq_S, Hs. reflexivity. }
  split; [|split; [exact Hsize|unfold ComputeInfluence; rewrite Hsize; reflexivity]].
  intros i. destruct (influence_step_spec i 0 HS) as (_ & _ & _ & ND & M).
  split; assumption.
Qed.

End InfluenceCount.

(** *** The exact influence of SKIM: searches with marks *)

Section MarkedSearch.

Variable graph : FastStaticGraph.t.
Variable Contained : nat -> nat -> nat -> nat -> bool.
Variable l : nat.

Local Abbreviation N := (SKIM.NumVertices graph).

Hypothesis graph_ok : arcs_in_range graph.

(** [u -> v] is a forward-flagged arc record of [u] in instance [i]. *)
Definition successor (i u v : nat) : Prop :=
  exists a, In a (FastStaticGraph.incident graph u) /\
            FastArc.Forward a = true /\
            v = head_of a /\ Contained u v i l = true.

Lemma successor_range : forall i u v, u < N -> successor i u v -> v < N.
Proof.
  intros i u v Hu (a & Ha & _ & -> & _). apply (@graph_ok u a Hu Ha).
Qed.

Lemma reaches_range : forall i roots x,
  (forall r, In r roots -> r < N) ->
  reaches_from (successor i) roots x -> x < N.
Proof.
  intros i roots x Hr H. induction H as [r Hin|u v Hu IH He].
  - apply Hr. assumption.
  - apply (successor_range IH He).
Qed.

(** The test of the arc expansion at [u] under the marks [m]. *)
Definition pass_marks (i u : nat) (m : list bool) (a : FastArc.t) : bool :=
  FastArc.Forward a && Contained u (head_of a) i l
  && negb (nth (head_of a) m false).

Lemma mark_expand_step_with : forall i u m searchSpace arc,
  SKIM.mark_expand_step Contained l i u m searchSpace arc
  = expand_with (pass_marks i u m) searchSpace arc.
Proof.
  intros i u m ss arc. unfold SKIM.mark_expand_step, expand_with, pass_marks.
  fold (head_of arc). destruct (FastArc.Forward arc); reflexivity.
Qed.

Lemma mark_expand_fold : forall i u m arcs searchSpace,
  fold_left (SKIM.mark_expand_step Contained l i u m) arcs searchSpace
  = fold_left (expand_with (pass_marks i u m)) arcs searchSpace.
Proof.
  intros i u m. induction arcs as [|a arcs IH]; intros ss; [reflexivity|].
  cbn [fold_left]. rewrite mark_expand_step_with. apply IH.
Qed.

(** The expansion under the marks [m0] that the search starts with. *)
Definition marked_step (m0 : list bool) (i u : nat) (searchSpace : FastSet.t)
  : FastSet.t :=
  fold_left (expand_with (pass_marks i u m0))
    (FastStaticGraph.incident graph u) searchSpace.

Definition unmarked_arc (m0 : list bool) (i u v : nat) : Prop :=
  successor i u v /\ nth v m0 false = false.

Lemma marked_step_spec : forall m0 i u searchSpace,
  consistent N searchSpace -> In u (FastSet.containedKeys searchSpace) ->
  consistent N (marked_step m0 i u searchSpace) /\
  (exists new, FastSet.containedKeys (marked_step m0 i u searchSpace)
               = FastSet.containedKeys searchSpace ++ new) /\
  (forall x, In x (FastSet.containedKeys (marked_step m0 i u searchSpace)) <->
             In x (FastSet.containedKeys searchSpace) \/ unmarked_arc m0 i u x).
Proof.
  intros m0 i u ss HS Hu.
  assert (Hrange : u < N) by (apply HS; assumption).
  destruct (@expand_with_spec N (pass_marks i u m0)
              (FastStaticGraph.incident graph u) ss HS)
    as (H1 & H2 & H3).
  { intros a Ha _. apply (@graph_ok u a Hrange Ha). }
  split; [exact H1|]. split; [exact H2|].
  intros x. rewrite H3. unfold unmarked_arc, successor, pass_marks. split.
  - intros [H|(a & Ha & Pa & ->)]; [auto|]. right.
    apply andb_prop in Pa. destruct Pa as [Pa Pm].
    apply andb_prop in Pa. destruct Pa as [Pf Pc].
    split; [exists a; auto|]. apply negb_true_iff. assumption.
  - intros [H|[(a & Ha & Pf & -> & Pc) Pm]]; [auto|]. right.
    exists a. split; [assumption|]. split; [|reflexivity].
    rewrite Pf, Pc, Pm. reflexivity.
Qed.

Lemma existsb_snoc : forall v ks k,
  existsb (Nat.eqb v) (ks ++ [k]) = existsb (Nat.eqb v) ks || (v =? k).
Proof.
  intros v ks k. rewrite existsb_app. simpl. rewrite orb_false_r. reflexivity.
Qed.

Lemma existsb_In : forall v ks, existsb (Nat.eqb v) ks = true <-> In v ks.
Proof.
  intros v ks. rewrite existsb_exists. split.
  - intros (x & Hx & E). apply Nat.eqb_eq in E. subst. assumption.
  - intros H. exists v. split; [assumption|apply Nat.eqb_refl].
Qed.

(** The marks during a search: the marks at its start and the keys taken
    from the queue. *)
Definition marks_agree (m0 m : list bool) (popped : list nat) : Prop :=
  length m = N /\
  forall v, nth v m false = nth v m0 false || existsb (Nat.eqb v) popped.

Lemma mark_loop_queue : forall m0 i fuel searchSpace cur m size,
  consistent N searchSpace -> cur <= FastSet.Size searchSpace ->
  marks_agree m0 m (firstn cur (FastSet.containedKeys searchSpace)) ->
  let q := queue_loop (marked_step m0 i) fuel (searchSpace, cur) in
  exists m',
    SKIM.mark_loop graph Contained fuel l i (searchSpace, cur, m, size)
    = (fst q, snd q, m', size + (snd q - cur)) /\
    cur <= snd q /\
    marks_agree m0 m' (firstn (snd q) (FastSet.containedKeys (fst q))).
Proof.
  intros m0 i. induction fuel as [|fuel IH]; intros ss cur m size HS Hcur Hag;
    cbn zeta.
  - exists m. simpl. split; [|split; [lia|assumption]].
    replace (size + (cur - cur)) with size by lia. reflexivity.
  - cbn [SKIM.mark_loop queue_loop].
    destruct (Nat.ltb_spec cur (FastSet.Size ss)) as [Hlt|Hge].
    + unfold FastSet.Size, FastSet.KeyByIndex in *.
      set (keys := FastSet.containedKeys ss) in *.
      set (u := nth cur keys 0) in *.
      assert (Hin_u : In u keys) by (apply nth_In; assumption).
      assert (Hu : u < N) by (apply HS; assumption).
      destruct Hag as [HL Hm].
      assert (Hm1 : forall v, nth v (upd u true m) false
                    = nth v m0 false
                      || existsb (Nat.eqb v) (firstn cur keys ++ [u])).
      { intros v. rewrite existsb_snoc, nth_upd, Hm.
        destruct (Nat.eqb_spec u v) as [->|Hne]; simpl.
        - replace (v <? length m) with true by (symmetry; apply Nat.ltb_lt; lia).
          rewrite Nat.eqb_refl, !orb_true_r. reflexivity.
        - replace (v =? u) with false by (symmetry; apply Nat.eqb_neq; auto).
          rewrite orb_false_r. reflexivity. }
      unfold FastStaticGraph.FORALL_INCIDENT_ARCS.
      rewrite mark_expand_fold.
      rewrite (@expand_with_agree N (pass_marks i u (upd u true m))
                 (pass_marks i u m0)).
      * fold (marked_step m0 i u ss).
        destruct (@marked_step_spec m0 i u ss HS Hin_u) as (HS' & (new & Hkeys) & _).
        destruct (IH (marked_step m0 i u ss) (cur + 1) (upd u true m) (size + 1))
          as (m' & E & Hle & Hag').
        -- assumption.
        -- unfold FastSet.Size. rewrite Hkeys, length_app. fold keys. lia.
        -- split; [rewrite upd_length; assumption|].
           rewrite Hkeys. fold keys.
           rewrite (firstn_succ_app 0) by assumption. exact Hm1.
        -- exists m'. rewrite E. split; [f_equal; lia|].
           split; [lia|assumption].
      * assumption.
      * intros a Ha _. apply (@graph_ok u a Hu Ha).
      * intros a Ha Hne. unfold pass_marks in Hne.
        assert (Hd : nth (head_of a) (upd u true m) false
                     <> nth (head_of a) m0 false).
        { intros E. apply Hne. rewrite E. reflexivity. }
        rewrite Hm1 in Hd.
        destruct (existsb (Nat.eqb (head_of a)) (firstn cur keys ++ [u])) eqn:Ex.
        -- apply existsb_In in Ex. apply HS.
           apply in_app_or in Ex. destruct Ex as [Ex|[<-|[]]]; [|assumption].
           apply (firstn_incl cur keys). assumption.
        -- rewrite orb_false_r in Hd. contradiction.
    + exists m. simpl. split; [|split; [lia|assumption]].
      replace (size + (cur - cur)) with size by lia. reflexivity.
Qed.

End MarkedSearch.

Section ExactInfluence.

Variable graph : FastStaticGraph.t.
Variable Contained : nat -> nat -> nat -> nat -> bool.
Variable l : nat.

Local Abbreviation N := (SKIM.NumVertices graph).
Local Abbreviation reach := (fun i s => reaches_from (successor graph Contained l i) [s]).

Hypothesis graph_ok : arcs_in_range graph.

(** A search from an unmarked seed under marks that are closed under the
    arcs of the instance finds the unmarked vertices that the seed
    reaches. *)
Lemma unmarked_reach : forall m0 i s x,
  nth s m0 false = false ->
  (forall u v, nth u m0 false = true -> successor graph Contained l i u v ->
               nth v m0 false = true) ->
  (reaches_from (unmarked_arc graph Contained l m0 i) [s] x <->
   reach i s x /\ nth x m0 false = false).
Proof.
  intros m0 i s x Hs Hclosed. split.
  - induction 1 as [r [<-|[]]|u v Hu IH [He Hm]].
    + split; [apply reach_root; left; reflexivity|assumption].
    + split; [|assumption]. apply reach_edge with u; [apply IH|assumption].
  - intros [H Hm]. revert Hm. induction H as [r [<-|[]]|u v Hu IH He]; intros Hm.
    + apply reach_root. left. reflexivity.
    + apply reach_edge with u.
      * apply IH. destruct (nth u m0 false) eqn:Eu; [|reflexivity].
        rewrite (Hclosed u v Eu He) in Hm. discriminate.
      * split; assumption.
Qed.

Variable seedSet : list nat.

Hypothesis seeds_ok : forall s, In s seedSet -> s < N.

(** Vertex [x] is reached in instance [i] from one of the first [j]
    seeds. *)
Definition covered (j i x : nat) : Prop :=
  exists j', j' < j /\ reach i (nth j' seedSet 0) x.

(** The marks after [j] seeds. *)
Definition marks_inv (level : nat -> nat) (marked : list (list bool)) : Prop :=
  length marked = l /\
  forall i, i < l ->
    length (nth i marked []) = N /\
    forall x, nth x (nth i marked []) false = true <-> covered (level i) i x.

(** What the search of seed [j] in instance [i] newly reaches. *)
Definition fresh_spec (j i : nat) (fresh : list nat) : Prop :=
  NoDup fresh /\
  forall x, In x fresh <->
            reach i (nth j seedSet 0) x /\ ~ covered j i x.

Lemma covered_closed : forall j i u v,
  covered j i u -> successor graph Contained l i u v -> covered j i v.
Proof.
  intros j i u v (j' & Hj & Hr) He. exists j'. split; [assumption|].
  apply reach_edge with u; assumption.
Qed.

Lemma covered_reach : forall j i s x,
  covered j i s -> reach i s x -> covered j i x.
Proof.
  intros j i s x (j' & Hj & Hr) Hx. exists j'. split; [assumption|].
  apply reaches_from_trans with s; assumption.
Qed.

Lemma covered_succ : forall j i x,
  covered (S j) i x <-> covered j i x \/ reach i (nth j seedSet 0) x.
Proof.
  intros j i x. split.
  - intros (j' & Hj & Hr). destruct (Nat.eq_dec j' j) as [->|Hne].
    + right. assumption.
    + left. exists j'. split; [lia|assumption].
  - intros [(j' & Hj & Hr)|Hr].
    + exists j'. split; [lia|assumption].
    + exists j. split; [lia|assumption].
Qed.

Definition exact_instance_inv (j i0 : nat)
  (st : FastSet.t * list (list bool) * nat) : Prop :=
  let '(searchSpace, marked, size) := st in
  consistent N searchSpace /\
  marks_inv (fun i => if i <? i0 then S j else j) marked /\
  exists fresh,
    length fresh = i0 /\ size = list_sum (map (@length nat) fresh) /\
    forall i, i < i0 -> fresh_spec j i (nth i fresh []).

Lemma exact_instance_step_inv : forall j i0 st,
  j < length seedSet -> i0 < l ->
  exact_instance_inv j i0 st ->
  exact_instance_inv j (S i0)
    (SKIM.instance_step graph Contained l (nth j seedSet 0) st i0).
Proof.
  intros j i0 [[ss marked] size] Hj Hi0 (HS & [HLm HM] & fresh & HLf & Hsize & Hfresh).
  set (s := nth j seedSet 0).
  assert (Hs : s < N) by (apply seeds_ok; apply nth_In; assumption).
  destruct (HM i0 Hi0) as [HL0 Hcov0].
  replace (i0 <? i0) with false in Hcov0 by (symmetry; apply Nat.ltb_irrefl).
  set (m0 := nth i0 marked []) in *.
  assert (Hlevel : forall i, i <> i0 ->
            (if i <? S i0 then S j else j) = (if i <? i0 then S j else j)).
  { intros i Hne. destruct (Nat.ltb_spec i (S i0)), (Nat.ltb_spec i i0); lia. }
  assert (Hlevel0 : (if i0 <? S i0 then S j else j) = S j).
  { destruct (Nat.ltb_spec i0 (S i0)); lia. }
  assert (Hfresh_old : forall fs' i, i < i0 ->
            fresh_spec j i (nth i (fresh ++ fs') [])).
  { intros fs' i Hi. rewrite app_nth1 by lia. apply Hfresh. assumption. }
  unfold SKIM.instance_step. fold s m0.
  destruct (nth s m0 false) eqn:Es.
  - (* the seed is marked: nothing to do *)
    assert (Hcs : covered j i0 s) by (apply Hcov0; assumption).
    split; [assumption|]. split.
    + split; [assumption|]. intros i Hi. destruct (Nat.eq_dec i i0) as [->|Hne].
      * rewrite Hlevel0. split; [assumption|]. intros x. fold m0.
        rewrite Hcov0, covered_succ. split; [auto|].
        intros [H|H]; [assumption|]. apply covered_reach with s; assumption.
      * rewrite (Hlevel i Hne). apply HM. assumption.
    + exists (fresh ++ [[]]). split; [rewrite length_app; simpl; lia|].
      split; [rewrite map_app, list_sum_app; simpl; lia|].
      intros i Hi. destruct (Nat.eq_dec i i0) as [->|Hne].
      * rewrite app_nth2 by lia. rewrite HLf, Nat.sub_diag. simpl.
        split; [constructor|]. intros x. split; [intros []|].
        intros [Hr Hn]. apply Hn. apply covered_reach with s; assumption.
      * apply Hfresh_old. lia.
  - (* a search from the seed *)
    assert (Hclosed : forall u v, nth u m0 false = true ->
              successor graph Contained l i0 u v -> nth v m0 false = true).
    { intros u v Hu He. apply Hcov0. apply covered_closed with u; [|assumption].
      apply Hcov0. assumption. }
    destruct (Clear_consistent HS) as [HSc Hkc].
    destruct (@Insert_consistent N (FastSet.Clear ss) s HSc Hs) as (HS1 & K1 & _).
    set (ss1 := FastSet.Insert (FastSet.Clear ss) s) in *.
    assert (Hk1 : FastSet.containedKeys ss1 = [s]).
    { rewrite K1, Hkc. destruct (FastSet.IsContained (FastSet.Clear ss) s) eqn:Ec;
        [|reflexivity].
      apply HSc in Ec. rewrite Hkc in Ec. destruct Ec. }
    destruct (@queue_loop_closure N (unmarked_arc graph Contained l m0 i0)
                (marked_step graph Contained l m0 i0)
                (@marked_step_spec graph Contained l graph_ok m0 i0)
                [s] ss1 HS1 Hk1)
      as (ss' & E & HS' & Hmem).
    destruct (@mark_loop_queue graph Contained l graph_ok m0 i0 N ss1 0 m0 size HS1)
      as (m' & Eloop & _ & [HL' Hm']).
    { lia. }
    { split; [assumption|]. intros v. simpl. rewrite orb_false_r. reflexivity. }
    rewrite E in Eloop, Hm'. cbn [fst snd] in Eloop, Hm'. rewrite Eloop.
    unfold FastSet.Size in Hm'. rewrite firstn_all in Hm'.
    set (keys' := FastSet.containedKeys ss') in *.
    assert (Hkeys : forall x, In x keys' <-> reach i0 s x /\ nth x m0 false = false).
    { intros x. rewrite Hmem. apply unmarked_reach; assumption. }
    assert (Hunmarked : forall x, nth x m0 false = false <-> ~ covered j i0 x).
    { intros x. rewrite <- Hcov0. destruct (nth x m0 false); split; intros H;
        try reflexivity; try discriminate; try (intros H'; discriminate).
      exfalso. apply H. reflexivity. }
    split; [assumption|]. split.
    + split; [rewrite upd_length; assumption|].
      intros i Hi. destruct (Nat.eq_dec i i0) as [->|Hne].
      * rewrite Hlevel0, nth_upd_eq by lia. split; [assumption|].
        intros x. rewrite Hm', orb_true_iff, existsb_In, Hkeys, covered_succ.
        rewrite Hcov0. split.
        -- intros [H|[H _]]; auto.
        -- intros [H|H]; [auto|].
           destruct (nth x m0 false) eqn:Ex; [left; apply Hcov0; assumption|auto].
      * rewrite (Hlevel i Hne), nth_upd_ne by auto. apply HM. assumption.
    + exists (fresh ++ [keys']). split; [rewrite length_app; simpl; lia|]. split.
      * rewrite map_app, list_sum_app. simpl. unfold FastSet.Size. fold keys'. lia.
      * intros i Hi. destruct (Nat.eq_dec i i0) as [->|Hne].
        -- rewrite app_nth2 by lia. rewrite HLf, Nat.sub_diag. simpl.
           split; [apply HS'|]. intros x. rewrite Hkeys, Hunmarked. reflexivity.
        -- apply Hfresh_old. lia.
Qed.

Lemma marks_inv_ext : forall level level' marked,
  (forall i, i < l -> level i = level' i) ->
  marks_inv level marked -> marks_inv level' marked.
Proof.
  intros level level' marked H [HL HM]. split; [assumption|].
  intros i Hi. rewrite <- (H i Hi). apply HM. assumption.
Qed.

Lemma seed_instances : forall j searchSpace marked,
  j < length seedSet -> consistent N searchSpace ->
  marks_inv (fun _ => j) marked ->
  exact_instance_inv j l
    (fold_left (SKIM.instance_step graph Contained l (nth j seedSet 0))
       (seq 0 l) (searchSpace, marked, 0)).
Proof.
  intros j ss marked Hj HS HM.
  apply (@fold_left_seq_inv _
           (SKIM.instance_step graph Contained l (nth j seedSet 0))
           (exact_instance_inv j)).
  - split; [assumption|]. split.
    + apply (marks_inv_ext (level := fun _ => j)); [|assumption].
      intros i _. reflexivity.
    + exists []. split; [reflexivity|]. split; [reflexivity|]. intros i Hi. lia.
  - intros i0 st Hi0 Hinv. apply exact_instance_step_inv; assumption.
Qed.

Variable double : Type.
Variable d_zero : double.
Variable d_add : double -> double -> double.
Variable d_ratio : nat -> nat -> double.

Definition seed_inv (j : nat)
  (st : FastSet.t * list (list bool) * list nat * double) : Prop :=
  let '(searchSpace, marked, sizes, exinf) := st in
  consistent N searchSpace /\ marks_inv (fun _ => j) marked /\
  length sizes = j /\
  (forall j', j' < j ->
     exists fresh,
       length fresh = l /\
       nth j' sizes 0 = list_sum (map (@length nat) fresh) /\
       forall i, i < l -> fresh_spec j' i (nth i fresh [])) /\
  exinf = fold_left (fun exinf size => d_add exinf (d_ratio size l)) sizes d_zero.

Lemma seed_step_inv : forall j st,
  j < length seedSet -> seed_inv j st ->
  seed_inv (S j)
    (SKIM.seed_step graph Contained d_add d_ratio l st (nth j seedSet 0)).
Proof.
  intros j [[[ss marked] sizes] exinf] Hj (HS & HM & HLs & Hsizes & Hex).
  unfold SKIM.seed_step.
  pose proof (seed_instances Hj HS HM) as Hinst.
  destruct (fold_left (SKIM.instance_step graph Contained l (nth j seedSet 0))
              (seq 0 l) (ss, marked, 0)) as [[ss' marked'] size].
  destruct Hinst as (HS' & HM' & fresh & HLf & Hsize & Hfresh).
  split; [assumption|]. split; [|split; [|split]].
  - apply (marks_inv_ext (level := fun i => if i <? l then S j else j));
      [|assumption].
    intros i Hi. destruct (Nat.ltb_spec i l); [reflexivity|lia].
  - rewrite length_app. simpl. lia.
  - intros j' Hj'. destruct (Nat.eq_dec j' j) as [->|Hne].
    + exists fresh. split; [assumption|]. split; [|assumption].
      rewrite app_nth2 by lia. rewrite HLs, Nat.sub_diag. simpl. assumption.
    + destruct (Hsizes j') as (fresh' & H1 & H2 & H3); [lia|].
      exists fresh'. split; [assumption|]. split; [|assumption].
      rewrite app_nth1 by lia. assumption.
  - rewrite fold_left_app. simpl. rewrite Hex. reflexivity.
Qed.

Lemma fold_left_nth_inv : forall (A B : Type) (f : A -> B -> A) (d : B)
  (xs : list B) (P : nat -> A -> Prop) a,
  P 0 a ->
  (forall j b, j < length xs -> P j b -> P (S j) (f b (nth j xs d))) ->
  P (length xs) (fold_left f xs a).
Proof.
  intros A B f d. induction xs as [|x xs IH]; intros P a H0 Hstep; [assumption|].
  cbn [fold_left length].
  apply (IH (fun j => P (S j))).
  - apply (Hstep 0 a); [simpl; lia|assumption].
  - intros j b Hj Hb. apply (Hstep (S j) b); [simpl; lia|assumption].
Qed.

(** X21: [ComputeExactInfluence] credits every seed with the vertices it
    adds to the coverage.  For the seeds in their order and every
    instance, the search from the seed through the unmarked vertices
    finds exactly the vertices that the seed reaches in the instance and
    that no earlier seed reaches there, each once; [size], the seed's
    exact influence times [l], is the number of these vertices summed
    over the instances, and the value returned adds up the quotients
    [size / l]. *)
Theorem ComputeExactInfluence_marginal :
  let '(sizes, exinf) :=
    SKIM.ComputeExactInfluence graph Contained d_zero d_add d_ratio seedSet l in
  length sizes = length seedSet /\
  (forall j, j < length seedSet ->
     exists fresh,
       length fresh = l /\
       nth j sizes 0 = list_sum (map (@length nat) fresh) /\
       forall i, i < l ->
         NoDup (nth i fresh []) /\
         forall x, In x (nth i fresh []) <->
           reach i (nth j seedSet 0) x /\
           ~ exists j', j' < j /\ reach i (nth j' seedSet 0) x) /\
  exinf = fold_left (fun exinf size => d_add exinf (d_ratio size l)) sizes d_zero.
Proof.
  unfold SKIM.ComputeExactInfluence.
  pose proof (@fold_left_nth_inv _ _
                (SKIM.seed_step graph Contained d_add d_ratio l) 0 seedSet
                seed_inv
                (FastSet.make N, repeat (repeat false N) l, [], d_zero)) as H.
  destruct (fold_left (SKIM.seed_step graph Contained d_add d_ratio l) seedSet
              (FastSet.make N, repeat (repeat false N) l, [], d_zero))
    as [[[ss marked] sizes] exinf].
  destruct H as (_ & _ & HL & Hsizes & Hex).
  - split; [apply make_consistent|]. split; [|split; [reflexivity|split]].
    + split; [apply repeat_length|]. intros i Hi.
      rewrite (nth_indep _ [] (repeat false N)) by (rewrite repeat_length; lia).
      rewrite nth_repeat. split; [apply repeat_length|].
      intros x. rewrite nth_repeat. split; [discriminate|].
      intros (j' & Hj' & _). lia.
    + intros j' Hj'. lia.
    + reflexivity.
  - intros j st Hj. apply seed_step_inv. assumption.
  - split; [assumption|]. split; [|assumption].
    intros j Hj. destruct (Hsizes j Hj) as (fresh & H1 & H2 & H3).
    exists fresh. split; [assumption|]. split; [assumption|].
    intros i Hi. apply (H3 i Hi).
Qed.

End ExactInfluence.

(** The graphs built from an arc list with incoming arcs keep their arc
    records within the graph. *)
Lemma ReadFromArcList_arcs_in_range :
  forall checked numVertices inArcs isDirected,
  (Z.of_nat numVertices <= 2 ^ 30)%Z ->
  in_range numVertices isDirected inArcs ->
  (2 * Z.of_nat (length inArcs) < 2 ^ 32)%Z ->
  exists g,
    FastStaticGraph.ReadFromArcList checked numVertices inArcs isDirected true
    = Ok g /\
    FastRSInfluenceOracle.n g = numVertices /\
    arcs_in_range g.
Proof.
  intros checked numVertices inArcs isDirected Hfit Hr Harcs.
  destruct (@built_graph_facts checked numVertices inArcs isDirected Hfit Hr Harcs)
    as (g & E & Hh & _ & _ & _ & Hblocks).
  assert (Hn : FastRSInfluenceOracle.n g = numVertices).
  { unfold FastRSInfluenceOracle.n. rewrite Hh. reflexivity. }
  exists g. split; [exact E|]. split; [exact Hn|].
  intros u a Hu Ha. rewrite Hn in *.
  destruct (Hblocks u Hu) as (_ & Hrec & _).
  apply (record_other Hfit Hr (proj1 (Hrec a) Ha)).
Qed.

Lemma ComputeInfluence_counts_witness :
  exists g,
    FastStaticGraph.ReadFromArcList true 3 [(0, 1); (1, 2)] true true = Ok g /\
    let Contained :=
      FastRSInfluenceOracle.Contained_at
        {| Hashing.randomSeed := 3; Hashing.indeg := [];
           Hashing.binprob := 3000000 |} Hashing.BINARY in
    FastRSInfluenceOracle.ComputeInfluence_size g Contained (FastSet.make 3) [1] 2
    = list_sum (map (fun i => length (visited g Contained 2 [1] i)) (seq 0 2)).
Proof.
  assert (Hfit : (Z.of_nat 3 <= 2 ^ 30)%Z) by (vm_compute; discriminate).
  assert (Hrange : in_range 3 true [(0, 1); (1, 2)]).
  { repeat constructor; simpl; intros; try lia; discriminate. }
  assert (Harcs : (2 * Z.of_nat (length [(0, 1); (1, 2)]) < 2 ^ 32)%Z)
    by (vm_compute; reflexivity).
  destruct (@ReadFromArcList_arcs_in_range true 3 [(0, 1); (1, 2)] true
              Hfit Hrange Harcs) as (g & E & Hn & Hok).
  exists g. split; [exact E|]. cbv zeta.
  assert (Hseeds : forall s, In s [1] -> s < FastRSInfluenceOracle.n g).
  { intros s [<-|[]]. rewrite Hn. lia. }
  assert (HS : consistent (FastRSInfluenceOracle.n g) (FastSet.make 3)).
  { rewrite Hn. apply make_consistent. }
  apply (@ComputeInfluence_counts g _ 2 Hok [1] Hseeds nat Nat.div
           (FastSet.make 3) HS).
Defined.

Lemma ComputeExactInfluence_marginal_witness :
  exists g,
    FastStaticGraph.ReadFromArcList true 3 [(0, 1); (1, 2)] true true = Ok g /\
    let Contained :=
      FastRSInfluenceOracle.Contained_at
        {| Hashing.randomSeed := 3; Hashing.indeg := [];
           Hashing.binprob := 3000000 |} Hashing.BINARY in
    length (fst (SKIM.ComputeExactInfluence g Contained 0 Nat.add Nat.div [1; 0] 2))
    = 2.
Proof.
  assert (Hfit : (Z.of_nat 3 <= 2 ^ 30)%Z) by (vm_compute; discriminate).
  assert (Hrange : in_range 3 true [(0, 1); (1, 2)]).
  { repeat constructor; simpl; intros; try lia; discriminate. }
  assert (Harcs : (2 * Z.of_nat (length [(0, 1); (1, 2)]) < 2 ^ 32)%Z)
    by (vm_compute; reflexivity).
  destruct (@ReadFromArcList_arcs_in_range true 3 [(0, 1); (1, 2)] true
              Hfit Hrange Harcs) as (g & E & Hn & Hok).
  exists g. split; [exact E|]. cbv zeta.
  assert (Hseeds : forall s, In s [1; 0] -> s < SKIM.NumVertices g).
  { change (SKIM.NumVertices g) with (FastRSInfluenceOracle.n g). rewrite Hn.
    intros s [<-|[<-|[]]]; lia. }
  pose proof (@ComputeExactInfluence_marginal g
                (FastRSInfluenceOracle.Contained_at
                   {| Hashing.randomSeed := 3; Hashing.indeg := [];
                      Hashing.binprob := 3000000 |} Hashing.BINARY)
                2 Hok [1; 0] Hseeds nat 0 Nat.add Nat.div) as H.
  destruct (SKIM.ComputeExactInfluence g _ 0 Nat.add Nat.div [1; 0] 2)
    as [sizes exinf].
  destruct H as [HL _]. exact HL.
Defined.

(** ** The oracle's pipeline: preprocessing, then estimation *)

Section SeedSets.

Import FastRSInfluenceOracle EstimatorSpec.

(** [dmax c r] is the largest second component among the pairs of [c]
    with rank [r]. *)
Lemma dmax_spec : forall c r,
  match dmax c r with
  | None => forall z, In z c -> fst z <> r
  | Some t => In (r, t) c /\ forall z, In z c -> fst z = r -> snd z <= t
  end.
Proof.
  induction c as [|[r0 t0] c IH]; intros r; simpl.
  - intros z [].
  - specialize (IH r). destruct (Nat.eqb_spec r0 r) as [->|Hne].
    + destruct (dmax c r) as [t|]; unfold omax.
      * destruct IH as [Hin Hmax]. split.
        -- destruct (Nat.max_spec t0 t) as [[_ ->]|[_ ->]];
             [right; assumption|left; reflexivity].
        -- intros z [<-|Hz] Hr; simpl; [lia|].
           specialize (Hmax z Hz Hr). lia.
      * split; [left; reflexivity|].
        intros z [<-|Hz] Hr; simpl; [lia|]. exfalso. apply (IH z Hz Hr).
    + destruct (dmax c r) as [t|].
      * destruct IH as [Hin Hmax]. split; [right; assumption|].
        intros z [<-|Hz] Hr; [simpl in Hr; congruence|auto].
      * intros z [<-|Hz]; simpl; auto.
Qed.

Lemma dmax_same_members : forall a b,
  (forall z, In z a <-> In z b) -> forall r, dmax a r = dmax b r.
Proof.
  intros a b H r.
  pose proof (dmax_spec a r) as Ha. pose proof (dmax_spec b r) as Hb.
  destruct (dmax a r) as [t|], (dmax b r) as [t'|].
  - destruct Ha as [Ia Ma], Hb as [Ib Mb]. f_equal.
    apply H in Ia. apply H in Ib.
    specialize (Mb _ Ia eq_refl). specialize (Ma _ Ib eq_refl).
    simpl in *. lia.
  - destruct Ha as [Ia _]. apply H in Ia. exfalso. apply (Hb _ Ia). reflexivity.
  - destruct Hb as [Ib _]. apply H in Ib. exfalso. apply (Ha _ Ib). reflexivity.
  - reflexivity.
Qed.

(** The merge of the lists of the seeds depends on the seeds as a set. *)
Lemma merge_all_same_seeds : forall NumVertices sketches k l S S',
  (forall s, In s S <-> In s S') ->
  merge_all (seed_lists NumVertices sketches k l S)
  = merge_all (seed_lists NumVertices sketches k l S').
Proof.
  intros NumVertices sketches k l S S' H.
  apply ssorted_dmax_eq; try apply merge_all_ssorted.
  intros r. rewrite !dmax_merge_all. apply dmax_same_members.
  intros z. unfold seed_lists. rewrite !in_concat. split.
  - intros (c & Hc & Hz). apply in_map_iff in Hc. destruct Hc as (s & <- & Hs).
    eexists. split; [|exact Hz]. apply in_map_iff. exists s.
    split; [reflexivity|]. apply H. assumption.
  - intros (c & Hc & Hz). apply in_map_iff in Hc. destruct Hc as (s & <- & Hs).
    eexists. split; [|exact Hz]. apply in_map_iff. exists s.
    split; [reflexivity|]. apply H. assumption.
Qed.

Variable double : Type.
Variable d_zero : double.
Variable d_add : double -> double -> double.
Variable d_inv : nat -> double.
Variable d_scale : double -> nat -> double.

(** X22: with its assertions compiled out, the estimator treats its seed
    vector as a set.  For a non-empty [S] of vertices whose sketches are
    sorted bottom-k sketches, [Estimator(S, k, l)] returns a value, and
    it returns the same value on every [S'] with the same members,
    whatever the order and the repetitions. *)
Theorem Estimator_seed_set_invariant :
  forall (NumVertices : nat) (sketches : list (list nat)) (S S' : list nat)
         (k l : nat),
  1 <= k -> S <> [] ->
  Forall (seed_ok NumVertices sketches k l) S ->
  (forall s, In s S <-> In s S') ->
  succeeds (Estimator d_zero d_add d_inv d_scale false NumVertices sketches S k l) /\
  Estimator d_zero d_add d_inv d_scale false NumVertices sketches S' k l
  = Estimator d_zero d_add d_inv d_scale false NumVertices sketches S k l.
Proof.
  intros NumVertices sketches S S' k l Hk Hne Hok Hsame.
  assert (Hne' : S' <> []).
  { destruct S as [|s S]; [congruence|]. intros ->.
    apply (proj1 (Hsame s)). left. reflexivity. }
  assert (Hok' : Forall (seed_ok NumVertices sketches k l) S').
  { rewrite Forall_forall in *. intros s Hs. apply Hok, Hsame, Hs. }
  unfold Estimator.
  rewrite !Estimator_Z_spec by (try assumption; left; reflexivity).
  cbn [bind]. split; [eexists; reflexivity|].
  rewrite (@merge_all_same_seeds NumVertices sketches k l S S' Hsame). reflexivity.
Qed.

End SeedSets.

Lemma Estimator_seed_set_invariant_witness :
  succeeds (Q_Estimator false 5 line_sketches [0; 1; 2] 4 1) /\
  Q_Estimator false 5 line_sketches [2; 1; 0; 1] 4 1
  = Q_Estimator false 5 line_sketches [0; 1; 2] 4 1.
Proof.
  unfold Q_Estimator.
  apply (@Estimator_seed_set_invariant _ (QArith_base.Qmake 0 1)
           QArith_base.Qplus Q_inv Q_scale 5 line_sketches [0; 1; 2] [2; 1; 0; 1] 4 1).
  - lia.
  - discriminate.
  - repeat constructor; apply line_sketches_ok; lia.
  - intros s. simpl. tauto.
Defined.

(** *** The sketches that the preprocessing hands to the estimator *)

Lemma residue_count : forall m v c, v < m ->
  length (filter (fun x => x mod m =? v) (seq 0 (m * c))) = c.
Proof.
  intros m v c Hv. induction c as [|c IH].
  - rewrite Nat.mul_0_r. reflexivity.
  - replace (m * S c) with (m * c + m) by lia.
    rewrite seq_app, filter_app, length_app, IH. simpl (0 + _).
    assert (Hblock : forall b a, a + b <= m ->
      length (filter (fun x => x mod m =? v) (seq (m * c + a) b))
      = if (a <=? v) && (v <? a + b) then 1 else 0).
    { induction b as [|b IHb]; intros a Hab.
      - simpl. destruct (Nat.leb_spec a v), (Nat.ltb_spec v (a + 0));
          simpl; lia.
      - simpl seq. simpl filter.
        assert (Hm : (m * c + a) mod m = a).
        { rewrite Nat.add_comm, Nat.mul_comm, Nat.Div0.mod_add.
          apply Nat.mod_small. lia. }
        rewrite Hm. replace (S (m * c + a)) with (m * c + S a) by lia.
        specialize (IHb (S a)).
        destruct (Nat.eqb_spec a v); simpl length; rewrite IHb by lia;
          destruct (Nat.leb_spec (S a) v), (Nat.ltb_spec v (S a + b)),
                   (Nat.leb_spec a v), (Nat.ltb_spec v (a + S b));
          simpl; lia. }
    specialize (Hblock m 0). rewrite Nat.add_0_r in Hblock.
    rewrite Hblock by lia.
    destruct (Nat.leb_spec 0 v), (Nat.ltb_spec v (0 + m)); simpl; lia.
Qed.

Section PreprocessedSketches.

Import FastRSInfluenceOracle.

Variable graph : FastStaticGraph.t.
Variable Contained : nat -> nat -> nat -> nat -> bool.
Variable permutation : list nat.
Variables k l : nat.

Local Abbreviation N := (n graph).

Hypothesis k_pos : 1 <= k.
Hypothesis l_range : l < 2 ^ 16.
Hypothesis graph_ok : scans_in_range graph.
Hypothesis permutation_ok : Permutation permutation (seq 0 (N * l)).

Lemma RunPreprocessing_length :
  length (RunPreprocessing graph Contained permutation k l) = N.
Proof.
  unfold RunPreprocessing.
  pose proof (@fold_left_seq_inv _
                (instance_step graph Contained permutation k l)
                (global_inv graph Contained permutation k l) l
                (FastSet.make N, repeat [] N, repeat [] N)) as H.
  destruct (fold_left (instance_step graph Contained permutation k l) (seq 0 l)
              (FastSet.make N, repeat [] N, repeat [] N)) as [[ss X] L].
  destruct H as (_ & HX & _).
  - split; [apply make_consistent|]. rewrite !repeat_length.
    split; [reflexivity|]. split; [reflexivity|]. split.
    + intros u Hu. apply nth_repeat.
    + intros u Hu. rewrite nth_repeat. apply bottom_k_nil; [assumption|].
      intros r (_ & H0 & _). lia.
  - intros i st Hi. apply instance_step_inv; assumption.
  - exact HX.
Qed.

(** Every vertex has a sketch that the estimator accepts. *)
Lemma RunPreprocessing_seed_ok : forall v,
  v < N ->
  seed_ok N (RunPreprocessing graph Contained permutation k l) k l v.
Proof.
  intros v Hv. split; [rewrite RunPreprocessing_length; assumption|].
  destruct (@RunPreprocessing_bottom_k graph Contained permutation k l
              graph_ok k_pos l_range permutation_ok v Hv) as (Hs & Hl & Hin & _).
  split; [assumption|]. split; [assumption|].
  apply Forall_forall. intros r Hr. apply (Hin r Hr).
Qed.

(** The ranks whose source vertex is [v]. *)
Definition own_ranks (v : nat) : list nat :=
  filter (fun r => source_of graph permutation r =? v) (seq 0 (N * l)).

Lemma own_ranks_length : forall v, v < N -> length (own_ranks v) = l.
Proof.
  intros v Hv. unfold own_ranks, source_of.
  assert (Hlen : length permutation = N * l).
  { rewrite (Permutation_length permutation_ok). apply length_seq. }
  rewrite <- Hlen.
  rewrite <- (length_map (fun r => nth r permutation 0)).
  rewrite <- (filter_map_comm (fun x => x mod N =? v)
                (fun r => nth r permutation 0)).
  rewrite map_nth_seq_id.
  rewrite (filter_length_perm _ permutation_ok).
  apply residue_count. assumption.
Qed.

Lemma sketch_lower_bound : forall v,
  v < N ->
  Nat.min k l <= length (nth v (RunPreprocessing graph Contained permutation k l) []).
Proof.
  intros v Hv.
  pose proof (@RunPreprocessing_bottom_k graph Contained permutation k l
                graph_ok k_pos l_range permutation_ok v Hv) as HB.
  set (X := nth v (RunPreprocessing graph Contained permutation k l) []) in *.
  destruct (Nat.lt_ge_cases (length X) k) as [Hlt|Hge]; [|lia].
  assert (Hincl : incl (own_ranks v) X).
  { intros r Hr. apply filter_In in Hr. destruct Hr as [Hr Hsrc].
    apply in_seq in Hr. apply Nat.eqb_eq in Hsrc.
    apply (@bottom_k_all k _ X r HB Hlt). split; [lia|].
    rewrite Hsrc. apply sr_source. }
  assert (Hnd : NoDup (own_ranks v)).
  { apply NoDup_filter, seq_NoDup. }
  pose proof (NoDup_incl_length Hnd Hincl) as Hle.
  rewrite own_ranks_length in Hle by assumption. lia.
Qed.

End PreprocessedSketches.

Section Pipeline.

Import FastRSInfluenceOracle.

Variable double : Type.
Variable d_zero : double.
Variable d_add : double -> double -> double.
Variable d_inv : nat -> double.
Variable d_scale : double -> nat -> double.

(** X23: the preprocessing establishes what the estimator needs.  For a
    permutation of [0, n * l), [1 <= k] and a 16-bit [l], the sketches
    of [RunPreprocessing(k, l)] are sorted bottom-k sketches for every
    vertex, so that [Estimator(S, k, l)] (assertions compiled out) reads
    no sketch outside the vector and returns a value for every non-empty
    seed set [S] of vertices of the graph. *)
Theorem Estimator_after_RunPreprocessing :
  forall graph Contained permutation k l (S : list nat),
  1 <= k -> l < 2 ^ 16 -> scans_in_range graph ->
  Permutation permutation (seq 0 (n graph * l)) ->
  S <> [] -> Forall (fun s => s < n graph) S ->
  let sketches := RunPreprocessing graph Contained permutation k l in
  Forall (seed_ok (n graph) sketches k l) S /\
  succeeds (Estimator d_zero d_add d_inv d_scale false (n graph) sketches S k l).
Proof.
  intros graph Contained permutation k l S Hk Hl Hg Hp Hne Hin sketches.
  assert (Hok : Forall (seed_ok (n graph) sketches k l) S).
  { rewrite Forall_forall in *. intros s Hs.
    apply RunPreprocessing_seed_ok; auto. }
  split; [assumption|].
  unfold Estimator.
  rewrite Estimator_Z_spec by (try assumption; left; reflexivity).
  cbn [bind]. eexists. reflexivity.
Qed.

End Pipeline.

(** X24: the size of the sketches.  After [RunPreprocessing(k, l)] on a
    permutation of [0, n * l) there is one sketch per vertex, and the
    sketch of every vertex holds at least [min(k, l)] and at most [k]
    ranks: a vertex reaches itself in each of the [l] instances.  With
    [l >= k] every sketch is full. *)
Theorem RunPreprocessing_sketch_sizes :
  forall graph Contained permutation k l,
  1 <= k -> l < 2 ^ 16 -> scans_in_range graph ->
  Permutation permutation (seq 0 (FastRSInfluenceOracle.n graph * l)) ->
  let sketches := FastRSInfluenceOracle.RunPreprocessing graph Contained permutation k l in
  length sketches = FastRSInfluenceOracle.n graph /\
  forall v, v < FastRSInfluenceOracle.n graph ->
    Nat.min k l <= length (nth v sketches []) <= k.
Proof.
  intros graph Contained permutation k l Hk Hl Hg Hp sketches. split.
  - apply RunPreprocessing_length; assumption.
  - intros v Hv. split.
    + apply sketch_lower_bound; assumption.
    + apply (@RunPreprocessing_bottom_k graph Contained permutation k l
               Hg Hk Hl Hp v Hv).
Qed.

(** The graph with the one arc 0 -> 1 under the binary model with seed 3
    and probability 1/10. *)
Definition one_arc_Contained : nat -> nat -> nat -> nat -> bool :=
  FastRSInfluenceOracle.Contained_at
    {| Hashing.randomSeed := 3; Hashing.indeg := [];
       Hashing.binprob := 300000 |} Hashing.BINARY.

Lemma Estimator_after_RunPreprocessing_witness :
  exists graph,
    FastStaticGraph.ReadFromArcList true 2 [(0, 1)] true true = Ok graph /\
    let sketches :=
      FastRSInfluenceOracle.RunPreprocessing graph one_arc_Contained [2; 3; 0; 1] 3 2 in
    Forall (seed_ok (FastRSInfluenceOracle.n graph) sketches 3 2) [1; 0] /\
    succeeds (Q_Estimator false (FastRSInfluenceOracle.n graph) sketches [1; 0] 3 2).
Proof.
  eexists. split; [vm_compute; reflexivity|].
  unfold Q_Estimator.
  apply (@Estimator_after_RunPreprocessing _ (QArith_base.Qmake 0 1)
           QArith_base.Qplus Q_inv Q_scale _ one_arc_Contained [2; 3; 0; 1] 3 2 [1; 0]).
  - lia.
  - apply Nat.ltb_lt. vm_compute. reflexivity.
  - intros u a Hu Ha. change (u < 2) in Hu.
    destruct u as [|[|u]]; [destruct Ha| |lia].
    destruct Ha as [<-|[]]. vm_compute. lia.
  - change (Permutation [2; 3; 0; 1] [0; 1; 2; 3]).
    apply NoDup_Permutation.
    + repeat constructor; simpl; lia.
    + repeat constructor; simpl; lia.
    + intros x. simpl. lia.
  - discriminate.
  - repeat constructor.
Defined.

Lemma RunPreprocessing_sketch_sizes_witness :
  exists graph,
    FastStaticGraph.ReadFromArcList true 2 [(0, 1)] true true = Ok graph /\
    let sketches :=
      FastRSInfluenceOracle.RunPreprocessing graph one_arc_Contained [2; 3; 0; 1] 3 2 in
    length sketches = FastRSInfluenceOracle.n graph /\
    forall v, v < FastRSInfluenceOracle.n graph ->
      Nat.min 3 2 <= length (nth v sketches []) <= 3.
Proof.
  eexists. split; [vm_compute; reflexivity|].
  apply (@RunPreprocessing_sketch_sizes _ one_arc_Contained [2; 3; 0; 1] 3 2).
  - lia.
  - apply Nat.ltb_lt. vm_compute. reflexivity.
  - intros u a Hu Ha. change (u < 2) in Hu.
    destruct u as [|[|u]]; [destruct Ha| |lia].
    destruct Ha as [<-|[]]. vm_compute. lia.
  - change (Permutation [2; 3; 0; 1] [0; 1; 2; 3]).
    apply NoDup_Permutation.
    + repeat constructor; simpl; lia.
    + repeat constructor; simpl; lia.
    + intros x. simpl. lia.
Defined.
(** ** Numbers and tokens of the input text *)

Section DecimalNumbers.

Import Conversion.
Local Open Scope Z_scope.

Definition is_digit (c : Z) : Prop := 48 <= c <= 57.

(** The number that a string of digits denotes. *)
Definition decimal_from (x : Z) (ds : list Z) : Z :=
  fold_left (fun x c => x * 10 + (c - 48)) ds x.
Definition decimal (ds : list Z) : Z := decimal_from 0 ds.

(** The decimal digits of a number below [10 ^ fuel], most significant
    first, without leading zeros. *)
Fixpoint digits_before (fuel : nat) (n : Z) (acc : list Z) : list Z :=
  match fuel with
  | O => acc
  | S fuel' =>
      let acc := (48 + n mod 10) :: acc in
      if n / 10 =? 0 then acc else digits_before fuel' (n / 10) acc
  end.
Definition digits (n : Z) : list Z := digits_before 10 n [].

Lemma wrap32_step : forall x k,
  Hashing.wrap32 (Hashing.wrap32 x * 10 + k) = Hashing.wrap32 (x * 10 + k).
Proof.
  intros x k. unfold Hashing.wrap32.
  rewrite <- Zplus_mod_idemp_l, Zmult_mod_idemp_l, Zplus_mod_idemp_l.
  reflexivity.
Qed.

Lemma LexicalCast_unsigned_loop_digits : forall checked ds rest x,
  Forall is_digit ds ->
  LexicalCast_unsigned_loop checked (ds ++ 0 :: rest) (Hashing.wrap32 x)
  = Ok (Hashing.wrap32 (decimal_from x ds)).
Proof.
  intros checked ds rest. induction ds as [|d ds IH]; intros x Hd.
  - reflexivity.
  - inversion Hd as [|? ? [H1 H2] Hds]; subst.
    cbn [app LexicalCast_unsigned_loop].
    destruct (Z.eqb_spec d 0) as [E|_]; [lia|].
    replace (48 <=? d) with true by (symmetry; apply Z.leb_le; lia).
    replace (d <=? 57) with true by (symmetry; apply Z.leb_le; lia).
    rewrite !Assert_true. cbn [bind].
    rewrite wrap32_step. apply IH. assumption.
Qed.

Lemma LexicalCast_unsigned_loop_open : forall checked ds x,
  Forall is_digit ds ->
  LexicalCast_unsigned_loop checked ds x = UndefinedBehaviour.
Proof.
  intros checked ds. induction ds as [|d ds IH]; intros x Hd.
  - reflexivity.
  - inversion Hd as [|? ? [H1 H2] Hds]; subst.
    cbn [LexicalCast_unsigned_loop].
    destruct (Z.eqb_spec d 0) as [E|_]; [lia|].
    replace (48 <=? d) with true by (symmetry; apply Z.leb_le; lia).
    replace (d <=? 57) with true by (symmetry; apply Z.leb_le; lia).
    rewrite !Assert_true. cbn [bind]. apply IH. assumption.
Qed.

Lemma LexicalCast_unsigned_loop_reject : forall ds c rest x,
  Forall is_digit ds -> c <> 0 -> ~ is_digit c ->
  LexicalCast_unsigned_loop true (ds ++ c :: rest) x = AssertionFailure.
Proof.
  intros ds c rest. induction ds as [|d ds IH]; intros x Hd Hc Hn.
  - cbn [app LexicalCast_unsigned_loop].
    destruct (Z.eqb_spec c 0) as [E|_]; [lia|].
    unfold is_digit in Hn. unfold Assert.
    destruct (Z.leb_spec 48 c), (Z.leb_spec c 57); simpl; try reflexivity. lia.
  - inversion Hd as [|? ? [H1 H2] Hds]; subst.
    cbn [app LexicalCast_unsigned_loop].
    destruct (Z.eqb_spec d 0) as [E|_]; [lia|].
    replace (48 <=? d) with true by (symmetry; apply Z.leb_le; lia).
    replace (d <=? 57) with true by (symmetry; apply Z.leb_le; lia).
    rewrite !Assert_true. cbn [bind]. apply IH; assumption.
Qed.

Lemma digits_before_value : forall fuel n acc,
  0 <= n < 10 ^ Z.of_nat fuel ->
  decimal (digits_before fuel n acc) = decimal_from n acc.
Proof.
  unfold decimal.
  induction fuel as [|fuel IH]; intros n acc Hn.
  - simpl in Hn. assert (n = 0) by lia. subst n. reflexivity.
  - cbn [digits_before].
    pose proof (Z.div_mod n 10 ltac:(lia)) as Hdm.
    pose proof (Z.mod_pos_bound n 10 ltac:(lia)) as Hmod.
    destruct (Z.eqb_spec (n / 10) 0) as [E|Hne].
    + unfold decimal_from. cbn [fold_left]. f_equal. lia.
    + rewrite IH.
      * unfold decimal_from. cbn [fold_left]. f_equal. lia.
      * replace (Z.of_nat (S fuel)) with (Z.of_nat fuel + 1) in Hn by lia.
        rewrite Z.pow_add_r, Z.pow_1_r in Hn by lia.
        split; [apply Z.div_pos; lia|].
        apply Z.div_lt_upper_bound; lia.
Qed.

Lemma digits_before_digits : forall fuel n acc,
  Forall is_digit acc -> Forall is_digit (digits_before fuel n acc).
Proof.
  induction fuel as [|fuel IH]; intros n acc Hacc; [assumption|].
  cbn [digits_before].
  assert (Hd : Forall is_digit ((48 + n mod 10) :: acc)).
  { constructor; [|assumption]. unfold is_digit.
    pose proof (Z.mod_pos_bound n 10 ltac:(lia)). lia. }
  destruct (n / 10 =? 0); [assumption|]. apply IH. assumption.
Qed.

(** X25: [LexicalCast<unsigned int>] of a C string (and the [uint64_t]
    variant, whose accumulator is an [unsigned int] too) reads a string
    of decimal digits up to its ['\0'] and returns the number the digits
    denote modulo [2 ^ 32], whatever follows the ['\0']; it reads the
    decimal digits of every [n < 2 ^ 32] back as [n].  The empty string
    gives 0.  A digit string without its ['\0'] is read past its end,
    and with the assertions active a character that is not a digit stops
    the program. *)
Theorem LexicalCast_unsigned_decimal :
  forall (checked : bool) (ds rest : list Z),
  Forall is_digit ds ->
  LexicalCast_unsigned checked (ds ++ 0 :: rest) = Ok (decimal ds mod 2 ^ 32) /\
  LexicalCast_uint64 checked (ds ++ 0 :: rest) = Ok (decimal ds mod 2 ^ 32) /\
  LexicalCast_unsigned checked ds = UndefinedBehaviour /\
  (forall c, c <> 0 -> ~ is_digit c ->
     LexicalCast_unsigned true (ds ++ c :: rest) = AssertionFailure) /\
  (forall n, 0 <= n < 2 ^ 32 ->
     Forall is_digit (digits n) /\
     LexicalCast_unsigned checked (digits n ++ 0 :: rest) = Ok n).
Proof.
  intros checked ds rest Hd.
  assert (H0 : forall ds', Forall is_digit ds' ->
            LexicalCast_unsigned_loop checked (ds' ++ 0 :: rest) 0
            = Ok (decimal ds' mod 2 ^ 32)).
  { intros ds' Hd'.
    apply (@LexicalCast_unsigned_loop_digits checked ds' rest 0 Hd'). }
  split; [apply H0; assumption|]. split; [apply H0; assumption|].
  split; [apply LexicalCast_unsigned_loop_open; assumption|].
  split; [intros c Hc Hn; apply LexicalCast_unsigned_loop_reject; assumption|].
  intros n Hn.
  assert (Hdn : Forall is_digit (digits n))
    by (apply digits_before_digits; constructor).
  split; [assumption|].
  unfold LexicalCast_unsigned. rewrite (H0 _ Hdn). f_equal.
  unfold digits. rewrite digits_before_value.
  - unfold decimal_from. simpl. apply Z.mod_small. assumption.
  - change (10 ^ Z.of_nat 10) with 10000000000. change (2 ^ 32) with 4294967296 in Hn. lia.
Qed.

End DecimalNumbers.

Lemma LexicalCast_unsigned_decimal_witness :
  (Conversion.LexicalCast_unsigned true [52; 50; 0; 55; 0] = Ok 42 /\
   Conversion.LexicalCast_unsigned true [52; 50; 32; 55; 0] = AssertionFailure /\
   Conversion.LexicalCast_unsigned false [52; 50] = UndefinedBehaviour /\
   Conversion.LexicalCast_unsigned false (digits 4294967295 ++ [0]) = Ok 4294967295)%Z.
Proof.
  destruct (@LexicalCast_unsigned_decimal true [52; 50]%Z [55; 0]%Z) as (H1 & _ & _ & H4 & _).
  { repeat constructor; unfold is_digit; lia. }
  destruct (@LexicalCast_unsigned_decimal false [52; 50]%Z []) as (_ & _ & H3 & _ & H5).
  { repeat constructor; unfold is_digit; lia. }
  split; [exact H1|]. split.
  - apply (H4 32%Z); unfold is_digit; lia.
  - split; [exact H3|]. apply (H5 4294967295%Z). lia.
Defined.

(** *** Splitting a line into tokens *)

Section Splitting.

Import StringSplit.

Variable delim : Z.

Lemma getline_item_spec : forall ss,
  ~ In delim (fst (getline_item ss delim)) /\
  (ss = fst (getline_item ss delim) ++ delim :: snd (getline_item ss delim) \/
   (ss = fst (getline_item ss delim) /\ snd (getline_item ss delim) = [])).
Proof.
  induction ss as [|c ss IH]; simpl.
  - split; [intros []|]. right. split; reflexivity.
  - destruct (Z.eqb_spec c delim) as [->|Hne]; simpl.
    + split; [intros []|]. left. reflexivity.
    + destruct (getline_item ss delim) as [item rest]. simpl in *.
      destruct IH as [Hn [E|[E ->]]].
      * split; [intros [H|H]; [congruence|contradiction]|].
        left. rewrite E at 1. reflexivity.
      * split; [intros [H|H]; [congruence|contradiction]|].
        right. split; [rewrite E at 1|]; reflexivity.
Qed.


Lemma getline_item_length : forall ss,
  length (snd (getline_item ss delim)) <= length ss.
Proof.
  induction ss as [|c ss IH]; simpl; [lia|].
  destruct (c =? delim)%Z; simpl; [lia|].
  destruct (getline_item ss delim) as [item rest]. simpl in *. lia.
Qed.

Lemma getline_item_cons_length : forall c ss,
  length (snd (getline_item (c :: ss) delim)) <= length ss.
Proof.
  intros c ss. simpl. destruct (c =? delim)%Z; simpl; [lia|].
  pose proof (getline_item_length ss).
  destruct (getline_item ss delim) as [item rest]. simpl in *. lia.
Qed.

Lemma Split_loop_acc : forall fuel ss elements,
  Split_loop fuel ss delim elements = elements ++ Split_loop fuel ss delim [].
Proof.
  induction fuel as [|fuel IH]; intros ss elements; simpl.
  - rewrite app_nil_r. reflexivity.
  - destruct (getline ss delim) as [[item ss']|].
    + rewrite IH, (IH ss' [item]), app_assoc. reflexivity.
    + rewrite app_nil_r. reflexivity.
Qed.

Lemma Split_loop_fuel : forall fuel1 fuel2 ss,
  length ss < fuel1 -> length ss < fuel2 ->
  Split_loop fuel1 ss delim [] = Split_loop fuel2 ss delim [].
Proof.
  induction fuel1 as [|fuel1 IH]; intros fuel2 ss H1 H2; [lia|].
  destruct fuel2 as [|fuel2]; [lia|].
  destruct ss as [|c ss]; [reflexivity|].
  cbn [Split_loop getline].
  pose proof (getline_item_cons_length c ss) as Hl.
  destruct (getline_item (c :: ss) delim) as [item rest].
  cbn [snd app] in *. simpl in H1, H2.
  rewrite Split_loop_acc, (Split_loop_acc fuel2). f_equal.
  apply IH; lia.
Qed.

Lemma Split_cons : forall c ss,
  Split (c :: ss) delim
  = fst (getline_item (c :: ss) delim)
    :: Split (snd (getline_item (c :: ss) delim)) delim.
Proof.
  intros c ss. unfold Split. rewrite Nat.add_1_r.
  cbn [Split_loop getline].
  pose proof (getline_item_cons_length c ss) as Hl.
  destruct (getline_item (c :: ss) delim) as [item rest].
  cbn [fst snd app] in *.
  rewrite Split_loop_acc. cbn [app]. f_equal.
  apply Split_loop_fuel; simpl; lia.
Qed.

(** The tokens put together again, [delim] between them. *)
Fixpoint join (ts : list (list Z)) : list Z :=
  match ts with
  | [] => []
  | t :: ts' =>
      match ts' with
      | [] => t
      | _ :: _ => t ++ delim :: join ts'
      end
  end.

Definition split_of (s : list Z) (ts : list (list Z)) : Prop :=
  Forall (fun t => ~ In delim t) ts /\
  ((s = [] /\ ts = []) \/
   (last ts [] <> [] /\ s = join ts) \/
   (ts <> [] /\ s = join ts ++ [delim])).

Lemma Split_split_of : forall n s, length s <= n -> split_of s (Split s delim).
Proof.
  induction n as [|n IH]; intros s Hn.
  - destruct s; [|simpl in Hn; lia].
    split; [constructor|]. left. split; reflexivity.
  - destruct s as [|c ss].
    + split; [constructor|]. left. split; reflexivity.
    + rewrite Split_cons.
      pose proof (getline_item_cons_length c ss) as Hl.
      pose proof (getline_item_spec (c :: ss)) as [Hnd Hs].
      destruct (getline_item (c :: ss) delim) as [item rest].
      cbn [fst snd] in *.
      destruct (IH rest ltac:(simpl in Hn; lia)) as [HF HT].
      split; [constructor; assumption|].
      destruct Hs as [E|[E ->]].
      * destruct HT as [[-> ->]|[[HL EJ]|[HN EJ]]].
        -- right. right. split; [discriminate|]. rewrite E. reflexivity.
        -- right. left.
           destruct (Split rest delim) as [|t T]; [contradiction HL; reflexivity|].
           split; [exact HL|]. rewrite E, EJ. reflexivity.
        -- right. right. split; [discriminate|].
           destruct (Split rest delim) as [|t T]; [contradiction HN; reflexivity|].
           rewrite E, EJ. cbn [join]. rewrite <- app_assoc. reflexivity.
      * right. left. change (Split [] delim) with (@nil (list Z)).
        cbn [last join]. split; [rewrite <- E; discriminate|exact E].
Qed.












End Splitting.

(** X26: [Split(s, delim)] cuts [s] at every [delim]: no token holds a
    [delim], and the tokens joined by [delim] give [s] back, up to one
    closing [delim], which opens no token of its own: either [s] is empty
    and there is no token, or the last token is not empty and [s] is the
    tokens joined, or [s] is the tokens joined and one more [delim].
    Tokens between two neighbouring delimiters are empty and stay. *)
Theorem Split_join :
  forall (s : list Z) (delim : Z),
  let ts := StringSplit.Split s delim in
  Forall (fun t => ~ In delim t) ts /\
  ((s = [] /\ ts = []) \/
   (last ts [] <> [] /\ s = join delim ts) \/
   (ts <> [] /\ s = join delim ts ++ [delim])).
Proof.
  intros s delim. apply (@Split_split_of delim (length s) s). lia.
Qed.



(** *** Ranges of indices *)

Section SortUnique.

Import RangeExtraction.

Lemma insert_index_perm : forall x l, Permutation (insert_index x l) (x :: l).
Proof.
  intros x. induction l as [|y l IH]; simpl; [reflexivity|].
  destruct (y <? x); [|reflexivity].
  rewrite IH. apply perm_swap.
Qed.

Lemma index_sort_perm : forall l, Permutation (std_sort l) l.
Proof.
  induction l as [|x l IH]; simpl; [reflexivity|].
  rewrite insert_index_perm. constructor. exact IH.
Qed.

Lemma insert_index_sorted : forall x l,
  StronglySorted le l -> StronglySorted le (insert_index x l).
Proof.
  intros x. induction l as [|y l IH]; intros Hs; simpl.
  - repeat constructor.
  - inversion Hs as [|? ? Hs' Hy]; subst.
    destruct (Nat.ltb_spec y x) as [Hlt|Hge].
    + constructor; [apply IH; assumption|].
      rewrite Forall_forall in *. intros z Hz.
      apply (Permutation_in _ (insert_index_perm x l)) in Hz.
      destruct Hz as [<-|Hz]; [lia|apply Hy; assumption].
    + constructor; [assumption|].
      constructor; [assumption|].
      rewrite Forall_forall in *. intros z Hz. specialize (Hy z Hz). lia.
Qed.

Lemma index_sort_sorted : forall l, StronglySorted le (std_sort l).
Proof.
  induction l as [|x l IH]; simpl; [constructor|].
  apply insert_index_sorted. exact IH.
Qed.

Lemma index_unique_sorted : forall l,
  StronglySorted le l ->
  StronglySorted lt (std_unique l) /\ forall x, In x (std_unique l) <-> In x l.
Proof.
  induction l as [|x l IH]; intros Hs.
  - split; [constructor|]. intros x. reflexivity.
  - inversion Hs as [|? ? Hs' Hx]; subst.
    destruct (IH Hs') as [IHs IHm]. cbn [std_unique].
    destruct l as [|y l'].
    + split; [repeat constructor|]. intros z. reflexivity.
    + destruct (Nat.eqb_spec x y) as [->|Hne].
      * split; [assumption|]. intros z. rewrite IHm. simpl. tauto.
      * split.
        -- constructor; [assumption|].
           rewrite Forall_forall in *. intros z Hz. apply IHm in Hz.
           assert (x <= y) by (apply Hx; left; reflexivity).
           inversion Hs' as [|? ? _ Hy]; subst.
           rewrite Forall_forall in Hy.
           destruct Hz as [<-|Hz]; [lia|]. specialize (Hy z Hz). lia.
        -- intros z. simpl. rewrite IHm. simpl. tauto.
Qed.

End SortUnique.

Section Ranges.

Import RangeExtraction.

Variable checked : bool.
Variable LexicalCast : list Z -> nat.
Variable IndexMax : nat.

(** A piece of the range is one limit, or two limits [a-b] with
    [a <= b] and [b] below the largest index. *)
Definition piece_ok (currentRange : list Z) : Prop :=
  match StringSplit.Split currentRange 45 with
  | [a] => True
  | [a; b] => LexicalCast a <= LexicalCast b < IndexMax
  | _ => False
  end.

Definition in_piece (currentRange : list Z) (x : nat) : Prop :=
  match StringSplit.Split currentRange 45 with
  | [a] => x = LexicalCast a
  | [a; b] => LexicalCast a <= x <= LexicalCast b
  | _ => False
  end.

(** A piece [a-b] whose upper limit is the largest index. *)
Definition piece_unbounded (currentRange : list Z) : Prop :=
  match StringSplit.Split currentRange 45 with
  | [a; b] => LexicalCast a <= LexicalCast b /\ LexicalCast b = IndexMax
  | _ => False
  end.

Definition piece_indices (currentRange : list Z) : list nat :=
  match StringSplit.Split currentRange 45 with
  | [a] => [LexicalCast a]
  | [a; b] => seq (LexicalCast a) (LexicalCast b + 1 - LexicalCast a)
  | _ => []
  end.

Lemma range_loop_ends : forall fuel currentIndex upperLimit indices,
  upperLimit < IndexMax ->
  upperLimit + 1 - currentIndex < fuel ->
  range_loop IndexMax fuel currentIndex upperLimit indices
  = Some (indices ++ seq currentIndex (upperLimit + 1 - currentIndex)).
Proof.
  induction fuel as [|fuel IH]; intros cur upper indices Hu Hf; [lia|].
  cbn [range_loop].
  destruct (Nat.leb_spec cur upper) as [Hle|Hgt].
  - unfold increment. destruct (Nat.eqb_spec cur IndexMax) as [E|_]; [lia|].
    rewrite IH by lia.
    replace (upper + 1 - cur) with (S (upper + 1 - (cur + 1))) by lia.
    cbn [seq]. rewrite <- app_assoc. cbn [app].
    replace (S cur) with (cur + 1) by lia. reflexivity.
  - replace (upper + 1 - cur) with 0 by lia. rewrite app_nil_r. reflexivity.
Qed.

Lemma range_loop_runs : forall fuel currentIndex indices,
  currentIndex <= IndexMax ->
  range_loop IndexMax fuel currentIndex IndexMax indices = None.
Proof.
  induction fuel as [|fuel IH]; intros cur indices Hc; [reflexivity|].
  cbn [range_loop].
  destruct (Nat.leb_spec cur IndexMax) as [_|Hgt]; [|lia].
  apply IH. unfold increment.
  destruct (Nat.eqb_spec cur IndexMax); lia.
Qed.

Lemma range_step_ok : forall fuel indices currentRange,
  piece_ok currentRange -> IndexMax < fuel ->
  range_step checked LexicalCast IndexMax fuel indices currentRange
  = Some (Ok (indices ++ piece_indices currentRange)).
Proof.
  intros fuel indices r Hok Hf.
  unfold range_step, piece_ok, piece_indices in *.
  destruct (StringSplit.Split r 45) as [|a [|b [|c limits]]];
    try contradiction.
  - cbn [length Nat.eqb negb Nat.leb]. rewrite !Assert_true. cbn [bind].
    reflexivity.
  - cbn [length Nat.eqb negb Nat.leb]. rewrite !Assert_true. cbn [bind].
    cbn [read nth_error bind].
    replace (LexicalCast a <=? LexicalCast b) with true
      by (symmetry; apply Nat.leb_le; lia).
    rewrite Assert_true.
    rewrite range_loop_ends by lia. reflexivity.
Qed.

Lemma range_step_runs : forall fuel indices currentRange,
  piece_unbounded currentRange ->
  range_step checked LexicalCast IndexMax fuel indices currentRange = None.
Proof.
  intros fuel indices r Hr.
  unfold range_step, piece_unbounded in *.
  destruct (StringSplit.Split r 45) as [|a [|b [|c limits]]];
    try contradiction.
  destruct Hr as [Hle Hmax].
  cbn [length Nat.eqb negb Nat.leb]. rewrite !Assert_true. cbn [bind].
  cbn [read nth_error bind].
  replace (LexicalCast a <=? LexicalCast b) with true
    by (symmetry; apply Nat.leb_le; lia).
  rewrite Assert_true. rewrite Hmax.
  rewrite range_loop_runs by lia. reflexivity.
Qed.

Lemma range_steps_ok : forall fuel ranges indices,
  Forall piece_ok ranges -> IndexMax < fuel ->
  range_steps checked LexicalCast IndexMax fuel ranges indices
  = Some (Ok (indices ++ flat_map piece_indices ranges)).
Proof.
  intros fuel ranges. induction ranges as [|r ranges IH]; intros indices Hok Hf.
  - simpl. rewrite app_nil_r. reflexivity.
  - inversion Hok as [|? ? Hr Hrs]; subst.
    cbn [range_steps flat_map]. rewrite range_step_ok by assumption.
    rewrite IH by assumption. rewrite app_assoc. reflexivity.
Qed.

Lemma range_steps_runs : forall fuel before currentRange after indices,
  Forall piece_ok before -> piece_unbounded currentRange -> IndexMax < fuel ->
  range_steps checked LexicalCast IndexMax fuel
    (before ++ currentRange :: after) indices = None.
Proof.
  intros fuel before r after. induction before as [|r0 before IH];
    intros indices Hok Hr Hf.
  - cbn [app range_steps]. rewrite range_step_runs by assumption. reflexivity.
  - inversion Hok as [|? ? Hr0 Hrs]; subst.
    cbn [app range_steps]. rewrite range_step_ok by assumption.
    apply IH; assumption.
Qed.

Lemma piece_indices_In : forall currentRange x,
  piece_ok currentRange ->
  In x (piece_indices currentRange) <-> in_piece currentRange x.
Proof.
  intros r x. unfold piece_ok, piece_indices, in_piece.
  destruct (StringSplit.Split r 45) as [|a [|b [|c limits]]];
    try contradiction.
  - intros _. simpl. intuition.
  - intros Hab. rewrite in_seq. lia.
Qed.

End Ranges.

(** X28: [ExtractRange(range)] on a well-formed range (pieces between
    commas that are one number, or two numbers [a-b] with [a <= b] and
    [b] below the largest index) returns, with or without assertions,
    the strictly ascending vector of the indices that some piece covers:
    each index once, however the pieces overlap or are ordered.  A
    piece [a-b] whose [b] is the largest index keeps the function from
    returning: its loop [currentIndex <= upperLimit] never ends. *)
Theorem ExtractRange_indices :
  forall (checked : bool) (LexicalCast : list Z -> nat) (IndexMax : nat)
         (range : list Z) (fuel : nat),
  IndexMax < fuel ->
  (Forall (piece_ok LexicalCast IndexMax) (StringSplit.Split range 44) ->
   exists indices,
     RangeExtraction.ExtractRange checked LexicalCast IndexMax fuel range
     = Some (Ok indices) /\
     StronglySorted lt indices /\
     forall x, In x indices <->
       exists currentRange, In currentRange (StringSplit.Split range 44) /\
                            in_piece LexicalCast currentRange x) /\
  (forall before currentRange after,
     StringSplit.Split range 44 = before ++ currentRange :: after ->
     Forall (piece_ok LexicalCast IndexMax) before ->
     piece_unbounded LexicalCast IndexMax currentRange ->
     RangeExtraction.ExtractRange checked LexicalCast IndexMax fuel range = None).
Proof.
  intros checked LexicalCast IndexMax range fuel Hf. split.
  - intros Hok. unfold RangeExtraction.ExtractRange.
    rewrite range_steps_ok by assumption. cbn [app].
    set (all := flat_map (piece_indices LexicalCast) (StringSplit.Split range 44)).
    destruct (index_unique_sorted (index_sort_sorted all)) as [Hs Hm].
    eexists. split; [reflexivity|]. split; [exact Hs|].
    intros x. rewrite Hm. split.
    + intros Hx. apply (Permutation_in _ (index_sort_perm all)) in Hx.
      apply in_flat_map in Hx. destruct Hx as (r & Hr & Hx).
      exists r. split; [assumption|].
      apply (@piece_indices_In LexicalCast IndexMax); [|assumption].
      rewrite Forall_forall in Hok. apply Hok. assumption.
    + intros (r & Hr & Hx).
      apply (Permutation_in _ (Permutation_sym (index_sort_perm all))).
      apply in_flat_map. exists r. split; [assumption|].
      apply (@piece_indices_In LexicalCast IndexMax); [|assumption].
      rewrite Forall_forall in Hok. apply Hok. assumption.
  - intros before r after E Hok Hr. unfold RangeExtraction.ExtractRange.
    rewrite E. rewrite range_steps_runs by assumption. reflexivity.
Qed.

(** The range [3-5,1,4] and the range [7-255], for an index type of 8
    bits and numbers in decimal digits. *)
Lemma ExtractRange_indices_witness :
  let LexicalCast := fun s => Z.to_nat (decimal s) in
  (exists indices,
     RangeExtraction.ExtractRange true LexicalCast 255 256
       [51; 45; 53; 44; 49; 44; 52]%Z = Some (Ok indices) /\
     StronglySorted lt indices /\
     forall x, In x indices <->
       exists currentRange,
         In currentRange (StringSplit.Split [51; 45; 53; 44; 49; 44; 52]%Z 44) /\
         in_piece LexicalCast currentRange x) /\
  RangeExtraction.ExtractRange true LexicalCast 255 256 [55; 45; 50; 53; 53]%Z
  = None.
Proof.
  intros LexicalCast. split.
  - apply (proj1 (@ExtractRange_indices true LexicalCast 255
                    [51; 45; 53; 44; 49; 44; 52]%Z 256 ltac:(lia))).
    change (StringSplit.Split [51; 45; 53; 44; 49; 44; 52]%Z 44)
      with [[51; 45; 53]; [49]; [52]]%Z.
    repeat constructor; vm_compute; lia.
  - apply (proj2 (@ExtractRange_indices true LexicalCast 255
                    [55; 45; 50; 53; 53]%Z 256 ltac:(lia))
             [] [55; 45; 50; 53; 53]%Z []).
    + reflexivity.
    + constructor.
    + vm_compute. split; [lia|reflexivity].
Defined.
(** ** Reading a graph in the Metis format *)

Section DigitStrings.

Local Open Scope Z_scope.









End DigitStrings.

Section TokenMemory.

Import StringSplit.

Variable delim : Z.



End TokenMemory.

Section MetisFile.

Import MetisGraphBuilder.
Local Open Scope Z_scope.

Variable checked : bool.
Variables ignoreSelfLoops transpose directed : bool.

















End MetisFile.


(** ** The thresholds of the edge-presence predicates *)

Section Thresholds.

Import Hashing.
Local Open Scope Z_scope.

Lemma Contained_WEIGHTED_value : forall this u v i l d,
  at_index (indeg this) v = Ok d -> (1 <= d)%nat ->
  SKIM.Contained this WEIGHTED u v i l
  = Ok (Murmur3Hash (randomSeed this) u v i l mod resolution
        <? Z.min resolution (resolution / Z.of_nat d)).
Proof.
  intros this u v i l d Hd Hpos. unfold SKIM.Contained.
  rewrite Hd. cbn [bind]. unfold udiv.
  destruct (Z.eqb_spec (Z.of_nat d) 0) as [E|_]; [lia|]. reflexivity.
Qed.

Lemma hash_mod_range : forall seed u v i l,
  0 <= Murmur3Hash seed u v i l mod resolution < resolution.
Proof. intros. apply Z.mod_pos_bound. reflexivity. Qed.

(** X30: the thresholds of [Contained].  In the weighted and the binary
    model the predicates of [SKIM] and of [FastRSInfluenceOracle] are the
    same function.  Weighted: an arc into a vertex of in-degree 1 is in
    every instance, an arc into a vertex of in-degree above [resolution]
    (3000000) is in no instance, because [resolution / indeg[v]] is 0
    there; an arc that is in an instance stays in it when the in-degree
    of its head is smaller; with in-degree 0 the division is undefined.
    Binary: with [binprob >= resolution] every arc is in every instance,
    with [binprob = 0] none, and an arc that is in an instance stays in
    it when [binprob] grows. *)
Theorem Contained_thresholds :
  forall (this : members) (u v i l : Z) (d : nat),
  at_index (indeg this) v = Ok d ->
  SKIM.Contained this WEIGHTED u v i l
  = FastRSInfluenceOracle.Contained this WEIGHTED u v i l /\
  SKIM.Contained this BINARY u v i l
  = FastRSInfluenceOracle.Contained this BINARY u v i l /\
  (d = 0%nat -> SKIM.Contained this WEIGHTED u v i l = UndefinedBehaviour) /\
  (d = 1%nat -> SKIM.Contained this WEIGHTED u v i l = Ok true) /\
  (resolution < Z.of_nat d -> SKIM.Contained this WEIGHTED u v i l = Ok false) /\
  (forall this' d',
     randomSeed this' = randomSeed this ->
     at_index (indeg this') v = Ok d' -> (1 <= d' <= d)%nat ->
     SKIM.Contained this WEIGHTED u v i l = Ok true ->
     SKIM.Contained this' WEIGHTED u v i l = Ok true) /\
  (resolution <= binprob this -> SKIM.Contained this BINARY u v i l = Ok true) /\
  (binprob this <= 0 -> SKIM.Contained this BINARY u v i l = Ok false) /\
  (forall this',
     randomSeed this' = randomSeed this -> binprob this <= binprob this' ->
     SKIM.Contained this BINARY u v i l = Ok true ->
     SKIM.Contained this' BINARY u v i l = Ok true).
Proof.
  intros this u v i l d Hd.
  pose proof (hash_mod_range (randomSeed this) u v i l) as Hh.
  split; [reflexivity|]. split; [reflexivity|]. split; [|split; [|split; [|split]]].
  - intros ->. unfold SKIM.Contained. rewrite Hd. reflexivity.
  - intros ->. rewrite (@Contained_WEIGHTED_value this u v i l 1%nat Hd) by lia.
    f_equal. apply Z.ltb_lt.
    change (Z.of_nat 1) with 1. rewrite Z.div_1_r, Z.min_id. lia.
  - intros Hbig.
    rewrite (@Contained_WEIGHTED_value this u v i l d Hd) by lia.
    f_equal. apply Z.ltb_ge.
    rewrite Z.div_small by (unfold resolution in *; lia).
    rewrite Z.min_r by (unfold resolution; lia). lia.
  - intros this' d' Hseed Hd' Hle H.
    assert (Hpos : (1 <= d)%nat) by lia.
    rewrite (@Contained_WEIGHTED_value this u v i l d Hd Hpos) in H.
    rewrite (@Contained_WEIGHTED_value this' u v i l d' Hd') by lia.
    injection H as H. apply Z.ltb_lt in H. rewrite Hseed.
    f_equal. apply Z.ltb_lt.
    assert (Hdiv : resolution / Z.of_nat d <= resolution / Z.of_nat d').
    { apply Z.div_le_compat_l; [unfold resolution|]; lia. }
    lia.
  - split; [|split].
    + intros Hp. unfold SKIM.Contained. f_equal. apply Z.ltb_lt. lia.
    + intros Hp. unfold SKIM.Contained. f_equal. apply Z.ltb_ge. lia.
    + intros this' Hseed Hp H. unfold SKIM.Contained in *.
      injection H as H. apply Z.ltb_lt in H. rewrite Hseed.
      f_equal. apply Z.ltb_lt. lia.
Qed.

End Thresholds.

Lemma Contained_thresholds_witness :
  (let this := {| Hashing.randomSeed := 3; Hashing.indeg := [1%nat];
                  Hashing.binprob := 3000000 |} in
   SKIM.Contained this Hashing.WEIGHTED 5 0 2 8 = Ok true /\
   SKIM.Contained this Hashing.BINARY 5 0 2 8 = Ok true)%Z.
Proof.
  intros this.
  destruct (@Contained_thresholds this 5 0 2 8 1%nat eq_refl)%Z
    as (_ & _ & _ & H1 & _ & _ & H2 & _).
  split; [apply H1; reflexivity|].
  apply H2. unfold Hashing.resolution. simpl. lia.
Defined.
(** ** The sketches and reverse reachability *)

Lemma take_while_app_all : forall (A : Type) (p : A -> bool) xs ys,
  Forall (fun x => p x = true) xs ->
  take_while p (xs ++ ys) = xs ++ take_while p ys.
Proof.
  induction xs as [|x xs IH]; intros ys H; simpl; [reflexivity|].
  inversion H as [|? ? Hx H']; subst. rewrite Hx, IH by assumption.
  reflexivity.
Qed.

Lemma take_while_none : forall (A : Type) (p : A -> bool) xs,
  Forall (fun x => p x = false) xs -> take_while p xs = [].
Proof.
  intros A p [|x xs] H; simpl; [reflexivity|].
  inversion H as [|? ? Hx _]; subst. rewrite Hx. reflexivity.
Qed.

Lemma take_while_rev_suffix : forall (A : Type) (p : A -> bool) front back,
  Forall (fun x => p x = false) front ->
  Forall (fun x => p x = true) back ->
  take_while p (rev (front ++ back)) = rev back.
Proof.
  intros A p front back Hf Hb. rewrite rev_app_distr.
  rewrite take_while_app_all by (apply Forall_rev; assumption).
  rewrite take_while_none by (apply Forall_rev; assumption).
  apply app_nil_r.
Qed.

(** A sorted block of valid arcs has its backward-flagged arcs at the
    end. *)
Lemma sorted_backward_last : forall records,
  FastArc.sorted records ->
  Forall (fun a => FastArc.Valid a = true) records ->
  exists front back,
    records = front ++ back /\
    Forall (fun a => FastArc.Backward a = false) front /\
    Forall (fun a => FastArc.Backward a = true) back.
Proof.
  induction records as [|x records IH]; intros Hs Hv.
  - exists [], []. repeat split; constructor.
  - inversion Hs as [|? ? Hs' Hx]; subst.
    inversion Hv as [|? ? Vx Hv']; subst.
    destruct (FastArc.Backward x) eqn:Bx.
    + exists [], (x :: records). split; [reflexivity|]. split; [constructor|].
      constructor; [assumption|].
      rewrite Forall_forall in *. intros y Hy.
      destruct (FastArc.Backward y) eqn:By; [reflexivity|].
      rewrite (@backward_suffix x y Vx (Hv' y Hy) (Hx y Hy) By) in Bx.
      discriminate.
    + destruct (IH Hs' Hv') as (front & back & E & Hf & Hb).
      exists (x :: front), back. split; [rewrite E; reflexivity|].
      split; [constructor; assumption|assumption].
Qed.

Section ReverseReachability.

Import FastRSInfluenceOracle.

Variable graph : FastStaticGraph.t.
Variable Contained : nat -> nat -> nat -> nat -> bool.
Variable l : nat.

Local Abbreviation N := (n graph).

(** An arc from [v] to [u] as the graph holds it at its head [u], a
    backward-flagged record with other vertex [v] among the arcs incident
    to [u], and as it holds it at its tail [v], a forward-flagged record
    with other vertex [u] among the arcs incident to [v]. *)
Definition incoming_arc (u v : nat) : Prop :=
  exists a, In a (FastStaticGraph.FORALL_INCIDENT_ARCS graph u) /\
            FastArc.Backward a = true /\ v = head_of a.

Definition outgoing_arc (v u : nat) : Prop :=
  exists a, In a (FastStaticGraph.FORALL_INCIDENT_ARCS graph v) /\
            FastArc.Forward a = true /\ u = head_of a.

(** [v] is a predecessor of [u] in instance [i]: the graph holds at [u]
    an arc from [v] to [u], and the arc is contained in the instance. *)
Definition predecessor (i u v : nat) : Prop :=
  incoming_arc u v /\ Contained v u i l = true.

(** [s] reverse-reaches [v] in instance [i]. *)
Inductive reverse_reaches (i s : nat) : nat -> Prop :=
| rr_source : reverse_reaches i s s
| rr_arc : forall u v,
    reverse_reaches i s u -> predecessor i u v -> reverse_reaches i s v.

(** [v] has a forward path to [s] in instance [i]: a path of arcs that
    the graph holds at their tails and that the instance contains. *)
Definition live_arc (i v u : nat) : Prop :=
  outgoing_arc v u /\ Contained v u i l = true.

Inductive forward_path (i : nat) : nat -> nat -> Prop :=
| fp_source : forall s, forward_path i s s
| fp_arc : forall v u s,
    live_arc i v u -> forward_path i u s -> forward_path i v s.

(** In the block of every vertex the backward-flagged records come last:
    so it is in a block of valid arcs that is sorted with [operator<],
    and in a block whose records are all backward-flagged. *)
Definition backward_arcs_last : Prop :=
  forall u, u < N ->
  exists front back,
    FastStaticGraph.incident graph u = front ++ back /\
    Forall (fun a => FastArc.Backward a = false) front /\
    Forall (fun a => FastArc.Backward a = true) back.

(** The graph holds every arc at both ends. *)
Definition arcs_mirrored : Prop :=
  forall u v, u < N -> v < N -> (incoming_arc u v <-> outgoing_arc v u).

Hypothesis blocks_ok : backward_arcs_last.
Hypothesis graph_ok : arcs_in_range graph.

Lemma backward_scan_members : forall u a,
  u < N ->
  (In a (FastStaticGraph.backward_scan graph u) <->
   In a (FastStaticGraph.FORALL_INCIDENT_ARCS graph u) /\
   FastArc.Backward a = true).
Proof.
  intros u a Hu.
  destruct (blocks_ok Hu) as (front & back & E & Hf & Hb).
  unfold FastStaticGraph.backward_scan,
    FastStaticGraph.FORALL_INCIDENT_ARCS_BACKWARD,
    FastStaticGraph.FORALL_INCIDENT_ARCS.
  rewrite E, take_while_rev_suffix by assumption.
  rewrite <- in_rev, in_app_iff. rewrite Forall_forall in Hf, Hb. split.
  - intros H. split; [right; assumption|apply Hb; assumption].
  - intros [[H|H] B]; [|assumption].
    rewrite (Hf a H) in B. discriminate.
Qed.

Lemma graph_scans_in_range : scans_in_range graph.
Proof.
  intros u a Hu Ha. apply backward_scan_members in Ha; [|assumption].
  destruct Ha as [Ha _]. apply (@graph_ok u a Hu Ha).
Qed.

Lemma scanned_predecessor_iff : forall i u v,
  u < N -> (scanned_predecessor graph Contained l i u v <-> predecessor i u v).
Proof.
  intros i u v Hu. unfold scanned_predecessor, predecessor, incoming_arc. split.
  - intros (a & Ha & E & C). apply backward_scan_members in Ha; [|assumption].
    destruct Ha as [Ha B]. split; [|assumption]. exists a. auto.
  - intros [(a & Ha & B & E) C]. exists a. split; [|auto].
    apply backward_scan_members; auto.
Qed.

Lemma predecessor_range : forall i u v, u < N -> predecessor i u v -> v < N.
Proof.
  intros i u v Hu [(a & Ha & _ & ->) _]. apply (@graph_ok u a Hu Ha).
Qed.

Lemma reverse_reaches_range : forall i s v,
  s < N -> reverse_reaches i s v -> v < N.
Proof.
  intros i s v Hs H. induction H as [|u v Hu IH Hp]; [assumption|].
  apply predecessor_range with (i := i) (u := u); assumption.
Qed.

(** The reverse search meets the vertices that the source
    reverse-reaches. *)
Lemma scan_reaches_iff : forall i s v,
  s < N -> (scan_reaches graph Contained l i s v <-> reverse_reaches i s v).
Proof.
  intros i s v Hs. split.
  - intros H. induction H as [|u v Hu IH Hp]; [apply rr_source|].
    apply rr_arc with u; [assumption|].
    apply scanned_predecessor_iff; [|assumption].
    apply reverse_reaches_range with (i := i) (s := s); assumption.
  - intros H. induction H as [|u v Hu IH Hp]; [apply sr_source|].
    apply sr_arc with u; [assumption|].
    apply scanned_predecessor_iff; [|assumption].
    apply reverse_reaches_range with (i := i) (s := s); assumption.
Qed.

(** In a graph that holds every arc at both ends, the source
    reverse-reaches the vertices that have a forward path to it. *)
Lemma reverse_reaches_forward_path : forall i s v,
  arcs_mirrored -> s < N -> v < N ->
  (reverse_reaches i s v <-> forward_path i v s).
Proof.
  intros i s v Hm Hs Hv. split.
  - intros H. clear Hv. induction H as [|u v Hu IH Hp]; [apply fp_source|].
    assert (Hu' : u < N)
      by (apply reverse_reaches_range with (i := i) (s := s); assumption).
    assert (Hv : v < N)
      by (apply predecessor_range with (i := i) (u := u); assumption).
    destruct Hp as [Ha C].
    apply fp_arc with u; [|assumption].
    split; [apply Hm; assumption|assumption].
  - intros H. induction H as [s|v u s [Ha C] Hp IH]; [apply rr_source|].
    assert (Hu : u < N).
    { destruct Ha as (a & Ha & _ & ->). apply (@graph_ok v a Hv Ha). }
    apply rr_arc with u; [apply IH; assumption|].
    split; [apply Hm; assumption|assumption].
Qed.

End ReverseReachability.

(** *** Graphs built from an arc list *)

(** A graph that [ReadFromArcList] builds with incoming arcs has the
    backward-flagged records last in every block, holds every arc at
    both ends, and every record points to a vertex. *)
Lemma ReadFromArcList_reverse_arcs :
  forall checked numVertices inArcs isDirected,
  (Z.of_nat numVertices <= 2 ^ 30)%Z ->
  in_range numVertices isDirected inArcs ->
  (2 * Z.of_nat (length inArcs) < 2 ^ 32)%Z ->
  exists g,
    FastStaticGraph.ReadFromArcList checked numVertices inArcs isDirected true
    = Ok g /\
    FastRSInfluenceOracle.n g = numVertices /\
    backward_arcs_last g /\ arcs_mirrored g /\ arcs_in_range g.
Proof.
  intros checked numVertices inArcs isDirected Hfit Hr Harcs.
  destruct (@ReadFromArcList_incoming checked numVertices inArcs isDirected Hr Harcs)
    as (g & E & Hh & _ & _ & _ & Hinc).
  destruct (@built_graph_scans checked numVertices inArcs isDirected Hfit Hr Harcs)
    as (g' & E' & Hscan).
  rewrite E in E'. injection E' as <-.
  destruct (@ReadFromArcList_arcs_in_range checked numVertices inArcs isDirected
              Hfit Hr Harcs) as (g' & E' & _ & Hrange).
  rewrite E in E'. injection E' as <-.
  assert (Hn : FastRSInfluenceOracle.n g = numVertices).
  { unfold FastRSInfluenceOracle.n. rewrite Hh. reflexivity. }
  assert (Hrec : forall v w, v < numVertices ->
            (In w (FastStaticGraph.incident g v)
             <-> record_of inArcs isDirected v w)).
  { intros v w Hv. rewrite Hinc by assumption. apply in_built_block_record. }
  exists g. split; [exact E|]. split; [exact Hn|].
  split; [|split; [|exact Hrange]].
  - intros u Hu. rewrite Hn in Hu.
    destruct (Hscan u Hu) as (Hvalid & Hsorted & _ & _).
    destruct isDirected eqn:D.
    + apply sorted_backward_last; auto.
    + exists [], (FastStaticGraph.incident g u).
      split; [reflexivity|]. split; [constructor|].
      rewrite Forall_forall. intros w Hw. apply Hrec in Hw; [|assumption].
      destruct Hw as (a & b & Hin & H).
      destruct (arc_endpoints Hfit Hr _ _ Hin) as (_ & _ & Za & Zb).
      destruct H as [[_ ->]|[_ ->]].
      * destruct (mk_spec true (negb false) Zb) as (_ & _ & B). exact B.
      * destruct (mk_spec (negb false) true Za) as (_ & _ & B). exact B.
  - intros u v Hu Hv. rewrite Hn in Hu, Hv.
    unfold incoming_arc, outgoing_arc, FastStaticGraph.FORALL_INCIDENT_ARCS,
      head_of.
    split.
    + intros (w & Hw & B & ->). apply Hrec in Hw; [|assumption].
      destruct Hw as (a & b & Hin & H).
      destruct (arc_endpoints Hfit Hr _ _ Hin) as (_ & _ & Za & Zb).
      destruct (mk_spec true (negb isDirected) Zb) as (O1 & F1 & B1).
      destruct (mk_spec (negb isDirected) true Za) as (O2 & F2 & B2).
      destruct H as [[-> ->]|[-> ->]].
      * rewrite O1, Nat2Z.id. rewrite B1 in B.
        exists (FastArc.mk (Z.of_nat a) (negb isDirected) true).
        split; [|split].
        -- apply Hrec; [rewrite O1, Nat2Z.id in Hv; assumption|].
           exists a, b. auto.
        -- rewrite F2. assumption.
        -- rewrite O2, Nat2Z.id. reflexivity.
      * rewrite O2, Nat2Z.id.
        exists (FastArc.mk (Z.of_nat b) true (negb isDirected)).
        split; [|split].
        -- apply Hrec; [rewrite O2, Nat2Z.id in Hv; assumption|].
           exists a, b. auto.
        -- assumption.
        -- rewrite O1, Nat2Z.id. reflexivity.
    + intros (w & Hw & F & ->). apply Hrec in Hw; [|assumption].
      destruct Hw as (a & b & Hin & H).
      destruct (arc_endpoints Hfit Hr _ _ Hin) as (_ & _ & Za & Zb).
      destruct (mk_spec true (negb isDirected) Zb) as (O1 & F1 & B1).
      destruct (mk_spec (negb isDirected) true Za) as (O2 & F2 & B2).
      destruct H as [[-> ->]|[-> ->]].
      * rewrite O1, Nat2Z.id.
        exists (FastArc.mk (Z.of_nat a) (negb isDirected) true).
        split; [|split].
        -- apply Hrec; [rewrite O1, Nat2Z.id in Hu; assumption|].
           exists a, b. auto.
        -- assumption.
        -- rewrite O2, Nat2Z.id. reflexivity.
      * rewrite O2, Nat2Z.id. rewrite F2 in F.
        exists (FastArc.mk (Z.of_nat b) true (negb isDirected)).
        split; [|split].
        -- apply Hrec; [rewrite O2, Nat2Z.id in Hu; assumption|].
           exists a, b. auto.
        -- rewrite B1. assumption.
        -- rewrite O1, Nat2Z.id. reflexivity.
Qed.

(** *** The sketches after the preprocessing *)

(** The ranks whose source reverse-reaches [v] in the instance of the
    rank, both read from the permutation: source [permutation[r] mod n],
    instance [permutation[r] / n]. *)
Definition covers (graph : FastStaticGraph.t)
  (Contained : nat -> nat -> nat -> nat -> bool) (permutation : list nat)
  (l v r : nat) : Prop :=
  r < FastRSInfluenceOracle.n graph * l /\
  reverse_reaches graph Contained l (instance_of graph permutation r)
    (source_of graph permutation r) v.

(** The set of the specification: the ranks [r] whose source
    reverse-reaches [v] in instance [r / n]. *)
Definition covers_by_position (graph : FastStaticGraph.t)
  (Contained : nat -> nat -> nat -> nat -> bool) (permutation : list nat)
  (l v r : nat) : Prop :=
  r < FastRSInfluenceOracle.n graph * l /\
  reverse_reaches graph Contained l (r / FastRSInfluenceOracle.n graph)
    (source_of graph permutation r) v.

(** C1 (amended): let the graph have the backward-flagged records last in
    every block and all records in range, let [permutation] be a
    permutation of [0, n * l), as [GenerateRandomPermutation] delivers,
    with [1 <= k] and [l] a 16-bit number.  After [RunPreprocessing(k, l)],
    for every vertex [v] the sketch of [v] is strictly ascending, has at
    most [k] ranks, and is the bottom-[k] of the ranks [r] in [0, n * l)
    whose source vertex [permutation[r] mod n] reverse-reaches [v] along
    the backward-flagged arcs of the graph in instance
    [permutation[r] / n]: its members are such ranks, and such a rank
    that is missing finds [k] smaller ranks in the sketch.  No other list
    is the bottom-[k] of this set.  In a graph that holds every arc at
    both ends these are the ranks to whose source [v] has a forward path
    in that instance.  The pruning of the searches at vertices whose
    local sketch is full is part of the program. *)
Theorem RunPreprocessing_sketches :
  forall graph Contained permutation k l,
  1 <= k -> l < 2 ^ 16 ->
  backward_arcs_last graph -> arcs_in_range graph ->
  Permutation permutation (seq 0 (FastRSInfluenceOracle.n graph * l)) ->
  forall v, v < FastRSInfluenceOracle.n graph ->
    let X := nth v (FastRSInfluenceOracle.RunPreprocessing
                      graph Contained permutation k l) [] in
    StronglySorted lt X /\ length X <= k /\
    (forall r, In r X -> covers graph Contained permutation l v r) /\
    (forall r, covers graph Contained permutation l v r -> ~ In r X ->
       length X = k /\ forall x, In x X -> x < r) /\
    (forall Y, bottom_k k (covers graph Contained permutation l v) Y -> Y = X) /\
    (arcs_mirrored graph ->
     forall r, covers graph Contained permutation l v r <->
               r < FastRSInfluenceOracle.n graph * l /\
               forward_path graph Contained l (instance_of graph permutation r)
                 v (source_of graph permutation r)).
Proof.
  intros graph Contained permutation k l Hk Hl Hb Hg Hp v Hv X.
  pose proof (@RunPreprocessing_bottom_k graph Contained permutation k l
                (graph_scans_in_range Hb Hg) Hk Hl Hp v Hv) as H.
  fold X in H.
  assert (Hsrc : forall r, r < FastRSInfluenceOracle.n graph * l ->
                   source_of graph permutation r < FastRSInfluenceOracle.n graph).
  { intros r Hr. eapply source_of_range; eassumption. }
  apply bottom_k_ext with (Q := covers graph Contained permutation l v) in H.
  - split; [apply H|]. split; [apply H|]. split; [apply H|]. split; [apply H|].
    split.
    + intros Y HY. apply (@bottom_k_unique k _ Y X HY H).
    + intros Hm r. unfold covers. split.
      * intros [Hr Hreach]. split; [assumption|].
        apply (reverse_reaches_forward_path Contained l Hg); auto.
      * intros [Hr Hpath]. split; [assumption|].
        apply (reverse_reaches_forward_path Contained l Hg); auto.
  - intros r. unfold scan_covers, covers. split.
    + intros [Hr Hreach]. split; [assumption|].
      apply (scan_reaches_iff Contained l Hb Hg); auto.
    + intros [Hr Hreach]. split; [assumption|].
      apply (scan_reaches_iff Contained l Hb Hg); auto.
Qed.

Lemma RunPreprocessing_sketches_witness :
  exists graph,
    FastStaticGraph.ReadFromArcList true 2 [(0, 1)] true true = Ok graph /\
    let Contained :=
      FastRSInfluenceOracle.Contained_at
        {| Hashing.randomSeed := 3; Hashing.indeg := [];
           Hashing.binprob := 300000 |} Hashing.BINARY in
    let X := nth 0 (FastRSInfluenceOracle.RunPreprocessing
                      graph Contained [2; 3; 0; 1] 3 2) [] in
    StronglySorted lt X /\ length X <= 3 /\
    (forall r, In r X -> covers graph Contained [2; 3; 0; 1] 2 0 r) /\
    (forall r, covers graph Contained [2; 3; 0; 1] 2 0 r -> ~ In r X ->
       length X = 3 /\ forall x, In x X -> x < r) /\
    (forall Y, bottom_k 3 (covers graph Contained [2; 3; 0; 1] 2 0) Y -> Y = X) /\
    (arcs_mirrored graph ->
     forall r, covers graph Contained [2; 3; 0; 1] 2 0 r <->
               r < FastRSInfluenceOracle.n graph * 2 /\
               forward_path graph Contained 2
                 (instance_of graph [2; 3; 0; 1] r) 0
                 (source_of graph [2; 3; 0; 1] r)).
Proof.
  eexists. split; [vm_compute; reflexivity|].
  apply (@RunPreprocessing_sketches _ _ [2; 3; 0; 1] 3 2).
  - lia.
  - apply Nat.ltb_lt. vm_compute. reflexivity.
  - intros u Hu. change (u < 2) in Hu.
    destruct u as [|[|u]]; [| |lia].
    + exists [1073741825%Z], []. split; [vm_compute; reflexivity|].
      split; repeat constructor.
    + exists [], [2147483648%Z]. split; [vm_compute; reflexivity|].
      split; repeat constructor.
  - intros u a Hu Ha. change (u < 2) in Hu.
    destruct u as [|[|u]]; [| |lia];
      (destruct Ha as [<-|[]]; vm_compute; lia).
  - change (Permutation [2; 3; 0; 1] [0; 1; 2; 3]).
    apply NoDup_Permutation.
    + repeat constructor; simpl; lia.
    + repeat constructor; simpl; lia.
    + intros x. simpl. lia.
  - vm_compute. lia.
Defined.

(** C1 as stated fails: with the permutation [2; 3; 0; 1] of the four
    vertex/instance pairs of the graph with the one arc 0 -> 1, which the
    binary model with seed 3 and probability 1/10 keeps in instance 0
    only, rank 1 has source vertex 1 and belongs to instance 1, where
    vertex 0 has no path to it: the sketch of vertex 0 is [0; 2; 3].  In
    instance [1 / 2 = 0] vertex 0 has a path to vertex 1, so the set of
    the specification holds rank 1, and its three smallest ranks are not
    the sketch. *)
Lemma RunPreprocessing_instance_counterexample :
  exists graph,
    FastStaticGraph.ReadFromArcList true 2 [(0, 1)] true true = Ok graph /\
    let Contained :=
      FastRSInfluenceOracle.Contained_at
        {| Hashing.randomSeed := 3; Hashing.indeg := [];
           Hashing.binprob := 300000 |} Hashing.BINARY in
    backward_arcs_last graph /\ arcs_in_range graph /\
    Permutation [2; 3; 0; 1] (seq 0 (FastRSInfluenceOracle.n graph * 2)) /\
    FastRSInfluenceOracle.RunPreprocessing graph Contained [2; 3; 0; 1] 3 2
    = [[0; 2; 3]; [1; 3]] /\
    covers_by_position graph Contained [2; 3; 0; 1] 2 0 1 /\
    forward_path graph Contained 2 (1 / FastRSInfluenceOracle.n graph) 0
      (source_of graph [2; 3; 0; 1] 1) /\
    ~ bottom_k 3 (covers_by_position graph Contained [2; 3; 0; 1] 2 0)
        (nth 0 (FastRSInfluenceOracle.RunPreprocessing
                  graph Contained [2; 3; 0; 1] 3 2) []).
Proof.
  eexists. split; [vm_compute; reflexivity|].
  set (graph := {| FastStaticGraph.header := _ |}).
  set (Contained := FastRSInfluenceOracle.Contained_at _ _).
  assert (Hrun : FastRSInfluenceOracle.RunPreprocessing graph Contained
                   [2; 3; 0; 1] 3 2 = [[0; 2; 3]; [1; 3]])
    by (vm_compute; reflexivity).
  assert (Hcov : covers_by_position graph Contained [2; 3; 0; 1] 2 0 1).
  { split; [vm_compute; lia|].
    change (reverse_reaches graph Contained 2 0 1 0).
    apply rr_arc with 1; [apply rr_source|].
    split; [|vm_compute; reflexivity].
    exists 2147483648%Z. split; [left; reflexivity|].
    split; vm_compute; reflexivity. }
  assert (Hpath : forward_path graph Contained 2
                    (1 / FastRSInfluenceOracle.n graph) 0
                    (source_of graph [2; 3; 0; 1] 1)).
  { change (forward_path graph Contained 2 0 0 1).
    apply fp_arc with 1; [|apply fp_source].
    split; [|vm_compute; reflexivity].
    exists 1073741825%Z. split; [left; reflexivity|].
    split; vm_compute; reflexivity. }
  cbv zeta.
  split; [|split; [|split; [|split; [exact Hrun|split; [exact Hcov|
    split; [exact Hpath|]]]]]].
  - intros u Hu. change (u < 2) in Hu.
    destruct u as [|[|u]]; [| |lia].
    + exists [1073741825%Z], []. split; [vm_compute; reflexivity|].
      split; repeat constructor.
    + exists [], [2147483648%Z]. split; [vm_compute; reflexivity|].
      split; repeat constructor.
  - intros u a Hu Ha. change (u < 2) in Hu.
    destruct u as [|[|u]]; [| |lia];
      (destruct Ha as [<-|[]]; vm_compute; lia).
  - change (Permutation [2; 3; 0; 1] [0; 1; 2; 3]).
    apply NoDup_Permutation.
    + repeat constructor; simpl; lia.
    + repeat constructor; simpl; lia.
    + intros x. simpl. lia.
  - rewrite Hrun. simpl. intros (_ & _ & _ & M).
    destruct (M 1 Hcov) as [_ Hlt]; [simpl; lia|].
    specialize (Hlt 2). simpl in Hlt. lia.
Qed.

(** The arrangement of the blocks is needed.  In the graph below vertex 0
    holds the backward-flagged record of the arc 1 -> 0 in front of the
    forward-only record of the arc 0 -> 1: the scan of the reverse search
    at vertex 0 starts at the last record and leaves at once.  The source
    of rank 0, vertex 0, reverse-reaches vertex 1, but the sketch of
    vertex 1 does not hold rank 0. *)
Lemma unsorted_block_hides_arc :
  let graph :=
    {| FastStaticGraph.header :=
         {| FastStaticGraph.NumVertices := 2; FastStaticGraph.NumArcs := 4;
            FastStaticGraph.IsDirected := true |};
       FastStaticGraph.vertices := [0; 2; 4];
       FastStaticGraph.arcs :=
         [0x80000001; 0x40000001; 0x40000000; 0x80000000; 2]%Z |} in
  let Contained := fun _ _ _ _ : nat => true in
  arcs_in_range graph /\ arcs_mirrored graph /\ ~ backward_arcs_last graph /\
  FastRSInfluenceOracle.RunPreprocessing graph Contained [0; 1] 2 1
  = [[0; 1]; [1]] /\
  covers graph Contained [0; 1] 1 1 0 /\
  ~ In 0 (nth 1 (FastRSInfluenceOracle.RunPreprocessing
                   graph Contained [0; 1] 2 1) []).
Proof.
  intros graph Contained.
  assert (Hrun : FastRSInfluenceOracle.RunPreprocessing graph Contained [0; 1] 2 1
                 = [[0; 1]; [1]]) by (vm_compute; reflexivity).
  split; [|split; [|split; [|split; [exact Hrun|split]]]].
  - intros u a Hu Ha. change (u < 2) in Hu.
    destruct u as [|[|u]]; [| |lia];
      (destruct Ha as [<-|[<-|[]]]; vm_compute; lia).
  - intros u v Hu Hv. change (u < 2) in Hu. change (v < 2) in Hv.
    unfold incoming_arc, outgoing_arc. split.
    + intros (a & Ha & B & ->).
      destruct u as [|[|u]]; [| |lia].
      * destruct Ha as [<-|[<-|[]]]; [|discriminate B].
        exists 0x40000000%Z. split; [left; reflexivity|].
        split; reflexivity.
      * destruct Ha as [<-|[<-|[]]]; [discriminate B|].
        exists 0x40000001%Z. split; [right; left; reflexivity|].
        split; reflexivity.
    + intros (a & Ha & F & ->).
      destruct v as [|[|v]]; [| |lia].
      * destruct Ha as [<-|[<-|[]]]; [discriminate F|].
        exists 0x80000000%Z. split; [right; left; reflexivity|].
        split; reflexivity.
      * destruct Ha as [<-|[<-|[]]]; [|discriminate F].
        exists 0x80000001%Z. split; [left; reflexivity|].
        split; reflexivity.
  - intros H. destruct (H 0) as (front & back & E & Hf & Hb);
      [vm_compute; lia|].
    change ([0x80000001; 0x40000001]%Z = front ++ back) in E.
    destruct front as [|x front].
    + simpl in E. subst back.
      inversion Hb as [|? ? _ Hb']; subst.
      inversion Hb' as [|? ? B _]; subst. discriminate B.
    + injection E as <- _. inversion Hf as [|? ? B _]; subst. discriminate B.
  - split; [vm_compute; lia|].
    change (reverse_reaches graph Contained 1 0 0 1).
    apply rr_arc with 0; [apply rr_source|].
    split; [|reflexivity].
    exists 0x80000001%Z. split; [left; reflexivity|].
    split; reflexivity.
  - rewrite Hrun. simpl. lia.
Qed.
